(** * Multilayout resolution of keyboard layouts ([layouts.py])

    A shallow embedding of [layouts.py]: label decoding
    ([extract_ml_val_ndx], [extract_row_col]), the discovery and grouping of
    multilayout keys, the resolution of one layout from an explicit selection
    ([get_specific_layout], [get_alternate_layouts]), the synthesis of the
    default layout ([get_layout_all]) and the conversion of a key list into
    layout records ([convert_key_list_to_layout]).

    Python objects are mutable and shared.  Key objects and keyboard objects
    therefore live in a heap and are named by references; the functions that
    write to a key are state transformers over that heap, and an exception
    leaves the heap as it was when it was raised.

    A label is Python text: it is held as the bytes of its UTF-8 encoding,
    and what [str.isnumeric] and [int] know of the characters beyond ASCII is
    a parameter of the development, the class [Python]. *)

From Stdlib Require Import ZArith QArith Qcanon String Ascii List Bool Lia Permutation.
From stdpp Require Import base option list gmap strings.

Open Scope Z_scope.

(** ** Rational coordinates *)

Module Coord.

Definition is_zero (q : Qc) : bool := Qeq_bool q 0%Q.

Definition leb (a b : Qc) : bool := Qle_bool a b.

(** The smaller of two numbers. *)
Definition min2 (a b : Qc) : Qc := if leb a b then a else b.

(** [min] over a non-empty sequence [a :: l]. *)
Definition minimum (a : Qc) (l : list Qc) : Qc := fold_left min2 l a.

Definition of_Z (z : Z) : Qc := Q2Qc (inject_Z z).

End Coord.

(** ** Keys and keyboards *)

Module Key.

(** Modelled from the spec: the class [Key] of [serial.py], which is not
    part of the sources.  A key has a position, a size, a rotation (angle
    and origin), a fixed-length sequence of label strings (empty where
    absent) and a decal flag; positions are rational numbers. *)
Record t : Type := mk {
  x : Qc;
  y : Qc;
  width : Qc;
  height : Qc;
  rotation_angle : Qc;
  rotation_x : Qc;
  rotation_y : Qc;
  labels : list string;
  decal : bool
}.

(** Assignments to the attributes that the layout code writes. *)
Definition set_x (k : t) (v : Qc) : t :=
  mk v (y k) (width k) (height k) (rotation_angle k) (rotation_x k) (rotation_y k)
     (labels k) (decal k).
Definition set_y (k : t) (v : Qc) : t :=
  mk (x k) v (width k) (height k) (rotation_angle k) (rotation_x k) (rotation_y k)
     (labels k) (decal k).
Definition set_rotation_x (k : t) (v : Qc) : t :=
  mk (x k) (y k) (width k) (height k) (rotation_angle k) v (rotation_y k)
     (labels k) (decal k).
Definition set_rotation_y (k : t) (v : Qc) : t :=
  mk (x k) (y k) (width k) (height k) (rotation_angle k) (rotation_x k) v
     (labels k) (decal k).

End Key.

(** A reference to a key object, and a reference to a keyboard object.
    Modelled from the spec: a key is in a list ([k in ml_keys]) when the list
    holds that very object, so membership is equality of references. *)
Abbreviation ref := nat (only parsing).
Abbreviation kref := nat (only parsing).

(** Modelled from the spec: the class [Keyboard] of [serial.py] owns an
    ordered key collection.  The heap holds the key objects and, for every
    keyboard object, the list of the keys it owns (by reference, so that one
    key object can be reached from several lists). *)
Record heap : Type := mkHeap {
  key_objs : list Key.t;
  kbd_objs : list (list ref)
}.

(** ** Exceptions *)

(** The four failures of the spec are raised as [Exception] with distinct
    messages; [IndexError], [KeyError] and [ValueError] are the ones Python
    raises by itself on a missing label slot, on a missing dict entry, and on
    [min] or [max] of an empty sequence and [int] of a string that writes no
    number.  [DanglingReference] has no counterpart in Python:
    it is what the model answers to a reference that names no object. *)
Inductive error : Type :=
  | MalformedMultilayoutLabel
  | MalformedMatrixLabel
  | SelectionArityMismatch
  | SelectionIndexOutOfRange
  | IndexError
  | KeyError
  | ValueError
  | DanglingReference.

Inductive result (A : Type) : Type :=
  | Ok (a : A)
  | Err (e : error).
Arguments Ok {A} a.
Arguments Err {A} e.

(** Code that only reads the heap. *)
Definition rbind {A B} (r : result A) (f : A -> result B) : result B :=
  match r with Ok a => f a | Err e => Err e end.

(** Code that may write to the heap: the heap is threaded through, also past
    an exception. *)
Definition M (A : Type) : Type := heap -> result A * heap.

Definition ret {A} (a : A) : M A := fun h => (Ok a, h).
Definition raise {A} (e : error) : M A := fun h => (Err e, h).
Definition bind {A B} (m : M A) (f : A -> M B) : M B :=
  fun h => match m h with
           | (Ok a, h') => f a h'
           | (Err e, h') => (Err e, h')
           end.
Definition reading {A} (f : heap -> result A) : M A := fun h => (f h, h).
Definition lift {A} (r : result A) : M A := fun h => (r, h).

Declare Scope py_scope.
Delimit Scope py_scope with py.
Notation "x <- m ;; k" := (bind m (fun x => k))
  (at level 100, m at next level, right associativity) : py_scope.
Notation "x <~ r ;; k" := (rbind r (fun x => k))
  (at level 100, r at next level, right associativity) : py_scope.
Open Scope py_scope.

(** [for b in l: a = f(a, b)], over code that only reads. *)
Fixpoint rfold {A B} (f : A -> B -> result A) (l : list B) (a : A) : result A :=
  match l with
  | [] => Ok a
  | b :: l' => a' <~ f a b ;; rfold f l' a'
  end.

(** [for b in l: a = f(a, b)], over code that may write. *)
Fixpoint mfold {A B} (f : A -> B -> M A) (l : list B) (a : A) : M A :=
  match l with
  | [] => ret a
  | b :: l' => a' <- f a b ;; mfold f l' a'
  end.

(** [enumerate(l)] *)
Definition enumerate {A} (l : list A) : list (Z * A) := imap (fun i a => (Z.of_nat i, a)) l.

(** ** Heap access *)

Definition get_key (h : heap) (r : ref) : result Key.t :=
  match key_objs h !! r with
  | Some k => Ok k
  | None => Err DanglingReference
  end.

Definition write_key (h : heap) (r : ref) (k : Key.t) : heap :=
  mkHeap (<[r := k]> (key_objs h)) (kbd_objs h).

Definition put_key (r : ref) (k : Key.t) : M unit :=
  fun h => (Ok tt, write_key h r k).

Definition kbd_keys (h : heap) (kb : kref) : result (list ref) :=
  match kbd_objs h !! kb with
  | Some ks => Ok ks
  | None => Err DanglingReference
  end.

(** [key.labels[i]] *)
Definition label (k : Key.t) (i : nat) : result string :=
  match Key.labels k !! i with
  | Some s => Ok s
  | None => Err IndexError
  end.

(** ** Text *)

(** A Python string is held as the bytes of its UTF-8 encoding: two strings
    are equal when their bytes are, and the empty string has none.
    [code_points] gives back the characters.  The encoding of a Python string
    is always well formed; a byte that opens no sequence is kept as a
    character of its own. *)
Fixpoint utf8_decode (l : list N) : list N :=
  match l with
  | [] => []
  | b :: l1 =>
      if (b <? 192)%N then b :: utf8_decode l1
      else
        match l1 with
        | [] => [b]
        | c1 :: l2 =>
            if (b <? 224)%N then
              (N.land b 31 * 64 + N.land c1 63)%N :: utf8_decode l2
            else
              match l2 with
              | [] => [b; c1]
              | c2 :: l3 =>
                  if (b <? 240)%N then
                    ((N.land b 15 * 64 + N.land c1 63) * 64 + N.land c2 63)%N
                      :: utf8_decode l3
                  else
                    match l3 with
                    | [] => [b; c1; c2]
                    | c3 :: l4 =>
                        (((N.land b 7 * 64 + N.land c1 63) * 64 + N.land c2 63) * 64
                         + N.land c3 63)%N :: utf8_decode l4
                    end
              end
        end
  end.

Definition code_points (s : string) : list N :=
  utf8_decode (N_of_ascii <$> list_ascii_of_string s).

(** What [str.isnumeric] and [int] take from the interpreter and not from
    [layouts.py]: the Unicode character database, asked only about characters
    beyond ASCII, and the longest digit string that [int] converts
    ([sys.get_int_max_str_digits()], 0 when there is no limit).  [numeric c]
    says that the character has a numeric type (decimal, digit or numeric),
    [decimal c] is the digit of a character of decimal type.  Everything
    below is defined, and holds, for every such interpreter. *)
Class Python : Type := {
  numeric : N -> bool;
  decimal : N -> option N;
  int_max_str_digits : nat
}.

Section Program.

Context {python : Python}.

(** ** LabelExtractor *)

(** The ASCII characters of numeric type are the digits ['0'] to ['9']. *)
Definition is_digit (c : N) : bool := (48 <=? c)%N && (c <=? 57)%N.

Definition char_isnumeric (c : N) : bool :=
  if (c <? 128)%N then is_digit c else numeric c.

Definition char_decimal (c : N) : option N :=
  if (c <? 128)%N then (if is_digit c then Some (c - 48)%N else None) else decimal c.

(** [str.isnumeric]: at least one character, and every character of numeric
    type.  Besides the ASCII digits this holds of the digits of other scripts
    and of characters such as ['²'] and ['½']. *)
Definition isnumeric (s : string) : bool :=
  match s with
  | EmptyString => false
  | _ => forallb char_isnumeric (code_points s)
  end.

(** The number that a string of decimal characters writes in base ten, after
    the digits [acc]. *)
Fixpoint decimal_value (cs : list N) (acc : Z) : option Z :=
  match cs with
  | [] => Some acc
  | c :: cs' =>
      match char_decimal c with
      | Some d => decimal_value cs' (10 * acc + Z.of_N d)
      | None => None
      end
  end.

(** More digits than [int] converts.  CPython looks at its limit only for
    strings of more than 640 digits. *)
Definition too_long (cs : list N) : bool :=
  (640 <? length cs)%nat && (0 <? int_max_str_digits)%nat
  && (int_max_str_digits <? length cs)%nat.

(** [int(s)] for a string that passed [isnumeric], the only strings
    [layouts.py] hands to [int]: no sign, blank or underscore is left to
    handle.  The digits of every script are read; a numeric character that is
    no decimal digit, such as ['²'], makes [int] raise [ValueError]. *)
Definition int (s : string) : result Z :=
  let cs := code_points s in
  if too_long cs then Err ValueError
  else
    match decimal_value cs 0 with
    | Some z => Ok z
    | None => Err ValueError
    end.

(** Truth value of a string: non-empty. *)
Definition truthy_str (s : string) : bool :=
  match s with EmptyString => false | _ => true end.

Definition extract_ml_val_ndx_at (key : Key.t) (ml_val_lbl_ndx ml_ndx_lbl_ndx : nat)
  : result (Z * Z) :=
  val_lbl <~ label key ml_val_lbl_ndx ;;
  ndx_lbl <~ label key ml_ndx_lbl_ndx ;;
  if negb (isnumeric val_lbl && isnumeric ndx_lbl) then
    Err MalformedMultilayoutLabel
  else
    val <~ int val_lbl ;;
    ndx <~ int ndx_lbl ;;
    Ok (val, ndx).

Definition extract_ml_val_ndx (key : Key.t) : result (Z * Z) :=
  extract_ml_val_ndx_at key 3 5.

Definition extract_row_col_at (key : Key.t) (row_lbl_ndx col_lbl_ndx : nat)
  : result (Z * Z) :=
  row_lbl <~ label key row_lbl_ndx ;;
  col_lbl <~ label key col_lbl_ndx ;;
  if negb (isnumeric row_lbl && isnumeric col_lbl) then
    Err MalformedMatrixLabel
  else
    row <~ int row_lbl ;;
    col <~ int col_lbl ;;
    Ok (row, col).

Definition extract_row_col (key : Key.t) : result (Z * Z) :=
  extract_row_col_at key 9 11.

(** [key.labels[4] == 'e'] *)
Definition is_encoder (key : Key.t) : result bool :=
  l4 <~ label key 4 ;; Ok (bool_decide (l4 = "e"%string)).

(** ** MultilayoutGrouper *)

(** [get_multilayout_keys]: a key qualifies when label 3 or label 5 is
    non-empty; its labels are then decoded, only to test them. *)
Definition get_multilayout_keys (h : heap) (kb : kref) : result (list ref) :=
  ks <~ kbd_keys h kb ;;
  rfold (fun keys r =>
           key <~ get_key h r ;;
           l3 <~ label key 3 ;;
           c <~ (if truthy_str l3 then Ok true
                 else l5 <~ label key 5 ;; Ok (truthy_str l5)) ;;
           if c : bool then
             _ <~ extract_ml_val_ndx key ;;
             Ok (keys ++ [r])
           else Ok keys)
        ks [].

(** One entry of [ml_dict]: a Python dict that maps each multilayout value
    (an [int]) to its list of keys and that, under the string keys
    ["offsets"] and ["max"], also holds the offset cache and the value chosen
    by [get_layout_all]. *)
Record group : Type := mkGroup {
  buckets : gmap Z (list ref);
  g_offsets : option (gmap Z (Qc * Qc));
  g_max : option Z
}.

Definition empty_group : group := mkGroup ∅ None None.

Definition set_bucket (g : group) (v : Z) (l : list ref) : group :=
  mkGroup (<[v := l]> (buckets g)) (g_offsets g) (g_max g).
Definition set_offsets (g : group) (o : gmap Z (Qc * Qc)) : group :=
  mkGroup (buckets g) (Some o) (g_max g).
Definition set_max (g : group) (v : Z) : group :=
  mkGroup (buckets g) (g_offsets g) (Some v).

(** [len(ml_dict[ndx])]: every entry of the inner dict counts. *)
Definition group_len (g : group) : nat :=
  (size (buckets g)
   + match g_offsets g with Some _ => 1 | None => 0 end
   + match g_max g with Some _ => 1 | None => 0 end)%nat.

(** [ml_dict[ndx]] and [ml_dict[ndx][val]] *)
Definition group_at (d : gmap Z group) (ndx : Z) : result group :=
  match d !! ndx with Some g => Ok g | None => Err KeyError end.
Definition bucket_at (g : group) (val : Z) : result (list ref) :=
  match buckets g !! val with Some l => Ok l | None => Err KeyError end.

(** [not ml_dict.get(ndx)]: absent, or an empty dict. *)
Definition no_group (d : gmap Z group) (ndx : Z) : bool :=
  match d !! ndx with
  | Some g => (group_len g =? 0)%nat
  | None => true
  end.

(** [not ml_dict[ndx].get(val)]: absent, or an empty list. *)
Definition no_bucket (g : group) (val : Z) : bool :=
  match buckets g !! val with
  | Some [] => true
  | Some _ => false
  | None => true
  end.

(** The body of the loop that fills [ml_dict]. *)
Definition group_key (h : heap) (ml_dict : gmap Z group) (r : ref) : result (gmap Z group) :=
  key <~ get_key h r ;;
  e <~ is_encoder key ;;
  if e : bool then Ok ml_dict
  else
    p <~ extract_ml_val_ndx key ;;
    let ml_ndx := p.1 in
    let ml_val := p.2 in
    let ml_dict :=
      if no_group ml_dict ml_ndx then <[ml_ndx := empty_group]> ml_dict else ml_dict in
    g <~ group_at ml_dict ml_ndx ;;
    let g := if no_bucket g ml_val then set_bucket g ml_val [] else g in
    b <~ bucket_at g ml_val ;;
    let g := if bool_decide (r ∈ b) then g else set_bucket g ml_val (b ++ [r]) in
    Ok (<[ml_ndx := g]> ml_dict).

(** [for key in [k for k in kbd.keys if k in ml_keys]: ...] *)
Definition ml_keys_in_order (ks ml_keys : list ref) : list ref :=
  filter (fun k => k ∈ ml_keys) ks.

Definition group_keys (h : heap) (ks ml_keys : list ref) : result (gmap Z group) :=
  rfold (group_key h) (ml_keys_in_order ks ml_keys) ∅.

(** The keys that are not multilayout keys, without the encoder keys. *)
Definition plain_keys (h : heap) (ks ml_keys : list ref) : result (list ref) :=
  rfold (fun qmk_keys r =>
           key <~ get_key h r ;;
           e <~ is_encoder key ;;
           if e : bool then Ok qmk_keys else Ok (qmk_keys ++ [r]))
        (filter (fun k => k ∉ ml_keys) ks) [].

(** ** OffsetEngine *)

Definition get_keys (h : heap) (keys : list ref) : result (list Key.t) :=
  rfold (fun acc r => key <~ get_key h r ;; Ok (acc ++ [key])) keys [].

(** Modelled from the spec: [min_x_y] of [util.py], which is not part of the
    sources: the componentwise minimum of x and of y over a key list.  The
    spec does not say what an empty list gives; the model lets it fail as
    [min] of an empty sequence does. *)
Definition min_x_y (h : heap) (keys : list ref) : result (Qc * Qc) :=
  ks <~ get_keys h keys ;;
  match ks with
  | [] => Err ValueError
  | k :: ks' => Ok (Coord.minimum (Key.x k) (map Key.x ks'),
                    Coord.minimum (Key.y k) (map Key.y ks'))
  end.

(** The offset of value [val] in group [ndx], taken from the cache or
    computed and cached. *)
Definition offset_for (h : heap) (ml_dict : gmap Z group) (ndx val : Z)
  : result (gmap Z group * (Qc * Qc)) :=
  g <~ group_at ml_dict ndx ;;
  let offs := match g_offsets g with
              | Some o => if (size o =? 0)%nat then ∅ else o
              | None => ∅
              end in
  let g := set_offsets g offs in
  match offs !! val with
  | None =>
      b0 <~ bucket_at g 0 ;;
      m0 <~ min_x_y h b0 ;;
      bv <~ bucket_at g val ;;
      mv <~ min_x_y h bv ;;
      let ml_x_offset := (m0.1 - mv.1)%Qc in
      let ml_y_offset := (m0.2 - mv.2)%Qc in
      Ok (<[ndx := set_offsets g (<[val := (ml_x_offset, ml_y_offset)]> offs)]> ml_dict,
          (ml_x_offset, ml_y_offset))
  | Some off => Ok (<[ndx := g]> ml_dict, off)
  end.

(** The four assignments that move a key. *)
Definition shift_key (key : Key.t) (off : Qc * Qc) : Key.t :=
  let key := Key.set_x key (Key.x key + off.1)%Qc in
  let key := Key.set_y key (Key.y key + off.2)%Qc in
  if Coord.is_zero (Key.rotation_angle key) then key
  else
    let key := Key.set_rotation_x key (Key.rotation_x key - off.1)%Qc in
    Key.set_rotation_y key (Key.rotation_y key - off.2)%Qc.

Definition apply_offset (r : ref) (off : Qc * Qc) : M unit :=
  key <- reading (fun h => get_key h r) ;;
  put_key r (shift_key key off).

(** The body of both offset loops: move the key when its value is not the
    default one, then append it to the output. *)
Definition place_key (ndx val : Z) (st : gmap Z group * list ref) (r : ref)
  : M (gmap Z group * list ref) :=
  if 0 <? val then
    p <- reading (fun h => offset_for h st.1 ndx val) ;;
    _ <- apply_offset r p.2 ;;
    ret (p.1, st.2 ++ [r])
  else ret (st.1, st.2 ++ [r]).

(** ** LayoutNormalizer *)

Definition rebase_key (key : Key.t) (off : Qc * Qc) : Key.t :=
  let key := Key.set_x key (Key.x key - off.1)%Qc in
  Key.set_y key (Key.y key - off.2)%Qc.

Definition normalize (qmk_keys : list ref) : M unit :=
  off <- reading (fun h => min_x_y h qmk_keys) ;;
  mfold (fun _ r =>
           key <- reading (fun h => get_key h r) ;;
           put_key r (rebase_key key off))
        qmk_keys tt.

(** ** LayoutSelector *)

(** The body of the loop that checks every selected index against
    [len(ml_dict[option_idx])]. *)
Definition check_selected (ml_dict : gmap Z group) (_ : unit) (p : Z * Z) : result unit :=
  let option_idx := p.1 in
  let selected_idx := p.2 in
  g <~ group_at ml_dict option_idx ;;
  if Z.of_nat (group_len g) <=? selected_idx then Err SelectionIndexOutOfRange
  else Ok tt.

Definition validate (ml_dict : gmap Z group) (layout_idx : list Z) : result unit :=
  rfold (check_selected ml_dict) (enumerate layout_idx) tt.

(** The body of the loop that adds each selected key to the layout. *)
Definition select_option (st : gmap Z group * list ref) (p : Z * Z)
  : M (gmap Z group * list ref) :=
  let option_idx := p.1 in
  let selected_idx := p.2 in
  g <- lift (group_at st.1 option_idx) ;;
  selected_keys <- lift (bucket_at g selected_idx) ;;
  mfold (place_key option_idx selected_idx) selected_keys st.

(** ** DefaultLayoutSynthesizer *)

(** [[len(ml_dict[ndx][i]) for i in ml_dict[ndx].keys() if isinstance(i, int)]] *)
Definition ml_val_lengths (g : group) : list nat :=
  (fun p => length p.2) <$> map_to_list (buckets g).

(** [max(l)] *)
Definition py_max (l : list nat) : result nat :=
  match l with
  | [] => Err ValueError
  | _ => Ok (max_list l)
  end.

(** [not ml_dict[ndx].get("max")]: absent, or zero. *)
Definition no_max (g : group) : bool :=
  match g_max g with
  | Some v => v =? 0
  | None => true
  end.

Definition max_at (g : group) : result Z :=
  match g_max g with Some v => Ok v | None => Err KeyError end.

(** The body of the loop that picks the keys of the chosen value. *)
Definition choose_key (st : gmap Z group * list ref) (r : ref)
  : M (gmap Z group * list ref) :=
  key <- reading (fun h => get_key h r) ;;
  p <- lift (extract_ml_val_ndx key) ;;
  let ml_ndx := p.1 in
  let ml_val := p.2 in
  g <- lift (group_at st.1 ml_ndx) ;;
  let ml_val_length_list := ml_val_lengths g in
  max_val_len <- lift (py_max ml_val_length_list) ;;
  b <- lift (bucket_at g ml_val) ;;
  let current_val_len := length b in
  let current_is_max := (max_val_len =? current_val_len)%nat in
  let all_same_length := (length (remove_dups ml_val_length_list) =? 1)%nat in
  match (if no_max g then
           if all_same_length then Some (set_max g 0)
           else if current_is_max then Some (set_max g ml_val)
           else None
         else Some g) with
  | None => ret st
  | Some g =>
      let ml_dict := <[ml_ndx := g]> st.1 in
      m <- lift (max_at g) ;;
      if negb (m =? ml_val) then ret (ml_dict, st.2)
      else place_key ml_ndx ml_val (ml_dict, st.2) r
  end.

(** [[extract_row_col(key) for key in keys]] *)
Definition matrix_of (h : heap) (keys : list ref) : result (list (Z * Z)) :=
  rfold (fun acc r => key <~ get_key h r ;; rc <~ extract_row_col key ;; Ok (acc ++ [rc]))
        keys [].

(** The body of the loop that adds the keys whose matrix position the chosen
    value does not have. *)
Definition reconcile_key (h : heap) (st : gmap Z group * list ref) (r : ref)
  : result (gmap Z group * list ref) :=
  key <~ get_key h r ;;
  p <~ extract_ml_val_ndx key ;;
  let ml_ndx := p.1 in
  g <~ group_at st.1 ml_ndx ;;
  max_val <~ max_at g ;;
  b <~ bucket_at g max_val ;;
  matrix_list <~ matrix_of h b ;;
  rc <~ extract_row_col key ;;
  if bool_decide (rc ∈ matrix_list) then Ok st
  else Ok (<[ml_ndx := set_bucket g max_val (b ++ [r])]> st.1, st.2 ++ [r]).

(** ** Copies *)

Definition alloc_key (k : Key.t) : M ref :=
  fun h => (Ok (length (key_objs h)), mkHeap (key_objs h ++ [k]) (kbd_objs h)).

Definition alloc_kbd (ks : list ref) : M kref :=
  fun h => (Ok (length (kbd_objs h)), mkHeap (key_objs h) (kbd_objs h ++ [ks])).

Definition set_kbd_keys (kb : kref) (ks : list ref) : M unit :=
  fun h => (Ok tt, mkHeap (key_objs h) (<[kb := ks]> (kbd_objs h))).

(** [deepcopy] of a key list: every key object is copied once, and a key
    that occurs twice is copied to one object that occurs twice. *)
Fixpoint copy_keys (memo : gmap ref ref) (ks : list ref) : M (list ref) :=
  match ks with
  | [] => ret []
  | r :: ks' =>
      match memo !! r with
      | Some r' => rs <- copy_keys memo ks' ;; ret (r' :: rs)
      | None =>
          key <- reading (fun h => get_key h r) ;;
          r' <- alloc_key key ;;
          rs <- copy_keys (<[r := r']> memo) ks' ;;
          ret (r' :: rs)
      end
  end.

Definition deepcopy (kb : kref) : M kref :=
  ks <- reading (fun h => kbd_keys h kb) ;;
  ks' <- copy_keys ∅ ks ;;
  alloc_kbd ks'.

(** ** The entry points *)

(** The first half of [get_layout_all], on the copy: the keys are
    partitioned and grouped, and the loop over the multilayout keys picks the
    keys of the chosen value of every group.  The result is the list the
    loops iterate over, [ml_dict] and [qmk_keys]. *)
Definition choose_keys (kbd : kref) : M (list ref * (gmap Z group * list ref)) :=
  ml_keys <- reading (fun h => get_multilayout_keys h kbd) ;;
  ks <- reading (fun h => kbd_keys h kbd) ;;
  qmk_keys <- reading (fun h => plain_keys h ks ml_keys) ;;
  ml_dict <- reading (fun h => group_keys h ks ml_keys) ;;
  st <- mfold choose_key (ml_keys_in_order ks ml_keys) (ml_dict, qmk_keys) ;;
  ret (ml_keys_in_order ks ml_keys, st).

(** The loop that adds the keys whose matrix position the chosen value does
    not have. *)
Definition reconcile (h : heap) (keys : list ref) (st : gmap Z group * list ref)
  : result (gmap Z group * list ref) :=
  rfold (reconcile_key h) keys st.

Section Layouts.

(** [sort_keys] of [serial.py] is not part of the sources: it reorders a
    list of keys in place, by what the key objects hold. *)
Variable sort_keys : list Key.t -> list ref -> list ref.

Definition get_specific_layout (kbd : kref) (layout_idx : list Z) : M (list ref) :=
  ml_keys <- reading (fun h => get_multilayout_keys h kbd) ;;
  ks <- reading (fun h => kbd_keys h kbd) ;;
  qmk_keys <- reading (fun h => plain_keys h ks ml_keys) ;;
  ml_dict <- reading (fun h => group_keys h ks ml_keys) ;;
  if negb (length layout_idx =? size ml_dict)%nat then raise SelectionArityMismatch
  else
    _ <- lift (validate ml_dict layout_idx) ;;
    st <- mfold select_option (enumerate layout_idx) (ml_dict, qmk_keys) ;;
    let qmk_keys := st.2 in
    _ <- normalize qmk_keys ;;
    reading (fun h => Ok (sort_keys (key_objs h) qmk_keys)).

(** [layout_info] is a dict: its items come in insertion order, under
    distinct names. *)
Definition get_alternate_layouts (kbd : kref) (layout_info : list (string * list Z))
  : M (list (string * list ref)) :=
  mfold (fun alt_layouts p =>
           let name := p.1 in
           let choices := p.2 in
           resulting_keys <- get_specific_layout kbd choices ;;
           ret (alt_layouts ++ [(name, resulting_keys)]))
        layout_info [].

(** [kbd.keys = qmk_keys] followed by [sort_keys(kbd.keys)]. *)
Definition set_sorted_keys (kbd : kref) (qmk_keys : list ref) : M unit :=
  _ <- set_kbd_keys kbd qmk_keys ;;
  fun h => set_kbd_keys kbd (sort_keys (key_objs h) qmk_keys) h.

(** The JSON dump of the result into [test.json] writes a file and is left
    out. *)
Definition get_layout_all (kbd : kref) : M kref :=
  kbd <- deepcopy kbd ;;
  p <- choose_keys kbd ;;
  st <- reading (fun h => reconcile h p.1 p.2) ;;
  let qmk_keys := st.2 in
  _ <- normalize qmk_keys ;;
  _ <- set_sorted_keys kbd qmk_keys ;;
  ret kbd.

End Layouts.

(** ** LayoutConverter *)

(** A value of a layout record: a string, an [int], a number that is kept as
    the key holds it, or a list of [int]s. *)
Inductive value : Type :=
  | VStr (s : string)
  | VInt (z : Z)
  | VNum (q : Qc)
  | VList (l : list Z).

(** An [OrderedDict] with string keys: its entries, in insertion order. *)
Definition odict : Type := list (string * value).

(** [k in d] *)
Definition od_has (d : odict) (k : string) : bool :=
  existsb (fun p => String.eqb p.1 k) d.

(** [d[k] = v]: an entry that exists keeps its place, a new one goes last. *)
Definition od_set (d : odict) (k : string) (v : value) : odict :=
  if od_has d k then map (fun p => if String.eqb p.1 k then (p.1, v) else p) d
  else d ++ [(k, v)].

(** [del d[k]] *)
Definition od_del (d : odict) (k : string) : result odict :=
  if od_has d k then Ok (List.filter (fun p => negb (String.eqb p.1 k)) d)
  else Err KeyError.

(** [d.get(k)] *)
Definition od_get (d : odict) (k : string) : option value :=
  snd <$> List.find (fun p => String.eqb p.1 k) d.

(** [int(q)]: the integer part, rounded towards zero. *)
Definition trunc (q : Qc) : Z := Z.quot (Qnum q) (Z.pos (Qden q)).

(** [int(q) if int(q) == q else q] *)
Definition int_if_whole (q : Qc) : value :=
  if Qc_eq_bool (Coord.of_Z (trunc q)) q then VInt (trunc q) else VNum q.

(** The body of the loop of [convert_key_list_to_layout], for a key that is
    not a decal. *)
Definition convert_key (key : Key.t) : result odict :=
  let qmk_key : odict :=
    [("label"%string, VStr ""%string);
     ("x"%string, int_if_whole (Key.x key));
     ("y"%string, int_if_whole (Key.y key))] in
  let qmk_key :=
    if negb (Qc_eq_bool (Key.width key) 1) then od_set qmk_key "w" (VNum (Key.width key))
    else qmk_key in
  let qmk_key :=
    if negb (Qc_eq_bool (Key.height key) 1) then od_set qmk_key "h" (VNum (Key.height key))
    else qmk_key in
  l9 <~ label key 9 ;;
  c <~ (if isnumeric l9 then l11 <~ label key 11 ;; Ok (isnumeric l11) else Ok false) ;;
  qmk_key <~ (if c : bool then
                p <~ extract_row_col key ;;
                let row := p.1 in
                let col := p.2 in
                Ok (od_set qmk_key "matrix" (VList [row; col]))
              else Ok qmk_key) ;;
  l0 <~ label key 0 ;;
  if truthy_str l0 then Ok (od_set qmk_key "label" (VStr l0))
  else od_del qmk_key "label".

Definition convert_key_list_to_layout (h : heap) (keys : list ref) : result (list odict) :=
  rfold (fun qmk_layout r =>
           key <~ get_key h r ;;
           if Key.decal key then Ok qmk_layout
           else qmk_key <~ convert_key key ;; Ok (qmk_layout ++ [qmk_key]))
        keys [].

End Program.

(** ** The examples *)

(** The interpreter of the examples.  Of the characters beyond ASCII it knows
    the Arabic-Indic digits (U+0660 to U+0669), the superscripts ['²'], ['³']
    and ['¹'] and the fractions ['¼'], ['½'] and ['¾']; [int] converts up to
    4300 digits, as CPython does by default. *)
#[global] Instance example_python : Python | 100 := {|
  numeric c :=
    ((1632 <=? c)%N && (c <=? 1641)%N)
    || bool_decide (c ∈ [178; 179; 185; 188; 189; 190]%N);
  decimal c :=
    if ((1632 <=? c)%N && (c <=? 1641)%N) then Some (c - 1632)%N else None;
  int_max_str_digits := 4300
|}.

Module Examples.

(** The twelve label slots of a key, with slots 3, 4, 5, 9 and 11 given. *)
Definition slots (l3 l4 l5 l9 l11 : string) : list string :=
  [""; ""; ""; l3; l4; l5; ""; ""; ""; l9; ""; l11]%string.

(** An unrotated 1u key. *)
Definition key_at (x y : Z) (ls : list string) : Key.t :=
  Key.mk (Coord.of_Z x) (Coord.of_Z y) (Coord.of_Z 1) (Coord.of_Z 1)
         (Coord.of_Z 0) (Coord.of_Z 0) (Coord.of_Z 0) ls false.

(** A heap with one keyboard that owns every key of [ks], in order. *)
Definition board (ks : list Key.t) : heap :=
  mkHeap ks [seq 0 (length ks)].

(** What a key reference shows: the position and the labels of the key. *)
Definition shown (h : heap) (r : ref) : option (Q * Q * list string) :=
  (fun k => (this (Key.x k), this (Key.y k), Key.labels k)) <$> key_objs h !! r.

(** What a list of key references shows. *)
Definition view (h : heap) (l : list ref) : list (option (Q * Q * list string)) :=
  shown h <$> l.

(** A sort that leaves the list as it is. *)
Definition unsorted (_ : list Key.t) (l : list ref) : list ref := l.

End Examples.

(** * What the passes are expected to do *)

Section Notions.

Context {python : Python}.

(** ** What the grouper is expected to build *)

(** The keys kept under value [val] of group [ndx], none when there is no
    such entry. *)
Definition bucket_of (d : gmap Z group) (ndx val : Z) : list ref :=
  match d !! ndx with
  | Some g => default [] (buckets g !! val)
  | None => []
  end.

(** A list without repetition, in the order of first occurrence. *)
Definition add_once (b : list ref) (r : ref) : list ref :=
  if bool_decide (r ∈ b) then b else b ++ [r].

Definition first_seen (l : list ref) : list ref := fold_left add_once l [].

(** Key [r] is a key the grouper keeps, and its labels place it under value
    [val] of group [ndx]. *)
Definition lands_in (h : heap) (ndx val : Z) (r : ref) : bool :=
  match get_key h r with
  | Ok key =>
      match is_encoder key, extract_ml_val_ndx key with
      | Ok false, Ok p => bool_decide (p.1 = ndx ∧ p.2 = val)
      | _, _ => false
      end
  | Err _ => false
  end.

(** An entry of [ml_dict] right after grouping: no cache, no chosen value, no
    empty list of keys, and at least one value. *)
Definition fresh_group (g : group) : Prop :=
  g_offsets g = None /\ g_max g = None /\ buckets g <> ∅ /\
  forall v b, buckets g !! v = Some b -> b <> [].

(** ** Which exceptions a piece of code can raise *)

Definition fails_only {A} (P : error -> Prop) (r : result A) : Prop :=
  forall e, r = Err e -> P e.

Definition raises_only {A} (P : error -> Prop) (m : M A) : Prop :=
  forall h e h', m h = (Err e, h') -> P e.

(** The exceptions of the passes that follow the validation of the selection. *)
Definition lookup_error (e : error) : Prop :=
  e = KeyError \/ e = ValueError \/ e = DanglingReference.

(** ** What the validation of a selection is expected to check *)

(** The groups are numbered 0, 1, ..., one after the other. *)
Definition consecutive_groups (d : gmap Z group) : Prop :=
  forall n, is_Some (d !! n) <-> 0 <= n < Z.of_nat (size d).

(** Some selected index is not below the number of values of its group. *)
Definition index_out_of_range (d : gmap Z group) (layout_idx : list Z) : Prop :=
  exists (n : nat) (selected_idx : Z) (g : group),
    layout_idx !! n = Some selected_idx /\ d !! Z.of_nat n = Some g /\
    Z.of_nat (size (buckets g)) <= selected_idx.

(** ** What the offset loop is expected to do *)

(** The offset of value [val] in group [ndx] is in the cache. *)
Definition cached (d : gmap Z group) (ndx val : Z) (off : Qc * Qc) : Prop :=
  exists g o, d !! ndx = Some g /\ g_offsets g = Some o /\ o !! val = Some off.

(** Every key of [b] is, in [h'], the key it was in [h] moved by [off]. *)
Definition shifted_by (h h' : heap) (b : list ref) (off : Qc * Qc) : Prop :=
  forall r, r ∈ b ->
    exists key, get_key h r = Ok key /\ get_key h' r = Ok (shift_key key off).

(** Two dicts hold the same lists of keys. *)
Definition same_buckets (d d' : gmap Z group) : Prop :=
  forall n, buckets <$> d' !! n = buckets <$> d !! n.

(** The keys under value [v] of group [n] have been moved by the offset of
    that value, computed on the heap [h0] the loop started from, and the
    offset is in the cache. *)
Definition moved (d0 : gmap Z group) (h0 : heap) (d : gmap Z group) (h : heap) (n v : Z) : Prop :=
  exists m0 mv,
    min_x_y h0 (bucket_of d0 n 0) = Ok m0 /\ min_x_y h0 (bucket_of d0 n v) = Ok mv /\
    shifted_by h0 h (bucket_of d0 n v) ((m0.1 - mv.1)%Qc, (m0.2 - mv.2)%Qc) /\
    cached d n v ((m0.1 - mv.1)%Qc, (m0.2 - mv.2)%Qc).

(** The state of the selection loop once the first [k] entries of the
    selection are done. *)
Definition selected_upto (d0 : gmap Z group) (h0 : heap) (layout_idx : list Z)
    (k : nat) (d : gmap Z group) (h : heap) : Prop :=
  same_buckets d0 d
  /\ (forall (n : nat) g, (k <= n)%nat -> d !! Z.of_nat n = Some g -> g_offsets g = None)
  /\ (forall r,
        (forall (j : nat) v, (j < k)%nat -> layout_idx !! j = Some v -> 0 < v ->
                             r ∉ bucket_of d0 (Z.of_nat j) v) ->
        key_objs h !! r = key_objs h0 !! r)
  /\ (forall (j : nat) v, (j < k)%nat -> layout_idx !! j = Some v -> 0 < v ->
        moved d0 h0 d h (Z.of_nat j) v).

(** ** What the reconciliation pass is expected to add *)

(** The group of a multilayout key, as the loops read it, and its matrix
    position. *)
Definition group_of (h : heap) (r : ref) : result Z :=
  key <~ get_key h r ;; p <~ extract_ml_val_ndx key ;; Ok p.1.

Definition coord_of (h : heap) (r : ref) : result (Z * Z) :=
  key <~ get_key h r ;; extract_row_col key.

(** The matrix positions of the keys of the chosen value of group [n]. *)
Definition chosen_matrix (h : heap) (d : gmap Z group) (n : Z) : result (list (Z * Z)) :=
  g <~ group_at d n ;; max_val <~ max_at g ;; b <~ bucket_at g max_val ;; matrix_of h b.

(** Key [r'] is in group [n] at matrix position [rc]. *)
Definition same_place (h : heap) (n : Z) (rc : Z * Z) (r' : ref) : bool :=
  match group_of h r', coord_of h r' with
  | Ok n', Ok rc' => bool_decide (n' = n /\ rc' = rc)
  | _, _ => false
  end.

(** The matrix position of key [r] is absent from the positions of the
    chosen value of its group, as [d0] has them, and no key met earlier is
    in the same group at the same position. *)
Definition is_missing_first (h : heap) (d0 : gmap Z group) (earlier : list ref) (r : ref) : bool :=
  match group_of h r, coord_of h r with
  | Ok n, Ok rc =>
      match chosen_matrix h d0 n with
      | Ok m => bool_decide (rc ∉ m) && forallb (fun r' => negb (same_place h n rc r')) earlier
      | Err _ => false
      end
  | _, _ => false
  end.

(** The keys of [keys] that are the first at a missing position, in order. *)
Fixpoint missing_firsts (h : heap) (d0 : gmap Z group) (earlier keys : list ref) : list ref :=
  match keys with
  | [] => []
  | r :: keys' =>
      (if is_missing_first h d0 earlier r then [r] else [])
      ++ missing_firsts h d0 (earlier ++ [r]) keys'
  end.

(** The chosen values of [d] are those of [d0], and the matrix positions of
    each are those [d0] has together with those of the keys met so far. *)
Definition reconciled_upto (h : heap) (d0 : gmap Z group) (earlier : list ref)
    (d : gmap Z group) : Prop :=
  forall n m, chosen_matrix h d n = Ok m ->
    exists m0, chosen_matrix h d0 n = Ok m0 /\
      forall rc, rc ∈ m <-> rc ∈ m0 \/ exists r', r' ∈ earlier /\ same_place h n rc r' = true.

(** ** What a call leaves untouched *)

(** The first [n] key objects and the first [m] keyboard objects of [h] are
    the same in [h'], and no object is gone. *)
Definition keeps (n m : nat) (h h' : heap) : Prop :=
  take n (key_objs h') = take n (key_objs h) /\
  take m (kbd_objs h') = take m (kbd_objs h) /\
  (length (key_objs h) <= length (key_objs h'))%nat /\
  (length (kbd_objs h) <= length (kbd_objs h'))%nat.

(** ** What the matrix labels are needed for *)

(** The test of [get_multilayout_keys]: label 3 or label 5 is non-empty. *)
Definition qualifies (h : heap) (r : ref) : bool :=
  match get_key h r with
  | Ok key =>
      match label key 3 with
      | Ok l3 =>
          truthy_str l3 ||
          match label key 5 with Ok l5 => truthy_str l5 | Err _ => false end
      | Err _ => false
      end
  | Err _ => false
  end.

(** Both heaps hold the same labels under every reference. *)
Definition same_labels (h h' : heap) : Prop :=
  forall r, Key.labels <$> key_objs h' !! r = Key.labels <$> key_objs h !! r.

(** Every exception but MalformedMatrixLabel. *)
Definition not_matrix_error (e : error) : Prop := e <> MalformedMatrixLabel.

(** The two exceptions of [extract_row_col] on a key that has its label
    slots: the labels are not both numeric, or [int] cannot convert one. *)
Definition decoding_error (e : error) : Prop :=
  e = MalformedMatrixLabel \/ e = ValueError.

(** The reconciliation loop can run on [d]: every key of [keys] is a key
    object with readable multilayout labels whose matrix labels, when they
    cannot be decoded, raise an exception in [P]; its group has a chosen
    value, and the keys of that value are among [keys]. *)
Definition reconcilable (P : error -> Prop) (h : heap) (keys : list ref) (d : gmap Z group)
  : Prop :=
  forall r, r ∈ keys ->
    exists key n g w b,
      get_key h r = Ok key /\ (forall e, extract_row_col key = Err e -> P e) /\
      group_of h r = Ok n /\ d !! n = Some g /\ g_max g = Some w /\
      buckets g !! w = Some b /\ forall r', r' ∈ b -> r' ∈ keys.

(** ** What a layout record is expected to hold *)

(** The number a value of a record stands for. *)
Definition number_of (v : value) : option Qc :=
  match v with
  | VInt z => Some (Coord.of_Z z)
  | VNum q => Some q
  | _ => None
  end.

(** The label slots that the conversion of a key reads are there: slot 9,
    and slot 11 when slot 9 holds a number. *)
Definition convertible (key : Key.t) : bool :=
  match Key.labels key !! 9%nat with
  | Some l9 => if isnumeric l9 then bool_decide (12 <= length (Key.labels key))%nat else true
  | None => false
  end.

(** [int] converts the string. *)
Definition converts (s : string) : bool :=
  match int s with Ok _ => true | Err _ => false end.

(** The matrix labels of the key, when both are there and numeric, are
    strings that [int] converts. *)
Definition decodable (key : Key.t) : bool :=
  match Key.labels key !! 9%nat, Key.labels key !! 11%nat with
  | Some l9, Some l11 =>
      if isnumeric l9 && isnumeric l11 then converts l9 && converts l11 else true
  | _, _ => true
  end.

(** The record of a key, entry by entry. *)
Definition record_of (key : Key.t) : odict :=
  match Key.labels key !! 0%nat with
  | Some l0 => if truthy_str l0 then [("label"%string, VStr l0)] else []
  | None => []
  end
  ++ [("x"%string, int_if_whole (Key.x key)); ("y"%string, int_if_whole (Key.y key))]
  ++ (if Qc_eq_bool (Key.width key) 1 then [] else [("w"%string, VNum (Key.width key))])
  ++ (if Qc_eq_bool (Key.height key) 1 then [] else [("h"%string, VNum (Key.height key))])
  ++ match extract_row_col key with
     | Ok p => [("matrix"%string, VList [p.1; p.2])]
     | Err _ => []
     end.

(** The keys of a list that are not decals, as the heap holds them. *)
Definition visible_keys (h : heap) (keys : list ref) : list Key.t :=
  List.filter (fun key => negb (Key.decal key)) (omap (fun r => key_objs h !! r) keys).

(** ** What the discovery of the multilayout keys is expected to decide *)

(** Label 3 or label 5 of the key is not empty, but the two are not both
    numeric. *)
Definition ill_labelled (h : heap) (r : ref) : bool :=
  qualifies h r &&
  match get_key h r with
  | Ok key =>
      match label key 3, label key 5 with
      | Ok l3, Ok l5 => negb (isnumeric l3 && isnumeric l5)
      | _, _ => false
      end
  | Err _ => false
  end.

(** Labels 3 and 5 of the key are numeric, but they are not both strings
    that [int] converts. *)
Definition unconverted (h : heap) (r : ref) : bool :=
  match get_key h r with
  | Ok key =>
      match label key 3, label key 5 with
      | Ok l3, Ok l5 => isnumeric l3 && isnumeric l5 && negb (converts l3 && converts l5)
      | _, _ => false
      end
  | Err _ => false
  end.

(** The key does not carry the encoder marker. *)
Definition not_encoder (h : heap) (r : ref) : bool :=
  match get_key h r with
  | Ok key => match is_encoder key with Ok false => true | _ => false end
  | Err _ => false
  end.

(** The key belongs to the layout of a selection: it has no multilayout
    labels and no encoder marker, or it has no encoder marker, its label 3
    reads the position [i] of an entry of the selection and its label 5
    reads the value selected there. *)
Definition in_layout (h : heap) (layout_idx : list Z) (r : ref) : Prop :=
  (qualifies h r = false /\ not_encoder h r = true) \/
  exists (i : nat) v, layout_idx !! i = Some v /\ lands_in h (Z.of_nat i) v r = true.

(** ** What the alignment against the top left is expected to do *)

(** How often a list names a key. *)
Definition times_listed (r : ref) (q : list ref) : nat :=
  length (filter (fun r' => r' = r) q).

(** ** What the resolution of a selection leaves as it is *)

(** Key [k'] is key [k], at most with another position and another rotation
    origin. *)
Definition same_shape (k k' : Key.t) : Prop :=
  Key.width k' = Key.width k /\ Key.height k' = Key.height k /\
  Key.rotation_angle k' = Key.rotation_angle k /\
  Key.labels k' = Key.labels k /\ Key.decal k' = Key.decal k.

(** The heap [h'] holds the objects of [h]: the same keyboards with the same
    key lists and as many keys, each of the shape it had. *)
Definition moved_only (h h' : heap) : Prop :=
  kbd_objs h' = kbd_objs h /\ Forall2 same_shape (key_objs h) (key_objs h').

(** Whatever the code returns or raises, it only moves keys. *)
Definition moves_only {A} (m : M A) : Prop :=
  forall h res h', m h = (res, h') -> moved_only h h'.

(** ** What the offset loop needs to run *)

(** The list names key objects of a heap of [n] keys, and at least one. *)
Definition usable (n : nat) (b : list ref) : Prop :=
  b <> [] /\ forall r, r ∈ b -> (r < n)%nat.

(** Value [v] of group [ndx] can be placed: its keys are there, and so are
    the keys of value 0 when the keys have to be moved. *)
Definition placeable (n : nat) (d : gmap Z group) (ndx v : Z) : Prop :=
  exists g bv, d !! ndx = Some g /\ buckets g !! v = Some bv /\ usable n bv /\
    (0 < v -> exists b0, buckets g !! 0 = Some b0 /\ usable n b0).

(** ** What the choice of the default layout is expected to record *)

(** All values of the group have as many keys. *)
Definition all_same_length (g : group) : bool :=
  (length (remove_dups (ml_val_lengths g)) =? 1)%nat.

(** No value of the group has more keys than value [v]. *)
Definition has_most_keys (g : group) (v : Z) : Prop :=
  exists b, buckets g !! v = Some b /\ length b = max_list (ml_val_lengths g).

(** The value recorded for the group, if any, is 0 when all values have as
    many keys, and otherwise a value with the most keys. *)
Definition well_chosen (g : group) : Prop :=
  forall m, g_max g = Some m ->
    if all_same_length g then m = 0 else has_most_keys g m.

(** The group and the value of a multilayout key, as the loops read them:
    the pair that [extract_ml_val_ndx] returns, taken as (group, value). *)
Definition ml_labels (h : heap) (r : ref) : result (Z * Z) :=
  key <~ get_key h r ;; extract_ml_val_ndx key.

(** Two dicts hold the same lists of keys and the same recorded values. *)
Definition same_choice (d d' : gmap Z group) : Prop :=
  forall n, (fun g => (buckets g, g_max g)) <$> d' !! n
          = (fun g => (buckets g, g_max g)) <$> d !! n.

(** ** Where the keys of a layout are expected to be *)

(** The offset of value [v] of group [n]: the min-corner of the keys of
    value 0 minus the min-corner of the keys of value [v]. *)
Definition offset_of (h : heap) (d : gmap Z group) (n v : Z) : result (Qc * Qc) :=
  m0 <~ min_x_y h (bucket_of d n 0) ;;
  mv <~ min_x_y h (bucket_of d n v) ;;
  Ok ((m0.1 - mv.1)%Qc, (m0.2 - mv.2)%Qc).

(** ** What the default layout needs of every group *)

(** An offset is in the cache of a group only if the group has keys of
    value 0. *)
Definition anchored (g : group) : Prop :=
  forall o v off, g_offsets g = Some o -> o !! v = Some off -> is_Some (buckets g !! 0).

(** ** What the default layout is expected to cover *)

(** The output holds, for every key of the recorded value of every group, a
    key of that group at the same matrix position. *)
Definition recorded_covered (h : heap) (st : gmap Z group * list ref) : Prop :=
  forall n g m b r0 rc,
    st.1 !! n = Some g -> g_max g = Some m -> buckets g !! m = Some b ->
    r0 ∈ b -> coord_of h r0 = Ok rc ->
    exists r', r' ∈ st.2 /\ same_place h n rc r' = true.

End Notions.

(** * Properties *)

(** ** Case analysis on a bind *)

Lemma rbind_Ok {A B} (r : result A) (f : A -> result B) b :
  rbind r f = Ok b -> exists a, r = Ok a /\ f a = Ok b.
Proof. destruct r; simpl; eauto; discriminate. Qed.

Tactic Notation "inv_rbind" hyp(H) "as" simple_intropattern(a) simple_intropattern(Ha) :=
  apply rbind_Ok in H; destruct H as (a & Ha & H).

Section Properties.

Context {python : Python}.

(** ** Results and folds *)

Lemma group_len_0 g : group_len g = 0%nat -> g = empty_group.
Proof.
  destruct g as [b o m]; unfold group_len; simpl.
  destruct o, m; try lia. intros H.
  assert (Hs : size b = 0%nat) by lia. apply map_size_empty_inv in Hs. subst. reflexivity.
Qed.

Lemma group_key_bucket h d r d' :
  group_key h d r = Ok d' ->
  forall ndx val,
    bucket_of d' ndx val =
      if lands_in h ndx val r then add_once (bucket_of d ndx val) r
      else bucket_of d ndx val.
Proof.
  unfold group_key, lands_in. intros H ndx val.
  destruct (get_key h r) as [key|]; [|discriminate]. simpl in H.
  destruct (is_encoder key) as [[|]|]; simpl in H; [congruence| |discriminate].
  destruct (extract_ml_val_ndx key) as [[a b]|]; simpl in H; [|discriminate].
  inv_rbind H as g1 Hg1. inv_rbind H as bb Hbb. injection H as <-.
  set (d1 := if no_group d a then <[a:=empty_group]> d else d) in *.
  assert (Hd1 : forall n v, bucket_of d1 n v = bucket_of d n v).
  { intros n v. unfold d1, no_group, bucket_of.
    destruct (d !! a) as [g|] eqn:Hg.
    - destruct (Nat.eqb_spec (group_len g) 0); [|done].
      apply group_len_0 in e; subst g.
      destruct (decide (a = n)) as [->|]; [rewrite lookup_insert_eq, Hg; done|].
      by rewrite lookup_insert_ne.
    - destruct (decide (a = n)) as [->|]; [rewrite lookup_insert_eq, Hg; done|].
      by rewrite lookup_insert_ne. }
  rewrite <- Hd1. unfold bucket_of in *. unfold group_at in Hg1.
  destruct (d1 !! a) as [g|] eqn:Hg; [|discriminate]. injection Hg1 as <-.
  assert (Hb : bb = default [] (buckets g !! b)).
  { unfold bucket_at, no_bucket in Hbb. destruct (buckets g !! b) as [[|]|] eqn:Hb; simpl in *.
    - rewrite lookup_insert_eq in Hbb. congruence.
    - rewrite Hb in Hbb. congruence.
    - rewrite lookup_insert_eq in Hbb. congruence. }
  simpl. destruct (decide (a = ndx /\ b = val)) as [[-> ->]|Hp].
  - rewrite (bool_decide_eq_true_2 (ndx = ndx /\ val = val)) by (split; reflexivity).
    rewrite lookup_insert_eq, Hg. unfold add_once. rewrite <- Hb.
    case_bool_decide.
    + unfold no_bucket. destruct (buckets g !! val) as [[|]|] eqn:Hv; simpl in *; subst; try done.
      all: try (by rewrite lookup_insert_eq). by rewrite Hv.
    + simpl. by rewrite lookup_insert_eq.
  - rewrite (bool_decide_eq_false_2 (a = ndx /\ b = val)) by exact Hp.
    destruct (decide (a = ndx)) as [->|]; [|by rewrite lookup_insert_ne].
    assert (b <> val) by tauto.
    rewrite lookup_insert_eq, Hg.
    case_bool_decide; unfold no_bucket; destruct (buckets g !! b) as [[|]|]; simpl;
      rewrite ?lookup_insert_ne by done; done.
Qed.

Lemma group_keys_fold h l d d' :
  rfold (group_key h) l d = Ok d' ->
  forall ndx val,
    bucket_of d' ndx val =
      fold_left add_once (filter (fun r => lands_in h ndx val r) l) (bucket_of d ndx val).
Proof.
  revert d; induction l as [|r l IH]; intros d H ndx val; simpl in *.
  - by injection H as <-.
  - inv_rbind H as d1 Hd1. rewrite (IH _ H), filter_cons.
    rewrite (group_key_bucket _ _ _ _ Hd1).
    destruct (lands_in h ndx val r); simpl; done.
Qed.

Lemma add_once_elem b r x : x ∈ add_once b r <-> x ∈ b \/ x = r.
Proof.
  unfold add_once. case_bool_decide; [|set_solver].
  split; [auto|]. intros [?| ->]; done.
Qed.

Lemma add_once_NoDup b r : NoDup b -> NoDup (add_once b r).
Proof.
  unfold add_once. case_bool_decide; [done|]. intros Hb.
  apply NoDup_app. split_and!; [done| |apply NoDup_singleton].
  intros x Hx Hx'. apply list_elem_of_singleton in Hx'. subst. done.
Qed.

Lemma fold_add_once_elem l b x : x ∈ fold_left add_once l b <-> x ∈ b \/ x ∈ l.
Proof.
  revert b; induction l as [|r l IH]; intros b; simpl; [set_solver|].
  rewrite IH, add_once_elem. set_solver.
Qed.

Lemma fold_add_once_NoDup l b : NoDup b -> NoDup (fold_left add_once l b).
Proof. revert b; induction l; simpl; auto using add_once_NoDup. Qed.

Lemma first_seen_elem l x : x ∈ first_seen l <-> x ∈ l.
Proof. unfold first_seen. rewrite fold_add_once_elem. set_solver. Qed.

Lemma first_seen_NoDup l : NoDup (first_seen l).
Proof. apply fold_add_once_NoDup, NoDup_nil_2. Qed.

Lemma group_key_fresh h d r d' :
  group_key h d r = Ok d' ->
  (forall n g, d !! n = Some g -> fresh_group g) ->
  forall n g, d' !! n = Some g -> fresh_group g.
Proof.
  unfold group_key. intros H Hd n g' Hn.
  destruct (get_key h r) as [key|]; [|discriminate]. simpl in H.
  destruct (is_encoder key) as [[|]|]; simpl in H; [injection H as <-; eauto| |discriminate].
  destruct (extract_ml_val_ndx key) as [[a b]|]; simpl in H; [|discriminate].
  inv_rbind H as g1 Hg1. inv_rbind H as bb Hbb. injection H as <-. simpl in *.
  destruct (decide (a = n)) as [->|]; [|rewrite lookup_insert_ne in Hn by done].
  2:{ unfold no_group in Hn. destruct (d !! a) as [g0|]; [destruct (group_len g0 =? 0)%nat|];
      rewrite ?lookup_insert_ne in Hn by done; eauto. }
  rewrite lookup_insert_eq in Hn. injection Hn as <-.
  assert (Hg : g1 = empty_group \/ fresh_group g1).
  { unfold group_at, no_group in Hg1. destruct (d !! n) as [g|] eqn:Hg.
    - destruct (Nat.eqb_spec (group_len g) 0).
      + rewrite lookup_insert_eq in Hg1. left; congruence.
      + rewrite Hg in Hg1. right. injection Hg1 as <-. eauto.
    - rewrite lookup_insert_eq in Hg1. left; congruence. }
  assert (Hne : forall v l, buckets g1 !! v = Some l -> l <> []).
  { destruct Hg as [->|Hf]; [simpl; intros ??; by rewrite lookup_empty|apply Hf]. }
  assert (Hom : g_offsets g1 = None /\ g_max g1 = None).
  { destruct Hg as [->|Hf]; [done|]. destruct Hf; tauto. }
  assert (Hin : r ∈ bb -> buckets g1 !! b = Some bb).
  { unfold bucket_at, no_bucket in Hbb. destruct (buckets g1 !! b) as [[|r0 l0]|] eqn:Hb0; simpl in *.
    - rewrite lookup_insert_eq in Hbb. injection Hbb as <-. by intros ?%elem_of_nil.
    - rewrite Hb0 in Hbb. by injection Hbb as <-.
    - rewrite lookup_insert_eq in Hbb. injection Hbb as <-. by intros ?%elem_of_nil. }
  unfold fresh_group. case_bool_decide as Hr.
  - specialize (Hin Hr). unfold no_bucket. rewrite Hin.
    destruct bb; [set_solver|]. split_and!; try tauto.
    intros Hemp; rewrite Hemp in Hin; by rewrite lookup_empty in Hin.
  - simpl. split_and!; try (destruct (no_bucket g1 b); simpl; tauto).
    + apply insert_non_empty.
    + intros v l. destruct (decide (b = v)) as [->|].
      * rewrite lookup_insert_eq. intros [= <-]. by destruct bb.
      * rewrite lookup_insert_ne by done. destruct (no_bucket g1 b); simpl;
          rewrite ?lookup_insert_ne by done; apply Hne.
Qed.

Lemma group_keys_fresh h l d d' :
  rfold (group_key h) l d = Ok d' ->
  (forall n g, d !! n = Some g -> fresh_group g) ->
  forall n g, d' !! n = Some g -> fresh_group g.
Proof.
  revert d; induction l as [|r l IH]; intros d H Hd; simpl in *.
  - by injection H as <-.
  - inv_rbind H as d1 Hd1. eapply IH; eauto using group_key_fresh.
Qed.

Lemma fold_add_once_sublist l b :
  exists l', fold_left add_once l b = b ++ l' /\ sublist l' l.
Proof.
  revert b; induction l as [|r l IH]; intros b; simpl.
  - exists []. by rewrite app_nil_r.
  - unfold add_once at 2. case_bool_decide.
    + destruct (IH b) as (l' & -> & Hl). exists l'. split; [done|]. by apply sublist_cons.
    + destruct (IH (b ++ [r])) as (l' & -> & Hl). exists (r :: l').
      split; [by rewrite <- app_assoc|]. by apply sublist_skip.
Qed.

Lemma first_seen_sublist l : sublist (first_seen l) l.
Proof. unfold first_seen. by destruct (fold_add_once_sublist l []) as (l' & -> & Hl). Qed.

(** ** LabelExtractor *)

Lemma extract_ml_val_ndx_slots key val ndx :
  extract_ml_val_ndx key = Ok (val, ndx) <->
  exists l3 l5, Key.labels key !! 3%nat = Some l3 /\ Key.labels key !! 5%nat = Some l5 /\
    isnumeric l3 = true /\ isnumeric l5 = true /\ int l3 = Ok val /\ int l5 = Ok ndx.
Proof.
  unfold extract_ml_val_ndx, extract_ml_val_ndx_at, label. split.
  - destruct (Key.labels key !! 3%nat) as [l3|]; [|discriminate].
    destruct (Key.labels key !! 5%nat) as [l5|]; [|discriminate]. simpl.
    destruct (isnumeric l3) eqn:N3, (isnumeric l5) eqn:N5; simpl; try discriminate.
    destruct (int l3) as [a|] eqn:Ia; [|discriminate].
    destruct (int l5) as [b|] eqn:Ib; [|discriminate]. simpl.
    intros [= <- <-]. by exists l3, l5.
  - intros (l3 & l5 & -> & -> & H3 & H5 & I3 & I5). simpl. by rewrite H3, H5, I3, I5.
Qed.

Lemma extract_row_col_slots key row col :
  extract_row_col key = Ok (row, col) <->
  exists l9 l11, Key.labels key !! 9%nat = Some l9 /\ Key.labels key !! 11%nat = Some l11 /\
    isnumeric l9 = true /\ isnumeric l11 = true /\ int l9 = Ok row /\ int l11 = Ok col.
Proof.
  unfold extract_row_col, extract_row_col_at, label. split.
  - destruct (Key.labels key !! 9%nat) as [l9|]; [|discriminate].
    destruct (Key.labels key !! 11%nat) as [l11|]; [|discriminate]. simpl.
    destruct (isnumeric l9) eqn:N9, (isnumeric l11) eqn:N11; simpl; try discriminate.
    destruct (int l9) as [a|] eqn:Ia; [|discriminate].
    destruct (int l11) as [b|] eqn:Ib; [|discriminate]. simpl.
    intros [= <- <-]. by exists l9, l11.
  - intros (l9 & l11 & -> & -> & H9 & H11 & I9 & I11). simpl. by rewrite H9, H11, I9, I11.
Qed.

(** ** MultilayoutGrouper *)

Lemma lands_in_slots h ndx val r :
  lands_in h ndx val r = true <->
  exists key l3 l5, get_key h r = Ok key /\ is_encoder key = Ok false /\
    Key.labels key !! 3%nat = Some l3 /\ Key.labels key !! 5%nat = Some l5 /\
    isnumeric l3 = true /\ isnumeric l5 = true /\ int l3 = Ok ndx /\ int l5 = Ok val.
Proof.
  unfold lands_in. split.
  - destruct (get_key h r) as [key|]; [|discriminate].
    destruct (is_encoder key) as [[|]|] eqn:Hen; try discriminate.
    destruct (extract_ml_val_ndx key) as [[a b]|] eqn:He; [|discriminate].
    intros [<- <-]%bool_decide_eq_true. apply extract_ml_val_ndx_slots in He.
    destruct He as (l3 & l5 & ?). exists key, l3, l5. intuition.
  - intros (key & l3 & l5 & -> & -> & H3 & H5 & N3 & N5 & I3 & I5).
    assert (He : extract_ml_val_ndx key = Ok (ndx, val)).
    { apply extract_ml_val_ndx_slots. by exists l3, l5. }
    rewrite He. by apply bool_decide_eq_true.
Qed.

Lemma lands_in_unique h ndx val ndx' val' r :
  lands_in h ndx val r = true -> lands_in h ndx' val' r = true -> ndx = ndx' /\ val = val'.
Proof.
  unfold lands_in. destruct (get_key h r) as [key|]; [|discriminate].
  destruct (is_encoder key) as [[|]|]; try discriminate.
  destruct (extract_ml_val_ndx key) as [[a b]|]; [|discriminate].
  intros [<- <-]%bool_decide_eq_true [<- <-]%bool_decide_eq_true. done.
Qed.

Lemma bucket_of_empty ndx val : bucket_of ∅ ndx val = [].
Proof. unfold bucket_of. by rewrite lookup_empty. Qed.

Lemma group_keys_bucket_of h ks ml_keys d ndx val :
  group_keys h ks ml_keys = Ok d ->
  bucket_of d ndx val =
    first_seen (filter (fun r => lands_in h ndx val r) (ml_keys_in_order ks ml_keys)).
Proof.
  intros H. unfold group_keys in H.
  by rewrite (group_keys_fold _ _ _ _ H), bucket_of_empty.
Qed.

Lemma group_keys_elem h ks ml_keys d ndx val r :
  group_keys h ks ml_keys = Ok d ->
  r ∈ bucket_of d ndx val <->
  r ∈ ml_keys_in_order ks ml_keys /\ lands_in h ndx val r = true.
Proof.
  intros H. rewrite (group_keys_bucket_of _ _ _ _ _ _ H), first_seen_elem, list_elem_of_filter.
  rewrite Is_true_true. tauto.
Qed.

Lemma group_keys_fresh_group h ks ml_keys d n g :
  group_keys h ks ml_keys = Ok d -> d !! n = Some g -> fresh_group g.
Proof.
  intros H. eapply group_keys_fresh; [exact H|]. intros ??. by rewrite lookup_empty.
Qed.

Lemma group_keys_one_bucket h ks ml_keys d ndx val ndx' val' r :
  group_keys h ks ml_keys = Ok d ->
  r ∈ bucket_of d ndx val -> r ∈ bucket_of d ndx' val' -> ndx = ndx' /\ val = val'.
Proof.
  intros H [_ H1]%(group_keys_elem _ _ _ _ _ _ _ H) [_ H2]%(group_keys_elem _ _ _ _ _ _ _ H).
  eapply lands_in_unique; eauto.
Qed.

Lemma group_keys_NoDup h ks ml_keys d ndx val :
  group_keys h ks ml_keys = Ok d -> NoDup (bucket_of d ndx val).
Proof. intros H. rewrite (group_keys_bucket_of _ _ _ _ _ _ H). apply first_seen_NoDup. Qed.

(** C1, as the code has it.  [extract_ml_val_ndx] returns the pair (value,
    index) read from label slots 3 and 5.  The grouper takes the first
    component of that pair, read from slot 3, as the group and the second,
    read from slot 5, as the value within the group: the list kept under
    value [val] of group [ndx] holds exactly the multilayout keys without the
    encoder marker whose slot 3 reads [ndx] and whose slot 5 reads [val], in
    the order in which they are first seen and without repetition, and no
    key is kept under two different (group, value) pairs. *)
Theorem group_keys_buckets h ks ml_keys d :
  group_keys h ks ml_keys = Ok d ->
  (forall key val ndx,
      extract_ml_val_ndx key = Ok (val, ndx) <->
      exists l3 l5, Key.labels key !! 3%nat = Some l3 /\ Key.labels key !! 5%nat = Some l5 /\
        isnumeric l3 = true /\ isnumeric l5 = true /\ int l3 = Ok val /\ int l5 = Ok ndx)
  /\ (forall ndx val r,
        r ∈ bucket_of d ndx val <->
        r ∈ ml_keys_in_order ks ml_keys /\
        exists key l3 l5, get_key h r = Ok key /\ is_encoder key = Ok false /\
          Key.labels key !! 3%nat = Some l3 /\ Key.labels key !! 5%nat = Some l5 /\
          isnumeric l3 = true /\ isnumeric l5 = true /\ int l3 = Ok ndx /\ int l5 = Ok val)
  /\ (forall ndx val ndx' val' r,
        r ∈ bucket_of d ndx val -> r ∈ bucket_of d ndx' val' -> ndx = ndx' /\ val = val')
  /\ (forall ndx val,
        bucket_of d ndx val =
          first_seen (filter (fun r => lands_in h ndx val r) (ml_keys_in_order ks ml_keys))
        /\ sublist (bucket_of d ndx val) (ml_keys_in_order ks ml_keys)
        /\ NoDup (bucket_of d ndx val)).
Proof.
  intros H. split_and!.
  - apply extract_ml_val_ndx_slots.
  - intros. by rewrite (group_keys_elem _ _ _ _ _ _ _ H), lands_in_slots.
  - intros ndx val ndx' val' r. by apply (group_keys_one_bucket _ _ _ _ _ _ _ _ _ H).
  - intros ndx val. split_and!.
    + by apply group_keys_bucket_of.
    + rewrite (group_keys_bucket_of _ _ _ _ _ _ H).
      etrans; [apply first_seen_sublist|apply sublist_filter].
    + by apply (group_keys_NoDup _ _ _ _ _ _ H).
Qed.

(** ** The exceptions of each pass *)

Lemma fails_only_Ok {A} P (a : A) : fails_only P (Ok a).
Proof. intros e; discriminate. Qed.

Lemma fails_only_Err {A} (P : error -> Prop) e : P e -> fails_only P (@Err A e).
Proof. intros H e' [= <-]; done. Qed.

Lemma fails_only_rbind {A B} P (r : result A) (f : A -> result B) :
  fails_only P r -> (forall a, fails_only P (f a)) -> fails_only P (rbind r f).
Proof.
  destruct r; simpl; intros Hr Hf; [apply Hf|].
  intros e' [= <-]. by apply Hr.
Qed.

Lemma fails_only_rfold {A B} P (f : A -> B -> result A) l a :
  (forall a b, fails_only P (f a b)) -> fails_only P (rfold f l a).
Proof.
  intros Hf. revert a; induction l as [|b l IH]; intros a; simpl.
  - apply fails_only_Ok.
  - apply fails_only_rbind; auto.
Qed.

Lemma fails_only_weaken {A} (P Q : error -> Prop) (r : result A) :
  (forall e, P e -> Q e) -> fails_only P r -> fails_only Q r.
Proof. unfold fails_only; eauto. Qed.

Lemma raises_only_ret {A} P (a : A) : raises_only P (ret a).
Proof. intros h e h'; discriminate. Qed.

Lemma raises_only_raise {A} (P : error -> Prop) e : P e -> raises_only P (@raise A e).
Proof. intros H h e' h' [= <- _]; done. Qed.

Lemma raises_only_lift {A} P (r : result A) : fails_only P r -> raises_only P (lift r).
Proof. intros H h e h' [= -> _]. by apply H. Qed.

Lemma raises_only_reading {A} P (f : heap -> result A) :
  (forall h, fails_only P (f h)) -> raises_only P (reading f).
Proof. intros H h e h' [= Hf _]. by eapply H. Qed.

Lemma raises_only_bind {A B} P (m : M A) (f : A -> M B) :
  raises_only P m -> (forall a, raises_only P (f a)) -> raises_only P (bind m f).
Proof.
  intros Hm Hf h e h'. unfold bind. destruct (m h) as [[a|e1] h1] eqn:E.
  - apply Hf.
  - intros [= <- _]. eapply Hm, E.
Qed.

Lemma raises_only_mfold {A B} P (f : A -> B -> M A) l a :
  (forall a b, raises_only P (f a b)) -> raises_only P (mfold f l a).
Proof.
  intros Hf. revert a; induction l as [|b l IH]; intros a; simpl.
  - apply raises_only_ret.
  - apply raises_only_bind; auto.
Qed.

Lemma raises_only_put_key P r k : raises_only P (put_key r k).
Proof. intros h e h'; discriminate. Qed.

Lemma get_key_fails h r : fails_only lookup_error (get_key h r).
Proof.
  unfold get_key. destruct (_ !! _); [apply fails_only_Ok|apply fails_only_Err].
  unfold lookup_error; auto.
Qed.

Lemma group_at_fails d n : fails_only lookup_error (group_at d n).
Proof.
  unfold group_at. destruct (_ !! _); [apply fails_only_Ok|apply fails_only_Err].
  unfold lookup_error; auto.
Qed.

Lemma bucket_at_fails g v : fails_only lookup_error (bucket_at g v).
Proof.
  unfold bucket_at. destruct (_ !! _); [apply fails_only_Ok|apply fails_only_Err].
  unfold lookup_error; auto.
Qed.

Lemma get_keys_fails h l : fails_only lookup_error (get_keys h l).
Proof.
  apply fails_only_rfold. intros a b. apply fails_only_rbind; [apply get_key_fails|].
  intros; apply fails_only_Ok.
Qed.

Lemma min_x_y_fails h l : fails_only lookup_error (min_x_y h l).
Proof.
  apply fails_only_rbind; [apply get_keys_fails|]. intros [|k ks].
  - apply fails_only_Err. unfold lookup_error; auto.
  - apply fails_only_Ok.
Qed.

Lemma offset_for_fails h d n v : fails_only lookup_error (offset_for h d n v).
Proof.
  apply fails_only_rbind; [apply group_at_fails|]. intros g. simpl.
  destruct (_ !! v); [apply fails_only_Ok|].
  repeat (apply fails_only_rbind;
          [first [apply bucket_at_fails|apply min_x_y_fails]|intros ?]).
  apply fails_only_Ok.
Qed.

Lemma apply_offset_raises r off : raises_only lookup_error (apply_offset r off).
Proof.
  apply raises_only_bind; [apply raises_only_reading; intros; apply get_key_fails|].
  intros; apply raises_only_put_key.
Qed.

Lemma place_key_raises n v st r : raises_only lookup_error (place_key n v st r).
Proof.
  unfold place_key. destruct (0 <? v); [|apply raises_only_ret].
  apply raises_only_bind; [apply raises_only_reading; intros; apply offset_for_fails|].
  intros p. apply raises_only_bind; [apply apply_offset_raises|]. intros; apply raises_only_ret.
Qed.

Lemma select_option_raises st p : raises_only lookup_error (select_option st p).
Proof.
  apply raises_only_bind; [apply raises_only_lift, group_at_fails|]. intros g.
  apply raises_only_bind; [apply raises_only_lift, bucket_at_fails|]. intros b.
  apply raises_only_mfold. intros; apply place_key_raises.
Qed.

Lemma normalize_raises q : raises_only lookup_error (normalize q).
Proof.
  apply raises_only_bind; [apply raises_only_reading; intros; apply min_x_y_fails|].
  intros off. apply raises_only_mfold. intros _ r.
  apply raises_only_bind; [apply raises_only_reading; intros; apply get_key_fails|].
  intros; apply raises_only_put_key.
Qed.

(** ** Running a sequence of statements *)

Lemma bind_reading_Ok {A B} (f : heap -> result A) (k : A -> M B) h a :
  f h = Ok a -> bind (reading f) k h = k a h.
Proof. intros H. unfold bind, reading. by rewrite H. Qed.

Lemma bind_reading_Err {A B} (f : heap -> result A) (k : A -> M B) h e :
  f h = Err e -> bind (reading f) k h = (Err e, h).
Proof. intros H. unfold bind, reading. by rewrite H. Qed.

Lemma bind_lift_Ok {A B} (r : result A) (k : A -> M B) h a :
  r = Ok a -> bind (lift r) k h = k a h.
Proof. intros ->. reflexivity. Qed.

Lemma bind_lift_Err {A B} (r : result A) (k : A -> M B) h e :
  r = Err e -> bind (lift r) k h = (Err e, h).
Proof. intros ->. reflexivity. Qed.

Lemma bind_Ok {A B} (m : M A) (k : A -> M B) h b h' :
  bind m k h = (Ok b, h') -> exists a h1, m h = (Ok a, h1) /\ k a h1 = (Ok b, h').
Proof.
  unfold bind. destruct (m h) as [[a|e] h1]; [eauto|discriminate].
Qed.

Lemma bind_run {A B} (m : M A) (k : A -> M B) h a h1 :
  m h = (Ok a, h1) -> bind m k h = k a h1.
Proof. intros H. unfold bind. by rewrite H. Qed.

(** ** Validation of the selection *)

Lemma enumerate_shift {A} (k : nat) (l : list A) :
  imap ((fun i a => (Z.of_nat (k + i), a)) ∘ S) l = imap (fun i a => (Z.of_nat (S k + i), a)) l.
Proof. apply imap_ext. intros i a _. simpl. do 2 f_equal. lia. Qed.

Lemma validate_from_Ok d k l :
  rfold (check_selected d) (imap (fun i a => (Z.of_nat (k + i), a)) l) tt = Ok tt <->
  forall (i : nat) s, l !! i = Some s ->
    exists g, d !! Z.of_nat (k + i) = Some g /\ s < Z.of_nat (group_len g).
Proof.
  revert k; induction l as [|s0 l IH]; intros k.
  - simpl. split; [intros _ i s; by rewrite lookup_nil|done].
  - rewrite imap_cons, enumerate_shift. cbn [rfold].
    unfold check_selected at 1, group_at. cbn [fst snd].
    split.
    + destruct (d !! Z.of_nat (k + 0)) as [g|] eqn:Hg; [|discriminate]. cbn [rbind].
      destruct (Z.leb_spec (Z.of_nat (group_len g)) s0); [discriminate|]. cbn [rbind].
      intros H0 [|i] s; cbn [lookup list_lookup].
      * intros [= <-]. eauto.
      * intros Hi. destruct (proj1 (IH _) H0 i s Hi) as (g' & Hg' & ?). exists g'.
        split; [|done]. rewrite <- Hg'. f_equal. lia.
    + intros H. destruct (H 0%nat s0 eq_refl) as (g & -> & Hs). cbn [rbind].
      destruct (Z.leb_spec (Z.of_nat (group_len g)) s0); [lia|]. cbn [rbind].
      apply IH. intros i s Hi. destruct (H (S i) s Hi) as (g' & Hg' & ?). exists g'.
      split; [|done]. rewrite <- Hg'. f_equal. lia.
Qed.

Lemma validate_from_Err d k l e :
  rfold (check_selected d) (imap (fun i a => (Z.of_nat (k + i), a)) l) tt = Err e ->
  exists (i : nat) s, l !! i = Some s /\
    match d !! Z.of_nat (k + i) with
    | Some g => e = SelectionIndexOutOfRange /\ Z.of_nat (group_len g) <= s
    | None => e = KeyError
    end.
Proof.
  revert k; induction l as [|s0 l IH]; intros k.
  - discriminate.
  - rewrite imap_cons, enumerate_shift. cbn [rfold].
    unfold check_selected at 1, group_at. cbn [fst snd].
    destruct (d !! Z.of_nat (k + 0)) as [g|] eqn:Hg; cbn [rbind].
    + destruct (Z.leb_spec (Z.of_nat (group_len g)) s0); cbn [rbind].
      * intros [= <-]. exists 0%nat, s0. by rewrite Hg.
      * intros (i & s & Hi & H')%IH. exists (S i), s. split; [done|].
        replace (k + S i)%nat with (S k + i)%nat by lia. done.
    + intros [= <-]. exists 0%nat, s0. by rewrite Hg.
Qed.

Lemma validate_Ok d l :
  validate d l = Ok tt <->
  forall (i : nat) s, l !! i = Some s ->
    exists g, d !! Z.of_nat i = Some g /\ s < Z.of_nat (group_len g).
Proof. apply (validate_from_Ok d 0 l). Qed.

Lemma validate_Err d l e :
  validate d l = Err e ->
  exists (i : nat) s, l !! i = Some s /\
    match d !! Z.of_nat i with
    | Some g => e = SelectionIndexOutOfRange /\ Z.of_nat (group_len g) <= s
    | None => e = KeyError
    end.
Proof. apply (validate_from_Err d 0 l). Qed.

Lemma validate_unit (r : result unit) : r = Ok tt \/ exists e, r = Err e.
Proof. destruct r as [[]|e]; eauto. Qed.

(** C3, as the code has it.  Once the keys are partitioned and grouped,
    [get_specific_layout] raises SelectionArityMismatch if and only if the
    length of the selection differs from the number of groups.  When the
    lengths agree and the groups are numbered 0, 1, ... one after the other,
    it raises SelectionIndexOutOfRange if and only if some selected index is
    greater than or equal to the number of distinct values of its group, and
    otherwise the validation raises nothing. *)
Theorem validation_errors sort_keys h kbd layout_idx ml_keys ks qmk_keys d :
  get_multilayout_keys h kbd = Ok ml_keys ->
  kbd_keys h kbd = Ok ks ->
  plain_keys h ks ml_keys = Ok qmk_keys ->
  group_keys h ks ml_keys = Ok d ->
  ((get_specific_layout sort_keys kbd layout_idx h).1 = Err SelectionArityMismatch <->
   length layout_idx <> size d)
  /\ (length layout_idx = size d -> consecutive_groups d ->
      ((get_specific_layout sort_keys kbd layout_idx h).1 = Err SelectionIndexOutOfRange <->
       index_out_of_range d layout_idx)
      /\ (~ index_out_of_range d layout_idx -> validate d layout_idx = Ok tt)).
Proof.
  intros Hml Hks Hq Hd.
  assert (Hlen : forall n g, d !! n = Some g -> group_len g = size (buckets g)).
  { intros n g Hg. destruct (group_keys_fresh_group _ _ _ _ _ _ Hd Hg) as (Ho & Hm & _).
    unfold group_len. rewrite Ho, Hm. lia. }
  set (rest := (st <- mfold select_option (enumerate layout_idx) (d, qmk_keys) ;;
                _ <- normalize st.2 ;;
                reading (fun h => Ok (sort_keys (key_objs h) st.2)))).
  assert (Hrest : raises_only lookup_error rest).
  { apply raises_only_bind; [apply raises_only_mfold; intros; apply select_option_raises|].
    intros st. apply raises_only_bind; [apply normalize_raises|].
    intros _. apply raises_only_reading. intros; apply fails_only_Ok. }
  assert (Hrun : get_specific_layout sort_keys kbd layout_idx h =
                 if negb (length layout_idx =? size d)%nat then (Err SelectionArityMismatch, h)
                 else match validate d layout_idx with
                      | Ok _ => rest h
                      | Err e => (Err e, h)
                      end).
  { unfold get_specific_layout.
    rewrite (bind_reading_Ok _ _ _ _ Hml), (bind_reading_Ok _ _ _ _ Hks).
    rewrite (bind_reading_Ok _ _ _ _ Hq), (bind_reading_Ok _ _ _ _ Hd).
    destruct (negb _); [reflexivity|].
    destruct (validate d layout_idx) as [[]|e]; reflexivity. }
  assert (Hlate : forall e, (rest h).1 = Err e -> lookup_error e).
  { intros e He. destruct (rest h) as [r h'] eqn:E. simpl in He; subst r. eapply Hrest, E. }
  assert (Hval : forall e, validate d layout_idx = Err e ->
                 e = SelectionIndexOutOfRange \/ e = KeyError).
  { intros e (i & s & _ & H)%validate_Err. destruct (d !! _); tauto. }
  rewrite Hrun. split.
  - destruct (Nat.eqb_spec (length layout_idx) (size d)) as [Heq|Hne]; simpl.
    + split; [|done]. destruct (validate d layout_idx) as [[]|e] eqn:Hv; simpl.
      * intros H%Hlate. unfold lookup_error in H. naive_solver.
      * intros [= ->]. destruct (Hval _ eq_refl); discriminate.
    + done.
  - intros Heq Hcons. rewrite Heq, Nat.eqb_refl. simpl.
    assert (Hbad : index_out_of_range d layout_idx ->
                   validate d layout_idx = Err SelectionIndexOutOfRange).
    { intros (n & s & g & Hn & Hg & Hs).
      destruct (validate_unit (validate d layout_idx)) as [Hv|[e Hv]].
      - destruct (proj1 (validate_Ok _ _) Hv n s Hn) as (g' & Hg' & ?).
        rewrite Hg in Hg'. injection Hg' as <-. rewrite (Hlen _ _ Hg) in *. lia.
      - rewrite Hv. f_equal. apply validate_Err in Hv as (i & s' & Hi & H).
        destruct (d !! Z.of_nat i) as [g'|] eqn:Hg'; [tauto|].
        apply lookup_lt_Some in Hi. assert (is_Some (d !! Z.of_nat i)) as [? Hc]; [|congruence].
        apply Hcons. lia. }
    assert (Hgood : ~ index_out_of_range d layout_idx -> validate d layout_idx = Ok tt).
    { intros Hno. apply validate_Ok. intros i s Hi.
      assert (is_Some (d !! Z.of_nat i)) as [g Hg].
      { apply Hcons. apply lookup_lt_Some in Hi. lia. }
      exists g. split; [done|]. rewrite (Hlen _ _ Hg).
      destruct (Z.lt_ge_cases s (Z.of_nat (size (buckets g)))); [done|].
      destruct Hno. exists i, s, g. split_and!; [done..|lia]. }
    split; [|exact Hgood]. split.
    + destruct (validate d layout_idx) as [[]|e] eqn:Hv; simpl.
      * intros H%Hlate. unfold lookup_error in H. naive_solver.
      * intros [= ->].
        apply validate_Err in Hv as (i & s & Hi & H).
        destruct (d !! Z.of_nat i) as [g|] eqn:Hg; [|discriminate].
        exists i, s, g. rewrite <- (Hlen _ _ Hg). tauto.
    + intros H%Hbad. by rewrite H.
Qed.

(** ** Coordinates *)

Lemma is_zero_true q : Coord.is_zero q = true <-> q = 0%Qc.
Proof.
  unfold Coord.is_zero. rewrite Qeq_bool_iff. split.
  - intros H. by apply Qc_is_canon.
  - by intros ->.
Qed.

Lemma leb_le a b : Coord.leb a b = true <-> (a <= b)%Qc.
Proof. unfold Coord.leb, Qcle. apply Qle_bool_iff. Qed.

Lemma Qcle_plus_r a b c : (a + c <= b + c)%Qc <-> (a <= b)%Qc.
Proof.
  split; intros H.
  - replace a with ((a + c) + - c)%Qc by ring. replace b with ((b + c) + - c)%Qc by ring.
    apply Qcplus_le_compat; [done|apply Qcle_refl].
  - apply Qcplus_le_compat; [done|apply Qcle_refl].
Qed.

Lemma leb_plus a b c : Coord.leb (a + c) (b + c) = Coord.leb a b.
Proof.
  apply eq_true_iff_eq. by rewrite !leb_le, Qcle_plus_r.
Qed.

Lemma min2_plus a b c : Coord.min2 (a + c) (b + c) = (Coord.min2 a b + c)%Qc.
Proof. unfold Coord.min2. rewrite leb_plus. by destruct (Coord.leb a b). Qed.

Lemma minimum_plus a l c :
  Coord.minimum (a + c) (map (fun q => q + c)%Qc l) = (Coord.minimum a l + c)%Qc.
Proof.
  unfold Coord.minimum. revert a; induction l as [|b l IH]; intros a; simpl; [done|].
  by rewrite min2_plus, IH.
Qed.

(** ** Reading and writing keys *)

Lemma get_key_Ok h r key : get_key h r = Ok key <-> key_objs h !! r = Some key.
Proof. unfold get_key. destruct (_ !! _); split; congruence. Qed.

Lemma get_key_ext h h' r : key_objs h' !! r = key_objs h !! r -> get_key h' r = get_key h r.
Proof. unfold get_key. by intros ->. Qed.

Lemma get_keys_acc h l acc ks :
  rfold (fun acc r => key <~ get_key h r ;; Ok (acc ++ [key])) l acc = Ok ks <->
  exists ks', ks = acc ++ ks' /\ Forall2 (fun r key => key_objs h !! r = Some key) l ks'.
Proof.
  revert acc ks; induction l as [|r l IH]; intros acc ks; simpl.
  - split.
    + intros [= <-]. exists []. by rewrite app_nil_r.
    + intros (ks' & -> & ->%Forall2_nil_inv_l). by rewrite app_nil_r.
  - unfold get_key at 1. destruct (key_objs h !! r) as [key|] eqn:Hr; simpl.
    + rewrite IH. split.
      * intros (ks' & -> & H). exists (key :: ks'). split; [by rewrite <- app_assoc|].
        by constructor.
      * intros (ks' & -> & H). apply Forall2_cons_inv_l in H as (key' & ks'' & Hk & H & ->).
        assert (key' = key) as -> by congruence.
        exists ks''. split; [by rewrite <- app_assoc|done].
    + split; [discriminate|]. intros (ks' & _ & H).
      apply Forall2_cons_inv_l in H as (key' & ks'' & Hk & _). congruence.
Qed.

Lemma Forall2_impl_elem {A B} (P Q : A -> B -> Prop) l k :
  Forall2 P l k -> (forall x y, x ∈ l -> P x y -> Q x y) -> Forall2 Q l k.
Proof.
  induction 1 as [|x y l k HP _ IH]; intros H; constructor.
  - apply H; [left|done].
  - apply IH. intros; apply H; [by right|done].
Qed.

Lemma get_keys_Ok h l ks :
  get_keys h l = Ok ks <-> Forall2 (fun r key => key_objs h !! r = Some key) l ks.
Proof.
  unfold get_keys. rewrite get_keys_acc. split.
  - by intros (ks' & -> & H).
  - intros H. by exists ks.
Qed.

Lemma get_keys_ext h h' l :
  (forall r, r ∈ l -> key_objs h' !! r = key_objs h !! r) ->
  get_keys h' l = get_keys h l.
Proof.
  intros H. unfold get_keys.
  cut (forall acc,
          rfold (fun acc r => key <~ get_key h' r ;; Ok (acc ++ [key])) l acc =
          rfold (fun acc r => key <~ get_key h r ;; Ok (acc ++ [key])) l acc); [auto|].
  induction l as [|r l IH]; intros acc; simpl; [done|].
  rewrite (get_key_ext h h' r) by (apply H; left).
  destruct (get_key h r); simpl; [|done]. apply IH. intros; apply H. by right.
Qed.

Lemma min_x_y_ext h h' l :
  (forall r, r ∈ l -> key_objs h' !! r = key_objs h !! r) ->
  min_x_y h' l = min_x_y h l.
Proof. intros H. unfold min_x_y. by rewrite (get_keys_ext h h' l). Qed.

Lemma shift_key_x key off : Key.x (shift_key key off) = (Key.x key + off.1)%Qc.
Proof. unfold shift_key. simpl. by destruct (Coord.is_zero _). Qed.

Lemma shift_key_y key off : Key.y (shift_key key off) = (Key.y key + off.2)%Qc.
Proof. unfold shift_key. simpl. by destruct (Coord.is_zero _). Qed.

Lemma shift_key_labels key off : Key.labels (shift_key key off) = Key.labels key.
Proof. unfold shift_key. simpl. by destruct (Coord.is_zero _). Qed.

Lemma min_x_y_shifted h h' l off m :
  shifted_by h h' l off -> min_x_y h l = Ok m ->
  min_x_y h' l = Ok ((m.1 + off.1)%Qc, (m.2 + off.2)%Qc).
Proof.
  intros Hs. unfold min_x_y.
  destruct (get_keys h l) as [ks|] eqn:Hks; [|discriminate]. simpl.
  apply get_keys_Ok in Hks.
  assert (Hks' : get_keys h' l = Ok (map (fun key => shift_key key off) ks)).
  { apply get_keys_Ok. apply Forall2_fmap_r.
    eapply Forall2_impl_elem; [exact Hks|]. intros r key Hin Hr. simpl.
    destruct (Hs r Hin) as (key' & Hk & Hk'). apply get_key_Ok in Hk, Hk'. congruence. }
  rewrite Hks'. simpl. destruct ks as [|k ks]; [discriminate|]. intros [= <-]. simpl.
  rewrite !shift_key_x, !shift_key_y, !map_map.
  rewrite (map_ext (fun a => Key.x (shift_key a off)) (fun a => (Key.x a + off.1)%Qc))
    by (intros; apply shift_key_x).
  rewrite (map_ext (fun a => Key.y (shift_key a off)) (fun a => (Key.y a + off.2)%Qc))
    by (intros; apply shift_key_y).
  rewrite <- (map_map Key.x (fun q => (q + off.1)%Qc)).
  rewrite <- (map_map Key.y (fun q => (q + off.2)%Qc)).
  by rewrite !minimum_plus.
Qed.

Lemma write_key_same h r k key :
  key_objs h !! r = Some key -> key_objs (write_key h r k) !! r = Some k.
Proof. intros H. simpl. apply list_lookup_insert_eq. by eapply lookup_lt_Some. Qed.

Lemma write_key_other h r k r' :
  r <> r' -> key_objs (write_key h r k) !! r' = key_objs h !! r'.
Proof. intros H. simpl. by apply list_lookup_insert_ne. Qed.

Lemma apply_offset_run r off h :
  apply_offset r off h =
    match key_objs h !! r with
    | Some key => (Ok tt, write_key h r (shift_key key off))
    | None => (Err DanglingReference, h)
    end.
Proof.
  unfold apply_offset, bind, reading, get_key. by destruct (key_objs h !! r).
Qed.

(** ** OffsetEngine *)

Lemma set_offsets_id g o : g_offsets g = Some o -> set_offsets g o = g.
Proof. destruct g; simpl; by intros ->. Qed.

Lemma offset_for_cached h d ndx val off :
  cached d ndx val off -> offset_for h d ndx val = Ok (d, off).
Proof.
  intros (g & o & Hg & Ho & Hv). unfold offset_for, group_at. rewrite Hg. simpl. rewrite Ho.
  assert (Hsz : (size o =? 0)%nat = false).
  { apply Nat.eqb_neq. intros ->%map_size_empty_inv. by rewrite lookup_empty in Hv. }
  rewrite Hsz, Hv, (set_offsets_id _ _ Ho). by rewrite insert_id.
Qed.

Lemma offset_for_computed h d ndx val g d' off :
  d !! ndx = Some g -> g_offsets g = None ->
  offset_for h d ndx val = Ok (d', off) ->
  exists b0 m0 bv mv,
    buckets g !! 0 = Some b0 /\ min_x_y h b0 = Ok m0 /\
    buckets g !! val = Some bv /\ min_x_y h bv = Ok mv /\
    off = ((m0.1 - mv.1)%Qc, (m0.2 - mv.2)%Qc) /\
    d' = <[ndx := set_offsets g {[ val := off ]}]> d.
Proof.
  intros Hg Ho. unfold offset_for, group_at. rewrite Hg. simpl. rewrite Ho, lookup_empty.
  unfold bucket_at. simpl.
  destruct (buckets g !! 0) as [b0|]; [|discriminate]. simpl.
  destruct (min_x_y h b0) as [m0|] eqn:Hm0; [|discriminate]. simpl.
  destruct (buckets g !! val) as [bv|]; [|discriminate]. simpl.
  destruct (min_x_y h bv) as [mv|] eqn:Hmv; [|discriminate]. simpl.
  intros [= <- <-]. exists b0, m0, bv, mv. split_and!; try done.
Qed.

Lemma cached_insert d ndx g val off :
  cached (<[ndx := set_offsets g {[ val := off ]}]> d) ndx val off.
Proof.
  eexists _, _. split_and!; [apply lookup_insert_eq|reflexivity|apply lookup_singleton_eq].
Qed.

(** The keys of a list, once the offset is in the cache: each is moved by
    the cached offset and appended, and nothing else changes. *)
Lemma place_keys_cached ndx val off l :
  0 < val -> NoDup l ->
  forall d q h d' q' h',
    cached d ndx val off ->
    mfold (place_key ndx val) l (d, q) h = (Ok (d', q'), h') ->
    d' = d /\ q' = q ++ l /\ shifted_by h h' l off /\
    kbd_objs h' = kbd_objs h /\
    forall r, r ∉ l -> key_objs h' !! r = key_objs h !! r.
Proof.
  intros Hval. induction 1 as [|r l Hr Hl IH]; intros d q h d' q' h' Hc; simpl.
  - intros [= <- <- <-]. rewrite app_nil_r. split_and!; try done.
    intros r Hr. by apply elem_of_nil in Hr.
  - unfold place_key at 1. rewrite (proj2 (Z.ltb_lt _ _) Hval). simpl.
    unfold bind at 1. unfold bind at 1. unfold reading. simpl.
    rewrite (offset_for_cached _ _ _ _ _ Hc). unfold bind at 1. rewrite apply_offset_run.
    destruct (key_objs h !! r) as [key|] eqn:Hk; [|discriminate]. simpl.
    intros H. apply IH in H as (-> & -> & Hs & Hkb & Hfr); [|done].
    split_and!; [done|by rewrite <- app_assoc| |done|].
    + intros r' [->|Hin]%elem_of_cons.
      * exists key. split; [by apply get_key_Ok|]. apply get_key_Ok.
        rewrite (Hfr _ Hr). by eapply write_key_same.
      * destruct (Hs r' Hin) as (key' & Hk' & Hk''). exists key'. split; [|done].
        rewrite <- Hk'. symmetry. apply get_key_ext, write_key_other. intros ->. done.
    + intros r' Hn. apply not_elem_of_cons in Hn as [Hne Hn].
      rewrite (Hfr _ Hn). by apply write_key_other.
Qed.

(** The keys of the default value are appended as they are. *)
Lemma place_keys_default ndx val l d q h :
  val <= 0 -> mfold (place_key ndx val) l (d, q) h = (Ok (d, q ++ l), h).
Proof.
  intros Hval. revert q; induction l as [|r l IH]; intros q; simpl.
  - by rewrite app_nil_r.
  - unfold place_key at 1. rewrite (proj2 (Z.ltb_ge _ _) Hval). simpl.
    unfold bind, ret. simpl. rewrite IH. by rewrite <- app_assoc.
Qed.

(** One selected value other than the default one, with an empty cache. *)
Lemma place_keys_computed ndx val l g d q h d' q' h' :
  0 < val -> NoDup l -> l <> [] ->
  d !! ndx = Some g -> g_offsets g = None ->
  mfold (place_key ndx val) l (d, q) h = (Ok (d', q'), h') ->
  exists b0 m0 bv mv,
    buckets g !! 0 = Some b0 /\ min_x_y h b0 = Ok m0 /\
    buckets g !! val = Some bv /\ min_x_y h bv = Ok mv /\
    let off := ((m0.1 - mv.1)%Qc, (m0.2 - mv.2)%Qc) in
    d' = <[ndx := set_offsets g {[ val := off ]}]> d /\
    q' = q ++ l /\ shifted_by h h' l off /\
    kbd_objs h' = kbd_objs h /\
    forall r, r ∉ l -> key_objs h' !! r = key_objs h !! r.
Proof.
  intros Hval Hnd Hne Hg Ho. destruct l as [|r l]; [done|]. simpl.
  apply NoDup_cons in Hnd as [Hr Hl].
  unfold place_key at 1. rewrite (proj2 (Z.ltb_lt _ _) Hval). simpl.
  unfold bind at 1. unfold bind at 1. unfold reading. simpl.
  destruct (offset_for h d ndx val) as [[d1 off]|] eqn:Hoff; [|discriminate].
  destruct (offset_for_computed _ _ _ _ _ _ _ Hg Ho Hoff)
    as (b0 & m0 & bv & mv & ? & ? & ? & ? & -> & ->).
  unfold bind at 1. rewrite apply_offset_run. simpl.
  destruct (key_objs h !! r) as [key|] eqn:Hk; [|discriminate]. simpl.
  intros Hrun.
  destruct (place_keys_cached _ _ _ _ Hval Hl _ _ _ _ _ _ (cached_insert _ _ _ _ _) Hrun)
    as (-> & -> & Hs & Hkb & Hfr).
  exists b0, m0, bv, mv. split_and!; try done; [by rewrite <- app_assoc| |].
  - intros r' [->|Hin]%elem_of_cons.
    + exists key. split; [by apply get_key_Ok|]. apply get_key_Ok.
      rewrite (Hfr _ Hr). by eapply write_key_same.
    + destruct (Hs r' Hin) as (key' & Hk' & Hk''). exists key'. split; [|done].
      rewrite <- Hk'. symmetry. apply get_key_ext, write_key_other. intros ->. done.
  - intros r' Hn. apply not_elem_of_cons in Hn as [Hne' Hn].
    rewrite (Hfr _ Hn). by apply write_key_other.
Qed.

(** ** The selection loop *)

Lemma same_buckets_bucket_of d0 d n v :
  same_buckets d0 d -> bucket_of d n v = bucket_of d0 n v.
Proof.
  intros H. specialize (H n). unfold bucket_of.
  destruct (d !! n), (d0 !! n); simpl in H; try done. by injection H as ->.
Qed.

Lemma bucket_of_lookup d n g v b :
  d !! n = Some g -> buckets g !! v = Some b -> bucket_of d n v = b.
Proof. intros Hg Hb. unfold bucket_of. by rewrite Hg, Hb. Qed.

Lemma shifted_by_ext h0 h0' h h' b off :
  (forall r, r ∈ b -> key_objs h0' !! r = key_objs h0 !! r) ->
  (forall r, r ∈ b -> key_objs h' !! r = key_objs h !! r) ->
  shifted_by h0 h b off -> shifted_by h0' h' b off.
Proof.
  intros H0 H Hs r Hr. destruct (Hs r Hr) as (key & Hk & Hk'). exists key.
  by rewrite (get_key_ext h0 h0' r), (get_key_ext h h' r) by auto.
Qed.

Section SelectionLoop.

Variable d0 : gmap Z group.
Variable h0 : heap.
Variable layout_idx : list Z.

Hypothesis one_bucket : forall n v n' v' r,
  r ∈ bucket_of d0 n v -> r ∈ bucket_of d0 n' v' -> n = n' /\ v = v'.
Hypothesis fresh : forall n g, d0 !! n = Some g -> fresh_group g.
Hypothesis no_dup : forall n v, NoDup (bucket_of d0 n v).

Lemma select_option_step k v d q h d' q' h' :
  layout_idx !! k = Some v ->
  selected_upto d0 h0 layout_idx k d h ->
  select_option (d, q) (Z.of_nat k, v) h = (Ok (d', q'), h') ->
  selected_upto d0 h0 layout_idx (S k) d' h'.
Proof.
  intros Hk (Hsame & Hnone & Hframe & Hmoved). unfold select_option. simpl.
  unfold bind at 1, lift, group_at. destruct (d !! Z.of_nat k) as [g|] eqn:Hg; [|discriminate].
  unfold bind at 1, bucket_at. destruct (buckets g !! v) as [bv|] eqn:Hbv; [|discriminate].
  assert (Hbv0 : bucket_of d0 (Z.of_nat k) v = bv).
  { rewrite <- (same_buckets_bucket_of _ _ _ _ Hsame). by eapply bucket_of_lookup. }
  assert (Hold : forall w r, r ∈ bucket_of d0 (Z.of_nat k) w ->
                             key_objs h !! r = key_objs h0 !! r).
  { intros w r Hr. apply Hframe. intros j vj Hj _ _ Hin.
    destruct (one_bucket _ _ _ _ _ Hr Hin). lia. }
  destruct (Z.lt_ge_cases 0 v) as [Hpos|Hneg].
  - assert (Hne : bv <> []).
    { pose proof (Hsame (Z.of_nat k)) as Hs. rewrite Hg in Hs.
      destruct (d0 !! Z.of_nat k) as [g0|] eqn:Hg0; [|done]. simpl in Hs. injection Hs as Hs.
      destruct (fresh _ _ Hg0) as (_ & _ & _ & Hf). eapply Hf. by rewrite <- Hs. }
    assert (Hnd : NoDup bv) by (rewrite <- Hbv0; apply no_dup).
    intros Hrun.
    destruct (place_keys_computed _ _ _ _ _ _ _ _ _ _ Hpos Hnd Hne Hg (Hnone k g (le_n _) Hg) Hrun)
      as (b0 & m0 & bv' & mv & Hb0 & Hm0 & Hbv' & Hmv & -> & -> & Hs & Hkb & Hfr).
    assert (bv' = bv) as -> by congruence.
    assert (Hb00 : bucket_of d0 (Z.of_nat k) 0 = b0).
    { rewrite <- (same_buckets_bucket_of _ _ _ _ Hsame). by eapply bucket_of_lookup. }
    split_and!.
    + intros n. destruct (decide (Z.of_nat k = n)) as [<-|].
      * rewrite lookup_insert_eq. simpl. rewrite <- (Hsame (Z.of_nat k)), Hg. done.
      * rewrite lookup_insert_ne by done. apply Hsame.
    + intros n g' Hn. rewrite lookup_insert_ne by lia. apply Hnone. lia.
    + intros r Hr. rewrite Hfr.
      * apply Hframe. intros j vj Hj. apply Hr. lia.
      * rewrite <- Hbv0. apply (Hr k v); [lia|done..].
    + intros j vj Hj Hvj Hposj. destruct (decide (j = k)) as [->|Hjk].
      * assert (vj = v) as -> by congruence.
        exists m0, mv. rewrite Hb00, Hbv0. split_and!.
        -- rewrite <- Hm0. symmetry. apply min_x_y_ext. intros r Hr. apply (Hold 0).
           by rewrite Hb00.
        -- rewrite <- Hmv. symmetry. apply min_x_y_ext. intros r Hr. apply (Hold v).
           by rewrite Hbv0.
        -- eapply shifted_by_ext; [| |exact Hs]; [|done].
           intros r Hr. symmetry. apply (Hold v). by rewrite Hbv0.
        -- apply cached_insert.
      * destruct (Hmoved j vj ltac:(lia) Hvj Hposj)
          as (m0' & mv' & ? & ? & Hs' & (g' & o & Hg' & ? & ?)).
        exists m0', mv'. split_and!; [done..| |].
        -- eapply shifted_by_ext; [| |exact Hs']; [done|].
           intros r Hr. apply Hfr. rewrite <- Hbv0. intros Hin.
           destruct (one_bucket _ _ _ _ _ Hr Hin). lia.
        -- exists g', o. rewrite lookup_insert_ne by lia. done.
  - rewrite place_keys_default by done. intros [= <- <- <-]. split_and!.
    + done.
    + intros n g' Hn. apply Hnone. lia.
    + intros r Hr. apply Hframe. intros j vj Hj. apply Hr. lia.
    + intros j vj Hj Hvj Hposj. destruct (decide (j = k)) as [->|Hjk].
      * assert (vj = v) as -> by congruence. lia.
      * apply Hmoved; [lia|done..].
Qed.

Lemma select_loop l :
  forall k d q h d' q' h',
    (k <= length layout_idx)%nat ->
    drop k layout_idx = l ->
    selected_upto d0 h0 layout_idx k d h ->
    mfold select_option (imap (fun i a => (Z.of_nat (k + i), a)) l) (d, q) h = (Ok (d', q'), h') ->
    selected_upto d0 h0 layout_idx (length layout_idx) d' h'.
Proof.
  induction l as [|v l IH]; intros k d q h d' q' h' Hle Hdrop Hinv.
  - simpl. intros [= <- <- <-].
    assert (Hk : (length layout_idx <= k)%nat).
    { apply (f_equal length) in Hdrop. rewrite length_drop in Hdrop. simpl in Hdrop. lia. }
    by replace (length layout_idx) with k by lia.
  - assert (Hk : layout_idx !! k = Some v).
    { rewrite <- (Nat.add_0_r k), <- lookup_drop, Hdrop. done. }
    assert (Hdrop' : drop (S k) layout_idx = l).
    { rewrite (drop_S _ _ _ Hk) in Hdrop. by injection Hdrop. }
    rewrite imap_cons, enumerate_shift. cbn [mfold]. rewrite Nat.add_0_r.
    intros Hrun. apply bind_Ok in Hrun as ([d1 q1] & h1 & Hstep & Hrun).
    eapply IH; [|exact Hdrop'| |exact Hrun].
    + apply lookup_lt_Some in Hk. lia.
    + eapply select_option_step; eauto.
Qed.

End SelectionLoop.

Lemma selected_upto_start d h layout_idx :
  (forall n g, d !! n = Some g -> fresh_group g) ->
  selected_upto d h layout_idx 0 d h.
Proof.
  intros Hf. split_and!; [done| |done|intros; lia].
  intros n g _ Hg. by destruct (Hf _ _ Hg).
Qed.

(** The selection loop of [get_specific_layout], run on the dict the grouper
    built. *)
Lemma select_options_spec h ks ml_keys d layout_idx q d' q' h' :
  group_keys h ks ml_keys = Ok d ->
  mfold select_option (enumerate layout_idx) (d, q) h = (Ok (d', q'), h') ->
  selected_upto d h layout_idx (length layout_idx) d' h'.
Proof.
  intros Hd Hrun.
  eapply (select_loop d h layout_idx) with (k := 0%nat); [..|exact Hrun].
  - intros n v n' v' r. by apply (group_keys_one_bucket _ _ _ _ _ _ _ _ _ Hd).
  - intros n g. by apply (group_keys_fresh_group _ _ _ _ _ _ Hd).
  - intros n v. by apply (group_keys_NoDup _ _ _ _ _ _ Hd).
  - lia.
  - done.
  - apply selected_upto_start. intros n g. apply (group_keys_fresh_group _ _ _ _ _ _ Hd).
Qed.

Lemma shift_key_fields key off :
  let key' := shift_key key off in
  Key.x key' = (Key.x key + off.1)%Qc /\ Key.y key' = (Key.y key + off.2)%Qc /\
  (Key.rotation_angle key <> 0%Qc ->
   Key.rotation_x key' = (Key.rotation_x key - off.1)%Qc /\
   Key.rotation_y key' = (Key.rotation_y key - off.2)%Qc) /\
  (Key.rotation_angle key = 0%Qc ->
   Key.rotation_x key' = Key.rotation_x key /\ Key.rotation_y key' = Key.rotation_y key) /\
  Key.rotation_angle key' = Key.rotation_angle key /\
  Key.labels key' = Key.labels key /\
  Key.width key' = Key.width key /\ Key.height key' = Key.height key /\
  Key.decal key' = Key.decal key.
Proof.
  unfold shift_key. simpl.
  destruct (Coord.is_zero (Key.rotation_angle key)) eqn:Hz; simpl.
  - apply is_zero_true in Hz. split_and!; try done.
  - assert (Key.rotation_angle key <> 0%Qc).
    { intros H%is_zero_true. congruence. }
    split_and!; try done.
Qed.

(** C4.  In the selection loop of [get_specific_layout], for every group [n]
    with selected value [v > 0], the offset is the min-corner of the keys of
    value 0 minus the min-corner of the keys of value [v], both taken on the
    heap the loop starts from; every key of value [v] gets [dx] added to x
    and [dy] added to y, and, exactly when its rotation angle is not zero,
    [dx] subtracted from rotation_x and [dy] from rotation_y; the offset is
    in the cache afterwards, so that asking for it again returns it without
    computing anything.  When the selected value is 0, no key of the group
    changes. *)
Theorem selected_offsets h ks ml_keys d layout_idx q d' q' h' :
  group_keys h ks ml_keys = Ok d ->
  mfold select_option (enumerate layout_idx) (d, q) h = (Ok (d', q'), h') ->
  forall (n : nat) v, layout_idx !! n = Some v ->
    (0 < v ->
     exists m0 mv,
       min_x_y h (bucket_of d (Z.of_nat n) 0) = Ok m0 /\
       min_x_y h (bucket_of d (Z.of_nat n) v) = Ok mv /\
       let dx := (m0.1 - mv.1)%Qc in
       let dy := (m0.2 - mv.2)%Qc in
       (forall r, r ∈ bucket_of d (Z.of_nat n) v ->
          exists key key',
            get_key h r = Ok key /\ get_key h' r = Ok key' /\
            Key.x key' = (Key.x key + dx)%Qc /\ Key.y key' = (Key.y key + dy)%Qc /\
            (Key.rotation_angle key <> 0%Qc ->
             Key.rotation_x key' = (Key.rotation_x key - dx)%Qc /\
             Key.rotation_y key' = (Key.rotation_y key - dy)%Qc) /\
            (Key.rotation_angle key = 0%Qc ->
             Key.rotation_x key' = Key.rotation_x key /\
             Key.rotation_y key' = Key.rotation_y key) /\
            Key.rotation_angle key' = Key.rotation_angle key /\
            Key.labels key' = Key.labels key /\
            Key.width key' = Key.width key /\ Key.height key' = Key.height key /\
            Key.decal key' = Key.decal key)
       /\ (forall h2, offset_for h2 d' (Z.of_nat n) v = Ok (d', (dx, dy))))
    /\ (v = 0 ->
        forall w r, r ∈ bucket_of d (Z.of_nat n) w -> get_key h' r = get_key h r).
Proof.
  intros Hd Hrun n v Hn.
  destruct (select_options_spec _ _ _ _ _ _ _ _ _ Hd Hrun) as (_ & _ & Hframe & Hmoved).
  pose proof (lookup_lt_Some _ _ _ Hn) as Hlt. split.
  - intros Hpos. destruct (Hmoved n v Hlt Hn Hpos) as (m0 & mv & Hm0 & Hmv & Hs & Hc).
    exists m0, mv. split; [done|]. split; [done|]. cbv zeta. split.
    + intros r Hr. destruct (Hs r Hr) as (key & Hk & Hk').
      exists key, (shift_key key ((m0.1 - mv.1)%Qc, (m0.2 - mv.2)%Qc)).
      split; [done|]. split; [done|]. apply shift_key_fields.
    + intros h2. by apply offset_for_cached.
  - intros -> w r Hr. apply get_key_ext, Hframe. intros j vj Hj Hvj Hpos Hin.
    destruct (group_keys_one_bucket _ _ _ _ _ _ _ _ _ Hd Hr Hin) as [Hnj _].
    apply Nat2Z.inj in Hnj. subst j. rewrite Hn in Hvj. injection Hvj as <-. lia.
Qed.

(** C5.  For every group [n] with selected value [v > 0], once the selection
    loop has moved the keys of value [v], their min-corner is the min-corner
    that the keys of value 0 had when the loop started. *)
Theorem selected_min_corner h ks ml_keys d layout_idx q d' q' h' :
  group_keys h ks ml_keys = Ok d ->
  mfold select_option (enumerate layout_idx) (d, q) h = (Ok (d', q'), h') ->
  forall (n : nat) v, layout_idx !! n = Some v -> 0 < v ->
    exists m0,
      min_x_y h (bucket_of d (Z.of_nat n) 0) = Ok m0 /\
      min_x_y h' (bucket_of d (Z.of_nat n) v) = Ok m0.
Proof.
  intros Hd Hrun n v Hn Hpos.
  destruct (select_options_spec _ _ _ _ _ _ _ _ _ Hd Hrun) as (_ & _ & _ & Hmoved).
  destruct (Hmoved n v (lookup_lt_Some _ _ _ Hn) Hn Hpos) as (m0 & mv & Hm0 & Hmv & Hs & _).
  exists m0. split; [done|].
  rewrite (min_x_y_shifted _ _ _ _ _ Hs Hmv). simpl. destruct m0 as [m0x m0y]. simpl.
  do 2 f_equal; ring.
Qed.

(** ** The default layout on particular keyboards *)

(** C2 fails on the code.  One group with three values: value 0 has two
    keys, value 1 has two keys, value 2 has one key, and the keys come in
    that order.  Values 0 and 1 both reach the maximum and the counts are not
    all equal, so value 0, the first one met, is to be the single choice.
    The loop records 0 under ["max"]; since 0 counts as no entry at all, the
    choice is made again at the first key of value 1, which replaces it.
    Before the reconciliation pass the output holds the two keys of value 0
    and the two keys of value 1 (the copies 5, 6 and 7, 8). *)
Theorem default_choice_keeps_two_values :
  let h := Examples.board
             [Examples.key_at 0 0 (Examples.slots "0" "" "0" "0" "0");
              Examples.key_at 1 0 (Examples.slots "0" "" "0" "0" "1");
              Examples.key_at 0 1 (Examples.slots "0" "" "1" "0" "0");
              Examples.key_at 1 1 (Examples.slots "0" "" "1" "0" "1");
              Examples.key_at 0 2 (Examples.slots "0" "" "2" "0" "0")] in
  exists ml_keys d q h',
    (kbd <- deepcopy 0%nat ;; choose_keys kbd) h = (Ok (ml_keys, (d, q)), h') /\
    bucket_of d 0 0 = [5; 6]%nat /\
    bucket_of d 0 1 = [7; 8]%nat /\
    bucket_of d 0 2 = [9]%nat /\
    g_max <$> d !! 0 = Some (Some 1) /\
    q = [5; 6; 7; 8]%nat.
Proof.
  intros h. eexists _, _, _, _. split; [vm_compute; reflexivity|].
  split_and!; vm_compute; reflexivity.
Qed.

Section Sorted.

Variable sort_keys : list Key.t -> list ref -> list ref.
Hypothesis sort_keys_permutation : forall ks l, Permutation (sort_keys ks l) l.

(** C6 fails on the code.  Two multilayout keys of group 0 and value 0, the
    second one with the encoder marker in slot 4.  The loop that picks the
    keys of the chosen value and the reconciliation loop go over all
    multilayout keys, without the test on slot 4 that the grouping loop has:
    the copy of the encoder key (reference 3) is in the key list of the
    result. *)
Theorem default_layout_keeps_encoder_key :
  let h := Examples.board
             [Examples.key_at 0 0 (Examples.slots "0" "" "0" "0" "0");
              Examples.key_at 1 0 (Examples.slots "0" "e" "0" "0" "1")] in
  exists kbd h' keys key,
    get_layout_all sort_keys 0%nat h = (Ok kbd, h') /\
    kbd_keys h' kbd = Ok keys /\
    3%nat ∈ keys /\
    get_key h' 3%nat = Ok key /\
    is_encoder key = Ok true.
Proof.
  intros h. eexists _, _, _, _. split; [vm_compute; reflexivity|].
  split; [vm_compute; reflexivity|].
  split; [|split; vm_compute; reflexivity].
  rewrite sort_keys_permutation. set_solver.
Qed.

(** C9.  A plain key at x = 5, a key of value 0 at x = 1 and a key of value
    1 at x = 3, all in group 0.  [get_alternate_layouts] resolves the
    selection [1] twice on the same keyboard object, without a copy.  The
    first resolution writes to the keys of the caller, the second one starts
    from the heap the first one left, and what the second key list shows
    when it is returned differs from what the first one showed: the plain key
    is at x = 4 in the first and at x = 3 in the second. *)
Theorem alternate_layouts_differ :
  let h := Examples.board
             [Examples.key_at 5 0 (Examples.slots "" "" "" "" "");
              Examples.key_at 1 0 (Examples.slots "0" "" "0" "" "");
              Examples.key_at 3 0 (Examples.slots "0" "" "1" "" "")] in
  exists l1 h1 l2 h2,
    get_specific_layout sort_keys 0%nat [1] h = (Ok l1, h1) /\
    get_specific_layout sort_keys 0%nat [1] h1 = (Ok l2, h2) /\
    get_alternate_layouts sort_keys 0%nat [("a"%string, [1]); ("b"%string, [1])] h =
      (Ok [("a"%string, l1); ("b"%string, l2)], h2) /\
    h <> h1 /\ h1 <> h2 /\
    Examples.view h1 l1 <> Examples.view h2 l2.
Proof.
  intros h. eexists _, _, _, _. split; [vm_compute; reflexivity|].
  split; [vm_compute; reflexivity|].
  split; [vm_compute; reflexivity|].
  split; [intros [= H]; vm_compute in H; discriminate|].
  split; [intros [= H]; vm_compute in H; discriminate|].
  intros Heq.
  match type of Heq with Examples.view ?h1 ?l1 = Examples.view ?h2 ?l2 =>
    assert (Hin : Examples.shown h1 0%nat ∈ Examples.view h2 l2)
  end.
  { rewrite <- Heq. apply (list_elem_of_fmap_2 (Examples.shown _)).
    rewrite sort_keys_permutation. set_solver. }
  apply (list_elem_of_fmap_1 (Examples.shown _)) in Hin as (r & Hr & Hin).
  rewrite sort_keys_permutation in Hin.
  repeat (apply elem_of_cons in Hin as [->|Hin]; [vm_compute in Hr; discriminate|]).
  by apply elem_of_nil in Hin.
Qed.

End Sorted.

Lemma unsorted_permutation ks l : Permutation (Examples.unsorted ks l) l.
Proof. reflexivity. Qed.

(** ** The reconciliation pass *)

Lemma matrix_of_acc h l acc m :
  rfold (fun acc r => key <~ get_key h r ;; rc <~ extract_row_col key ;; Ok (acc ++ [rc]))
        l acc = Ok m <->
  exists m', m = acc ++ m' /\ Forall2 (fun r rc => coord_of h r = Ok rc) l m'.
Proof.
  revert acc m; induction l as [|r l IH]; intros acc m; simpl.
  - split.
    + intros [= <-]. exists []. by rewrite app_nil_r.
    + intros (m' & -> & ->%Forall2_nil_inv_l). by rewrite app_nil_r.
  - assert (Hstep : (key <~ get_key h r ;; rc <~ extract_row_col key ;; Ok (acc ++ [rc])) =
                    (rc <~ coord_of h r ;; Ok (acc ++ [rc]))).
    { unfold coord_of. by destruct (get_key h r). }
    rewrite Hstep. destruct (coord_of h r) as [rc|] eqn:Hc; simpl.
    2:{ split; [discriminate|]. intros (m' & _ & H).
        apply Forall2_cons_inv_l in H as (? & ? & ? & _). congruence. }
    rewrite IH. split.
    + intros (m' & -> & H). exists (rc :: m'). split; [by rewrite <- app_assoc|].
      by constructor.
    + intros (m' & -> & H). apply Forall2_cons_inv_l in H as (rc' & m'' & Hk & H & ->).
      assert (rc' = rc) as -> by congruence.
      exists m''. split; [by rewrite <- app_assoc|done].
Qed.

Lemma matrix_of_Ok h l m :
  matrix_of h l = Ok m <-> Forall2 (fun r rc => coord_of h r = Ok rc) l m.
Proof.
  unfold matrix_of. rewrite matrix_of_acc. split.
  - by intros (m' & -> & H).
  - intros H. by exists m.
Qed.

Lemma matrix_of_snoc h l r m rc :
  matrix_of h l = Ok m -> coord_of h r = Ok rc -> matrix_of h (l ++ [r]) = Ok (m ++ [rc]).
Proof.
  rewrite !matrix_of_Ok. intros H Hr. apply Forall2_app; [done|]. by repeat constructor.
Qed.

Lemma reconcile_key_run h d q r d' q' :
  reconcile_key h (d, q) r = Ok (d', q') ->
  exists n rc m g w b,
    group_of h r = Ok n /\ coord_of h r = Ok rc /\ chosen_matrix h d n = Ok m /\
    d !! n = Some g /\ g_max g = Some w /\ buckets g !! w = Some b /\ matrix_of h b = Ok m /\
    if bool_decide (rc ∈ m) then d' = d /\ q' = q
    else d' = <[n := set_bucket g w (b ++ [r])]> d /\ q' = q ++ [r].
Proof.
  unfold reconcile_key, group_of, coord_of, chosen_matrix. simpl.
  destruct (get_key h r) as [key|]; [|discriminate]. simpl.
  destruct (extract_ml_val_ndx key) as [[n v]|]; [|discriminate]. simpl.
  unfold group_at. destruct (d !! n) as [g|] eqn:Hg; [|discriminate]. simpl.
  unfold max_at. destruct (g_max g) as [w|] eqn:Hw; [|discriminate]. simpl.
  unfold bucket_at. destruct (buckets g !! w) as [b|] eqn:Hb; [|discriminate]. simpl.
  destruct (matrix_of h b) as [m|] eqn:Hm; [|discriminate]. simpl.
  destruct (extract_row_col key) as [rc|]; [|discriminate]. simpl.
  intros H. exists n, rc, m, g, w, b. split_and!; try done.
  - rewrite Hg. simpl. rewrite Hw. simpl. by rewrite Hb.
  - case_bool_decide; by injection H as <- <-.
Qed.

Lemma chosen_matrix_insert_ne h d n g n' :
  n <> n' -> chosen_matrix h (<[n := g]> d) n' = chosen_matrix h d n'.
Proof. intros H. unfold chosen_matrix, group_at. by rewrite lookup_insert_ne. Qed.

Lemma same_place_iff h n rc r :
  same_place h n rc r = true <-> group_of h r = Ok n /\ coord_of h r = Ok rc.
Proof.
  unfold same_place. destruct (group_of h r) as [n'|], (coord_of h r) as [rc'|];
    rewrite ?bool_decide_eq_true; naive_solver.
Qed.

Lemma forallb_not_same_place h n rc l :
  forallb (fun r' => negb (same_place h n rc r')) l = true <->
  ~ exists r', r' ∈ l /\ same_place h n rc r' = true.
Proof.
  rewrite forallb_forall. split.
  - intros H (r' & Hin%list_elem_of_In & Hs). specialize (H r' Hin). by rewrite Hs in H.
  - intros H r' Hin%list_elem_of_In. destruct (same_place h n rc r') eqn:Hs; [|done].
    destruct H. eauto.
Qed.

Lemma reconcile_step h d0 earlier d q r d' q' :
  reconciled_upto h d0 earlier d ->
  reconcile_key h (d, q) r = Ok (d', q') ->
  reconciled_upto h d0 (earlier ++ [r]) d' /\
  q' = q ++ (if is_missing_first h d0 earlier r then [r] else []).
Proof.
  intros Hinv (n & rc & m & g & w & b & Hn & Hrc & Hm & Hg & Hw & Hb & Hmb & H)%reconcile_key_run.
  destruct (Hinv n m Hm) as (m0 & Hm0 & Hiff).
  assert (Hhere : same_place h n rc r = true) by (by apply same_place_iff).
  assert (Hmiss : is_missing_first h d0 earlier r = negb (bool_decide (rc ∈ m))).
  { unfold is_missing_first. rewrite Hn, Hrc, Hm0.
    apply eq_true_iff_eq. rewrite andb_true_iff, negb_true_iff, bool_decide_eq_true,
      bool_decide_eq_false, forallb_not_same_place, Hiff. tauto. }
  rewrite Hmiss. case_bool_decide as Hin; simpl.
  - destruct H as [-> ->]. split; [|by rewrite app_nil_r].
    intros n' m' Hm'. destruct (Hinv n' m' Hm') as (m0' & Hm0' & Hiff').
    exists m0'. split; [done|]. intros c. rewrite Hiff'. split.
    + intros [?|(r' & ? & ?)]; [by left|]. right. exists r'. split; [set_solver|done].
    + intros [?|(r' & [?| ->%list_elem_of_singleton]%elem_of_app & Hs)]; [by left|right; eauto|].
      apply same_place_iff in Hs as [Hn' Hc].
      assert (n' = n) as -> by congruence. assert (c = rc) as -> by congruence.
      assert (m' = m) as -> by congruence. by apply Hiff'.
  - destruct H as [-> ->]. split; [|done].
    intros n' m' Hm'. destruct (decide (n = n')) as [<-|Hne].
    + assert (m' = m ++ [rc]) as ->.
      { unfold chosen_matrix, group_at, max_at, bucket_at in Hm'.
        rewrite lookup_insert_eq in Hm'. simpl in Hm'. rewrite Hw in Hm'. simpl in Hm'.
        rewrite lookup_insert_eq in Hm'. simpl in Hm'.
        rewrite (matrix_of_snoc _ _ _ _ _ Hmb Hrc) in Hm'. by injection Hm'. }
      exists m0. split; [done|]. intros c. rewrite elem_of_app, Hiff, list_elem_of_singleton. split.
      * intros [[?|(r' & ? & ?)]| ->]; [by left|right; exists r'; split; [set_solver|done]|].
        right. exists r. split; [set_solver|done].
      * intros [?|(r' & [?| ->%list_elem_of_singleton]%elem_of_app & Hs)];
          [left; by left|left; right; eauto|].
        right. apply same_place_iff in Hs as [_ Hc]. congruence.
    + rewrite chosen_matrix_insert_ne in Hm' by done.
      destruct (Hinv n' m' Hm') as (m0' & Hm0' & Hiff').
      exists m0'. split; [done|]. intros c. rewrite Hiff'. split.
      * intros [?|(r' & ? & ?)]; [by left|]. right. exists r'. split; [set_solver|done].
      * intros [?|(r' & [?| ->%list_elem_of_singleton]%elem_of_app & Hs)]; [by left|right; eauto|].
        apply same_place_iff in Hs as [Hn' _]. congruence.
Qed.

Lemma reconcile_loop h d0 keys :
  forall earlier d q d' q',
    reconciled_upto h d0 earlier d ->
    reconcile h keys (d, q) = Ok (d', q') ->
    q' = q ++ missing_firsts h d0 earlier keys.
Proof.
  unfold reconcile. induction keys as [|r keys IH]; intros earlier d q d' q' Hinv; simpl.
  - intros [= <- <-]. by rewrite app_nil_r.
  - intros H. inv_rbind H as [d1 q1] Hstep.
    destruct (reconcile_step _ _ _ _ _ _ _ _ Hinv Hstep) as [Hinv' ->].
    rewrite (IH _ _ _ _ _ Hinv' H). by rewrite <- app_assoc.
Qed.

Lemma reconciled_upto_start h d : reconciled_upto h d [] d.
Proof.
  intros n m Hm. exists m. split; [done|]. intros rc. split; [by left|].
  intros [?|(r' & Hr' & _)]; [done|]. by apply elem_of_nil in Hr'.
Qed.

Section Reconciled.

Variable sort_keys : list Key.t -> list ref -> list ref.
Hypothesis sort_keys_permutation : forall ks l, Permutation (sort_keys ks l) l.

(** C7 fails on the code.  Group 0 with one key of value 0 at x = 0 and
    three keys of value 1 at x = 5, 6 and 7, the last one with the encoder
    marker in slot 4; the matrix positions are (0, 0), (0, 1), (0, 2) and
    (0, 3).  The grouping loop skips the encoder key, so value 1 has two
    keys, is chosen, and has the matrix positions (0, 1) and (0, 2).  The
    loop that picks the keys of the chosen value has no test on slot 4: it
    moves the copy of the encoder key (reference 7) by the offset of value 1,
    from x = 7 to x = 2, and appends it.  The reconciliation loop then finds
    its matrix position (0, 3) missing and appends it once more: a key that
    the reconciliation pass appends is not as it was, an offset has been
    applied to it.  The key list of the result holds it at x = 2. *)
Theorem default_layout_appends_offset_key :
  let encoder_key := Examples.key_at 7 0 (Examples.slots "0" "e" "1" "0" "3") in
  let h := Examples.board
             [Examples.key_at 0 0 (Examples.slots "0" "" "0" "0" "0");
              Examples.key_at 5 0 (Examples.slots "0" "" "1" "0" "1");
              Examples.key_at 6 0 (Examples.slots "0" "" "1" "0" "2");
              encoder_key] in
  exists h1 ml_keys d q h2 d' q' kbd h' keys,
    deepcopy 0%nat h = (Ok 1%nat, h1) /\
    get_key h1 7%nat = Ok encoder_key /\
    choose_keys 1%nat h1 = (Ok (ml_keys, (d, q)), h2) /\
    q = [5; 6; 7]%nat /\
    g_max <$> d !! 0 = Some (Some 1) /\
    chosen_matrix h2 d 0 = Ok [(0, 1); (0, 2)] /\
    coord_of h2 7%nat = Ok (0, 3) /\
    reconcile h2 ml_keys (d, q) = Ok (d', q') /\
    q' = [5; 6; 7; 4; 7]%nat /\
    Examples.shown h2 7%nat = Some (2%Q, 0%Q, Key.labels encoder_key) /\
    get_layout_all sort_keys 0%nat h = (Ok kbd, h') /\
    kbd_keys h' kbd = Ok keys /\
    Permutation keys q' /\
    Examples.shown h' 7%nat = Some (2%Q, 0%Q, Key.labels encoder_key).
Proof.
  intros encoder_key h. eexists _, _, _, _, _, _, _, _, _, _.
  split; [vm_compute; reflexivity|].
  split; [vm_compute; reflexivity|].
  split; [vm_compute; reflexivity|].
  split; [reflexivity|].
  split; [vm_compute; reflexivity|].
  split; [vm_compute; reflexivity|].
  split; [vm_compute; reflexivity|].
  split; [vm_compute; reflexivity|].
  split; [reflexivity|].
  split; [vm_compute; reflexivity|].
  split; [vm_compute; reflexivity|].
  split; [vm_compute; reflexivity|].
  split; [apply sort_keys_permutation|].
  vm_compute. reflexivity.
Qed.

End Reconciled.

(** ** Frames *)

Lemma keeps_refl n m h : keeps n m h h.
Proof. by split_and!. Qed.

Lemma keeps_trans n m h1 h2 h3 : keeps n m h1 h2 -> keeps n m h2 h3 -> keeps n m h1 h3.
Proof.
  intros (A1 & B1 & C1 & D1) (A2 & B2 & C2 & D2). split_and!; [congruence|congruence|lia|lia].
Qed.

Lemma keeps_write_key n m h r k : (n <= r)%nat -> keeps n m h (write_key h r k).
Proof.
  intros H. unfold keeps. simpl. rewrite take_insert_ge by done. rewrite length_insert.
  by split_and!.
Qed.

Lemma keeps_alloc_key n m h k r h' :
  (n <= length (key_objs h))%nat -> alloc_key k h = (Ok r, h') ->
  keeps n m h h' /\ (n <= r)%nat /\ key_objs h' = key_objs h ++ [k] /\ kbd_objs h' = kbd_objs h.
Proof.
  intros H [= <- <-]. unfold keeps. simpl.
  rewrite take_app_le by done. rewrite length_app. split_and!; try done; lia.
Qed.

Lemma keeps_set_kbd_keys n m h kb ks : (m <= kb)%nat -> keeps n m h (set_kbd_keys kb ks h).2.
Proof.
  intros H. unfold keeps. simpl. rewrite take_insert_ge by done. rewrite length_insert.
  by split_and!.
Qed.

Lemma keeps_lookup_key h h' r key :
  keeps (length (key_objs h)) (length (kbd_objs h)) h h' ->
  key_objs h !! r = Some key -> key_objs h' !! r = Some key.
Proof.
  intros (A & _) Hr. rewrite (take_ge (key_objs h)) in A by done.
  rewrite <- A in Hr. rewrite lookup_take_Some in Hr. tauto.
Qed.

Lemma keeps_lookup_kbd h h' b ks :
  keeps (length (key_objs h)) (length (kbd_objs h)) h h' ->
  kbd_objs h !! b = Some ks -> kbd_objs h' !! b = Some ks.
Proof.
  intros (_ & B & _) Hb. rewrite (take_ge (kbd_objs h)) in B by done.
  rewrite <- B in Hb. rewrite lookup_take_Some in Hb. tauto.
Qed.

(** What [place_key] and [choose_key] do to the heap and to the output. *)
Lemma place_key_heap ndx val st r h res h' :
  place_key ndx val st r h = (res, h') ->
  (h' = h \/ exists k, h' = write_key h r k) /\
  forall st', res = Ok st' -> st'.2 = st.2 ++ [r].
Proof.
  unfold place_key. destruct (0 <? val).
  - unfold bind at 1, reading. destruct (offset_for h st.1 ndx val) as [p|e].
    + unfold bind. rewrite apply_offset_run. destruct (key_objs h !! r) as [key|].
      * intros [= <- <-]. split; [right; eauto|]. by intros st' [= <-].
      * intros [= <- <-]. split; [by left|discriminate].
    + intros [= <- <-]. split; [by left|discriminate].
  - intros [= <- <-]. split; [by left|]. by intros st' [= <-].
Qed.

Lemma choose_key_heap st r h res h' :
  choose_key st r h = (res, h') ->
  (h' = h \/ exists k, h' = write_key h r k) /\
  forall st', res = Ok st' -> st'.2 = st.2 \/ st'.2 = st.2 ++ [r].
Proof.
  unfold choose_key. unfold bind at 1, reading.
  destruct (get_key h r) as [key|]; [|intros [= <- <-]; split; [by left|discriminate]].
  unfold bind at 1, lift.
  destruct (extract_ml_val_ndx key) as [p|]; [|intros [= <- <-]; split; [by left|discriminate]].
  unfold bind at 1.
  destruct (group_at st.1 p.1) as [g|]; [|intros [= <- <-]; split; [by left|discriminate]].
  unfold bind at 1.
  destruct (py_max (ml_val_lengths g)) as [mx|]; [|intros [= <- <-]; split; [by left|discriminate]].
  unfold bind at 1.
  destruct (bucket_at g p.2) as [b|]; [|intros [= <- <-]; split; [by left|discriminate]].
  match goal with |- context [match ?c with Some _ => _ | None => _ end] => destruct c as [g'|] end.
  2:{ intros [= <- <-]. split; [by left|]. intros st' [= <-]. by left. }
  unfold bind at 1.
  destruct (max_at g') as [w|]; [|intros [= <- <-]; split; [by left|discriminate]].
  destruct (negb (w =? p.2)).
  - intros [= <- <-]. split; [by left|]. intros st' [= <-]. by left.
  - intros [Hh Hst]%place_key_heap. split; [done|]. intros st' ->. right. by apply Hst.
Qed.

Lemma choose_loop_frame n m l :
  Forall (fun r => n <= r)%nat l ->
  forall st h res h',
    mfold choose_key l st h = (res, h') ->
    keeps n m h h' /\
    forall st', res = Ok st' -> forall r, r ∈ st'.2 -> r ∈ st.2 \/ r ∈ l.
Proof.
  induction 1 as [|r l Hr Hl IH]; intros st h res h'; simpl.
  - intros [= <- <-]. split; [apply keeps_refl|]. intros st' [= <-]. auto.
  - unfold bind. destruct (choose_key st r h) as [[st1|e] h1] eqn:Hstep.
    + apply choose_key_heap in Hstep as [Hh Hst]. intros [Hk Hsub]%IH. split.
      * eapply keeps_trans; [|exact Hk]. destruct Hh as [->|[k ->]];
          [apply keeps_refl|by apply keeps_write_key].
      * intros st' Hres r' Hin. destruct (Hsub st' Hres r' Hin) as [Hin1|?]; [|set_solver].
        destruct (Hst st1 eq_refl) as [E|E]; rewrite E in Hin1; set_solver.
    + apply choose_key_heap in Hstep as [Hh _]. intros [= <- <-]. split; [|discriminate].
      destruct Hh as [->|[k ->]]; [apply keeps_refl|by apply keeps_write_key].
Qed.

Lemma rebase_loop_frame n m off q :
  Forall (fun r => n <= r)%nat q ->
  forall h res h',
    mfold (fun (_ : unit) r =>
             key <- reading (fun h => get_key h r) ;; put_key r (rebase_key key off)) q tt h
      = (res, h') ->
    keeps n m h h'.
Proof.
  induction 1 as [|r q Hr Hq IH]; intros h res h'; simpl.
  - intros [= <- <-]. apply keeps_refl.
  - unfold bind at 1. unfold bind at 1, reading. destruct (get_key h r) as [key|].
    + simpl. intros Hrun%IH. eapply keeps_trans; [|exact Hrun]. by apply keeps_write_key.
    + intros [= <- <-]. apply keeps_refl.
Qed.

Lemma normalize_frame n m q h res h' :
  Forall (fun r => n <= r)%nat q -> normalize q h = (res, h') -> keeps n m h h'.
Proof.
  intros Hq. unfold normalize, bind at 1, reading. destruct (min_x_y h q) as [off|].
  - by apply rebase_loop_frame.
  - intros [= <- <-]. apply keeps_refl.
Qed.

Lemma reconcile_subset h keys :
  forall st st', reconcile h keys st = Ok st' ->
    forall r, r ∈ st'.2 -> r ∈ st.2 \/ r ∈ keys.
Proof.
  unfold reconcile. induction keys as [|k keys IH]; intros [d q] st'; simpl.
  - intros [= <-]. auto.
  - intros H. inv_rbind H as [d1 q1] Hstep.
    apply reconcile_key_run in Hstep as (n & rc & mx & g & w & b & _ & _ & _ & _ & _ & _ & _ & Hq).
    intros r Hin. destruct (IH _ _ H r Hin) as [Hin1|?]; [|set_solver]. simpl in *.
    destruct (bool_decide (rc ∈ mx)); destruct Hq as [_ ->]; set_solver.
Qed.

Lemma plain_keys_acc h l :
  forall acc q,
    rfold (fun qmk_keys r =>
             key <~ get_key h r ;; e <~ is_encoder key ;;
             if e : bool then Ok qmk_keys else Ok (qmk_keys ++ [r])) l acc = Ok q ->
    forall r, r ∈ q -> r ∈ acc \/ r ∈ l.
Proof.
  induction l as [|k l IH]; intros acc q; simpl.
  - intros [= <-]. auto.
  - intros H. inv_rbind H as acc1 Hstep. intros r Hin.
    destruct (IH _ _ H r Hin) as [Hin1|?]; [|set_solver].
    destruct (get_key h k) as [key|]; [|discriminate]. simpl in Hstep.
    destruct (is_encoder key) as [[|]|]; simpl in Hstep; [| |discriminate];
      injection Hstep as <-; set_solver.
Qed.

Lemma plain_keys_subset h ks ml_keys q r :
  plain_keys h ks ml_keys = Ok q -> r ∈ q -> r ∈ ks.
Proof.
  intros H Hin. destruct (plain_keys_acc _ _ _ _ H r Hin) as [Hn|Hf]; [by apply elem_of_nil in Hn|].
  by apply list_elem_of_filter in Hf as [_ ?].
Qed.

Lemma ml_keys_in_order_subset ks ml_keys r : r ∈ ml_keys_in_order ks ml_keys -> r ∈ ks.
Proof. unfold ml_keys_in_order. by intros [_ ?]%list_elem_of_filter. Qed.

(** ** Copies *)

Lemma copy_keys_frame n m ks :
  forall memo h res h',
    (n <= length (key_objs h))%nat ->
    (forall r r', memo !! r = Some r' -> (n <= r')%nat) ->
    copy_keys memo ks h = (res, h') ->
    keeps n m h h' /\ kbd_objs h' = kbd_objs h /\
    forall ks', res = Ok ks' -> Forall (fun r => n <= r)%nat ks'.
Proof.
  induction ks as [|r ks IH]; intros memo h res h' Hn Hmemo; simpl.
  - intros [= <- <-]. split_and!; [apply keeps_refl|done|]. by intros ks' [= <-].
  - destruct (memo !! r) as [r'|] eqn:Hr.
    + unfold bind. destruct (copy_keys memo ks h) as [[rs|e] h1] eqn:Hrec.
      * destruct (IH _ _ _ _ Hn Hmemo Hrec) as (Hk & Hkb & Hrs).
        intros [= <- <-]. split_and!; [done..|]. intros ks' [= <-].
        constructor; [by eapply Hmemo|by apply Hrs].
      * destruct (IH _ _ _ _ Hn Hmemo Hrec) as (Hk & Hkb & _).
        intros [= <- <-]. split_and!; [done..|discriminate].
    + unfold bind at 1, reading. destruct (get_key h r) as [key|].
      2:{ intros [= <- <-]. split_and!; [apply keeps_refl|done|discriminate]. }
      unfold bind at 1. destruct (alloc_key key h) as [[r'|e] h1] eqn:Ha.
      2:{ discriminate Ha. }
      destruct (keeps_alloc_key n m _ _ _ _ Hn Ha) as (Hk1 & Hr' & Hobjs & Hkb1).
      assert (Hn1 : (n <= length (key_objs h1))%nat).
      { destruct Hk1 as (_ & _ & ? & _). lia. }
      assert (Hmemo1 : forall a b, <[r := r']> memo !! a = Some b -> (n <= b)%nat).
      { intros a b0. destruct (decide (r = a)) as [<-|].
        - rewrite lookup_insert_eq. by intros [= <-].
        - rewrite lookup_insert_ne by done. apply Hmemo. }
      unfold bind. destruct (copy_keys (<[r := r']> memo) ks h1) as [[rs|e] h2] eqn:Hrec.
      * destruct (IH _ _ _ _ Hn1 Hmemo1 Hrec) as (Hk & Hkb & Hrs).
        intros [= <- <-]. split_and!; [by eapply keeps_trans|congruence|].
        intros ks' [= <-]. constructor; [done|by apply Hrs].
      * destruct (IH _ _ _ _ Hn1 Hmemo1 Hrec) as (Hk & Hkb & _).
        intros [= <- <-]. split_and!; [by eapply keeps_trans|congruence|discriminate].
Qed.

Lemma deepcopy_frame kb h res h' :
  deepcopy kb h = (res, h') ->
  keeps (length (key_objs h)) (length (kbd_objs h)) h h' /\
  forall kbd', res = Ok kbd' ->
    kbd' = length (kbd_objs h) /\
    exists ks', kbd_objs h' = kbd_objs h ++ [ks'] /\
      Forall (fun r => length (key_objs h) <= r)%nat ks'.
Proof.
  unfold deepcopy, bind at 1, reading. destruct (kbd_keys h kb) as [ks|].
  2:{ intros [= <- <-]. split; [apply keeps_refl|discriminate]. }
  unfold bind. destruct (copy_keys ∅ ks h) as [[ks'|e] h1] eqn:Hc.
  - destruct (copy_keys_frame (length (key_objs h)) (length (kbd_objs h)) _ _ _ _ _
                (le_n _) ltac:(intros ??; by rewrite lookup_empty) Hc) as (Hk & Hkb & Hks).
    intros [= <- <-]. split.
    + eapply keeps_trans; [exact Hk|]. unfold keeps. simpl. rewrite Hkb.
      rewrite take_app_le by done. rewrite length_app. split_and!; try done; lia.
    + intros kbd' [= <-]. rewrite Hkb. split; [done|]. exists ks'. simpl.
      split; [done|]. by apply Hks.
  - destruct (copy_keys_frame (length (key_objs h)) (length (kbd_objs h)) _ _ _ _ _
                (le_n _) ltac:(intros ??; by rewrite lookup_empty) Hc) as (Hk & Hkb & _).
    intros [= <- <-]. split; [done|discriminate].
Qed.

Lemma choose_keys_frame n m kbd h res h' ks :
  kbd_keys h kbd = Ok ks -> Forall (fun r => n <= r)%nat ks ->
  choose_keys kbd h = (res, h') ->
  keeps n m h h' /\
  forall p, res = Ok p ->
    Forall (fun r => n <= r)%nat p.1 /\ Forall (fun r => n <= r)%nat p.2.2.
Proof.
  intros Hks Hn. unfold choose_keys. unfold bind at 1, reading.
  destruct (get_multilayout_keys h kbd) as [ml_keys|];
    [|intros [= <- <-]; split; [apply keeps_refl|discriminate]].
  unfold bind at 1. rewrite Hks.
  unfold bind at 1. destruct (plain_keys h ks ml_keys) as [q|] eqn:Hq;
    [|intros [= <- <-]; split; [apply keeps_refl|discriminate]].
  unfold bind at 1. destruct (group_keys h ks ml_keys) as [d|] eqn:Hd;
    [|intros [= <- <-]; split; [apply keeps_refl|discriminate]].
  assert (Hl : Forall (fun r => n <= r)%nat (ml_keys_in_order ks ml_keys)).
  { apply Forall_forall. intros r Hr%ml_keys_in_order_subset.
    by eapply Forall_forall in Hn. }
  assert (Hq' : Forall (fun r => n <= r)%nat q).
  { apply Forall_forall. intros r Hr. eapply Forall_forall in Hn; [exact Hn|].
    by eapply plain_keys_subset. }
  unfold bind. destruct (mfold choose_key _ (d, q) h) as [[st|e] h1] eqn:Hrun.
  - destruct (choose_loop_frame n m _ Hl _ _ _ _ Hrun) as [Hk Hsub].
    intros [= <- <-]. split; [done|]. intros p [= <-]. simpl. split; [done|].
    apply Forall_forall. intros r Hr. destruct (Hsub st eq_refl r Hr) as [Hin|Hin].
    + by eapply Forall_forall in Hq'.
    + by eapply Forall_forall in Hl.
  - destruct (choose_loop_frame n m _ Hl _ _ _ _ Hrun) as [Hk _].
    intros [= <- <-]. split; [done|discriminate].
Qed.

Section Frame.

Variable sort_keys : list Key.t -> list ref -> list ref.
Hypothesis sort_keys_permutation : forall ks l, Permutation (sort_keys ks l) l.

(** C8.  Whatever [get_layout_all] returns or raises, every key object and
    every keyboard object of the heap it is called on is afterwards what it
    was before: position, rotation and labels of every key of the caller's
    keyboard, and the key list of that keyboard.  The keyboard it returns is
    a new object, and every key it owns is a new object. *)
Theorem get_layout_all_frame kbd h res h' :
  get_layout_all sort_keys kbd h = (res, h') ->
  (forall r key, key_objs h !! r = Some key -> key_objs h' !! r = Some key)
  /\ (forall b ks, kbd_objs h !! b = Some ks -> kbd_objs h' !! b = Some ks)
  /\ (forall kbd', res = Ok kbd' ->
        kbd' = length (kbd_objs h) /\
        exists ks', kbd_keys h' kbd' = Ok ks' /\
          forall r, r ∈ ks' -> (length (key_objs h) <= r)%nat).
Proof.
  set (n := length (key_objs h)). set (m := length (kbd_objs h)).
  intros Hrun.
  cut (keeps n m h h' /\
       forall kbd', res = Ok kbd' ->
         kbd' = m /\ exists ks', kbd_keys h' kbd' = Ok ks' /\ forall r, r ∈ ks' -> (n <= r)%nat).
  { intros [Hk Hres]. split_and!; [|intros b ks|exact Hres].
    - intros r key. by apply keeps_lookup_key.
    - by apply keeps_lookup_kbd. }
  revert Hrun. unfold get_layout_all. unfold bind at 1.
  destruct (deepcopy kbd h) as [[kbd1|e] h1] eqn:Hcopy.
  2:{ apply deepcopy_frame in Hcopy as [Hk _]. intros [= <- <-]. split; [done|discriminate]. }
  apply deepcopy_frame in Hcopy as [Hk1 Hc]. destruct (Hc _ eq_refl) as (-> & ks1 & Hkb1 & Hks1).
  fold m in Hkb1 |- *. fold n in Hks1.
  assert (Hkeys1 : kbd_keys h1 m = Ok ks1).
  { unfold kbd_keys. rewrite Hkb1. by rewrite lookup_app_r, Nat.sub_diag by done. }
  unfold bind at 1. destruct (choose_keys m h1) as [[p|e] h2] eqn:Hchoose.
  2:{ destruct (choose_keys_frame n m _ _ _ _ _ Hkeys1 Hks1 Hchoose) as [Hk2 _].
      intros [= <- <-]. split; [by eapply keeps_trans|discriminate]. }
  destruct (choose_keys_frame n m _ _ _ _ _ Hkeys1 Hks1 Hchoose) as [Hk2 Hp].
  destruct (Hp _ eq_refl) as [Hl Hq].
  unfold bind at 1, reading. destruct (reconcile h2 p.1 p.2) as [st|e] eqn:Hrec.
  2:{ intros [= <- <-]. split; [by eapply keeps_trans|discriminate]. }
  assert (Hst : Forall (fun r => n <= r)%nat st.2).
  { apply Forall_forall. intros r Hr. destruct (reconcile_subset _ _ _ _ Hrec r Hr) as [Hin|Hin].
    - by eapply Forall_forall in Hq.
    - by eapply Forall_forall in Hl. }
  unfold bind at 1. destruct (normalize st.2 h2) as [[[]|e] h3] eqn:Hnorm.
  2:{ apply (normalize_frame n m) in Hnorm; [|done]. intros [= <- <-].
      split; [eauto using keeps_trans|discriminate]. }
  apply (normalize_frame n m) in Hnorm; [|done].
  assert (Hk13 : keeps n m h h3) by eauto using keeps_trans.
  unfold bind, set_sorted_keys, bind, ret. simpl. intros [= <- <-]. split.
  - eapply keeps_trans; [exact Hk13|]. unfold keeps. simpl.
    rewrite !take_insert_ge, !length_insert by done. by split_and!.
  - intros kbd' [= <-]. split; [done|]. eexists. split.
    + unfold kbd_keys. simpl. rewrite list_lookup_insert_eq; [done|].
      rewrite length_insert.
      destruct Hk2 as (_ & _ & _ & L2), Hnorm as (_ & _ & _ & L3).
      rewrite Hkb1, length_app in L2. simpl in L2. fold m in L2. lia.
    + intros r Hr. rewrite sort_keys_permutation in Hr. by eapply Forall_forall in Hst.
Qed.

End Frame.

(** ** Which passes read the matrix labels *)

Lemma lookup_error_not_matrix e : lookup_error e -> not_matrix_error e.
Proof. unfold lookup_error, not_matrix_error. naive_solver. Qed.

Lemma label_fails k i : fails_only not_matrix_error (label k i).
Proof. unfold label. destruct (_ !! _); [apply fails_only_Ok|by apply fails_only_Err]. Qed.

Lemma get_key_fails' h r : fails_only not_matrix_error (get_key h r).
Proof. eapply fails_only_weaken; [apply lookup_error_not_matrix|apply get_key_fails]. Qed.

Lemma int_fails s : fails_only not_matrix_error (int s).
Proof.
  unfold int. destruct (too_long _); [by apply fails_only_Err|].
  destruct (decimal_value _ _); [apply fails_only_Ok|by apply fails_only_Err].
Qed.

Lemma extract_ml_val_ndx_fails key : fails_only not_matrix_error (extract_ml_val_ndx key).
Proof.
  unfold extract_ml_val_ndx, extract_ml_val_ndx_at.
  apply fails_only_rbind; [apply label_fails|]. intros l3.
  apply fails_only_rbind; [apply label_fails|]. intros l5.
  destruct (negb _); [by apply fails_only_Err|].
  apply fails_only_rbind; [apply int_fails|]. intros val.
  apply fails_only_rbind; [apply int_fails|]. intros ndx. apply fails_only_Ok.
Qed.

Lemma is_encoder_fails key : fails_only not_matrix_error (is_encoder key).
Proof.
  unfold is_encoder. apply fails_only_rbind; [apply label_fails|]. intros; apply fails_only_Ok.
Qed.

Lemma kbd_keys_fails h kb : fails_only not_matrix_error (kbd_keys h kb).
Proof. unfold kbd_keys. destruct (_ !! _); [apply fails_only_Ok|by apply fails_only_Err]. Qed.

Lemma get_multilayout_keys_fails h kb : fails_only not_matrix_error (get_multilayout_keys h kb).
Proof.
  unfold get_multilayout_keys. apply fails_only_rbind; [apply kbd_keys_fails|]. intros ks.
  apply fails_only_rfold. intros acc r.
  apply fails_only_rbind; [apply get_key_fails'|]. intros key.
  apply fails_only_rbind; [apply label_fails|]. intros l3.
  apply fails_only_rbind.
  - destruct (truthy_str l3); [apply fails_only_Ok|].
    apply fails_only_rbind; [apply label_fails|]. intros; apply fails_only_Ok.
  - intros [|]; [|apply fails_only_Ok].
    apply fails_only_rbind; [apply extract_ml_val_ndx_fails|]. intros; apply fails_only_Ok.
Qed.

Lemma plain_keys_fails h ks ml_keys : fails_only not_matrix_error (plain_keys h ks ml_keys).
Proof.
  unfold plain_keys. apply fails_only_rfold. intros acc r.
  apply fails_only_rbind; [apply get_key_fails'|]. intros key.
  apply fails_only_rbind; [apply is_encoder_fails|]. intros [|]; apply fails_only_Ok.
Qed.

Lemma group_keys_fails h ks ml_keys : fails_only not_matrix_error (group_keys h ks ml_keys).
Proof.
  unfold group_keys. apply fails_only_rfold. intros d r. unfold group_key.
  apply fails_only_rbind; [apply get_key_fails'|]. intros key.
  apply fails_only_rbind; [apply is_encoder_fails|]. intros [|]; [apply fails_only_Ok|].
  apply fails_only_rbind; [apply extract_ml_val_ndx_fails|]. intros p. simpl.
  apply fails_only_rbind;
    [eapply fails_only_weaken; [apply lookup_error_not_matrix|apply group_at_fails]|].
  intros g.
  apply fails_only_rbind;
    [eapply fails_only_weaken; [apply lookup_error_not_matrix|apply bucket_at_fails]|].
  intros; apply fails_only_Ok.
Qed.

Lemma validate_fails d l : fails_only not_matrix_error (validate d l).
Proof.
  unfold validate. apply fails_only_rfold. intros [] p. unfold check_selected.
  apply fails_only_rbind;
    [eapply fails_only_weaken; [apply lookup_error_not_matrix|apply group_at_fails]|].
  intros g. destruct (_ <=? _); [by apply fails_only_Err|apply fails_only_Ok].
Qed.

Lemma raises_only_weaken {A} (P Q : error -> Prop) (m : M A) :
  (forall e, P e -> Q e) -> raises_only P m -> raises_only Q m.
Proof. unfold raises_only; eauto. Qed.

Lemma get_specific_layout_raises sort_keys kbd layout_idx :
  raises_only not_matrix_error (get_specific_layout sort_keys kbd layout_idx).
Proof.
  unfold get_specific_layout.
  apply raises_only_bind; [apply raises_only_reading; intros; apply get_multilayout_keys_fails|].
  intros ml_keys.
  apply raises_only_bind; [apply raises_only_reading; intros; apply kbd_keys_fails|].
  intros ks.
  apply raises_only_bind; [apply raises_only_reading; intros; apply plain_keys_fails|].
  intros q.
  apply raises_only_bind; [apply raises_only_reading; intros; apply group_keys_fails|].
  intros d. destruct (negb _); [by apply raises_only_raise|].
  apply raises_only_bind; [apply raises_only_lift, validate_fails|]. intros _.
  apply (raises_only_weaken lookup_error); [apply lookup_error_not_matrix|].
  apply raises_only_bind; [apply raises_only_mfold; intros; apply select_option_raises|].
  intros st. apply raises_only_bind; [apply normalize_raises|].
  intros _. apply raises_only_reading. intros; apply fails_only_Ok.
Qed.

(** ** The reconciliation pass reads the matrix labels of every key *)

Lemma reconcile_Ok_coords h l :
  forall st st', reconcile h l st = Ok st' ->
    forall r, r ∈ l -> exists rc, coord_of h r = Ok rc.
Proof.
  unfold reconcile. induction l as [|k l IH]; intros [d q] st'; simpl.
  - intros _ r Hr. by apply elem_of_nil in Hr.
  - intros H. inv_rbind H as [d1 q1] Hstep.
    apply reconcile_key_run in Hstep as (n & rc & mx & g & w & b & _ & Hrc & _).
    intros r [->|Hr]%elem_of_cons; [eauto|]. by eapply IH.
Qed.

Lemma label_12 key i :
  length (Key.labels key) = 12%nat -> (i < 12)%nat -> exists s, label key i = Ok s.
Proof.
  intros H Hi. unfold label.
  destruct (lookup_lt_is_Some_2 (Key.labels key) i) as [s ->]; [lia|eauto].
Qed.

Lemma int_error s e : int s = Err e -> e = ValueError.
Proof.
  unfold int. destruct (too_long _); [by intros [= <-]|].
  destruct (decimal_value _ _); [discriminate|by intros [= <-]].
Qed.

Lemma extract_row_col_12 key e :
  length (Key.labels key) = 12%nat -> extract_row_col key = Err e -> decoding_error e.
Proof.
  intros H12. unfold extract_row_col, extract_row_col_at.
  destruct (label_12 key 9 H12 ltac:(lia)) as [l9 ->].
  destruct (label_12 key 11 H12 ltac:(lia)) as [l11 ->]. simpl.
  destruct (negb _); [intros [= <-]; by left|].
  destruct (int l9) as [row|e9] eqn:I9; simpl; [|intros [= <-]; right; by eapply int_error].
  destruct (int l11) as [col|e11] eqn:I11; simpl; [discriminate|].
  intros [= <-]; right; by eapply int_error.
Qed.

Lemma extract_row_col_labels key key' :
  Key.labels key' = Key.labels key -> extract_row_col key' = extract_row_col key.
Proof. intros E. unfold extract_row_col, extract_row_col_at, label. by rewrite E. Qed.

Lemma matrix_of_ready (P : error -> Prop) h b :
  (forall r, r ∈ b -> exists key, get_key h r = Ok key /\
                        forall e, extract_row_col key = Err e -> P e) ->
  (exists m, matrix_of h b = Ok m) \/ exists e, matrix_of h b = Err e /\ P e.
Proof.
  unfold matrix_of. intros Hb.
  cut (forall acc,
          (exists m, rfold (fun acc r => key <~ get_key h r ;; rc <~ extract_row_col key ;;
                                         Ok (acc ++ [rc])) b acc = Ok m)
          \/ exists e, rfold (fun acc r => key <~ get_key h r ;; rc <~ extract_row_col key ;;
                                           Ok (acc ++ [rc])) b acc = Err e /\ P e); [auto|].
  induction b as [|r b IH]; intros acc; simpl; [eauto|].
  destruct (Hb r ltac:(left)) as (key & Hk & HP). rewrite Hk. simpl.
  destruct (extract_row_col key) as [rc|e] eqn:Hrc; simpl; [|right; eauto].
  apply IH. intros r' Hr'. apply Hb. by right.
Qed.

Lemma reconcile_key_ready (P : error -> Prop) h keys d q r :
  reconcilable P h keys d -> r ∈ keys ->
  (exists d' q' rc, reconcile_key h (d, q) r = Ok (d', q') /\
     reconcilable P h keys d' /\ coord_of h r = Ok rc)
  \/ exists e, reconcile_key h (d, q) r = Err e /\ P e.
Proof.
  intros Hready Hr.
  destruct (Hready r Hr) as (key & n & g & w & b & Hk & HP & Hn & Hg & Hw & Hb & Hsub).
  unfold reconcile_key. rewrite Hk. simpl.
  unfold group_of in Hn. rewrite Hk in Hn. simpl in Hn.
  destruct (extract_ml_val_ndx key) as [p|]; [|discriminate]. simpl in *. injection Hn as ->.
  unfold group_at. rewrite Hg. simpl. unfold max_at. rewrite Hw. simpl.
  unfold bucket_at. rewrite Hb. simpl.
  destruct (matrix_of_ready P h b) as [[m Hm]|(e & Hm & He)].
  { intros r' Hr'. destruct (Hready r' (Hsub r' Hr')) as (key' & ? & ? & ? & ? & ? & ? & _). eauto. }
  2:{ rewrite Hm. right. eauto. }
  rewrite Hm. simpl.
  destruct (extract_row_col key) as [rc|e] eqn:Hrc; simpl; [|right; eauto].
  left. case_bool_decide.
  - exists d, q, rc. split_and!; [done|done|]. unfold coord_of. by rewrite Hk.
  - eexists _, _, rc. split_and!; [reflexivity| |unfold coord_of; by rewrite Hk].
    intros r1 Hr1.
    destruct (Hready r1 Hr1) as (key1 & n1 & g1 & w1 & b1 & ? & ? & ? & Hg1 & ? & ? & Hsub1).
    destruct (decide (n = n1)) as [<-|Hne].
    + assert (g1 = g) as -> by congruence. assert (w1 = w) as -> by congruence.
      assert (b1 = b) as -> by congruence.
      exists key1, n, (set_bucket g w (b ++ [r])), w, (b ++ [r]).
      split_and!; try done; [apply lookup_insert_eq|simpl; apply lookup_insert_eq|].
      intros r' [?| ->%list_elem_of_singleton]%elem_of_app; auto.
    + exists key1, n1, g1, w1, b1. split_and!; try done. by rewrite lookup_insert_ne.
Qed.

Lemma reconcile_fails (P : error -> Prop) h keys l :
  forall d q,
    reconcilable P h keys d ->
    (forall r, r ∈ l -> r ∈ keys) ->
    (exists r, r ∈ l /\ forall rc, coord_of h r <> Ok rc) ->
    exists e, reconcile h l (d, q) = Err e /\ P e.
Proof.
  unfold reconcile. induction l as [|k l IH]; intros d q Hready Hsub (r & Hr & Hbad); simpl.
  - by apply elem_of_nil in Hr.
  - destruct (reconcile_key_ready P h keys d q k Hready (Hsub k ltac:(left)))
      as [(d' & q' & rc & -> & Hready' & Hrc)|(e & -> & He)]; [|eauto]. simpl.
    apply IH; [done|intros; apply Hsub; by right|].
    exists r. split; [|done]. apply elem_of_cons in Hr as [->|Hr]; [|done].
    by destruct (Hbad rc).
Qed.

(** ** What the earlier passes leave for the reconciliation pass *)

Lemma get_multilayout_keys_acc h ks :
  forall acc out,
    rfold (fun keys r =>
             key <~ get_key h r ;;
             l3 <~ label key 3 ;;
             c <~ (if truthy_str l3 then Ok true
                   else l5 <~ label key 5 ;; Ok (truthy_str l5)) ;;
             if c : bool then _ <~ extract_ml_val_ndx key ;; Ok (keys ++ [r]) else Ok keys)
          ks acc = Ok out ->
    out = acc ++ filter (fun r => qualifies h r) ks /\
    forall r, r ∈ ks ->
      exists key, get_key h r = Ok key /\
        (qualifies h r = true -> exists p, extract_ml_val_ndx key = Ok p).
Proof.
  induction ks as [|k ks IH]; intros acc out; simpl.
  - intros [= <-]. split; [by rewrite app_nil_r|]. intros r Hr. by apply elem_of_nil in Hr.
  - intros H. inv_rbind H as acc1 Hstep. destruct (IH _ _ H) as [-> Hks].
    rewrite filter_cons.
    destruct (get_key h k) as [key|] eqn:Hk; [|discriminate]. simpl in Hstep.
    destruct (label key 3) as [l3|] eqn:H3; [|discriminate]. simpl in Hstep.
    assert (Hq : qualifies h k =
                 (truthy_str l3 || match label key 5 with Ok l5 => truthy_str l5 | Err _ => false end)).
    { unfold qualifies. by rewrite Hk, H3. }
    assert (Hstep' : (if qualifies h k then _ <~ extract_ml_val_ndx key ;; Ok (acc ++ [k])
                      else Ok acc) = Ok acc1).
    { rewrite Hq. destruct (truthy_str l3); simpl in *; [done|].
      destruct (label key 5) as [l5|]; [|discriminate]. done. }
    clear Hq. split.
    + destruct (qualifies h k); simpl in *.
      * destruct (extract_ml_val_ndx key); [|discriminate]. injection Hstep' as <-.
        by rewrite <- app_assoc.
      * by injection Hstep' as <-.
    + intros r [->|Hr]%elem_of_cons; [|by apply Hks].
      exists key. split; [done|]. intros Hqk. rewrite Hqk in Hstep'.
      destruct (extract_ml_val_ndx key); [eauto|discriminate].
Qed.

Lemma get_multilayout_keys_Ok h kb ml_keys :
  get_multilayout_keys h kb = Ok ml_keys ->
  exists ks, kbd_keys h kb = Ok ks /\ ml_keys = filter (fun r => qualifies h r) ks /\
    forall r, r ∈ ks ->
      exists key, get_key h r = Ok key /\
        (qualifies h r = true -> exists p, extract_ml_val_ndx key = Ok p).
Proof.
  unfold get_multilayout_keys. destruct (kbd_keys h kb) as [ks|]; [|discriminate]. simpl.
  intros [-> H]%get_multilayout_keys_acc. by exists ks.
Qed.

Lemma group_of_labels h h' r :
  Key.labels <$> key_objs h' !! r = Key.labels <$> key_objs h !! r ->
  group_of h' r = group_of h r.
Proof.
  unfold group_of, get_key. destruct (key_objs h' !! r) as [k'|], (key_objs h !! r) as [k|];
    simpl; try done. intros [= E].
  unfold extract_ml_val_ndx, extract_ml_val_ndx_at, label. by rewrite E.
Qed.

Lemma coord_of_labels h h' r :
  Key.labels <$> key_objs h' !! r = Key.labels <$> key_objs h !! r ->
  coord_of h' r = coord_of h r.
Proof.
  unfold coord_of, get_key. destruct (key_objs h' !! r) as [k'|], (key_objs h !! r) as [k|];
    simpl; try done. intros [= E].
  unfold extract_row_col, extract_row_col_at, label. by rewrite E.
Qed.

Lemma same_labels_refl h : same_labels h h.
Proof. done. Qed.

Lemma same_labels_trans h1 h2 h3 :
  same_labels h1 h2 -> same_labels h2 h3 -> same_labels h1 h3.
Proof. intros H1 H2 r. by rewrite H2, H1. Qed.

Lemma same_labels_write h r key off :
  key_objs h !! r = Some key -> same_labels h (write_key h r (shift_key key off)).
Proof.
  intros Hk r'. destruct (decide (r = r')) as [<-|].
  - rewrite (write_key_same _ _ _ _ Hk), Hk. simpl. by rewrite shift_key_labels.
  - by rewrite write_key_other.
Qed.

Lemma same_buckets_refl d : same_buckets d d.
Proof. done. Qed.

Lemma same_buckets_trans d1 d2 d3 :
  same_buckets d1 d2 -> same_buckets d2 d3 -> same_buckets d1 d3.
Proof. intros H1 H2 n. by rewrite H2, H1. Qed.

Lemma same_buckets_insert d n g g' :
  d !! n = Some g -> buckets g' = buckets g -> same_buckets d (<[n := g']> d).
Proof.
  intros Hg Hb n'. destruct (decide (n = n')) as [<-|].
  - rewrite lookup_insert_eq, Hg. simpl. by rewrite Hb.
  - by rewrite lookup_insert_ne.
Qed.

Lemma offset_for_same_buckets h d n v d' off :
  offset_for h d n v = Ok (d', off) -> same_buckets d d'.
Proof.
  unfold offset_for, group_at. destruct (d !! n) as [g|] eqn:Hg; [|discriminate]. simpl.
  destruct (_ !! v).
  - intros [= <- _]. by eapply same_buckets_insert.
  - intros H. inv_rbind H as b0 _. inv_rbind H as m0 _. inv_rbind H as bv _. inv_rbind H as mv _.
    injection H as <- _. by eapply same_buckets_insert.
Qed.

Lemma place_key_spec ndx val st r h st' h' :
  place_key ndx val st r h = (Ok st', h') ->
  same_buckets st.1 st'.1 /\ same_labels h h'.
Proof.
  unfold place_key. destruct (0 <? val).
  - unfold bind at 1, reading. destruct (offset_for h st.1 ndx val) as [[d1 off]|] eqn:Ho;
      [|discriminate].
    unfold bind. rewrite apply_offset_run. destruct (key_objs h !! r) as [key|] eqn:Hk;
      [|discriminate].
    intros [= <- <-]. simpl. split; [by eapply offset_for_same_buckets|by apply same_labels_write].
  - intros [= <- <-]. done.
Qed.

Lemma choose_key_spec st r h st' h' :
  choose_key st r h = (Ok st', h') ->
  same_buckets st.1 st'.1 /\ same_labels h h' /\
  exists n, group_of h r = Ok n /\ is_Some (st.1 !! n).
Proof.
  unfold choose_key, group_of. unfold bind at 1, reading.
  destruct (get_key h r) as [key|]; [|discriminate]. simpl.
  unfold bind at 1, lift.
  destruct (extract_ml_val_ndx key) as [p|]; [|discriminate]. simpl.
  unfold bind at 1. unfold group_at.
  destruct (st.1 !! p.1) as [g|] eqn:Hg; [|discriminate].
  unfold bind at 1.
  destruct (py_max (ml_val_lengths g)) as [mx|]; [|discriminate].
  unfold bind at 1.
  destruct (bucket_at g p.2) as [b|]; [|discriminate].
  intros H.
  cut (same_buckets st.1 st'.1 /\ same_labels h h'); [intros []; eauto|].
  revert H.
  assert (Hset : forall v, same_buckets st.1 (<[p.1 := set_max g v]> st.1)).
  { intros v. by eapply same_buckets_insert. }
  assert (Hid : same_buckets st.1 (<[p.1 := g]> st.1)) by (by eapply same_buckets_insert).
  destruct (no_max g).
  - destruct (_ =? 1)%nat.
    + unfold bind at 1. simpl. destruct (negb _).
      * intros [= <- <-]. simpl. split; [first [apply Hset|apply Hid]|apply same_labels_refl].
      * intros [H1 H2]%place_key_spec. simpl in H1. split; [|done].
        eapply same_buckets_trans; [|exact H1]; first [apply Hset|apply Hid].
    + destruct (_ =? _)%nat.
      * unfold bind at 1. simpl. destruct (negb _).
        -- intros [= <- <-]. simpl. split; [first [apply Hset|apply Hid]|apply same_labels_refl].
        -- intros [H1 H2]%place_key_spec. simpl in H1. split; [|done].
           eapply same_buckets_trans; [|exact H1]; first [apply Hset|apply Hid].
      * intros [= <- <-]. split; [apply same_buckets_refl|apply same_labels_refl].
  - unfold bind at 1. destruct (max_at g) as [w|]; [|discriminate]. destruct (negb _).
    + intros [= <- <-]. simpl. split; [first [apply Hset|apply Hid]|apply same_labels_refl].
    + intros [H1 H2]%place_key_spec. simpl in H1. split; [|done].
        eapply same_buckets_trans; [|exact H1]; first [apply Hset|apply Hid].
Qed.

Lemma choose_loop_spec l :
  forall st h st' h',
    mfold choose_key l st h = (Ok st', h') ->
    same_buckets st.1 st'.1 /\ same_labels h h' /\
    forall r, r ∈ l -> exists n, group_of h r = Ok n /\ is_Some (st.1 !! n).
Proof.
  induction l as [|k l IH]; intros st h st' h'; simpl.
  - intros [= <- <-]. split_and!; [done..|]. intros r Hr. by apply elem_of_nil in Hr.
  - intros ([d1 q1] & h1 & Hstep & Hrun)%bind_Ok.
    apply choose_key_spec in Hstep as (Hb1 & Hl1 & Hk).
    apply IH in Hrun as (Hb2 & Hl2 & Hrest). split_and!.
    + by eapply same_buckets_trans.
    + by eapply same_labels_trans.
    + intros r [->|Hr]%elem_of_cons; [done|].
      destruct (Hrest r Hr) as (n & Hn & Hs). exists n. split.
      * rewrite <- Hn. symmetry. apply group_of_labels, Hl1.
      * specialize (Hb1 n). simpl in *. destruct Hs as [g Hg]. rewrite Hg in Hb1.
        destruct (st.1 !! n); [eauto|done].
Qed.

(** ** The copy holds what the original holds *)

Lemma copy_keys_records h0 ks :
  forall memo h ks' h',
    (exists extra, key_objs h = key_objs h0 ++ extra) ->
    (forall r, r ∈ ks -> is_Some (key_objs h0 !! r)) ->
    (forall r r', memo !! r = Some r' ->
       key_objs h !! r' = key_objs h0 !! r /\ is_Some (key_objs h0 !! r)) ->
    copy_keys memo ks h = (Ok ks', h') ->
    (exists extra, key_objs h' = key_objs h ++ extra) /\
    Forall2 (fun r r' => key_objs h' !! r' = key_objs h0 !! r) ks ks' /\
    (forall P : Key.t -> Prop, Forall P (key_objs h) -> Forall P (key_objs h')).
Proof.
  induction ks as [|r ks IH]; intros memo h ks' h' Hext Hvalid Hmemo; simpl.
  - intros [= <- <-]. split_and!; [exists []; by rewrite app_nil_r|constructor|done].
  - assert (Hvalid' : forall r', r' ∈ ks -> is_Some (key_objs h0 !! r')).
    { intros; apply Hvalid. by right. }
    destruct (memo !! r) as [r'|] eqn:Hr.
    + intros (rs & h1 & Hrec & [= <- <-])%bind_Ok.
      destruct (IH _ _ _ _ Hext Hvalid' Hmemo Hrec) as ((extra & Hh1) & Hrs & HP).
      split_and!; [eauto| |done]. constructor; [|done].
      destruct (Hmemo _ _ Hr) as [Hr' [k Hk]]. rewrite Hk in Hr'.
      rewrite Hh1, Hk. by apply lookup_app_l_Some.
    + destruct Hext as [extra Hext].
      destruct (Hvalid r ltac:(left)) as [key Hkey].
      assert (Hkey' : key_objs h !! r = Some key).
      { rewrite Hext. by apply lookup_app_l_Some. }
      unfold bind at 1, reading, get_key. rewrite Hkey'.
      unfold bind at 1, alloc_key.
      set (h1 := mkHeap (key_objs h ++ [key]) (kbd_objs h)).
      intros (rs & h2 & Hrec & [= <- <-])%bind_Ok.
      assert (Hext1 : exists extra1, key_objs h1 = key_objs h0 ++ extra1).
      { exists (extra ++ [key]). simpl. by rewrite Hext, <- app_assoc. }
      assert (Hmemo1 : forall a b, <[r := length (key_objs h)]> memo !! a = Some b ->
                key_objs h1 !! b = key_objs h0 !! a /\ is_Some (key_objs h0 !! a)).
      { intros a b0. destruct (decide (r = a)) as [<-|].
        - rewrite lookup_insert_eq. intros [= <-]. split; [|eauto]. simpl.
          rewrite Hkey. by rewrite lookup_app_r, Nat.sub_diag by done.
        - rewrite lookup_insert_ne by done. intros Hab.
          destruct (Hmemo _ _ Hab) as [Hb [k Hk]]. split; [|eauto]. simpl.
          rewrite Hk in Hb |- *. by apply lookup_app_l_Some. }
      destruct (IH _ _ _ _ Hext1 Hvalid' Hmemo1 Hrec) as ((extra2 & Hh2) & Hrs & HP).
      split_and!.
      * exists ([key] ++ extra2). rewrite Hh2. simpl. by rewrite <- app_assoc.
      * constructor; [|done]. rewrite Hh2, Hkey. apply lookup_app_l_Some. simpl.
        by rewrite lookup_app_r, Nat.sub_diag by done.
      * intros P HPh. apply HP. simpl. apply Forall_app. split; [done|].
        constructor; [|constructor]. eapply Forall_forall in HPh; [exact HPh|].
        by eapply list_elem_of_lookup_2.
Qed.

Lemma deepcopy_records kb h kbd' h1 ks :
  deepcopy kb h = (Ok kbd', h1) ->
  kbd_keys h kb = Ok ks ->
  (forall r, r ∈ ks -> is_Some (key_objs h !! r)) ->
  exists ks', kbd_keys h1 kbd' = Ok ks' /\
    Forall2 (fun r r' => key_objs h1 !! r' = key_objs h !! r) ks ks' /\
    (forall P : Key.t -> Prop, Forall P (key_objs h) -> Forall P (key_objs h1)).
Proof.
  unfold deepcopy. intros H Hks Hvalid. rewrite (bind_reading_Ok _ _ _ _ Hks) in H.
  apply bind_Ok in H as (ks' & h2 & Hcopy & [= <- <-]).
  destruct (copy_keys_records h ks ∅ h ks' h2) as (_ & Hrs & HP);
    [exists []; by rewrite app_nil_r|done|intros ??; by rewrite lookup_empty|done|].
  exists ks'. split_and!; [|done|done].
  unfold kbd_keys. simpl. by rewrite lookup_app_r, Nat.sub_diag by done.
Qed.

Lemma qualifies_ext h h' r r' :
  key_objs h' !! r' = key_objs h !! r -> qualifies h' r' = qualifies h r.
Proof. unfold qualifies, get_key. by intros ->. Qed.

Lemma Forall2_elem_l {A B} (P : A -> B -> Prop) l k x :
  Forall2 P l k -> x ∈ l -> exists y, y ∈ k /\ P x y.
Proof.
  induction 1 as [|a b l k Hab _ IH]; intros Hx; [by apply elem_of_nil in Hx|].
  apply elem_of_cons in Hx as [->|Hx].
  - exists b. split; [by left|done].
  - destruct (IH Hx) as (y & ? & ?). exists y. split; [by right|done].
Qed.

(** The copy of a multilayout key is among the keys the two loops of
    [get_layout_all] go over, and it holds what the original holds. *)
Lemma copied_ml_key kb h kbd' h1 ml_keys r key :
  deepcopy kb h = (Ok kbd', h1) ->
  get_multilayout_keys h kb = Ok ml_keys ->
  r ∈ ml_keys -> get_key h r = Ok key ->
  forall ks' ml_keys',
    kbd_keys h1 kbd' = Ok ks' -> get_multilayout_keys h1 kbd' = Ok ml_keys' ->
    exists r', r' ∈ ml_keys_in_order ks' ml_keys' /\ get_key h1 r' = Ok key.
Proof.
  intros Hcopy Hml Hr Hkey ks' ml_keys' Hks' Hml'.
  apply get_multilayout_keys_Ok in Hml as (ks & Hks & -> & Hall).
  apply list_elem_of_filter in Hr as [Hq Hr].
  destruct (deepcopy_records _ _ _ _ _ Hcopy Hks) as (ks1 & Hks1 & Hrec & _).
  { intros r0 Hr0. destruct (Hall r0 Hr0) as (k0 & Hk0%get_key_Ok & _). eauto. }
  assert (ks1 = ks') as -> by congruence.
  destruct (Forall2_elem_l _ _ _ _ Hrec Hr) as (r' & Hr' & Hsame).
  apply get_multilayout_keys_Ok in Hml' as (ks2 & Hks2 & -> & _).
  assert (ks2 = ks') as -> by congruence.
  exists r'. split.
  - unfold ml_keys_in_order. apply list_elem_of_filter. split; [|done].
    apply list_elem_of_filter. split; [|done]. by rewrite (qualifies_ext h h1 r r').
  - apply get_key_Ok. rewrite Hsame. by apply get_key_Ok.
Qed.

(** ** Default synthesis and the matrix labels *)

Lemma choose_keys_Ok kbd h keys st h2 :
  choose_keys kbd h = (Ok (keys, st), h2) ->
  exists ml_keys ks q d,
    get_multilayout_keys h kbd = Ok ml_keys /\ kbd_keys h kbd = Ok ks /\
    plain_keys h ks ml_keys = Ok q /\ group_keys h ks ml_keys = Ok d /\
    keys = ml_keys_in_order ks ml_keys /\
    mfold choose_key keys (d, q) h = (Ok st, h2).
Proof.
  unfold choose_keys. unfold bind at 1, reading.
  destruct (get_multilayout_keys h kbd) as [ml_keys|]; [|discriminate].
  unfold bind at 1. destruct (kbd_keys h kbd) as [ks|]; [|discriminate].
  unfold bind at 1. destruct (plain_keys h ks ml_keys) as [q|] eqn:Hq; [|discriminate].
  unfold bind at 1. destruct (group_keys h ks ml_keys) as [d|] eqn:Hd; [|discriminate].
  intros (st' & h' & Hrun & [= <- <- <-])%bind_Ok.
  by exists ml_keys, ks, q, d.
Qed.

Lemma get_layout_all_Ok sort_keys kbd h kbd' h' :
  get_layout_all sort_keys kbd h = (Ok kbd', h') ->
  exists kbd1 h1 keys st h2 st2,
    deepcopy kbd h = (Ok kbd1, h1) /\ choose_keys kbd1 h1 = (Ok (keys, st), h2) /\
    reconcile h2 keys st = Ok st2.
Proof.
  unfold get_layout_all.
  intros (kbd1 & h1 & Hcopy & H)%bind_Ok.
  apply bind_Ok in H as ([keys st] & h2 & Hchoose & H).
  unfold bind at 1, reading in H. simpl in H.
  destruct (reconcile h2 keys st) as [st2|] eqn:Hrec; [|discriminate].
  by exists kbd1, h1, keys, st, h2, st2.
Qed.

Lemma coord_of_key h r key : get_key h r = Ok key -> coord_of h r = extract_row_col key.
Proof. intros H. unfold coord_of. by rewrite H. Qed.

(** The copy of a multilayout key without matrix position is met by the
    reconciliation loop, still without matrix position. *)
Lemma copied_key_without_coord kbd h ml_keys r key kbd' h1 keys st h2 :
  get_multilayout_keys h kbd = Ok ml_keys -> r ∈ ml_keys -> get_key h r = Ok key ->
  (forall rc, extract_row_col key <> Ok rc) ->
  deepcopy kbd h = (Ok kbd', h1) -> choose_keys kbd' h1 = (Ok (keys, st), h2) ->
  exists r', r' ∈ keys /\ forall rc, coord_of h2 r' <> Ok rc.
Proof.
  intros Hml Hr Hkey Hbad Hcopy Hchoose.
  apply choose_keys_Ok in Hchoose as (ml_keys' & ks' & q & d & Hml' & Hks' & _ & _ & -> & Hrun).
  destruct (copied_ml_key _ _ _ _ _ _ _ Hcopy Hml Hr Hkey _ _ Hks' Hml') as (r' & Hr' & Hkey').
  exists r'. split; [done|]. intros rc.
  apply choose_loop_spec in Hrun as (_ & Hlabels & _).
  rewrite (coord_of_labels h1 h2 r' (Hlabels r')), (coord_of_key _ _ _ Hkey'). apply Hbad.
Qed.

Lemma choose_keys_reconcilable (P : error -> Prop) kbd h keys st h2 :
  choose_keys kbd h = (Ok (keys, st), h2) ->
  Forall (fun k => forall e, extract_row_col k = Err e -> P e) (key_objs h) ->
  (forall n g, st.1 !! n = Some g -> exists w b, g_max g = Some w /\ buckets g !! w = Some b) ->
  reconcilable P h2 keys st.1.
Proof.
  intros (ml_keys & ks & q & d & Hml & Hks & _ & Hd & -> & Hrun)%choose_keys_Ok H12 Hchosen.
  apply choose_loop_spec in Hrun as (Hsame & Hlabels & Hgroups). simpl in Hsame.
  apply get_multilayout_keys_Ok in Hml as (ks0 & Hks0 & -> & Hall).
  assert (ks0 = ks) as -> by congruence.
  intros r Hr.
  destruct (Hall r (ml_keys_in_order_subset _ _ _ Hr)) as (key & Hkey%get_key_Ok & _).
  pose proof (Hlabels r) as Hlr. rewrite Hkey in Hlr.
  destruct (key_objs h2 !! r) as [key2|] eqn:Hkey2; [|done]. simpl in Hlr. injection Hlr as Hlr.
  destruct (Hgroups r Hr) as (n & Hn & [g0 Hg0]). simpl in Hg0.
  pose proof (Hsame n) as Hsn. rewrite Hg0 in Hsn.
  destruct (st.1 !! n) as [g|] eqn:Hg; [|done]. simpl in Hsn. injection Hsn as Hsn.
  destruct (Hchosen n g Hg) as (w & b & Hw & Hb).
  exists key2, n, g, w, b. split_and!; try done.
  - by apply get_key_Ok.
  - rewrite (extract_row_col_labels key key2 Hlr).
    eapply Forall_forall in H12; [exact H12|]. by eapply list_elem_of_lookup_2.
  - rewrite <- Hn. apply group_of_labels, Hlabels.
  - intros r' Hr'.
    assert (Hin : r' ∈ bucket_of d n w).
    { unfold bucket_of. rewrite Hg0. by rewrite <- Hsn, Hb. }
    by apply (group_keys_elem _ _ _ _ _ _ _ Hd) in Hin as [? _].
Qed.

Section MatrixLabels.

Variable sort_keys : list Key.t -> list ref -> list ref.

(** C10, as the code has it.  Let some multilayout key of the keyboard have
    no matrix position: [extract_row_col] does not decode its slots 9 and 11.
    Then [get_layout_all] does not return.  If the copy and the loop that
    picks the keys of the chosen values complete, every key has its twelve
    label slots and every group has keys under its chosen value, the
    reconciliation loop raises an exception of [extract_row_col], and so does
    [get_layout_all]: MalformedMatrixLabel, or ValueError when a label that
    is numeric is one that [int] cannot convert; it is MalformedMatrixLabel
    when no key has such a label.  [get_specific_layout] never raises
    MalformedMatrixLabel. *)
Theorem default_layout_needs_matrix_labels kbd h ml_keys r key :
  get_multilayout_keys h kbd = Ok ml_keys -> r ∈ ml_keys -> get_key h r = Ok key ->
  (forall rc, extract_row_col key <> Ok rc) ->
  (forall res h', get_layout_all sort_keys kbd h = (res, h') -> exists e, res = Err e)
  /\ (forall kbd' h1 keys st h2,
        deepcopy kbd h = (Ok kbd', h1) ->
        choose_keys kbd' h1 = (Ok (keys, st), h2) ->
        (forall k, k ∈ key_objs h -> length (Key.labels k) = 12%nat) ->
        (forall n g, st.1 !! n = Some g ->
                     exists w b, g_max g = Some w /\ buckets g !! w = Some b) ->
        exists e,
          (e = MalformedMatrixLabel \/ e = ValueError) /\
          ((forall k, k ∈ key_objs h -> extract_row_col k <> Err ValueError) ->
           e = MalformedMatrixLabel) /\
          reconcile h2 keys st = Err e /\
          get_layout_all sort_keys kbd h = (Err e, h2))
  /\ (forall layout_idx h0 e h',
        get_specific_layout sort_keys kbd layout_idx h0 = (Err e, h') ->
        e <> MalformedMatrixLabel).
Proof.
  intros Hml Hr Hkey Hbad. split_and!.
  - intros [kbd'|e] h' Hrun; [|eauto].
    apply get_layout_all_Ok in Hrun as (kbd1 & h1 & keys & st & h2 & st2 & Hcopy & Hchoose & Hrec).
    destruct (copied_key_without_coord _ _ _ _ _ _ _ _ _ _ Hml Hr Hkey Hbad Hcopy Hchoose)
      as (r' & Hr' & Hno).
    destruct (reconcile_Ok_coords _ _ _ _ Hrec r' Hr') as [rc Hrc]. by destruct (Hno rc).
  - intros kbd' h1 keys st h2 Hcopy Hchoose H12 Hchosen.
    destruct (copied_key_without_coord _ _ _ _ _ _ _ _ _ _ Hml Hr Hkey Hbad Hcopy Hchoose)
      as (r' & Hr' & Hno).
    set (P := fun e : error =>
                decoding_error e /\
                ((forall k, k ∈ key_objs h -> extract_row_col k <> Err ValueError) ->
                 e = MalformedMatrixLabel)).
    assert (H12' : Forall (fun k => forall e, extract_row_col k = Err e -> P e) (key_objs h1)).
    { assert (Hks : exists ks, kbd_keys h kbd = Ok ks /\
                       forall r0, r0 ∈ ks -> is_Some (key_objs h !! r0)).
      { apply get_multilayout_keys_Ok in Hml as (ks & Hks & _ & Hall). exists ks.
        split; [done|]. intros r0 Hr0.
        destruct (Hall r0 Hr0) as (k0 & Hk0%get_key_Ok & _). eauto. }
      destruct Hks as (ks & Hks & Hvalid).
      destruct (deepcopy_records _ _ _ _ _ Hcopy Hks Hvalid) as (_ & _ & _ & HP).
      apply HP. apply Forall_forall. intros k Hk e He.
      pose proof (extract_row_col_12 k e (H12 k Hk) He) as Hd. split; [done|].
      intros Hnone. destruct Hd as [->| ->]; [done|]. by destruct (Hnone k Hk). }
    pose proof (choose_keys_reconcilable P _ _ _ _ _ Hchoose H12' Hchosen) as Hready.
    destruct st as [d q].
    destruct (reconcile_fails P h2 keys keys d q Hready) as (e & Hrec & Hd & Hnone); eauto.
    exists e. split_and!; [exact Hd|exact Hnone|exact Hrec|].
    unfold get_layout_all. rewrite (bind_run _ _ _ _ _ Hcopy), (bind_run _ _ _ _ _ Hchoose).
    unfold bind, reading. simpl. by rewrite Hrec.
  - intros layout_idx h0 e h' Hrun.
    exact (get_specific_layout_raises sort_keys kbd layout_idx h0 e h' Hrun).
Qed.

End MatrixLabels.

(** ** The layout of a selection holds no encoder key *)

Lemma is_encoder_labels k k' : Key.labels k' = Key.labels k -> is_encoder k' = is_encoder k.
Proof. unfold is_encoder, label. by intros ->. Qed.

Lemma plain_keys_not_encoder h l :
  forall acc q,
    rfold (fun qmk_keys r =>
             key <~ get_key h r ;; e <~ is_encoder key ;;
             if e : bool then Ok qmk_keys else Ok (qmk_keys ++ [r])) l acc = Ok q ->
    forall r, r ∈ q ->
      r ∈ acc \/ exists key, get_key h r = Ok key /\ is_encoder key = Ok false.
Proof.
  induction l as [|k l IH]; intros acc q; simpl.
  - intros [= <-]. auto.
  - intros H. inv_rbind H as acc1 Hstep. intros r Hin.
    destruct (IH _ _ H r Hin) as [Hin1|?]; [|by right].
    destruct (get_key h k) as [key|] eqn:Hk; [|discriminate]. simpl in Hstep.
    destruct (is_encoder key) as [[|]|] eqn:He; simpl in Hstep; [| |discriminate];
      injection Hstep as <-; [by left|].
    apply elem_of_app in Hin1 as [?|Hr%list_elem_of_singleton]; [by left|].
    subst r. right. eauto.
Qed.

Lemma place_keys_output ndx val l :
  forall st h st' h',
    mfold (place_key ndx val) l st h = (Ok st', h') ->
    same_buckets st.1 st'.1 /\ same_labels h h' /\ st'.2 = st.2 ++ l.
Proof.
  induction l as [|r l IH]; intros st h st' h'; simpl.
  - intros [= <- <-]. by rewrite app_nil_r.
  - intros (st1 & h1 & Hstep & Hrun)%bind_Ok.
    destruct (place_key_heap _ _ _ _ _ _ _ Hstep) as [_ Hq].
    apply place_key_spec in Hstep as [Hb1 Hl1].
    apply IH in Hrun as (Hb2 & Hl2 & ->). rewrite (Hq _ eq_refl). split_and!.
    + by eapply same_buckets_trans.
    + by eapply same_labels_trans.
    + by rewrite <- app_assoc.
Qed.

Lemma select_options_output l :
  forall st h st' h',
    mfold select_option l st h = (Ok st', h') ->
    same_buckets st.1 st'.1 /\ same_labels h h' /\
    forall r, r ∈ st'.2 -> r ∈ st.2 \/ exists n v, r ∈ bucket_of st.1 n v.
Proof.
  induction l as [|[n v] l IH]; intros st h st' h'; simpl.
  - intros [= <- <-]. split_and!; [done..|auto].
  - intros (st1 & h1 & Hstep & Hrun)%bind_Ok. unfold select_option in Hstep. simpl in Hstep.
    apply bind_Ok in Hstep as (g & h0 & Hg & Hstep). injection Hg as Hg <-.
    apply bind_Ok in Hstep as (b & h0 & Hb & Hstep). injection Hb as Hb <-.
    apply place_keys_output in Hstep as (Hb1 & Hl1 & Hq1).
    apply IH in Hrun as (Hb2 & Hl2 & Hsub). split_and!.
    + by eapply same_buckets_trans.
    + by eapply same_labels_trans.
    + intros r Hr. destruct (Hsub r Hr) as [Hin|(n' & v' & Hin)].
      * rewrite Hq1 in Hin. apply elem_of_app in Hin as [?|Hin]; [by left|].
        right. exists n, v. unfold group_at in Hg. unfold bucket_at in Hb.
        destruct (st.1 !! n) as [g0|] eqn:Hg0; [|discriminate]. injection Hg as ->.
        destruct (buckets g !! v) as [b0|] eqn:Hb0; [|discriminate]. injection Hb as ->.
        by rewrite (bucket_of_lookup _ _ _ _ _ Hg0 Hb0).
      * right. exists n', v'. by rewrite <- (same_buckets_bucket_of _ _ _ _ Hb1).
Qed.

Lemma same_labels_rebase h r key off :
  key_objs h !! r = Some key -> same_labels h (write_key h r (rebase_key key off)).
Proof.
  intros Hk r'. destruct (decide (r = r')) as [<-|].
  - by rewrite (write_key_same _ _ _ _ Hk), Hk.
  - by rewrite write_key_other.
Qed.

Lemma rebase_loop_labels off q :
  forall h res h',
    mfold (fun (_ : unit) r =>
             key <- reading (fun h => get_key h r) ;; put_key r (rebase_key key off)) q tt h
      = (res, h') ->
    same_labels h h'.
Proof.
  induction q as [|r q IH]; intros h res h'; simpl.
  - intros [= <- <-]. apply same_labels_refl.
  - unfold bind at 1. unfold bind at 1, reading, get_key.
    destruct (key_objs h !! r) as [key|] eqn:Hk.
    + simpl. intros Hrun%IH. eapply same_labels_trans; [|exact Hrun].
      by apply same_labels_rebase.
    + intros [= <- <-]. apply same_labels_refl.
Qed.

Lemma normalize_labels q h res h' : normalize q h = (res, h') -> same_labels h h'.
Proof.
  unfold normalize, bind at 1, reading. destruct (min_x_y h q) as [off|].
  - apply rebase_loop_labels.
  - intros [= <- <-]. apply same_labels_refl.
Qed.

(** What a successful call of [get_specific_layout] went through. *)
Lemma get_specific_layout_Ok sort_keys kbd layout_idx h l h' :
  get_specific_layout sort_keys kbd layout_idx h = (Ok l, h') ->
  exists ml_keys ks q d st h1,
    get_multilayout_keys h kbd = Ok ml_keys /\ kbd_keys h kbd = Ok ks /\
    plain_keys h ks ml_keys = Ok q /\ group_keys h ks ml_keys = Ok d /\
    length layout_idx = size d /\ validate d layout_idx = Ok tt /\
    mfold select_option (enumerate layout_idx) (d, q) h = (Ok st, h1) /\
    normalize st.2 h1 = (Ok tt, h') /\
    l = sort_keys (key_objs h') st.2.
Proof.
  unfold get_specific_layout. unfold bind at 1, reading.
  destruct (get_multilayout_keys h kbd) as [ml_keys|]; [|discriminate].
  unfold bind at 1. destruct (kbd_keys h kbd) as [ks|]; [|discriminate].
  unfold bind at 1. destruct (plain_keys h ks ml_keys) as [q|] eqn:Hq; [|discriminate].
  unfold bind at 1. destruct (group_keys h ks ml_keys) as [d|] eqn:Hd; [|discriminate].
  destruct (Nat.eqb_spec (length layout_idx) (size d)) as [Hlen|]; [|discriminate]. simpl.
  unfold bind at 1, lift. destruct (validate d layout_idx) as [[]|] eqn:Hv; [|discriminate].
  intros (st & h1 & Hsel & H)%bind_Ok.
  apply bind_Ok in H as ([] & h2 & Hnorm & [= <- <-]).
  by exists ml_keys, ks, q, d, st, h1.
Qed.

(** The half of C6 that holds: no key with the encoder marker is in the
    key list that [get_specific_layout] returns. *)
Lemma get_specific_layout_no_encoder sort_keys kbd layout_idx h l h' :
  (forall ks l, Permutation (sort_keys ks l) l) ->
  get_specific_layout sort_keys kbd layout_idx h = (Ok l, h') ->
  forall r, r ∈ l -> exists key, get_key h' r = Ok key /\ is_encoder key = Ok false.
Proof.
  intros Hperm (ml_keys & ks & q & d & st & h1 & _ & _ & Hq & Hd & _ & _ & Hsel & Hnorm & ->)
    %get_specific_layout_Ok r Hr.
  rewrite Hperm in Hr.
  apply select_options_output in Hsel as (_ & Hl1 & Hsub).
  apply normalize_labels in Hnorm.
  pose proof (same_labels_trans _ _ _ Hl1 Hnorm r) as Hl.
  assert (Hstart : exists key, get_key h r = Ok key /\ is_encoder key = Ok false).
  { destruct (Hsub r Hr) as [Hin|(n & v & Hin)]; simpl in Hin.
    - destruct (plain_keys_not_encoder _ _ _ _ Hq r Hin) as [Hn|?]; [|done].
      by apply elem_of_nil in Hn.
    - apply (group_keys_elem _ _ _ _ _ _ _ Hd) in Hin as [_ Hin].
      apply lands_in_slots in Hin as (key & ? & ? & ? & ? & _). eauto. }
  destruct Hstart as (key & Hk%get_key_Ok & He). rewrite Hk in Hl.
  destruct (key_objs h' !! r) as [key'|] eqn:Hk'; [|done]. injection Hl as Hl.
  exists key'. split; [by apply get_key_Ok|]. by rewrite (is_encoder_labels key key').
Qed.

(** ** Decoded labels *)

Lemma decimal_value_not_negative cs :
  forall acc z, 0 <= acc -> decimal_value cs acc = Some z -> 0 <= z.
Proof.
  induction cs as [|c cs IH]; intros acc z Hacc; simpl.
  - by intros [= <-].
  - destruct (char_decimal c) as [d|]; [|discriminate]. apply IH. lia.
Qed.

Lemma int_not_negative s z : int s = Ok z -> 0 <= z.
Proof.
  unfold int. destruct (too_long _); [discriminate|].
  destruct (decimal_value _ _) as [z'|] eqn:E; [|discriminate].
  intros [= <-]. by eapply decimal_value_not_negative in E.
Qed.

(** X1.  The numbers decoded from the labels of a key are never negative:
    neither the multilayout value and index nor the matrix row and column. *)
Theorem decoded_numbers_not_negative key :
  (forall val ndx, extract_ml_val_ndx key = Ok (val, ndx) -> 0 <= val /\ 0 <= ndx)
  /\ (forall row col, extract_row_col key = Ok (row, col) -> 0 <= row /\ 0 <= col).
Proof.
  split; intros a b H.
  - apply extract_ml_val_ndx_slots in H as (l3 & l5 & _ & _ & _ & _ & I3 & I5).
    split; by eapply int_not_negative.
  - apply extract_row_col_slots in H as (l9 & l11 & _ & _ & _ & _ & I9 & I11).
    split; by eapply int_not_negative.
Qed.

(** ** The record of one key *)

Lemma convert_key_eq key :
  convert_key key =
    if convertible key then
      if decodable key then Ok (record_of key) else Err ValueError
    else Err IndexError.
Proof.
  unfold convert_key, convertible, decodable, converts, record_of,
    extract_row_col, extract_row_col_at, label.
  destruct (Key.labels key !! 9%nat) as [l9|] eqn:H9; [|done]. simpl.
  assert (is_Some (Key.labels key !! 0%nat)) as [l0 H0].
  { apply lookup_lt_is_Some. apply lookup_lt_Some in H9. lia. }
  rewrite H0.
  destruct (isnumeric l9) eqn:N9; simpl.
  - destruct (Key.labels key !! 11%nat) as [l11|] eqn:H11; simpl.
    + rewrite bool_decide_eq_true_2 by (apply lookup_lt_Some in H11; lia).
      destruct (isnumeric l11) eqn:N11; simpl.
      * destruct (int l9) as [row|e9] eqn:I9; simpl;
          [|by rewrite (int_error _ _ I9)].
        destruct (int l11) as [col|e11] eqn:I11; simpl;
          [|by rewrite (int_error _ _ I11)].
        destruct (Qc_eq_bool (Key.width key) 1), (Qc_eq_bool (Key.height key) 1),
                 (truthy_str l0); reflexivity.
      * destruct (Qc_eq_bool (Key.width key) 1), (Qc_eq_bool (Key.height key) 1),
                 (truthy_str l0); reflexivity.
    + rewrite bool_decide_eq_false_2; [done|]. apply lookup_ge_None in H11. lia.
  - destruct (Key.labels key !! 11%nat) as [l11|] eqn:H11; simpl;
      destruct (Qc_eq_bool (Key.width key) 1), (Qc_eq_bool (Key.height key) 1),
               (truthy_str l0); reflexivity.
Qed.

Lemma decodable_extract_row_col key :
  decodable key = false <-> extract_row_col key = Err ValueError.
Proof.
  unfold decodable, converts, extract_row_col, extract_row_col_at, label.
  destruct (Key.labels key !! 9%nat) as [l9|]; simpl; [|done].
  destruct (Key.labels key !! 11%nat) as [l11|]; simpl; [|done].
  destruct (isnumeric l9 && isnumeric l11); simpl; [|done].
  destruct (int l9) as [row|e9] eqn:I9; simpl; [|by rewrite (int_error _ _ I9)].
  destruct (int l11) as [col|e11] eqn:I11; simpl; [done|by rewrite (int_error _ _ I11)].
Qed.

Lemma convertible_12 key : (12 <= length (Key.labels key))%nat -> convertible key = true.
Proof.
  intros H. unfold convertible.
  destruct (lookup_lt_is_Some_2 (Key.labels key) 9%nat) as [l9 ->]; [lia|].
  destruct (isnumeric l9); [|done]. by apply bool_decide_eq_true_2.
Qed.

(** ** The records of a key list *)

Lemma convert_key_list_acc h keys :
  forall acc,
    (forall r, r ∈ keys -> exists key, get_key h r = Ok key /\
                 (Key.decal key = false -> convertible key = true /\ decodable key = true)) ->
    rfold (fun qmk_layout r =>
             key <~ get_key h r ;;
             if Key.decal key then Ok qmk_layout
             else qmk_key <~ convert_key key ;; Ok (qmk_layout ++ [qmk_key]))
          keys acc
    = Ok (acc ++ (record_of <$> visible_keys h keys)).
Proof.
  induction keys as [|r keys IH]; intros acc Hall; simpl.
  - by rewrite app_nil_r.
  - destruct (Hall r) as (key & Hk & Hcd); [set_solver|].
    rewrite Hk. simpl. unfold visible_keys. simpl.
    apply get_key_Ok in Hk. rewrite Hk. simpl.
    destruct (Key.decal key) eqn:Hd; simpl.
    + apply IH. intros r' Hr'. apply Hall. set_solver.
    + destruct (Hcd eq_refl) as [Hc Hdec].
      rewrite convert_key_eq, Hc, Hdec. simpl. rewrite IH.
      * unfold visible_keys. by rewrite <- app_assoc.
      * intros r' Hr'. apply Hall. set_solver.
Qed.

Lemma convert_key_list_Ok h keys :
  forall acc out,
    rfold (fun qmk_layout r =>
             key <~ get_key h r ;;
             if Key.decal key then Ok qmk_layout
             else qmk_key <~ convert_key key ;; Ok (qmk_layout ++ [qmk_key]))
          keys acc = Ok out ->
    forall r, r ∈ keys -> exists key, get_key h r = Ok key /\
                 (Key.decal key = false -> convertible key = true /\ decodable key = true).
Proof.
  induction keys as [|k keys IH]; intros acc out; simpl.
  - intros _ r Hr. by apply elem_of_nil in Hr.
  - intros H. inv_rbind H as acc1 Hstep. intros r [->|Hr]%elem_of_cons; [|by eapply IH].
    destruct (get_key h k) as [key|]; [|discriminate]. simpl in Hstep.
    exists key. split; [done|]. intros Hd. rewrite Hd, convert_key_eq in Hstep.
    by destruct (convertible key), (decodable key).
Qed.

Lemma convert_key_fails key :
  fails_only (fun e => e = IndexError \/ e = ValueError) (convert_key key).
Proof.
  rewrite convert_key_eq. destruct (convertible key), (decodable key); intros e [= <-]; auto.
Qed.

(** X2.  [convert_key_list_to_layout] returns exactly when every key of the
    list is a key object and every key that is not a decal has label slot 9
    and, if slot 9 is numeric, slot 11, and, if both are numeric, both are
    strings that [int] converts.  Twelve label slots are enough for the slots
    to be there, whatever they hold, and the matrix labels are not decodable
    exactly when [extract_row_col] raises ValueError.  The function raises
    nothing but IndexError, on a key with too few label slots, and
    ValueError, on a numeric label that [int] cannot convert; a key without
    matrix labels is no error. *)
Theorem convert_key_list_to_layout_returns h keys :
  ((exists out, convert_key_list_to_layout h keys = Ok out) <->
   (forall r, r ∈ keys -> exists key, get_key h r = Ok key /\
                (Key.decal key = false -> convertible key = true /\ decodable key = true)))
  /\ (forall key, (12 <= length (Key.labels key))%nat -> convertible key = true)
  /\ (forall key, decodable key = false <-> extract_row_col key = Err ValueError)
  /\ fails_only (fun e => e = IndexError \/ e = ValueError \/ e = DanglingReference)
                (convert_key_list_to_layout h keys).
Proof.
  split_and!.
  - split.
    + intros [out H]. by eapply convert_key_list_Ok.
    + intros H. eexists. by apply convert_key_list_acc.
  - apply convertible_12.
  - apply decodable_extract_row_col.
  - apply fails_only_rfold. intros acc r. apply fails_only_rbind.
    + unfold get_key. destruct (_ !! _); [apply fails_only_Ok|apply fails_only_Err; auto].
    + intros key. destruct (Key.decal key); [apply fails_only_Ok|].
      apply fails_only_rbind; [|intros; apply fails_only_Ok].
      eapply fails_only_weaken; [|apply convert_key_fails]. intros e [->| ->]; auto.
Qed.

(** X3.  The layout that [convert_key_list_to_layout] returns holds one
    record for every key of the list that is not a decal, in the order of the
    list.  The record of a key holds, in this order: the label of slot 0 if
    it is not empty, x, y, the width if it is not 1, the height if it is not
    1, and the matrix position if [extract_row_col] decodes one. *)
Theorem convert_key_list_to_layout_records h keys out :
  convert_key_list_to_layout h keys = Ok out ->
  out = record_of <$> visible_keys h keys.
Proof.
  intros H. pose proof (convert_key_list_Ok _ _ _ _ H) as Hall.
  unfold convert_key_list_to_layout in H. rewrite convert_key_list_acc in H by done.
  by injection H as <-.
Qed.

(** ** Positions in the records *)

Lemma trunc_of_Z z : trunc (Coord.of_Z z) = z.
Proof.
  unfold trunc, Coord.of_Z. simpl. rewrite inject_Z_Qred. simpl. apply Z.quot_1_r.
Qed.

Lemma int_if_whole_number q : number_of (int_if_whole q) = Some q.
Proof.
  unfold int_if_whole. destruct (Qc_eq_bool _ q) eqn:E; simpl; [|done].
  by apply Qc_eq_bool_correct in E as ->.
Qed.

Lemma int_if_whole_int q z : int_if_whole q = VInt z <-> q = Coord.of_Z z.
Proof.
  unfold int_if_whole. split.
  - destruct (Qc_eq_bool _ q) eqn:E; [|discriminate].
    apply Qc_eq_bool_correct in E. by intros [= <-].
  - intros ->. rewrite trunc_of_Z.
    unfold Qc_eq_bool. by destruct (Qcanon.Qc_eq_dec (Coord.of_Z z) (Coord.of_Z z)).
Qed.

Lemma record_of_x key : od_get (record_of key) "x" = Some (int_if_whole (Key.x key)).
Proof.
  unfold record_of. destruct (Key.labels key !! 0%nat) as [l0|]; [|done].
  by destruct (truthy_str l0).
Qed.

Lemma record_of_y key : od_get (record_of key) "y" = Some (int_if_whole (Key.y key)).
Proof.
  unfold record_of. destruct (Key.labels key !! 0%nat) as [l0|]; [|done].
  by destruct (truthy_str l0).
Qed.

(** X4.  In the layout that [convert_key_list_to_layout] returns, the x and
    the y of every record are the numbers the key holds; each is written as
    an [int] exactly when it is a whole number. *)
Theorem convert_key_list_to_layout_positions h keys out :
  convert_key_list_to_layout h keys = Ok out ->
  Forall2 (fun key e =>
             exists vx vy,
               od_get e "x" = Some vx /\ od_get e "y" = Some vy /\
               number_of vx = Some (Key.x key) /\ number_of vy = Some (Key.y key) /\
               (forall z, vx = VInt z <-> Key.x key = Coord.of_Z z) /\
               (forall z, vy = VInt z <-> Key.y key = Coord.of_Z z))
          (visible_keys h keys) out.
Proof.
  intros H. pose proof (convert_key_list_Ok _ _ _ _ H) as Hall.
  unfold convert_key_list_to_layout in H. rewrite convert_key_list_acc in H by done.
  injection H as <-. simpl. apply Forall2_fmap_r, Forall_Forall2_diag, Forall_forall.
  intros key _. exists (int_if_whole (Key.x key)), (int_if_whole (Key.y key)).
  split_and!; auto using record_of_x, record_of_y, int_if_whole_number, int_if_whole_int.
Qed.

(** ** Discovery of the multilayout keys *)

(** X5.  When [get_multilayout_keys] returns, it returns the keys of the
    keyboard whose label 3 or label 5 is not empty, in the order of the
    keyboard and as often as the keyboard lists them, and labels 3 and 5 of
    each of them are numbers. *)
Theorem get_multilayout_keys_selects h kb ml_keys :
  get_multilayout_keys h kb = Ok ml_keys ->
  exists ks, kbd_keys h kb = Ok ks
    /\ ml_keys = filter (fun r => qualifies h r) ks
    /\ forall r, r ∈ ml_keys ->
         exists key l3 l5, get_key h r = Ok key /\
           Key.labels key !! 3%nat = Some l3 /\ Key.labels key !! 5%nat = Some l5 /\
           isnumeric l3 = true /\ isnumeric l5 = true.
Proof.
  intros (ks & Hks & -> & Hall)%get_multilayout_keys_Ok. exists ks. split_and!; [done..|].
  intros r [Hq Hr]%list_elem_of_filter. destruct (Hall r Hr) as (key & Hk & Hp).
  destruct Hp as [[val ndx] Hp]; [by apply Is_true_true|].
  apply extract_ml_val_ndx_slots in Hp as (l3 & l5 & ? & ? & ? & ? & _).
  by exists key, l3, l5.
Qed.

Lemma isnumeric_truthy s : isnumeric s = true -> truthy_str s = true.
Proof. by destruct s. Qed.

Lemma get_multilayout_keys_step h acc k key :
  get_key h k = Ok key -> (6 <= length (Key.labels key))%nat ->
  (key <~ get_key h k ;;
   l3 <~ label key 3 ;;
   c <~ (if truthy_str l3 then Ok true
         else l5 <~ label key 5 ;; Ok (truthy_str l5)) ;;
   if c : bool then _ <~ extract_ml_val_ndx key ;; Ok (acc ++ [k]) else Ok acc)
  = if ill_labelled h k then Err MalformedMultilayoutLabel
    else if unconverted h k then Err ValueError
    else Ok (if qualifies h k then acc ++ [k] else acc).
Proof.
  intros Hk Hlen. unfold ill_labelled, unconverted, qualifies, converts. rewrite Hk. simpl.
  destruct (lookup_lt_is_Some_2 (Key.labels key) 3%nat) as [l3 H3]; [lia|].
  destruct (lookup_lt_is_Some_2 (Key.labels key) 5%nat) as [l5 H5]; [lia|].
  unfold extract_ml_val_ndx, extract_ml_val_ndx_at, label. rewrite H3, H5. simpl.
  destruct (isnumeric l3) eqn:N3; simpl.
  - rewrite (isnumeric_truthy _ N3). simpl.
    destruct (isnumeric l5) eqn:N5; simpl; [|done].
    destruct (int l3) as [val|e3] eqn:I3; simpl; [|by rewrite (int_error _ _ I3)].
    destruct (int l5) as [ndx|e5] eqn:I5; simpl; [done|by rewrite (int_error _ _ I5)].
  - by destruct (truthy_str l3), (truthy_str l5).
Qed.

Lemma get_multilayout_keys_run h ks :
  (forall r, r ∈ ks -> exists key, get_key h r = Ok key /\ (6 <= length (Key.labels key))%nat) ->
  forall acc,
    rfold (fun keys r =>
             key <~ get_key h r ;;
             l3 <~ label key 3 ;;
             c <~ (if truthy_str l3 then Ok true
                   else l5 <~ label key 5 ;; Ok (truthy_str l5)) ;;
             if c : bool then _ <~ extract_ml_val_ndx key ;; Ok (keys ++ [r]) else Ok keys)
          ks acc
    = match List.find (fun r => ill_labelled h r || unconverted h r) ks with
      | Some r => Err (if ill_labelled h r then MalformedMultilayoutLabel else ValueError)
      | None => Ok (acc ++ filter (fun r => qualifies h r) ks)
      end.
Proof.
  induction ks as [|k ks IH]; intros Hall acc.
  - simpl. by rewrite app_nil_r.
  - destruct (Hall k) as (key & Hk & Hlen); [set_solver|].
    cbn [rfold List.find]. rewrite (get_multilayout_keys_step _ _ _ _ Hk Hlen), filter_cons.
    destruct (ill_labelled h k) eqn:Hill; [cbn [orb rbind]; by rewrite Hill|]. cbn [orb].
    destruct (unconverted h k) eqn:Hun; [cbn [rbind]; by rewrite Hill|]. cbn [rbind].
    rewrite IH by (intros; apply Hall; set_solver).
    destruct (List.find _ ks); [done|].
    destruct (qualifies h k) eqn:Hq.
    + rewrite decide_True by done. by rewrite <- app_assoc.
    + by destruct (decide false).
Qed.

(** X6.  On a keyboard whose keys all have at least six label slots,
    [get_multilayout_keys] returns unless some key has a non-empty label 3 or
    5 without both being numeric, or has both numeric without both being
    strings that [int] converts.  The first such key of the keyboard decides
    what is raised: MalformedMultilayoutLabel in the first case, ValueError
    in the second.  A single key labelled by half makes the whole call
    fail. *)
Theorem get_multilayout_keys_outcome h kb ks :
  kbd_keys h kb = Ok ks ->
  (forall r, r ∈ ks -> exists key, get_key h r = Ok key /\ (6 <= length (Key.labels key))%nat) ->
  get_multilayout_keys h kb =
    match List.find (fun r => ill_labelled h r || unconverted h r) ks with
    | Some r => Err (if ill_labelled h r then MalformedMultilayoutLabel else ValueError)
    | None => Ok (filter (fun r => qualifies h r) ks)
    end.
Proof.
  intros Hks Hall. unfold get_multilayout_keys. rewrite Hks. simpl.
  by rewrite get_multilayout_keys_run.
Qed.

(** ** The keys of a resolved layout *)

Lemma plain_keys_filter h l :
  forall acc q,
    rfold (fun qmk_keys r =>
             key <~ get_key h r ;; e <~ is_encoder key ;;
             if e : bool then Ok qmk_keys else Ok (qmk_keys ++ [r])) l acc = Ok q ->
    q = acc ++ filter (fun r => not_encoder h r) l.
Proof.
  induction l as [|k l IH]; intros acc q; simpl.
  - intros [= <-]. by rewrite app_nil_r.
  - intros H. inv_rbind H as acc1 Hstep. apply IH in H as ->.
    rewrite filter_cons.
    destruct (get_key h k) as [key|] eqn:Hk; [|discriminate]. simpl in Hstep.
    destruct (is_encoder key) as [[|]|] eqn:He; simpl in Hstep; [| |discriminate];
      injection Hstep as <-.
    + rewrite decide_False; [done|]. unfold not_encoder. rewrite Hk, He. simpl. tauto.
    + rewrite decide_True; [by rewrite <- app_assoc|]. unfold not_encoder. by rewrite Hk, He.
Qed.

Lemma plain_keys_Ok h ks ml_keys q :
  plain_keys h ks ml_keys = Ok q ->
  q = filter (fun r => not_encoder h r) (filter (fun k => k ∉ ml_keys) ks).
Proof. unfold plain_keys. by intros ->%plain_keys_filter. Qed.

Lemma select_option_output st p h st' h' :
  select_option st p h = (Ok st', h') ->
  same_buckets st.1 st'.1 /\ same_labels h h' /\ st'.2 = st.2 ++ bucket_of st.1 p.1 p.2 /\
  exists g b, st.1 !! p.1 = Some g /\ buckets g !! p.2 = Some b.
Proof.
  unfold select_option. intros H.
  apply bind_Ok in H as (g & h0 & Hg & H). injection Hg as Hg <-.
  apply bind_Ok in H as (b & h0 & Hb & H). injection Hb as Hb <-.
  apply place_keys_output in H as (Hb1 & Hl1 & Hq1).
  unfold group_at in Hg. unfold bucket_at in Hb.
  destruct (st.1 !! p.1) as [g0|] eqn:Hg0; [|discriminate]. injection Hg as ->.
  destruct (buckets g !! p.2) as [b0|] eqn:Hb0; [|discriminate]. injection Hb as ->.
  rewrite (bucket_of_lookup _ _ _ _ _ Hg0 Hb0). split_and!; [done..|eauto].
Qed.

Lemma select_options_exact l :
  forall st h st' h',
    mfold select_option l st h = (Ok st', h') ->
    same_buckets st.1 st'.1 /\ same_labels h h' /\
    st'.2 = st.2 ++ mjoin ((fun p => bucket_of st.1 p.1 p.2) <$> l) /\
    forall p, p ∈ l -> exists g b, st.1 !! p.1 = Some g /\ buckets g !! p.2 = Some b.
Proof.
  induction l as [|p l IH]; intros st h st' h'; simpl.
  - intros [= <- <-]. rewrite app_nil_r. split_and!; [done..|].
    intros p Hp. by apply elem_of_nil in Hp.
  - intros (st1 & h1 & Hstep & Hrun)%bind_Ok.
    apply select_option_output in Hstep as (Hb1 & Hl1 & Hq1 & Hp1).
    apply IH in Hrun as (Hb2 & Hl2 & Hq2 & Hp2). split_and!.
    + by eapply same_buckets_trans.
    + by eapply same_labels_trans.
    + rewrite Hq2, Hq1, <- app_assoc. do 3 f_equal.
      apply list_fmap_ext. intros _ q _. by apply same_buckets_bucket_of.
    + intros q [->|Hq]%elem_of_cons; [done|].
      destruct (Hp2 q Hq) as (g & b & Hg & Hb).
      specialize (Hb1 q.1). rewrite Hg in Hb1. simpl in Hb1.
      destruct (st.1 !! q.1) as [g0|]; [|done]. injection Hb1 as Hb1.
      exists g0, b. by rewrite <- Hb1.
Qed.

Lemma lands_in_qualifies h n v r :
  lands_in h n v r = true -> qualifies h r = true /\ not_encoder h r = true.
Proof.
  intros H. pose proof H as (key & l3 & l5 & Hk & He & H3 & H5 & N3 & N5 & _)%lands_in_slots.
  unfold qualifies, not_encoder, label. rewrite Hk, He, H3.
  by rewrite (isnumeric_truthy _ N3).
Qed.

Lemma elem_of_enumerate {A} (l : list A) p :
  p ∈ enumerate l <-> exists (i : nat) a, p = (Z.of_nat i, a) /\ l !! i = Some a.
Proof.
  unfold enumerate. rewrite list_elem_of_lookup. split.
  - intros [i Hi]. rewrite list_lookup_imap in Hi.
    destruct (l !! i) as [a|] eqn:Ha; [|done]. injection Hi as <-. eauto.
  - intros (i & a & -> & Ha). exists i. by rewrite list_lookup_imap, Ha.
Qed.

Lemma NoDup_enumerate {A} (l : list A) : NoDup (enumerate l).
Proof.
  apply NoDup_alt. intros i j p Hi Hj. unfold enumerate in *.
  rewrite list_lookup_imap in Hi, Hj.
  destruct (l !! i); [|done]. destruct (l !! j); [|done].
  injection Hi as <-. injection Hj as Hj _. lia.
Qed.

Lemma NoDup_selected_buckets d ps :
  (forall n v, NoDup (bucket_of d n v)) ->
  (forall n v n' v' r, r ∈ bucket_of d n v -> r ∈ bucket_of d n' v' -> n = n' /\ v = v') ->
  NoDup ps ->
  NoDup (mjoin ((fun p => bucket_of d p.1 p.2) <$> ps)).
Proof.
  intros Hnd Hone. induction 1 as [|p ps Hp Hps IH]; simpl; [constructor|].
  apply NoDup_app. split_and!; [apply Hnd| |exact IH].
  intros r Hr (b & Hrb & (p' & -> & Hp')%list_elem_of_fmap)%list_elem_of_join.
  destruct (Hone _ _ _ _ _ Hr Hrb) as [H1 H2]. apply Hp.
  destruct p, p'; simpl in *; by subst.
Qed.

Lemma selected_keys_NoDup h ks ml_keys q d layout_idx st h1 :
  plain_keys h ks ml_keys = Ok q ->
  group_keys h ks ml_keys = Ok d ->
  mfold select_option (enumerate layout_idx) (d, q) h = (Ok st, h1) ->
  NoDup ks -> NoDup st.2.
Proof.
  intros Hq Hd Hsel Hnd.
  pose proof (plain_keys_Ok _ _ _ _ Hq) as Hqf.
  apply select_options_exact in Hsel as (_ & _ & Hst & _). simpl in Hst.
  rewrite Hst. apply NoDup_app. split_and!.
  - rewrite Hqf. by do 2 apply NoDup_filter.
  - intros r Hr (b & Hrb & (p & -> & _)%list_elem_of_fmap)%list_elem_of_join.
    rewrite Hqf in Hr. apply list_elem_of_filter in Hr as [_ [Hnot _]%list_elem_of_filter].
    apply (group_keys_elem _ _ _ _ _ _ _ Hd) in Hrb as [Hin _].
    unfold ml_keys_in_order in Hin. by apply list_elem_of_filter in Hin as [? _].
  - apply NoDup_selected_buckets.
    + intros n v. by eapply group_keys_NoDup.
    + intros n v n' v' r. by eapply group_keys_one_bucket.
    + apply NoDup_enumerate.
Qed.

Lemma selected_keys_members h ks q d layout_idx st h1 :
  plain_keys h ks (filter (fun r => qualifies h r) ks) = Ok q ->
  group_keys h ks (filter (fun r => qualifies h r) ks) = Ok d ->
  mfold select_option (enumerate layout_idx) (d, q) h = (Ok st, h1) ->
  forall r, r ∈ st.2 <-> r ∈ ks /\ in_layout h layout_idx r.
Proof.
  intros Hq Hd Hsel r. unfold in_layout.
  apply plain_keys_Ok in Hq. apply select_options_exact in Hsel as (_ & _ & Hst & _).
  simpl in Hst. rewrite Hst, elem_of_app, Hq.
  rewrite !list_elem_of_filter, list_elem_of_join.
  split.
  - intros [(Hne & Hnq & Hr)|(b & Hrb & Hb)].
    + split; [done|]. left. split; [|by apply Is_true_true].
      destruct (qualifies h r) eqn:E; [|done]. exfalso. by apply Hnq.
    + apply list_elem_of_fmap in Hb as (p & -> & (i & v & -> & Hv)%elem_of_enumerate).
      simpl in Hrb. apply (group_keys_elem _ _ _ _ _ _ _ Hd) in Hrb as [Hin Hland].
      split; [by eapply ml_keys_in_order_subset|]. right. eauto.
  - intros [Hr [[Hnq Hne]|(i & v & Hv & Hland)]].
    + left. split_and!; [by apply Is_true_true| |done].
      intros [Hq' _]. by rewrite Hnq in Hq'.
    + right. exists (bucket_of d (Z.of_nat i) v). split.
      * apply (group_keys_elem _ _ _ _ _ _ _ Hd). split; [|done].
        unfold ml_keys_in_order. apply list_elem_of_filter. split; [|done].
        apply list_elem_of_filter. split; [|done].
        apply Is_true_true. by eapply lands_in_qualifies.
      * apply list_elem_of_fmap. exists (Z.of_nat i, v). split; [done|].
        apply elem_of_enumerate. eauto.
Qed.

Section Resolved.

Variable sort_keys : list Key.t -> list ref -> list ref.
Hypothesis sort_keys_permutation : forall ks l, Permutation (sort_keys ks l) l.

(** X7.  The key list that [get_specific_layout] returns holds exactly these
    keys of the keyboard: the keys without multilayout labels and without
    the encoder marker, and the keys without the encoder marker whose label
    3 reads the position [i] of an entry of the selection and whose label 5
    reads the value selected there. *)
Theorem get_specific_layout_keys kbd layout_idx h l h' ks :
  get_specific_layout sort_keys kbd layout_idx h = (Ok l, h') ->
  kbd_keys h kbd = Ok ks ->
  forall r, r ∈ l <-> r ∈ ks /\ in_layout h layout_idx r.
Proof.
  intros (ml_keys & ks' & q & d & st & h1 & Hml & Hks' & Hq & Hd & _ & _ & Hsel & _ & ->)
    %get_specific_layout_Ok Hks r.
  rewrite Hks in Hks'. injection Hks' as <-.
  apply get_multilayout_keys_Ok in Hml as (ks' & Hks' & -> & _).
  rewrite Hks in Hks'. injection Hks' as <-.
  rewrite sort_keys_permutation. by eapply selected_keys_members.
Qed.

(** X8.  On a keyboard that lists no key twice, the key list that
    [get_specific_layout] returns lists no key twice. *)
Theorem get_specific_layout_NoDup kbd layout_idx h l h' ks :
  get_specific_layout sort_keys kbd layout_idx h = (Ok l, h') ->
  kbd_keys h kbd = Ok ks ->
  NoDup ks -> NoDup l.
Proof.
  intros (ml_keys & ks' & q & d & st & h1 & Hml & Hks' & Hq & Hd & _ & _ & Hsel & _ & ->)
    %get_specific_layout_Ok Hks Hnd.
  rewrite Hks in Hks'. injection Hks' as <-.
  rewrite sort_keys_permutation. by eapply selected_keys_NoDup.
Qed.

End Resolved.

(** ** LayoutNormalizer *)

Lemma times_listed_cons_eq r q : times_listed r (r :: q) = S (times_listed r q).
Proof. unfold times_listed. by rewrite filter_cons_True. Qed.

Lemma times_listed_cons_ne r k q : k <> r -> times_listed r (k :: q) = times_listed r q.
Proof. intros H. unfold times_listed. by rewrite filter_cons_False. Qed.

Lemma times_listed_0 r q : r ∉ q -> times_listed r q = 0%nat.
Proof.
  induction q as [|k q IH]; [done|]. intros Hr.
  rewrite times_listed_cons_ne by set_solver. apply IH. set_solver.
Qed.

Lemma times_listed_NoDup r q : NoDup q -> r ∈ q -> times_listed r q = 1%nat.
Proof.
  induction 1 as [|k q Hk Hq IH]; [by intros ?%elem_of_nil|].
  intros [->|Hr]%elem_of_cons.
  - by rewrite times_listed_cons_eq, times_listed_0.
  - rewrite times_listed_cons_ne by (intros ->; done). by apply IH.
Qed.

Lemma rebase_loop_run off q :
  forall h h',
    mfold (fun (_ : unit) r =>
             key <- reading (fun h => get_key h r) ;; put_key r (rebase_key key off)) q tt h
      = (Ok tt, h') ->
    kbd_objs h' = kbd_objs h /\
    forall r, key_objs h' !! r =
              Nat.iter (times_listed r q) (fun key => rebase_key key off) <$> key_objs h !! r.
Proof.
  induction q as [|k q IH]; intros h h'.
  - intros [= <-]. split; [done|]. intros r. simpl. by destruct (key_objs h !! r).
  - cbn [mfold]. unfold bind at 1. unfold bind at 1, reading, get_key.
    destruct (key_objs h !! k) as [key|] eqn:Hk; [|discriminate].
    simpl. intros [Hkb Hrun]%IH. split; [done|]. intros r. rewrite Hrun.
    destruct (decide (k = r)) as [->|Hne].
    + rewrite times_listed_cons_eq, (write_key_same _ _ _ _ Hk), Hk.
      cbn [fmap option_fmap option_map]. f_equal.
      exact (eq_sym (Nat.iter_succ_r _ (fun key0 => rebase_key key0 off) key)).
    + rewrite times_listed_cons_ne by done. by rewrite write_key_other.
Qed.

Lemma normalize_Ok q h h' :
  normalize q h = (Ok tt, h') ->
  exists off,
    min_x_y h q = Ok off /\
    mfold (fun (_ : unit) r =>
             key <- reading (fun h => get_key h r) ;; put_key r (rebase_key key off)) q tt h
      = (Ok tt, h').
Proof.
  unfold normalize. unfold bind at 1, reading.
  destruct (min_x_y h q) as [off|]; [|discriminate]. eauto.
Qed.

(** X9.  The alignment pass subtracts the min-corner of the key list, taken
    before the pass, from the x and the y of a key once for every time the
    list names that key: a key that is listed twice is moved twice, and a
    key that is not listed is left as it is.  Nothing else of a key is
    written, neither its rotation origin nor any keyboard. *)
Theorem normalize_moves q h h' :
  normalize q h = (Ok tt, h') ->
  exists off,
    min_x_y h q = Ok off /\
    kbd_objs h' = kbd_objs h /\
    forall r, key_objs h' !! r =
              Nat.iter (times_listed r q) (fun key => rebase_key key off) <$> key_objs h !! r.
Proof.
  intros (off & Hoff & Hloop)%normalize_Ok.
  apply rebase_loop_run in Hloop as [Hkb Hkeys]. by exists off.
Qed.

(** ** The smallest coordinate *)

Lemma min2_le_l a b : (Coord.min2 a b <= a)%Qc.
Proof.
  unfold Coord.min2. destruct (Coord.leb a b) eqn:E; [apply Qcle_refl|].
  apply Qclt_le_weak, Qcnot_le_lt. intros H%leb_le. congruence.
Qed.

Lemma min2_le_r a b : (Coord.min2 a b <= b)%Qc.
Proof.
  unfold Coord.min2. destruct (Coord.leb a b) eqn:E; [by apply leb_le|apply Qcle_refl].
Qed.

Lemma minimum_le a l :
  (Coord.minimum a l <= a)%Qc /\ Forall (fun b => Coord.minimum a l <= b)%Qc l.
Proof.
  unfold Coord.minimum. revert a. induction l as [|b l IH]; intros a; simpl.
  - split; [apply Qcle_refl|constructor].
  - destruct (IH (Coord.min2 a b)) as [H1 H2]. split_and!.
    + eapply Qcle_trans; [exact H1|apply min2_le_l].
    + constructor; [|done]. eapply Qcle_trans; [exact H1|apply min2_le_r].
Qed.

Lemma minimum_in a l : Coord.minimum a l = a \/ Coord.minimum a l ∈ l.
Proof.
  unfold Coord.minimum. revert a. induction l as [|b l IH]; intros a; simpl; [by left|].
  destruct (IH (Coord.min2 a b)) as [->|Hin]; [|right; by right].
  unfold Coord.min2. destruct (Coord.leb a b); [by left|right; left].
Qed.

Lemma Qc_sub_nonneg a m : (m <= a)%Qc -> (0 <= a - m)%Qc.
Proof. intros H. by apply Qcle_minus_iff in H. Qed.

Lemma Qc_sub_self a : (a - a)%Qc = 0%Qc.
Proof. ring. Qed.

Lemma normalize_aligns q h h' :
  NoDup q -> normalize q h = (Ok tt, h') ->
  (forall r, r ∈ q ->
     exists key', key_objs h' !! r = Some key' /\
       (0 <= Key.x key')%Qc /\ (0 <= Key.y key')%Qc)
  /\ (exists r key', r ∈ q /\ key_objs h' !! r = Some key' /\ Key.x key' = 0%Qc)
  /\ (exists r key', r ∈ q /\ key_objs h' !! r = Some key' /\ Key.y key' = 0%Qc).
Proof.
  intros Hnd (off & Hoff & [_ Hkeys]%rebase_loop_run)%normalize_Ok.
  unfold min_x_y in Hoff. destruct (get_keys h q) as [ks|] eqn:Hks; [|discriminate].
  simpl in Hoff. destruct ks as [|k ks]; [discriminate|]. injection Hoff as <-.
  apply get_keys_Ok in Hks.
  set (mx := Coord.minimum (Key.x k) (map Key.x ks)) in *.
  set (my := Coord.minimum (Key.y k) (map Key.y ks)) in *.
  assert (Hafter : forall r key, r ∈ q -> key_objs h !! r = Some key ->
                     key_objs h' !! r = Some (rebase_key key (mx, my))).
  { intros r key Hr Hk. by rewrite Hkeys, Hk, (times_listed_NoDup _ _ Hnd Hr). }
  assert (Hx : forall key, key ∈ k :: ks -> (mx <= Key.x key)%Qc).
  { intros key [->|Hin]%elem_of_cons; [apply minimum_le|].
    destruct (minimum_le (Key.x k) (map Key.x ks)) as [_ H]. rewrite Forall_forall in H.
    apply H. apply list_elem_of_In, in_map, list_elem_of_In, Hin. }
  assert (Hy : forall key, key ∈ k :: ks -> (my <= Key.y key)%Qc).
  { intros key [->|Hin]%elem_of_cons; [apply minimum_le|].
    destruct (minimum_le (Key.y k) (map Key.y ks)) as [_ H]. rewrite Forall_forall in H.
    apply H. apply list_elem_of_In, in_map, list_elem_of_In, Hin. }
  assert (Hhas : forall key, key ∈ k :: ks -> exists r, r ∈ q /\ key_objs h !! r = Some key).
  { intros key Hin. apply list_elem_of_lookup in Hin as [i Hi].
    destruct (Forall2_lookup_r _ _ _ _ _ Hks Hi) as (r & Hr & Hk).
    exists r. split; [by eapply list_elem_of_lookup_2|done]. }
  split_and!.
  - intros r Hr. apply list_elem_of_lookup in Hr as [i Hi].
    destruct (Forall2_lookup_l _ _ _ _ _ Hks Hi) as (key & Hkey & Hk).
    exists (rebase_key key (mx, my)). split; [|simpl; split].
    + apply Hafter; [by eapply list_elem_of_lookup_2|done].
    + apply Qc_sub_nonneg, Hx. by eapply list_elem_of_lookup_2.
    + apply Qc_sub_nonneg, Hy. by eapply list_elem_of_lookup_2.
  - assert (exists key, key ∈ k :: ks /\ Key.x key = mx) as (key & Hin & Hm).
    { destruct (minimum_in (Key.x k) (map Key.x ks)) as [E|E].
      - exists k. split; [left|done].
      - apply list_elem_of_In, in_map_iff in E as (key & E & Hin%list_elem_of_In).
        exists key. split; [by right|done]. }
    destruct (Hhas key Hin) as (r & Hr & Hk). exists r, (rebase_key key (mx, my)).
    split_and!; [done|by apply Hafter|]. simpl. rewrite Hm. apply Qc_sub_self.
  - assert (exists key, key ∈ k :: ks /\ Key.y key = my) as (key & Hin & Hm).
    { destruct (minimum_in (Key.y k) (map Key.y ks)) as [E|E].
      - exists k. split; [left|done].
      - apply list_elem_of_In, in_map_iff in E as (key & E & Hin%list_elem_of_In).
        exists key. split; [by right|done]. }
    destruct (Hhas key Hin) as (r & Hr & Hk). exists r, (rebase_key key (mx, my)).
    split_and!; [done|by apply Hafter|]. simpl. rewrite Hm. apply Qc_sub_self.
Qed.

Section Aligned.

Variable sort_keys : list Key.t -> list ref -> list ref.
Hypothesis sort_keys_permutation : forall ks l, Permutation (sort_keys ks l) l.

(** X10.  On a keyboard that lists no key twice, the layout that
    [get_specific_layout] returns is aligned against the top left: no key of
    it has a negative x or y, some key of it has x = 0 and some key of it
    has y = 0.  (The min-corner of a key list is the smallest x and the
    smallest y of its keys.) *)
Theorem get_specific_layout_aligned kbd layout_idx h l h' ks :
  get_specific_layout sort_keys kbd layout_idx h = (Ok l, h') ->
  kbd_keys h kbd = Ok ks ->
  NoDup ks ->
  (forall r, r ∈ l ->
     exists key', get_key h' r = Ok key' /\ (0 <= Key.x key')%Qc /\ (0 <= Key.y key')%Qc)
  /\ (exists r key', r ∈ l /\ get_key h' r = Ok key' /\ Key.x key' = 0%Qc)
  /\ (exists r key', r ∈ l /\ get_key h' r = Ok key' /\ Key.y key' = 0%Qc).
Proof.
  intros (ml_keys & ks' & q & d & st & h1 & _ & Hks' & Hq & Hd & _ & _ & Hsel & Hnorm & ->)
    %get_specific_layout_Ok Hks Hnd.
  rewrite Hks in Hks'. injection Hks' as <-.
  pose proof (selected_keys_NoDup _ _ _ _ _ _ _ _ Hq Hd Hsel Hnd) as Hl.
  destruct (normalize_aligns _ _ _ Hl Hnorm) as (Hall & Hx & Hy).
  setoid_rewrite sort_keys_permutation. setoid_rewrite get_key_Ok. done.
Qed.

End Aligned.

(** ** Code that only moves keys *)

Lemma same_shape_refl k : same_shape k k.
Proof. by repeat split. Qed.

Lemma same_shape_trans k1 k2 k3 : same_shape k1 k2 -> same_shape k2 k3 -> same_shape k1 k3.
Proof. unfold same_shape. intros (?&?&?&?&?) (?&?&?&?&?). split_and!; congruence. Qed.

Lemma moved_only_refl h : moved_only h h.
Proof. split; [done|]. apply Forall_Forall2_diag, Forall_forall. intros; apply same_shape_refl. Qed.

Lemma moved_only_trans h1 h2 h3 : moved_only h1 h2 -> moved_only h2 h3 -> moved_only h1 h3.
Proof.
  intros [K1 F1] [K2 F2]. split; [congruence|].
  eapply Forall2_trans; [|exact F1|exact F2]. apply same_shape_trans.
Qed.

Lemma moved_only_write h r key key' :
  key_objs h !! r = Some key -> same_shape key key' -> moved_only h (write_key h r key').
Proof.
  intros Hk Hs. split; [done|]. simpl.
  rewrite <- (list_insert_id (key_objs h) r key) at 1 by done.
  apply Forall2_insert; [|done].
  apply Forall_Forall2_diag, Forall_forall. intros; apply same_shape_refl.
Qed.

Lemma moves_only_ret {A} (a : A) : moves_only (ret a).
Proof. intros h res h' [= <- <-]. apply moved_only_refl. Qed.

Lemma moves_only_raise {A} e : moves_only (@raise A e).
Proof. intros h res h' [= <- <-]. apply moved_only_refl. Qed.

Lemma moves_only_lift {A} (r : result A) : moves_only (lift r).
Proof. intros h res h' [= <- <-]. apply moved_only_refl. Qed.

Lemma moves_only_reading {A} (f : heap -> result A) : moves_only (reading f).
Proof. intros h res h' [= <- <-]. apply moved_only_refl. Qed.

Lemma moves_only_bind {A B} (m : M A) (f : A -> M B) :
  moves_only m -> (forall a, moves_only (f a)) -> moves_only (bind m f).
Proof.
  intros Hm Hf h res h'. unfold bind. destruct (m h) as [[a|e] h1] eqn:E.
  - intros H. eapply moved_only_trans; [by eapply Hm|by eapply Hf].
  - intros [= <- <-]. by eapply Hm.
Qed.

Lemma moves_only_mfold {A B} (f : A -> B -> M A) l a :
  (forall a b, moves_only (f a b)) -> moves_only (mfold f l a).
Proof.
  intros Hf. revert a; induction l as [|b l IH]; intros a; simpl.
  - apply moves_only_ret.
  - apply moves_only_bind; auto.
Qed.

Lemma same_shape_shift key off : same_shape key (shift_key key off).
Proof. unfold shift_key, same_shape. simpl. by destruct (Coord.is_zero _). Qed.

Lemma same_shape_rebase key off : same_shape key (rebase_key key off).
Proof. by repeat split. Qed.

Lemma moves_only_apply_offset r off : moves_only (apply_offset r off).
Proof.
  intros h res h'. rewrite apply_offset_run.
  destruct (key_objs h !! r) as [key|] eqn:Hk; intros [= <- <-].
  - eapply moved_only_write; [done|apply same_shape_shift].
  - apply moved_only_refl.
Qed.

Lemma moves_only_place_key n v st r : moves_only (place_key n v st r).
Proof.
  unfold place_key. destruct (0 <? v); [|apply moves_only_ret].
  apply moves_only_bind; [apply moves_only_reading|]. intros p.
  apply moves_only_bind; [apply moves_only_apply_offset|]. intros; apply moves_only_ret.
Qed.

Lemma moves_only_select_option st p : moves_only (select_option st p).
Proof.
  apply moves_only_bind; [apply moves_only_lift|]. intros g.
  apply moves_only_bind; [apply moves_only_lift|]. intros b.
  apply moves_only_mfold. intros; apply moves_only_place_key.
Qed.

Lemma moves_only_normalize q : moves_only (normalize q).
Proof.
  apply moves_only_bind; [apply moves_only_reading|]. intros off.
  apply moves_only_mfold. intros _ r h res h'.
  unfold bind, reading, get_key, put_key.
  destruct (key_objs h !! r) as [key|] eqn:Hk; intros [= <- <-].
  - eapply moved_only_write; [done|apply same_shape_rebase].
  - apply moved_only_refl.
Qed.

Lemma moves_only_get_specific_layout sort_keys kbd layout_idx :
  moves_only (get_specific_layout sort_keys kbd layout_idx).
Proof.
  unfold get_specific_layout.
  apply moves_only_bind; [apply moves_only_reading|]. intros ml_keys.
  apply moves_only_bind; [apply moves_only_reading|]. intros ks.
  apply moves_only_bind; [apply moves_only_reading|]. intros q.
  apply moves_only_bind; [apply moves_only_reading|]. intros d.
  destruct (negb _); [apply moves_only_raise|].
  apply moves_only_bind; [apply moves_only_lift|]. intros _.
  apply moves_only_bind; [apply moves_only_mfold; intros; apply moves_only_select_option|].
  intros st. apply moves_only_bind; [apply moves_only_normalize|].
  intros _. apply moves_only_reading.
Qed.

(** ** Keys that are not part of the layout *)

Lemma place_key_untouched n v st r h res h' r' :
  place_key n v st r h = (res, h') -> r' <> r -> key_objs h' !! r' = key_objs h !! r'.
Proof.
  intros [[->|[k ->]] _]%place_key_heap Hne; [done|]. by apply write_key_other.
Qed.

Lemma place_keys_untouched n v l r' :
  r' ∉ l ->
  forall st h res h',
    mfold (place_key n v) l st h = (res, h') -> key_objs h' !! r' = key_objs h !! r'.
Proof.
  induction l as [|r l IH]; intros Hr' st h res h'; simpl.
  - by intros [= _ <-].
  - unfold bind. destruct (place_key n v st r h) as [[st1|e] h1] eqn:Hstep.
    + intros Hrun%IH; [|set_solver]. rewrite Hrun.
      eapply place_key_untouched; [exact Hstep|set_solver].
    + intros [= _ <-]. eapply place_key_untouched; [exact Hstep|set_solver].
Qed.

Lemma select_options_untouched l r' :
  forall st h st' h',
    mfold select_option l st h = (Ok st', h') -> r' ∉ st'.2 ->
    key_objs h' !! r' = key_objs h !! r'.
Proof.
  induction l as [|p l IH]; intros st h st' h'; simpl.
  - by intros [= _ <-].
  - intros (st1 & h1 & Hstep & Hrun)%bind_Ok Hr'.
    pose proof (select_options_exact _ _ _ _ _ Hrun) as (_ & _ & Hq2 & _).
    pose proof (select_option_output _ _ _ _ _ Hstep) as (_ & _ & Hq1 & _).
    rewrite (IH _ _ _ _ Hrun Hr').
    unfold select_option in Hstep.
    apply bind_Ok in Hstep as (g & h0 & Hg & Hstep). injection Hg as Hg <-.
    apply bind_Ok in Hstep as (b & h0 & Hb & Hstep). injection Hb as Hb <-.
    eapply place_keys_untouched; [|exact Hstep].
    unfold group_at in Hg. unfold bucket_at in Hb.
    destruct (st.1 !! p.1) as [g0|] eqn:Hg0; [|discriminate]. injection Hg as ->.
    destruct (buckets g !! p.2) as [b0|] eqn:Hb0; [|discriminate]. injection Hb as ->.
    rewrite (bucket_of_lookup _ _ _ _ _ Hg0 Hb0) in Hq1.
    rewrite Hq2, Hq1 in Hr'. set_solver.
Qed.

Section Untouched.

Variable sort_keys : list Key.t -> list ref -> list ref.
Hypothesis sort_keys_permutation : forall ks l, Permutation (sort_keys ks l) l.

(** X11.  Whatever [get_specific_layout] returns or raises, it only moves
    keys: every keyboard keeps its key list, no key object is added or
    removed, and every key keeps its width, height, rotation angle, labels
    and decal flag.  When it returns, the keys that are not in the returned
    list are what they were, position and rotation origin included. *)
Theorem get_specific_layout_moves_only kbd layout_idx h res h' :
  get_specific_layout sort_keys kbd layout_idx h = (res, h') ->
  moved_only h h'
  /\ forall l, res = Ok l -> forall r, r ∉ l -> key_objs h' !! r = key_objs h !! r.
Proof.
  intros Hrun. split; [by eapply moves_only_get_specific_layout|].
  intros l -> r Hr.
  apply get_specific_layout_Ok in Hrun
    as (ml_keys & ks & q & d & st & h1 & _ & _ & _ & _ & _ & _ & Hsel & Hnorm & ->).
  rewrite sort_keys_permutation in Hr.
  apply normalize_Ok in Hnorm as (off & _ & [_ Hkeys]%rebase_loop_run).
  rewrite Hkeys, (times_listed_0 _ _ Hr), (select_options_untouched _ _ _ _ _ _ Hsel Hr).
  simpl. by destruct (key_objs h !! r).
Qed.

End Untouched.

(** ** A selection that is turned down *)

Lemma get_specific_layout_rejects sort_keys kbd layout_idx h e h' :
  get_specific_layout sort_keys kbd layout_idx h = (Err e, h') ->
  ~ lookup_error e -> h' = h.
Proof.
  unfold get_specific_layout. intros H Hne. revert H.
  unfold bind at 1, reading.
  destruct (get_multilayout_keys h kbd) as [ml_keys|]; [|by intros [= _ <-]].
  unfold bind at 1. destruct (kbd_keys h kbd) as [ks|]; [|by intros [= _ <-]].
  unfold bind at 1. destruct (plain_keys h ks ml_keys) as [q|]; [|by intros [= _ <-]].
  unfold bind at 1. destruct (group_keys h ks ml_keys) as [d|]; [|by intros [= _ <-]].
  destruct (negb _); [by intros [= _ <-]|].
  unfold bind at 1, lift. destruct (validate d layout_idx) as [[]|]; [|by intros [= _ <-]].
  intros H. exfalso. apply Hne. revert H.
  apply (raises_only_bind lookup_error);
    [apply raises_only_mfold; intros; apply select_option_raises|].
  intros st. apply raises_only_bind; [apply normalize_raises|].
  intros _. apply raises_only_reading. intros; apply fails_only_Ok.
Qed.

(** X12.  A selection that [get_specific_layout] turns down moves no key:
    when the call raises SelectionArityMismatch, SelectionIndexOutOfRange,
    MalformedMultilayoutLabel or IndexError, the heap is what it was.  (Keys
    may have been moved when a later pass raises KeyError or ValueError.) *)
Theorem rejected_selection_moves_nothing sort_keys kbd layout_idx h e h' :
  get_specific_layout sort_keys kbd layout_idx h = (Err e, h') ->
  e = SelectionArityMismatch \/ e = SelectionIndexOutOfRange \/
  e = MalformedMultilayoutLabel \/ e = IndexError ->
  h' = h.
Proof.
  intros H He. eapply get_specific_layout_rejects; [exact H|].
  unfold lookup_error. naive_solver.
Qed.

(** ** Several selections in a row *)

Lemma moved_only_labels h h' : moved_only h h' -> same_labels h h'.
Proof.
  intros [_ HF] r. destruct (key_objs h !! r) as [k|] eqn:Hk.
  - destruct (Forall2_lookup_l _ _ _ _ _ HF Hk) as (k' & -> & Hs). simpl.
    by destruct Hs as (_ & _ & _ & -> & _).
  - apply lookup_ge_None in Hk. rewrite (Forall2_length _ _ _ HF) in Hk.
    apply lookup_ge_None in Hk. by rewrite Hk.
Qed.

Lemma qualifies_labels h h' r :
  Key.labels <$> key_objs h' !! r = Key.labels <$> key_objs h !! r ->
  qualifies h' r = qualifies h r.
Proof.
  unfold qualifies, get_key. destruct (key_objs h' !! r) as [k'|], (key_objs h !! r) as [k|];
    simpl; try done. intros [= E]. unfold label. by rewrite E.
Qed.

Lemma not_encoder_labels h h' r :
  Key.labels <$> key_objs h' !! r = Key.labels <$> key_objs h !! r ->
  not_encoder h' r = not_encoder h r.
Proof.
  unfold not_encoder, get_key. destruct (key_objs h' !! r) as [k'|], (key_objs h !! r) as [k|];
    simpl; try done. intros [= E]. by rewrite (is_encoder_labels k k').
Qed.

Lemma lands_in_labels h h' n v r :
  Key.labels <$> key_objs h' !! r = Key.labels <$> key_objs h !! r ->
  lands_in h' n v r = lands_in h n v r.
Proof.
  unfold lands_in, get_key. destruct (key_objs h' !! r) as [k'|], (key_objs h !! r) as [k|];
    simpl; try done. intros [= E]. rewrite (is_encoder_labels k k') by done.
  unfold extract_ml_val_ndx, extract_ml_val_ndx_at, label. by rewrite E.
Qed.

Lemma in_layout_labels h h' layout_idx r :
  same_labels h h' -> in_layout h' layout_idx r <-> in_layout h layout_idx r.
Proof.
  intros Hl. unfold in_layout.
  rewrite (qualifies_labels h h' r), (not_encoder_labels h h' r) by apply Hl.
  by setoid_rewrite (lands_in_labels h h' _ _ r (Hl r)).
Qed.

Section Alternates.

Variable sort_keys : list Key.t -> list ref -> list ref.
Hypothesis sort_keys_permutation : forall ks l, Permutation (sort_keys ks l) l.

Lemma get_alternate_layouts_acc kbd ks layout_info :
  forall acc h res h',
    kbd_keys h kbd = Ok ks ->
    mfold (fun alt_layouts (p : string * list Z) =>
             resulting_keys <- get_specific_layout sort_keys kbd p.2 ;;
             ret (alt_layouts ++ [(p.1, resulting_keys)]))
          layout_info acc h = (res, h') ->
    moved_only h h' /\
    forall out, res = Ok out ->
      exists new, out = acc ++ new /\
        Forall2 (fun (p : string * list Z) (e : string * list ref) =>
                   e.1 = p.1 /\ forall r, r ∈ e.2 <-> r ∈ ks /\ in_layout h p.2 r)
                layout_info new.
Proof.
  induction layout_info as [|[name choices] info IH]; intros acc h res h' Hks; simpl.
  - intros [= <- <-]. split; [apply moved_only_refl|].
    intros out [= <-]. exists []. by rewrite app_nil_r.
  - unfold bind at 1. unfold bind at 1.
    destruct (get_specific_layout sort_keys kbd choices h) as [[l|e] h1] eqn:Hstep.
    + pose proof (moves_only_get_specific_layout _ _ _ _ _ _ Hstep) as Hm1. simpl.
      assert (Hks1 : kbd_keys h1 kbd = Ok ks).
      { unfold kbd_keys in *. destruct Hm1 as [-> _]. done. }
      intros [Hm Hout]%(IH _ _ _ _ Hks1). split; [by eapply moved_only_trans|].
      intros out (new & -> & HF)%Hout. exists ((name, l) :: new).
      split; [by rewrite <- app_assoc|]. constructor.
      * split; [done|]. simpl.
        apply get_specific_layout_Ok in Hstep
          as (ml_keys & ks' & q & d & st & h2 & Hml & Hks' & Hq & Hd & _ & _ & Hsel & _ & ->).
        rewrite Hks in Hks'. injection Hks' as <-.
        apply get_multilayout_keys_Ok in Hml as (ks' & Hks' & -> & _).
        rewrite Hks in Hks'. injection Hks' as <-.
        intros r. rewrite sort_keys_permutation. by eapply selected_keys_members.
      * eapply Forall2_impl; [exact HF|]. intros p e [? Hmem]. split; [done|].
        intros r. rewrite Hmem. by rewrite (in_layout_labels h h1) by by apply moved_only_labels.
    + apply moves_only_get_specific_layout in Hstep. intros [= <- <-]. split; [done|discriminate].
Qed.

(** X13.  Whatever [get_alternate_layouts] returns or raises, it only moves
    keys.  When it returns, the result has one entry for every entry of
    [layout_info], under the same names in the same order, and the key list
    of an entry holds exactly the keys of the keyboard that belong to the
    layout of its selection, whatever the earlier selections have moved. *)
Theorem get_alternate_layouts_entries kbd layout_info h res h' ks :
  get_alternate_layouts sort_keys kbd layout_info h = (res, h') ->
  kbd_keys h kbd = Ok ks ->
  moved_only h h'
  /\ forall out, res = Ok out ->
       Forall2 (fun (p : string * list Z) (e : string * list ref) =>
                  e.1 = p.1 /\ forall r, r ∈ e.2 <-> r ∈ ks /\ in_layout h p.2 r)
               layout_info out.
Proof.
  unfold get_alternate_layouts. intros Hrun Hks.
  destruct (get_alternate_layouts_acc _ _ _ _ _ _ _ Hks Hrun) as [Hm Hout].
  split; [done|]. intros out (new & -> & HF)%Hout. done.
Qed.

End Alternates.

(** ** What a selection needs to be resolved *)

Lemma validated_groups_consecutive d layout_idx :
  length layout_idx = size d -> validate d layout_idx = Ok tt -> consecutive_groups d.
Proof.
  intros Hlen Hv. rewrite validate_Ok in Hv.
  set (S := list_to_set (Z.of_nat <$> seq 0 (size d)) : gset Z).
  assert (Hsub : S ⊆ dom d).
  { intros n. unfold S. rewrite elem_of_list_to_set, list_elem_of_fmap.
    intros (i & -> & Hi%elem_of_seq). apply elem_of_dom.
    destruct (lookup_lt_is_Some_2 layout_idx i) as [s Hs]; [lia|].
    destruct (Hv i s Hs) as (g & Hg & _). eauto. }
  assert (Hsize : size S = size d).
  { unfold S. rewrite size_list_to_set, length_fmap, length_seq; [done|].
    apply NoDup_fmap; [intros ?? ?; lia|apply NoDup_seq]. }
  assert (HS : S = dom d).
  { apply set_subseteq_size_eq; [done|]. rewrite size_dom. lia. }
  intros n. rewrite <- elem_of_dom, <- HS. unfold S.
  rewrite elem_of_list_to_set, list_elem_of_fmap. split.
  - intros (i & -> & Hi%elem_of_seq). lia.
  - intros Hn. exists (Z.to_nat n). split; [lia|]. apply elem_of_seq. lia.
Qed.

Lemma min_x_y_nonempty h l m : min_x_y h l = Ok m -> exists r, r ∈ l.
Proof.
  destruct l as [|r l]; [discriminate|]. intros _. exists r. left.
Qed.

(** X14.  What every selection that [get_specific_layout] resolves has in
    common with the keyboard: every group of the keyboard is the position of
    an entry of the selection, so the groups are numbered 0, 1, ... without
    a gap; for every entry, the keyboard has a key of the selected value in
    that group; and where the selected value is not 0, the group also has a
    key of value 0, from which the offset is taken. *)
Theorem resolved_selection_fits sort_keys kbd layout_idx h l h' ks :
  get_specific_layout sort_keys kbd layout_idx h = (Ok l, h') ->
  kbd_keys h kbd = Ok ks ->
  (forall r n v, r ∈ ks -> lands_in h n v r = true ->
     exists i : nat, n = Z.of_nat i /\ is_Some (layout_idx !! i))
  /\ (forall (i : nat) v, layout_idx !! i = Some v ->
        (exists r, r ∈ ks /\ lands_in h (Z.of_nat i) v r = true) /\
        (0 < v -> exists r, r ∈ ks /\ lands_in h (Z.of_nat i) 0 r = true)).
Proof.
  intros (ml_keys & ks' & q & d & st & h1 & Hml & Hks' & Hq & Hd & Hlen & Hval & Hsel & _ & _)
    %get_specific_layout_Ok Hks.
  rewrite Hks in Hks'. injection Hks' as <-.
  pose proof (validated_groups_consecutive _ _ Hlen Hval) as Hcons.
  apply get_multilayout_keys_Ok in Hml as (ks' & Hks' & -> & _).
  rewrite Hks in Hks'. injection Hks' as <-.
  split.
  - intros r n v Hr Hland.
    assert (Hin : r ∈ bucket_of d n v).
    { apply (group_keys_elem _ _ _ _ _ _ _ Hd). split; [|done].
      unfold ml_keys_in_order. apply list_elem_of_filter. split; [|done].
      apply list_elem_of_filter. split; [|done].
      apply Is_true_true. by eapply lands_in_qualifies. }
    assert (Hn : is_Some (d !! n)).
    { unfold bucket_of in Hin. destruct (d !! n); [eauto|by apply elem_of_nil in Hin]. }
    apply Hcons in Hn. exists (Z.to_nat n). split; [lia|].
    apply lookup_lt_is_Some. lia.
  - intros i v Hv. split.
    + pose proof (select_options_exact _ _ _ _ _ Hsel) as (_ & _ & _ & Hb).
      destruct (Hb (Z.of_nat i, v)) as (g & b & Hg & Hgb); [apply elem_of_enumerate; eauto|].
      simpl in Hg, Hgb.
      destruct (group_keys_fresh_group _ _ _ _ _ _ Hd Hg) as (_ & _ & _ & Hne).
      destruct b as [|r b]; [by destruct (Hne _ _ Hgb)|].
      assert (Hin : r ∈ bucket_of d (Z.of_nat i) v).
      { rewrite (bucket_of_lookup _ _ _ _ _ Hg Hgb). left. }
      apply (group_keys_elem _ _ _ _ _ _ _ Hd) in Hin as [Hin Hland].
      exists r. split; [by eapply ml_keys_in_order_subset|done].
    + intros Hpos. destruct st as [d' q'].
      pose proof (select_options_spec _ _ _ _ _ _ _ _ _ Hd Hsel) as (_ & _ & _ & Hmoved).
      destruct (Hmoved i v) as (m0 & mv & H0 & _); [by eapply lookup_lt_Some|done|done|].
      apply min_x_y_nonempty in H0 as [r Hin].
      apply (group_keys_elem _ _ _ _ _ _ _ Hd) in Hin as [Hin Hland].
      exists r. split; [by eapply ml_keys_in_order_subset|done].
Qed.

(** ** What the two checks count *)

(** X15.  The dict that the grouping loop builds has one entry for every
    number that label 3 of a multilayout key without the encoder marker
    reads, and the entry of a group has one list of keys for every number
    that label 5 of the keys of that group reads, and nothing else: the two
    checks of [get_specific_layout] compare the selection with the number of
    these groups and with the number of these values. *)
Theorem grouping_counts_labels h ks ml_keys d :
  group_keys h ks ml_keys = Ok d ->
  (forall n, is_Some (d !! n) <->
     exists r v, r ∈ ml_keys_in_order ks ml_keys /\ lands_in h n v r = true)
  /\ (forall n g, d !! n = Some g ->
        group_len g = size (buckets g) /\
        forall v, is_Some (buckets g !! v) <->
          exists r, r ∈ ml_keys_in_order ks ml_keys /\ lands_in h n v r = true).
Proof.
  intros Hd. split.
  - intros n. split.
    + intros [g Hg].
      destruct (group_keys_fresh_group _ _ _ _ _ _ Hd Hg) as (_ & _ & Hne & Hb).
      destruct (map_choose _ Hne) as (v & b & Hv).
      destruct b as [|r b]; [by destruct (Hb _ _ Hv)|].
      exists r, v. apply (group_keys_elem _ _ _ _ _ _ _ Hd).
      unfold bucket_of. rewrite Hg, Hv. left.
    + intros (r & v & Hin). apply (group_keys_elem _ _ _ _ _ _ _ Hd) in Hin.
      unfold bucket_of in Hin. destruct (d !! n); [eauto|by apply elem_of_nil in Hin].
  - intros n g Hg.
    destruct (group_keys_fresh_group _ _ _ _ _ _ Hd Hg) as (Ho & Hm & _ & Hb). split.
    + unfold group_len. rewrite Ho, Hm. lia.
    + intros v. split.
      * intros [b Hv]. destruct b as [|r b]; [by destruct (Hb _ _ Hv)|].
        exists r. apply (group_keys_elem _ _ _ _ _ _ _ Hd).
        unfold bucket_of. rewrite Hg, Hv. left.
      * intros (r & Hin). apply (group_keys_elem _ _ _ _ _ _ _ Hd) in Hin.
        unfold bucket_of in Hin. rewrite Hg in Hin.
        destruct (buckets g !! v); [eauto|by apply elem_of_nil in Hin].
Qed.

(** ** Passes that cannot fail *)

Lemma get_keys_total h l acc :
  (forall r, r ∈ l -> (r < length (key_objs h))%nat) ->
  exists ks, rfold (fun acc r => key <~ get_key h r ;; Ok (acc ++ [key])) l acc = Ok (acc ++ ks)
             /\ length ks = length l.
Proof.
  revert acc. induction l as [|r l IH]; intros acc Hl; simpl.
  - exists []. by rewrite app_nil_r.
  - destruct (lookup_lt_is_Some_2 (key_objs h) r) as [key Hk]; [apply Hl; left|].
    unfold get_key at 1. rewrite Hk. simpl.
    destruct (IH (acc ++ [key])) as (ks & -> & Hlen); [intros; apply Hl; by right|].
    exists (key :: ks). rewrite <- app_assoc. split; [done|]. simpl. lia.
Qed.

Lemma min_x_y_total h l :
  usable (length (key_objs h)) l -> exists m, min_x_y h l = Ok m.
Proof.
  intros [Hne Hl]. unfold min_x_y, get_keys.
  destruct (get_keys_total h l [] Hl) as (ks & -> & Hlen). simpl.
  destruct ks as [|k ks]; [|eauto]. destruct l; [by destruct Hne|discriminate Hlen].
Qed.

Lemma placeable_same_buckets n d d' ndx v :
  same_buckets d d' -> placeable n d ndx v -> placeable n d' ndx v.
Proof.
  intros Hs (g & bv & Hg & Hbv & Hu & H0). specialize (Hs ndx). rewrite Hg in Hs.
  destruct (d' !! ndx) as [g'|] eqn:Hg'; [|done]. simpl in Hs. injection Hs as Hs.
  exists g', bv. rewrite Hs. by split_and!.
Qed.

Lemma offset_for_total h d ndx v :
  placeable (length (key_objs h)) d ndx v -> 0 < v ->
  exists p, offset_for h d ndx v = Ok p.
Proof.
  intros (g & bv & Hg & Hbv & Hu & H0) Hpos. destruct (H0 Hpos) as (b0 & Hb0 & Hu0).
  unfold offset_for, group_at. rewrite Hg. simpl.
  match goal with |- context [match ?o !! v with Some _ => _ | None => _ end] =>
    destruct (o !! v) end; [eauto|].
  unfold bucket_at. simpl. rewrite Hb0. simpl.
  destruct (min_x_y_total _ _ Hu0) as [m0 ->]. simpl. rewrite Hbv. simpl.
  destruct (min_x_y_total _ _ Hu) as [mv ->]. simpl. eauto.
Qed.

Lemma moved_only_length h h' : moved_only h h' -> length (key_objs h') = length (key_objs h).
Proof. intros [_ H]. symmetry. by eapply Forall2_length. Qed.

Lemma place_key_total ndx v st r h :
  placeable (length (key_objs h)) st.1 ndx v -> (r < length (key_objs h))%nat ->
  exists st' h', place_key ndx v st r h = (Ok st', h').
Proof.
  intros Hp Hr. unfold place_key. destruct (Z.ltb_spec 0 v); [|eauto].
  destruct (offset_for_total _ _ _ _ Hp) as [p Hoff]; [done|].
  unfold bind at 1, reading. rewrite Hoff. unfold bind. rewrite apply_offset_run.
  destruct (lookup_lt_is_Some_2 (key_objs h) r Hr) as [key ->]. eauto.
Qed.

Lemma place_keys_total ndx v l :
  forall st h,
    placeable (length (key_objs h)) st.1 ndx v ->
    (forall r, r ∈ l -> (r < length (key_objs h))%nat) ->
    exists st' h', mfold (place_key ndx v) l st h = (Ok st', h').
Proof.
  induction l as [|r l IH]; intros st h Hp Hl; simpl; [eauto|].
  destruct (place_key_total ndx v st r h Hp) as (st1 & h1 & Hstep); [apply Hl; left|].
  unfold bind. rewrite Hstep.
  pose proof (moved_only_length _ _ (moves_only_place_key _ _ _ _ _ _ _ Hstep)) as Hlen.
  apply place_key_spec in Hstep as [Hb _].
  apply IH.
  - rewrite Hlen. by eapply placeable_same_buckets.
  - rewrite Hlen. intros; apply Hl. by right.
Qed.

Lemma select_option_total st p h :
  placeable (length (key_objs h)) st.1 p.1 p.2 ->
  exists st' h', select_option st p h = (Ok st', h').
Proof.
  intros Hp. pose proof Hp as (g & bv & Hg & Hbv & [_ Hu] & _).
  unfold select_option, bind, lift, group_at, bucket_at. rewrite Hg, Hbv.
  by apply place_keys_total.
Qed.

Lemma select_options_total l :
  forall st h,
    (forall p, p ∈ l -> placeable (length (key_objs h)) st.1 p.1 p.2) ->
    exists st' h', mfold select_option l st h = (Ok st', h').
Proof.
  induction l as [|p l IH]; intros st h Hl; simpl; [eauto|].
  destruct (select_option_total st p h) as (st1 & h1 & Hstep); [apply Hl; left|].
  unfold bind. rewrite Hstep.
  pose proof (moved_only_length _ _ (moves_only_select_option _ _ _ _ _ Hstep)) as Hlen.
  apply select_option_output in Hstep as (Hb & _).
  apply IH. intros q Hq. rewrite Hlen. eapply placeable_same_buckets; [exact Hb|].
  apply Hl. by right.
Qed.

Lemma rebase_loop_total off q :
  forall h,
    (forall r, r ∈ q -> (r < length (key_objs h))%nat) ->
    exists h',
      mfold (fun (_ : unit) r =>
               key <- reading (fun h => get_key h r) ;; put_key r (rebase_key key off)) q tt h
      = (Ok tt, h').
Proof.
  induction q as [|r q IH]; intros h Hq; simpl; [eauto|].
  destruct (lookup_lt_is_Some_2 (key_objs h) r) as [key Hk]; [apply Hq; left|].
  unfold bind at 1. unfold bind at 1, reading, get_key. rewrite Hk. simpl.
  apply IH. intros r' Hr'. simpl. rewrite length_insert. apply Hq. by right.
Qed.

Lemma normalize_total q h :
  usable (length (key_objs h)) q -> exists h', normalize q h = (Ok tt, h').
Proof.
  intros Hu. destruct (min_x_y_total _ _ Hu) as [off Hoff].
  unfold normalize, bind at 1, reading. rewrite Hoff. apply rebase_loop_total, Hu.
Qed.

Lemma bucket_of_nonempty d n v :
  bucket_of d n v <> [] ->
  exists g b, d !! n = Some g /\ buckets g !! v = Some b /\ bucket_of d n v = b.
Proof.
  unfold bucket_of. destruct (d !! n) as [g|] eqn:Hg; [|done].
  destruct (buckets g !! v) as [b|] eqn:Hb; [|done]. intros _. by exists g, b.
Qed.

(** X16.  Once the keys of the keyboard are partitioned and grouped and the
    selection has passed the two checks, [get_specific_layout] returns if the
    keyboard has, for every entry of the selection, a key of the selected
    value in that group and, where the selected value is not 0, a key of
    value 0 in that group, and if the layout is not empty. *)
Theorem get_specific_layout_returns sort_keys kbd layout_idx h ml_keys ks q d :
  get_multilayout_keys h kbd = Ok ml_keys ->
  kbd_keys h kbd = Ok ks ->
  plain_keys h ks ml_keys = Ok q ->
  group_keys h ks ml_keys = Ok d ->
  length layout_idx = size d ->
  validate d layout_idx = Ok tt ->
  (forall (i : nat) v, layout_idx !! i = Some v ->
     bucket_of d (Z.of_nat i) v <> [] /\ (0 < v -> bucket_of d (Z.of_nat i) 0 <> [])) ->
  q <> [] \/ layout_idx <> [] ->
  exists l h', get_specific_layout sort_keys kbd layout_idx h = (Ok l, h').
Proof.
  intros Hml Hks Hq Hd Hlen Hval Hsel Hne.
  assert (Hvalid : forall r, r ∈ ks -> (r < length (key_objs h))%nat).
  { apply get_multilayout_keys_Ok in Hml as (ks' & Hks' & _ & Hall).
    rewrite Hks in Hks'. injection Hks' as <-.
    intros r Hr. destruct (Hall r Hr) as (key & Hk%get_key_Ok & _). by eapply lookup_lt_Some. }
  assert (Hbucket : forall n v r, r ∈ bucket_of d n v -> (r < length (key_objs h))%nat).
  { intros n v r [Hin _]%(group_keys_elem _ _ _ _ _ _ _ Hd).
    by apply Hvalid, (ml_keys_in_order_subset _ ml_keys). }
  assert (Hplace : forall p, p ∈ enumerate layout_idx ->
                     placeable (length (key_objs h)) d p.1 p.2).
  { intros p (i & v & -> & Hv)%elem_of_enumerate. simpl.
    destruct (Hsel i v Hv) as [Hbv Hb0].
    pose proof Hbv as (g & bv & Hg & Hgv & Ebv)%bucket_of_nonempty.
    exists g, bv. split_and!; [done..| |].
    - rewrite <- Ebv. split; [done|]. apply Hbucket.
    - intros Hpos. specialize (Hb0 Hpos).
      pose proof Hb0 as (g' & b0 & Hg' & Hg0 & Eb0)%bucket_of_nonempty.
      rewrite Hg in Hg'. injection Hg' as <-.
      exists b0. split; [done|]. rewrite <- Eb0. split; [done|]. apply Hbucket. }
  destruct (select_options_total (enumerate layout_idx) (d, q) h Hplace) as (st & h1 & Hrun).
  pose proof (moved_only_length _ _
                (moves_only_mfold select_option _ _ moves_only_select_option _ _ _ Hrun)) as Hlen1.
  pose proof (select_options_exact _ _ _ _ _ Hrun) as (_ & _ & Hst & _). simpl in Hst.
  destruct (normalize_total st.2 h1) as [h2 Hnorm].
  { split.
    - rewrite Hst. destruct Hne as [Hne|Hne].
      + intros [? _]%app_eq_nil. done.
      + destruct layout_idx as [|v rest]; [done|].
        destruct (Hsel 0%nat v eq_refl) as [Hbv _].
        intros [_ E]%app_eq_nil. unfold enumerate in E. simpl in E.
        by apply app_eq_nil in E as [? _].
    - rewrite Hlen1, Hst. intros r [Hr|Hr]%elem_of_app.
      + apply Hvalid. by eapply plain_keys_subset.
      + apply list_elem_of_join in Hr as (b & Hrb & (p & -> & _)%list_elem_of_fmap).
        by eapply Hbucket. }
  exists (sort_keys (key_objs h2) st.2), h2.
  unfold get_specific_layout.
  rewrite (bind_reading_Ok _ _ _ _ Hml), (bind_reading_Ok _ _ _ _ Hks),
    (bind_reading_Ok _ _ _ _ Hq), (bind_reading_Ok _ _ _ _ Hd).
  rewrite Hlen, Nat.eqb_refl. simpl. rewrite (bind_lift_Ok _ _ _ _ Hval).
  unfold bind at 1. rewrite Hrun. unfold bind at 1. by rewrite Hnorm.
Qed.

(** ** The value recorded for a group *)

Lemma well_chosen_ext g g' :
  buckets g' = buckets g -> g_max g' = g_max g -> well_chosen g -> well_chosen g'.
Proof.
  unfold well_chosen, all_same_length, has_most_keys, ml_val_lengths.
  intros -> ->. done.
Qed.

Lemma same_choice_insert d n g g' :
  d !! n = Some g -> buckets g' = buckets g -> g_max g' = g_max g ->
  same_choice d (<[n := g']> d).
Proof.
  intros Hg Hb Hm n'. destruct (decide (n = n')) as [<-|].
  - rewrite lookup_insert_eq, Hg. simpl. by rewrite Hb, Hm.
  - by rewrite lookup_insert_ne.
Qed.

Lemma offset_for_same_choice h d n v d' off :
  offset_for h d n v = Ok (d', off) -> same_choice d d'.
Proof.
  unfold offset_for, group_at. destruct (d !! n) as [g|] eqn:Hg; [|discriminate]. simpl.
  match goal with |- context [match ?o !! v with Some _ => _ | None => _ end] =>
    destruct (o !! v) end.
  - intros [= <- _]. by eapply same_choice_insert.
  - intros H. inv_rbind H as b0 _. inv_rbind H as m0 _. inv_rbind H as bv _. inv_rbind H as mv _.
    injection H as <- _. by eapply same_choice_insert.
Qed.

Lemma place_key_same_choice ndx val st r h st' h' :
  place_key ndx val st r h = (Ok st', h') -> same_choice st.1 st'.1.
Proof.
  unfold place_key. destruct (0 <? val).
  - unfold bind at 1, reading. destruct (offset_for h st.1 ndx val) as [[d1 off]|] eqn:Ho;
      [|discriminate].
    unfold bind. rewrite apply_offset_run. destruct (key_objs h !! r) as [key|] eqn:Hk;
      [|discriminate].
    intros [= <- <-]. simpl. by eapply offset_for_same_choice.
  - by intros [= <- <-].
Qed.

Lemma well_chosen_same_choice d d' :
  same_choice d d' ->
  (forall n g, d !! n = Some g -> well_chosen g) ->
  forall n g, d' !! n = Some g -> well_chosen g.
Proof.
  intros Hs Hd n g' Hg'. specialize (Hs n). rewrite Hg' in Hs.
  destruct (d !! n) as [g|] eqn:Hg; [|done]. simpl in Hs. injection Hs as Hb Hm.
  eapply well_chosen_ext; [done..|]. by eapply Hd.
Qed.

Lemma well_chosen_insert (d : gmap Z group) (n : Z) g :
  well_chosen g ->
  (forall n g, d !! n = Some g -> well_chosen g) ->
  forall n' g', <[n := g]> d !! n' = Some g' -> well_chosen g'.
Proof.
  intros Hg Hd n' g'. destruct (decide (n = n')) as [<-|].
  - rewrite lookup_insert_eq. by intros [= <-].
  - rewrite lookup_insert_ne by done. apply Hd.
Qed.

Lemma choose_key_well_chosen st r h st' h' :
  choose_key st r h = (Ok st', h') ->
  (forall n g, st.1 !! n = Some g -> well_chosen g) ->
  forall n g, st'.1 !! n = Some g -> well_chosen g.
Proof.
  unfold choose_key. unfold bind at 1, reading.
  destruct (get_key h r) as [key|]; [|discriminate]. simpl.
  unfold bind at 1, lift.
  destruct (extract_ml_val_ndx key) as [p|]; [|discriminate]. simpl.
  unfold bind at 1. unfold group_at.
  destruct (st.1 !! p.1) as [g|] eqn:Hg; [|discriminate].
  unfold bind at 1. unfold py_max.
  destruct (ml_val_lengths g) as [|len0 lens] eqn:Hlens; [discriminate|]. rewrite <- Hlens.
  unfold bind at 1. unfold bucket_at.
  destruct (buckets g !! p.2) as [b|] eqn:Hb; [|discriminate].
  intros H Hinv. revert H.
  assert (Hstep : forall g1, well_chosen g1 ->
            bind (lift (max_at g1))
              (fun m => if negb (m =? p.2) then ret (<[p.1:=g1]> st.1, st.2)
                        else place_key p.1 p.2 (<[p.1:=g1]> st.1, st.2) r) h = (Ok st', h') ->
            forall n g, st'.1 !! n = Some g -> well_chosen g).
  { intros g1 Hg1. unfold bind at 1, lift. destruct (max_at g1) as [w|]; [|discriminate].
    destruct (negb _).
    - intros [= <- <-]. simpl. by apply well_chosen_insert.
    - intros Hpl%place_key_same_choice. simpl in Hpl.
      eapply well_chosen_same_choice; [exact Hpl|]. by apply well_chosen_insert. }
  destruct (no_max g).
  - fold (all_same_length g). destruct (all_same_length g) eqn:Hall.
    + apply Hstep. intros m [= <-]. unfold all_same_length, ml_val_lengths in *. simpl.
      by rewrite Hall.
    + destruct (Nat.eqb_spec (max_list (ml_val_lengths g)) (length b)) as [Hmax|].
      * apply Hstep. intros m [= <-]. unfold all_same_length, ml_val_lengths in *. simpl.
        rewrite Hall. exists b. split; [done|]. symmetry. exact Hmax.
      * intros [= <- <-]. exact Hinv.
  - apply Hstep. by eapply Hinv.
Qed.

Lemma choose_loop_well_chosen l :
  forall st h st' h',
    mfold choose_key l st h = (Ok st', h') ->
    (forall n g, st.1 !! n = Some g -> well_chosen g) ->
    forall n g, st'.1 !! n = Some g -> well_chosen g.
Proof.
  induction l as [|r l IH]; intros st h st' h'; simpl.
  - by intros [= <- <-].
  - intros (st1 & h1 & Hstep & Hrun)%bind_Ok Hinv.
    eapply IH; [exact Hrun|]. by eapply choose_key_well_chosen.
Qed.

(** What one round of the loop does to the dict and to the output. *)
Lemma choose_key_run st r h st' h' :
  choose_key st r h = (Ok st', h') ->
  exists key n v g b,
    get_key h r = Ok key /\ extract_ml_val_ndx key = Ok (n, v) /\
    st.1 !! n = Some g /\ buckets g !! v = Some b /\
    ((no_max g = true /\ all_same_length g = false /\
      length b <> max_list (ml_val_lengths g) /\ st' = st /\ h' = h)
     \/ exists w,
          let g1 := if no_max g then set_max g (if all_same_length g then 0 else v) else g in
          (no_max g = true -> all_same_length g = false ->
           length b = max_list (ml_val_lengths g)) /\
          g_max g1 = Some w /\
          same_choice (<[n := g1]> st.1) st'.1 /\
          st'.2 = if w =? v then st.2 ++ [r] else st.2).
Proof.
  unfold choose_key. unfold bind at 1, reading.
  destruct (get_key h r) as [key|] eqn:Hk; [|discriminate]. simpl.
  unfold bind at 1, lift.
  destruct (extract_ml_val_ndx key) as [[n v]|] eqn:Hp; [|discriminate]. simpl.
  unfold bind at 1. unfold group_at.
  destruct (st.1 !! n) as [g|] eqn:Hg; [|discriminate].
  unfold bind at 1. unfold py_max.
  destruct (ml_val_lengths g) as [|len0 lens] eqn:Hlens; [discriminate|]. rewrite <- Hlens.
  unfold bind at 1. unfold bucket_at.
  destruct (buckets g !! v) as [b|] eqn:Hb; [|discriminate].
  intros H. exists key, n, v, g, b. split_and!; [done..|]. revert H.
  assert (Hstep : forall g1,
            bind (lift (max_at g1))
              (fun m => if negb (m =? v) then ret (<[n:=g1]> st.1, st.2)
                        else place_key n v (<[n:=g1]> st.1, st.2) r) h = (Ok st', h') ->
            exists w, g_max g1 = Some w /\ same_choice (<[n := g1]> st.1) st'.1 /\
                      st'.2 = if w =? v then st.2 ++ [r] else st.2).
  { intros g1. unfold bind at 1, lift, max_at. destruct (g_max g1) as [w|]; [|discriminate].
    exists w. split; [done|]. destruct (w =? v); simpl in *.
    - pose proof (place_key_heap _ _ _ _ _ _ _ H) as [_ Hq].
      apply place_key_same_choice in H. split; [done|]. by apply Hq.
    - injection H as <- <-. done. }
  fold (all_same_length g). destruct (no_max g).
  - destruct (all_same_length g) eqn:Hall.
    + intros (w & ? & ? & ?)%Hstep. right. exists w. by split_and!.
    + destruct (Nat.eqb_spec (max_list (ml_val_lengths g)) (length b)) as [Hmax|Hmax].
      * intros (w & ? & ? & ?)%Hstep. right. exists w. by split_and!.
      * intros [= <- <-]. left. by split_and!.
  - intros (w & ? & ? & ?)%Hstep. right. exists w. by split_and!.
Qed.

Lemma ml_labels_labels h h' r :
  Key.labels <$> key_objs h' !! r = Key.labels <$> key_objs h !! r ->
  ml_labels h' r = ml_labels h r.
Proof.
  unfold ml_labels, get_key. destruct (key_objs h' !! r) as [k'|], (key_objs h !! r) as [k|];
    simpl; try done. intros [= E].
  unfold extract_ml_val_ndx, extract_ml_val_ndx_at, label. by rewrite E.
Qed.

Lemma all_same_length_ext g g' : buckets g' = buckets g -> all_same_length g' = all_same_length g.
Proof. unfold all_same_length, ml_val_lengths. by intros ->. Qed.

Lemma ml_val_lengths_ext g g' : buckets g' = buckets g -> ml_val_lengths g' = ml_val_lengths g.
Proof. unfold ml_val_lengths. by intros ->. Qed.

(** A recorded value other than 0 is never replaced, and a recorded value is
    never taken back. *)
Lemma choose_key_keeps st r h st' h' n g w :
  choose_key st r h = (Ok st', h') ->
  st.1 !! n = Some g -> g_max g = Some w ->
  exists g', st'.1 !! n = Some g' /\ buckets g' = buckets g /\
    is_Some (g_max g') /\ (w <> 0 -> g_max g' = Some w).
Proof.
  intros (key & n0 & v & g0 & b & _ & _ & Hg0 & _ & Hcase)%choose_key_run Hg Hw.
  destruct Hcase as [(_ & _ & _ & -> & _)|(w1 & _ & Hw1 & Hs & _)].
  { exists g. by split_and!. }
  specialize (Hs n). destruct (decide (n0 = n)) as [->|Hne].
  - rewrite lookup_insert_eq in Hs. rewrite Hg in Hg0. injection Hg0 as <-.
    destruct (st'.1 !! n) as [g'|]; [|done]. simpl in Hs. injection Hs as Hb Hm.
    exists g'. split; [done|]. rewrite Hb, Hm, Hw1.
    unfold no_max in *. rewrite Hw in *. split_and!.
    + by destruct (w =? 0).
    + eauto.
    + intros Hne. destruct (Z.eqb_spec w 0); [done|]. congruence.
  - rewrite lookup_insert_ne, Hg in Hs by done.
    destruct (st'.1 !! n) as [g'|]; [|done]. simpl in Hs. injection Hs as Hb Hm.
    exists g'. rewrite Hb, Hm, Hw. split_and!; eauto.
Qed.

Lemma choose_loop_keeps l :
  forall st h st' h' n g w,
    mfold choose_key l st h = (Ok st', h') ->
    st.1 !! n = Some g -> g_max g = Some w ->
    exists g', st'.1 !! n = Some g' /\ buckets g' = buckets g /\
      is_Some (g_max g') /\ (w <> 0 -> g_max g' = Some w).
Proof.
  induction l as [|r l IH]; intros st h st' h' n g w; simpl.
  - intros [= <- <-] Hg Hw. exists g. split_and!; eauto.
  - intros (st1 & h1 & Hstep & Hrun)%bind_Ok Hg Hw.
    destruct (choose_key_keeps _ _ _ _ _ _ _ _ Hstep Hg Hw) as (g1 & Hg1 & Hb1 & [w1 Hw1] & Hk1).
    destruct (IH _ _ _ _ _ _ _ Hrun Hg1 Hw1) as (g' & Hg' & Hb' & Hs' & Hk').
    exists g'. split_and!; [done|congruence|done|].
    intros Hne. specialize (Hk1 Hne). rewrite Hk1 in Hw1. injection Hw1 as <-. by apply Hk'.
Qed.

(** A key of a value with the most keys makes its group record a value. *)
Lemma choose_loop_records l :
  forall st h st' h' r n v g b,
    mfold choose_key l st h = (Ok st', h') ->
    r ∈ l -> ml_labels h r = Ok (n, v) ->
    st.1 !! n = Some g -> buckets g !! v = Some b ->
    length b = max_list (ml_val_lengths g) ->
    exists g', st'.1 !! n = Some g' /\ is_Some (g_max g').
Proof.
  induction l as [|k l IH]; intros st h st' h' r n v g b; simpl.
  - intros _ Hr. by apply elem_of_nil in Hr.
  - intros (st1 & h1 & Hstep & Hrun)%bind_Ok Hr Hlab Hg Hb Hmax.
    destruct (decide (r = k)) as [->|Hne].
    + pose proof (choose_key_run _ _ _ _ _ Hstep)
        as (key & n0 & v0 & g0 & b0 & Hk & Hp & Hg0 & Hb0 & Hcase).
      unfold ml_labels in Hlab. rewrite Hk in Hlab. simpl in Hlab.
      rewrite Hp in Hlab. injection Hlab as -> ->.
      rewrite Hg in Hg0. injection Hg0 as <-. rewrite Hb in Hb0. injection Hb0 as <-.
      destruct Hcase as [(_ & _ & Hn & _)|(w & _ & Hw & Hs & _)]; [done|].
      specialize (Hs n). rewrite lookup_insert_eq in Hs.
      destruct (st1.1 !! n) as [g1|] eqn:Hg1; [|done]. simpl in Hs. injection Hs as Hb1 Hm1.
      rewrite Hw in Hm1.
      destruct (choose_loop_keeps _ _ _ _ _ _ _ _ Hrun Hg1 Hm1) as (g' & Hg' & _ & Hs' & _).
      eauto.
    + apply elem_of_cons in Hr as [?|Hr]; [done|].
      pose proof (choose_key_spec _ _ _ _ _ Hstep) as (Hsb & Hsl & _).
      specialize (Hsb n). rewrite Hg in Hsb. simpl in Hsb.
      destruct (st1.1 !! n) as [g1|] eqn:Hg1; [|done]. injection Hsb as Hsb.
      eapply (IH _ _ _ _ r n v g1 b); [exact Hrun|done| |done| |].
      * rewrite <- Hlab. apply ml_labels_labels, Hsl.
      * by rewrite Hsb.
      * by rewrite (ml_val_lengths_ext g g1).
Qed.

Lemma fresh_group_most_keys g :
  fresh_group g -> exists v b, buckets g !! v = Some b /\ b <> [] /\
                               length b = max_list (ml_val_lengths g).
Proof.
  intros (_ & _ & Hne & Hb).
  assert (Hl : ml_val_lengths g <> []).
  { unfold ml_val_lengths. intros E%fmap_nil_inv. by apply map_to_list_empty_iff in E. }
  apply max_list_elem_of in Hl. unfold ml_val_lengths in Hl at 2.
  apply list_elem_of_fmap in Hl as ([v b] & Hlen & Hin%elem_of_map_to_list).
  exists v, b. split_and!; [done|by eapply Hb|done].
Qed.

Lemma choose_loop_recorded h ks ml_keys d q st h' :
  group_keys h ks ml_keys = Ok d ->
  mfold choose_key (ml_keys_in_order ks ml_keys) (d, q) h = (Ok st, h') ->
  forall n g', st.1 !! n = Some g' ->
    well_chosen g' /\
    exists g m, d !! n = Some g /\ buckets g' = buckets g /\ g_max g' = Some m.
Proof.
  intros Hd Hrun n g' Hg'.
  pose proof (choose_loop_spec _ _ _ _ _ Hrun) as (Hsb & _ & _). simpl in Hsb.
  assert (Hwc : well_chosen g').
  { eapply (choose_loop_well_chosen _ _ _ _ _ Hrun); [|exact Hg']. simpl.
    intros n0 g0 Hg0 m Hm.
    destruct (group_keys_fresh_group _ _ _ _ _ _ Hd Hg0) as (_ & Hnone & _). congruence. }
  split; [done|].
  pose proof (Hsb n) as Hn. rewrite Hg' in Hn. simpl in Hn.
  destruct (d !! n) as [g|] eqn:Hg; [|done]. injection Hn as Hn.
  destruct (fresh_group_most_keys g) as (v & b & Hb & Hne & Hmax);
    [by eapply group_keys_fresh_group|].
  destruct b as [|r b]; [done|].
  assert (Hin : r ∈ bucket_of d n v).
  { unfold bucket_of. rewrite Hg, Hb. left. }
  apply (group_keys_elem _ _ _ _ _ _ _ Hd) in Hin as [Hin Hland].
  apply lands_in_slots in Hland as (key & l3 & l5 & Hk & _ & H3 & H5 & N3 & N5 & I3 & I5).
  destruct (choose_loop_records _ _ _ _ _ r n v g (r :: b) Hrun Hin)
    as (g'' & Hg'' & [m Hm]); [|done..|].
  - unfold ml_labels. rewrite Hk. simpl. apply extract_ml_val_ndx_slots. by exists l3, l5.
  - simpl in Hg''. rewrite Hg' in Hg''. injection Hg'' as <-. by exists g, m.
Qed.

(** X17.  After the loop of [get_layout_all] that picks the keys of the
    default layout, every group has a recorded value: 0 when all values of
    the group have as many keys, and otherwise a value that no other value
    of the group exceeds in its number of keys. *)
Theorem recorded_values_well_chosen kbd h keys st h' :
  choose_keys kbd h = (Ok (keys, st), h') ->
  forall n g, st.1 !! n = Some g ->
    exists m, g_max g = Some m /\
      if all_same_length g then m = 0 else has_most_keys g m.
Proof.
  intros (ml_keys & ks & q & d & Hml & Hks & Hq & Hd & -> & Hrun)%choose_keys_Ok n g' Hg'.
  destruct (choose_loop_recorded _ _ _ _ _ _ _ Hd Hrun n g' Hg') as (Hwc & g & m & _ & _ & Hm).
  exists m. split; [done|]. by apply Hwc.
Qed.

(** ** The keys the choice appends *)

Lemma choose_loop_output l :
  forall st h st' h',
    mfold choose_key l st h = (Ok st', h') ->
    (forall n g, st.1 !! n = Some g -> well_chosen g) ->
    exists chosen,
      st'.2 = st.2 ++ chosen
      /\ (forall r, r ∈ chosen ->
            r ∈ l /\ exists n v g m,
              ml_labels h r = Ok (n, v) /\ st'.1 !! n = Some g /\ g_max g = Some m /\
              (v = m \/ v = 0))
      /\ (forall r n v g, r ∈ l -> ml_labels h r = Ok (n, v) ->
            st'.1 !! n = Some g -> g_max g = Some v -> r ∈ chosen).
Proof.
  induction l as [|k l IH]; intros st h st' h'; simpl.
  - intros [= <- <-] _. exists []. rewrite app_nil_r. split_and!; [done| |].
    + intros r Hr. by apply elem_of_nil in Hr.
    + intros r n v g Hr. by apply elem_of_nil in Hr.
  - intros (st1 & h1 & Hstep & Hrun)%bind_Ok Hinv.
    pose proof (choose_key_well_chosen _ _ _ _ _ Hstep Hinv) as Hinv1.
    pose proof (choose_loop_well_chosen _ _ _ _ _ Hrun Hinv1) as Hinv'.
    pose proof (choose_key_spec _ _ _ _ _ Hstep) as (Hsb1 & Hsl1 & _).
    pose proof (choose_loop_spec _ _ _ _ _ Hrun) as (Hsb2 & _ & _).
    destruct (IH _ _ _ _ Hrun Hinv1) as (chosen' & Hq' & Hin' & Hall').
    assert (Hlab1 : forall r, ml_labels h1 r = ml_labels h r).
    { intros r. apply ml_labels_labels, Hsl1. }
    pose proof (choose_key_run _ _ _ _ _ Hstep)
      as (key & n0 & v0 & g0 & b0 & Hk & Hp & Hg0 & Hb0 & Hcase).
    assert (Hlabk : ml_labels h k = Ok (n0, v0)).
    { unfold ml_labels. by rewrite Hk. }
    destruct Hcase as [(Hnm & Hns & Hlen & -> & ->)|(w & Hmaxlen & Hw & Hs & Hq1)].
    + (* the key is passed over, and no value is recorded *)
      exists chosen'. split_and!; [done| |].
      * intros r Hr. destruct (Hin' r Hr) as (Hrl & n & v & g & m & ? & ? & ? & ?).
        split; [by right|]. exists n, v, g, m. by split_and!.
      * intros r n v g [->|Hr]%elem_of_cons Hlab Hg Hm; [|by eapply Hall'].
        exfalso. rewrite Hlabk in Hlab. injection Hlab as <- <-.
        pose proof (Hsb2 n0) as Hb. rewrite Hg, Hg0 in Hb. simpl in Hb. injection Hb as Hb.
        pose proof (Hinv' _ _ Hg _ Hm) as Hwc.
        rewrite (all_same_length_ext g0 g Hb), Hns in Hwc.
        destruct Hwc as (b & Hgb & Hbl). rewrite Hb, Hb0 in Hgb. injection Hgb as <-.
        by rewrite (ml_val_lengths_ext g0 g Hb) in Hbl.
    + (* a value is recorded, or was *)
      pose proof (Hs n0) as Hs0. rewrite lookup_insert_eq in Hs0.
      destruct (st1.1 !! n0) as [g1|] eqn:Hg1; [|done]. simpl in Hs0.
      injection Hs0 as Hb1 Hm1. rewrite Hw in Hm1.
      destruct (choose_loop_keeps _ _ _ _ _ _ _ _ Hrun Hg1 Hm1)
        as (gf & Hgf & Hbf & [mf Hmf] & Hkeep).
      assert (Hbuckets : buckets gf = buckets g0).
      { rewrite Hbf, Hb1. by destruct (no_max g0). }
      exists ((if w =? v0 then [k] else []) ++ chosen'). split_and!.
      * rewrite Hq', Hq1. destruct (w =? v0); by rewrite <- ?app_assoc.
      * intros r [Hr|Hr]%elem_of_app.
        -- destruct (Z.eqb_spec w v0) as [->|]; [|by apply elem_of_nil in Hr].
           apply list_elem_of_singleton in Hr as ->. split; [left|].
           exists n0, v0, gf, mf. split_and!; [done..|].
           destruct (decide (v0 = 0)) as [?|Hne]; [by right|left].
           specialize (Hkeep Hne). congruence.
        -- destruct (Hin' r Hr) as (Hrl & n & v & g & m & Hlab & ? & ? & ?).
           split; [by right|]. exists n, v, g, m. rewrite <- Hlab1. by split_and!.
      * intros r n v g [->|Hr]%elem_of_cons Hlab Hg Hm.
        2:{ apply elem_of_app. right. eapply Hall'; [done| |done..]. by rewrite Hlab1. }
        rewrite Hlabk in Hlab. injection Hlab as <- <-.
        apply elem_of_app. left.
        rewrite Hgf in Hg. injection Hg as <-. rewrite Hmf in Hm. injection Hm as ->.
        destruct (Z.eqb_spec w v0) as [->|Hwv]; [left|]. exfalso.
        destruct (decide (w = 0)) as [->|Hw0]; [|specialize (Hkeep Hw0); congruence].
        pose proof (Hinv' _ _ Hgf _ Hmf) as Hwc.
        rewrite (all_same_length_ext g0 gf Hbuckets) in Hwc.
        unfold no_max in Hw, Hinv. destruct (g_max g0) as [w0|] eqn:Hw0.
        -- destruct (Z.eqb_spec w0 0) as [->|Hne0].
           ++ destruct (all_same_length g0); simpl in Hw; [congruence|].
              injection Hw as Hw. congruence.
           ++ congruence.
        -- destruct (all_same_length g0); simpl in Hw; [congruence|].
           injection Hw as Hw. congruence.
Qed.

(** X18.  The loop of [get_layout_all] that picks the keys of the default
    layout appends, after the keys without multilayout labels, multilayout
    keys only: every multilayout key whose value is the value finally
    recorded for its group, and besides these only keys of value 0. *)
Theorem chosen_keys_have_recorded_value kbd h keys st h' :
  choose_keys kbd h = (Ok (keys, st), h') ->
  exists ml_keys ks q chosen,
    get_multilayout_keys h kbd = Ok ml_keys /\ kbd_keys h kbd = Ok ks /\
    plain_keys h ks ml_keys = Ok q /\ keys = ml_keys_in_order ks ml_keys /\
    st.2 = q ++ chosen
    /\ (forall r, r ∈ chosen ->
          r ∈ keys /\ exists n v g m,
            ml_labels h r = Ok (n, v) /\ st.1 !! n = Some g /\ g_max g = Some m /\
            (v = m \/ v = 0))
    /\ (forall r n v g, r ∈ keys -> ml_labels h r = Ok (n, v) ->
          st.1 !! n = Some g -> g_max g = Some v -> r ∈ chosen).
Proof.
  intros (ml_keys & ks & q & d & Hml & Hks & Hq & Hd & -> & Hrun)%choose_keys_Ok.
  destruct (choose_loop_output _ _ _ _ _ Hrun) as (chosen & Hst & Hin & Hall).
  { simpl. intros n0 g0 Hg0 m Hm.
    destruct (group_keys_fresh_group _ _ _ _ _ _ Hd Hg0) as (_ & Hnone & _). congruence. }
  exists ml_keys, ks, q, chosen. by split_and!.
Qed.

(** ** The position of every key of a layout *)

Section Positions.

Variable sort_keys : list Key.t -> list ref -> list ref.
Hypothesis sort_keys_permutation : forall ks l, Permutation (sort_keys ks l) l.

(** X19.  On a keyboard that lists no key twice, [get_specific_layout]
    leaves every key of the layout it returns at the position it had, moved
    by the offset of its value if that value was selected and is not 0 (the
    rotation origin of a rotated key moved the other way), and then moved
    back by one vector that is the same for all keys of the layout. *)
Theorem get_specific_layout_positions kbd layout_idx h l h' ks ml_keys d :
  get_specific_layout sort_keys kbd layout_idx h = (Ok l, h') ->
  kbd_keys h kbd = Ok ks ->
  NoDup ks ->
  get_multilayout_keys h kbd = Ok ml_keys ->
  group_keys h ks ml_keys = Ok d ->
  exists m,
    forall r, r ∈ l ->
      exists key placed,
        get_key h r = Ok key /\ get_key h' r = Ok (rebase_key placed m)
        /\ ((forall (i : nat) v, layout_idx !! i = Some v -> 0 < v ->
               r ∉ bucket_of d (Z.of_nat i) v) -> placed = key)
        /\ (forall (i : nat) v, layout_idx !! i = Some v -> 0 < v ->
              r ∈ bucket_of d (Z.of_nat i) v ->
              exists off, offset_of h d (Z.of_nat i) v = Ok off /\ placed = shift_key key off).
Proof.
  intros (ml_keys' & ks' & q & d' & [d1 q1] & h1 & Hml' & Hks' & Hq & Hd' & _ & _ & Hsel & Hnorm & ->)
    %get_specific_layout_Ok Hks Hnd Hml Hd.
  rewrite Hks in Hks'. injection Hks' as <-. rewrite Hml in Hml'. injection Hml' as <-.
  rewrite Hd in Hd'. injection Hd' as <-.
  pose proof (selected_keys_NoDup _ _ _ _ _ _ _ _ Hq Hd Hsel Hnd) as Hnd1. simpl in Hnd1.
  pose proof (select_options_spec _ _ _ _ _ _ _ _ _ Hd Hsel) as (_ & _ & Hsame & Hmoved).
  pose proof (moved_only_length _ _
                (moves_only_mfold select_option _ _ moves_only_select_option _ _ _ Hsel)) as Hlen.
  simpl in Hnorm. apply normalize_Ok in Hnorm as (m & Hm & [_ Hkeys]%rebase_loop_run).
  exists m. intros r Hr. rewrite sort_keys_permutation in Hr. simpl in Hr.
  assert (is_Some (key_objs h1 !! r)) as [placed Hplaced].
  { unfold min_x_y in Hm. destruct (get_keys h1 q1) as [kl|] eqn:Hkl; [|discriminate].
    apply get_keys_Ok in Hkl. apply list_elem_of_lookup in Hr as [i Hi].
    destruct (Forall2_lookup_l _ _ _ _ _ Hkl Hi) as (key & _ & ?). eauto. }
  assert (is_Some (key_objs h !! r)) as [key Hkey].
  { apply lookup_lt_is_Some. rewrite <- Hlen. by eapply lookup_lt_Some. }
  exists key, placed. split_and!.
  - by apply get_key_Ok.
  - apply get_key_Ok. by rewrite Hkeys, Hplaced, (times_listed_NoDup _ _ Hnd1 Hr).
  - intros Hnot. rewrite Hsame in Hplaced; [congruence|].
    intros j v _ Hv Hpos. by apply Hnot.
  - intros i v Hv Hpos Hin.
    destruct (Hmoved i v) as (m0 & mv & H0 & Hv' & Hshift & _);
      [by eapply lookup_lt_Some|done..|].
    exists ((m0.1 - mv.1)%Qc, (m0.2 - mv.2)%Qc). split.
    + unfold offset_of. by rewrite H0, Hv'.
    + destruct (Hshift r Hin) as (key0 & Hk0%get_key_Ok & Hk1%get_key_Ok). congruence.
Qed.

End Positions.

(** ** Value 0 in the default layout *)

Lemma anchored_insert (d : gmap Z group) (n : Z) g :
  anchored g ->
  (forall n g, d !! n = Some g -> anchored g) ->
  forall n' g', <[n := g]> d !! n' = Some g' -> anchored g'.
Proof.
  intros Hg Hd n' g'. destruct (decide (n = n')) as [<-|].
  - rewrite lookup_insert_eq. by intros [= <-].
  - rewrite lookup_insert_ne by done. apply Hd.
Qed.

Lemma offset_for_anchored h d n v d' off :
  offset_for h d n v = Ok (d', off) ->
  (forall n g, d !! n = Some g -> anchored g) ->
  (forall n g, d' !! n = Some g -> anchored g) /\
  exists g', d' !! n = Some g' /\ is_Some (buckets g' !! 0).
Proof.
  unfold offset_for, group_at. destruct (d !! n) as [g|] eqn:Hg; [|discriminate]. simpl.
  intros H Hinv.
  set (offs := match g_offsets g with
               | Some o => if (size o =? 0)%nat then ∅ else o
               | None => ∅
               end) in *.
  destruct (offs !! v) as [off0|] eqn:Hv.
  - injection H as <- <-.
    assert (H0 : is_Some (buckets g !! 0)).
    { unfold offs in Hv. destruct (g_offsets g) as [o|] eqn:Ho; [|by rewrite lookup_empty in Hv].
      destruct (size o =? 0)%nat; [by rewrite lookup_empty in Hv|].
      by eapply (Hinv _ _ Hg). }
    split.
    + apply anchored_insert; [|done]. by intros ?????.
    + exists (set_offsets g offs). by rewrite lookup_insert_eq.
  - unfold bucket_at in H. simpl in H.
    destruct (buckets g !! 0) as [b0|] eqn:Hb0; [|discriminate]. simpl in H.
    inv_rbind H as m0 _. inv_rbind H as bv _. inv_rbind H as mv _.
    injection H as <- _. split.
    + apply anchored_insert; [|done]. intros ?????. simpl. by rewrite Hb0.
    + eexists. rewrite lookup_insert_eq. split; [done|]. simpl. by rewrite Hb0.
Qed.

Lemma place_key_anchored n v st r h st' h' :
  place_key n v st r h = (Ok st', h') ->
  (forall n g, st.1 !! n = Some g -> anchored g) ->
  (forall n g, st'.1 !! n = Some g -> anchored g) /\
  (0 < v -> exists g', st'.1 !! n = Some g' /\ is_Some (buckets g' !! 0)).
Proof.
  unfold place_key. destruct (Z.ltb_spec 0 v).
  - unfold bind at 1, reading. destruct (offset_for h st.1 n v) as [[d1 off]|] eqn:Ho;
      [|discriminate].
    unfold bind. rewrite apply_offset_run. destruct (key_objs h !! r) as [key|] eqn:Hk;
      [|discriminate].
    intros [= <- <-] Hinv. simpl.
    destruct (offset_for_anchored _ _ _ _ _ _ Ho Hinv) as [? ?]. by split.
  - intros [= <- <-] Hinv. split; [done|lia].
Qed.

(** One round of the choice, seen from the cache of the offsets. *)
Lemma choose_key_anchored st r h st' h' :
  choose_key st r h = (Ok st', h') ->
  (forall n g, st.1 !! n = Some g -> anchored g) ->
  (forall n g, st'.1 !! n = Some g -> anchored g) /\
  (st'.2 = st.2 \/
   st'.2 = st.2 ++ [r] /\
   forall n v, ml_labels h r = Ok (n, v) -> 0 < v ->
     exists g', st'.1 !! n = Some g' /\ is_Some (buckets g' !! 0)).
Proof.
  unfold choose_key, ml_labels. unfold bind at 1, reading.
  destruct (get_key h r) as [key|] eqn:Hk; [|discriminate]. simpl.
  unfold bind at 1, lift.
  destruct (extract_ml_val_ndx key) as [[n v]|] eqn:Hp; [|discriminate]. simpl.
  unfold bind at 1. unfold group_at.
  destruct (st.1 !! n) as [g|] eqn:Hg; [|discriminate].
  unfold bind at 1.
  destruct (py_max (ml_val_lengths g)) as [mx|]; [|discriminate].
  unfold bind at 1.
  destruct (bucket_at g v) as [b|]; [|discriminate].
  intros H Hinv. revert H.
  assert (Hstep : forall g1, anchored g1 ->
            bind (lift (max_at g1))
              (fun m => if negb (m =? v) then ret (<[n:=g1]> st.1, st.2)
                        else place_key n v (<[n:=g1]> st.1, st.2) r) h = (Ok st', h') ->
            (forall n g, st'.1 !! n = Some g -> anchored g) /\
            (st'.2 = st.2 \/
             st'.2 = st.2 ++ [r] /\
             forall n0 v0, Ok (n, v) = Ok (n0, v0) -> 0 < v0 ->
               exists g', st'.1 !! n0 = Some g' /\ is_Some (buckets g' !! 0))).
  { intros g1 Hg1. unfold bind at 1, lift. destruct (max_at g1) as [w|]; [|discriminate].
    destruct (negb _).
    - intros [= <- <-]. simpl. split; [by apply anchored_insert|by left].
    - intros Hpl. pose proof (place_key_heap _ _ _ _ _ _ _ Hpl) as [_ Hq].
      apply place_key_anchored in Hpl as [Hi Hz]; [|by apply anchored_insert].
      split; [done|]. right. split; [by apply Hq|]. intros n0 v0 [= <- <-]. exact Hz. }
  assert (Hset : forall m, anchored (set_max g m)).
  { intros m o v0 off. simpl. by apply (Hinv _ _ Hg). }
  destruct (no_max g).
  - destruct (_ =? 1)%nat; [by apply Hstep|].
    destruct (_ =? _)%nat; [by apply Hstep|].
    intros [= <- <-]. split; [done|by left].
  - apply Hstep. by eapply Hinv.
Qed.

Lemma choose_loop_anchored l :
  forall st h st' h',
    mfold choose_key l st h = (Ok st', h') ->
    (forall n g, st.1 !! n = Some g -> anchored g) ->
    exists chosen,
      st'.2 = st.2 ++ chosen /\
      forall r n v, r ∈ chosen -> ml_labels h r = Ok (n, v) -> 0 < v ->
        exists g', st'.1 !! n = Some g' /\ is_Some (buckets g' !! 0).
Proof.
  induction l as [|k l IH]; intros st h st' h'; simpl.
  - intros [= <- <-] _. exists []. rewrite app_nil_r. split; [done|].
    intros r n v Hr. by apply elem_of_nil in Hr.
  - intros (st1 & h1 & Hstep & Hrun)%bind_Ok Hinv.
    pose proof (choose_key_spec _ _ _ _ _ Hstep) as (_ & Hsl1 & _).
    pose proof (choose_loop_spec _ _ _ _ _ Hrun) as (Hsb2 & _ & _).
    destruct (choose_key_anchored _ _ _ _ _ Hstep Hinv) as [Hinv1 Hcase].
    destruct (IH _ _ _ _ Hrun Hinv1) as (chosen' & Hq' & Hanch').
    assert (Hrest : forall r n v, r ∈ chosen' -> ml_labels h r = Ok (n, v) -> 0 < v ->
                      exists g', st'.1 !! n = Some g' /\ is_Some (buckets g' !! 0)).
    { intros r n v Hr Hlab. apply (Hanch' r n v Hr).
      rewrite <- Hlab. apply ml_labels_labels, Hsl1. }
    destruct Hcase as [Hq1|[Hq1 Hk]].
    + exists chosen'. split; [by rewrite Hq', Hq1|done].
    + exists (k :: chosen'). split; [by rewrite Hq', Hq1, <- app_assoc|].
      intros r n v [->|Hr]%elem_of_cons Hlab Hpos; [|by eapply Hrest].
      destruct (Hk n v Hlab Hpos) as (g1 & Hg1 & H0).
      specialize (Hsb2 n). rewrite Hg1 in Hsb2. simpl in Hsb2.
      destruct (st'.1 !! n) as [g'|]; [|done]. injection Hsb2 as Hsb2.
      exists g'. split; [done|]. by rewrite Hsb2.
Qed.

(** The reconciliation reads, for the group of every key, the keys of the
    recorded value. *)
Lemma reconcile_needs_bucket h keys :
  forall st st' r n v g m,
    reconcile h keys st = Ok st' ->
    r ∈ keys -> ml_labels h r = Ok (n, v) ->
    st.1 !! n = Some g -> g_max g = Some m ->
    is_Some (buckets g !! m).
Proof.
  unfold reconcile. induction keys as [|k keys IH]; intros [d q] st' r n v g m; simpl.
  - intros _ Hr. by apply elem_of_nil in Hr.
  - intros H Hr Hlab Hg Hm. inv_rbind H as [d1 q1] Hstep.
    apply reconcile_key_run in Hstep
      as (n0 & rc & mx & g0 & w & b & Hn0 & _ & _ & Hg0 & Hw & Hb & _ & Hres).
    simpl in Hg.
    destruct (decide (n0 = n)) as [->|Hne].
    + rewrite Hg in Hg0. injection Hg0 as <-. rewrite Hm in Hw. injection Hw as <-. eauto.
    + apply elem_of_cons in Hr as [->|Hr].
      * unfold group_of, ml_labels in *. destruct (get_key h k) as [key|]; [|discriminate].
        simpl in *. rewrite Hlab in Hn0. simpl in Hn0. congruence.
      * eapply (IH (d1, q1) st' r n v g m); [exact H|done..| |done]. simpl.
        destruct (bool_decide (rc ∈ mx)); destruct Hres as [-> _]; [done|].
        by rewrite lookup_insert_ne.
Qed.

Lemma lands_in_ml_labels h n v r : lands_in h n v r = true -> ml_labels h r = Ok (n, v).
Proof.
  intros (key & l3 & l5 & Hk & _ & H3 & H5 & N3 & N5 & I3 & I5)%lands_in_slots.
  unfold ml_labels. rewrite Hk. simpl. apply extract_ml_val_ndx_slots. by exists l3, l5.
Qed.

Lemma lands_in_value_not_negative h n v r : lands_in h n v r = true -> 0 <= v.
Proof.
  intros (key & l3 & l5 & _ & _ & _ & _ & _ & _ & _ & I5)%lands_in_slots.
  by eapply int_not_negative.
Qed.

(** When both loops of the default layout have run, every group has keys
    of value 0. *)
Lemma default_groups_have_value_0 h ks ml_keys d q st h2 st2 :
  group_keys h ks ml_keys = Ok d ->
  mfold choose_key (ml_keys_in_order ks ml_keys) (d, q) h = (Ok st, h2) ->
  reconcile h2 (ml_keys_in_order ks ml_keys) st = Ok st2 ->
  forall n g, d !! n = Some g -> bucket_of d n 0 <> [].
Proof.
  intros Hd Hrun Hrec n g Hg.
  pose proof (choose_loop_spec _ _ _ _ _ Hrun) as (Hsb & Hsl & _). simpl in Hsb.
  pose proof (group_keys_fresh_group _ _ _ _ _ _ Hd Hg) as Hfresh.
  pose proof (Hsb n) as Hn. rewrite Hg in Hn. simpl in Hn.
  destruct (st.1 !! n) as [g'|] eqn:Hg'; [|done]. injection Hn as Hbuckets.
  cut (is_Some (buckets g' !! 0)).
  { rewrite Hbuckets. intros [b0 Hb0]. unfold bucket_of. rewrite Hg, Hb0. simpl.
    destruct Hfresh as (_ & _ & _ & Hne). by eapply Hne. }
  destruct (choose_loop_recorded _ _ _ _ _ _ _ Hd Hrun n g' Hg')
    as (Hwc & g0 & m & Hg0 & _ & Hm).
  rewrite Hg in Hg0. injection Hg0 as <-.
  destruct (decide (m = 0)) as [->|Hne].
  - (* the reconciliation reads the keys of value 0 *)
    destruct (fresh_group_most_keys g Hfresh) as (v & b & Hb & Hbne & _).
    destruct b as [|r b]; [done|].
    assert (Hin : r ∈ bucket_of d n v).
    { unfold bucket_of. rewrite Hg, Hb. left. }
    apply (group_keys_elem _ _ _ _ _ _ _ Hd) in Hin as [Hin Hland].
    eapply (reconcile_needs_bucket _ _ _ _ r n v g' 0 Hrec Hin); [|done..].
    rewrite (ml_labels_labels h h2 r (Hsl r)). by apply lands_in_ml_labels.
  - (* the keys of the recorded value are moved by an offset taken from value 0 *)
    specialize (Hwc m Hm). rewrite (all_same_length_ext g g' Hbuckets) in Hwc.
    destruct (all_same_length g); [done|]. destruct Hwc as (b & Hb & _).
    rewrite Hbuckets in Hb.
    destruct Hfresh as (_ & _ & _ & Hbne). destruct b as [|r b]; [by destruct (Hbne _ _ Hb)|].
    assert (Hin : r ∈ bucket_of d n m).
    { unfold bucket_of. rewrite Hg, Hb. left. }
    apply (group_keys_elem _ _ _ _ _ _ _ Hd) in Hin as [Hin Hland].
    pose proof (lands_in_value_not_negative _ _ _ _ Hland) as Hpos.
    pose proof (lands_in_ml_labels _ _ _ _ Hland) as Hlab.
    assert (Hfresh0 : forall n0 g0, (d, q).1 !! n0 = Some g0 -> g_offsets g0 = None /\ g_max g0 = None).
    { intros n0 g0 Hg0. simpl in Hg0.
      by destruct (group_keys_fresh_group _ _ _ _ _ _ Hd Hg0) as (? & ? & _). }
    destruct (choose_loop_output _ _ _ _ _ Hrun) as (chosen & Hq1 & _ & Hall).
    { intros n0 g0 Hg0 m0 Hm0. destruct (Hfresh0 _ _ Hg0). congruence. }
    destruct (choose_loop_anchored _ _ _ _ _ Hrun) as (chosen' & Hq2 & Hanch).
    { intros n0 g0 Hg0 o v off Ho. destruct (Hfresh0 _ _ Hg0). congruence. }
    assert (chosen' = chosen) as -> by (rewrite Hq1 in Hq2; by apply app_inv_head in Hq2).
    destruct (Hanch r n m) as (g'' & Hg'' & H0); [by eapply Hall|done|lia|].
    rewrite Hg' in Hg''. by injection Hg'' as <-.
Qed.

Lemma lands_in_ext h h' r r' n v :
  key_objs h' !! r' = key_objs h !! r -> lands_in h' n v r' = lands_in h n v r.
Proof. unfold lands_in, get_key. by intros ->. Qed.

(** X20.  [get_layout_all] needs keys of value 0 in every group: when it
    returns, the keyboard it was called on has, for every key with
    multilayout labels and without the encoder marker, a key without the
    encoder marker of the same group and of value 0. *)
Theorem default_layout_needs_value_0 sort_keys kbd h kbd' h' ks :
  get_layout_all sort_keys kbd h = (Ok kbd', h') ->
  kbd_keys h kbd = Ok ks ->
  (forall r, r ∈ ks -> is_Some (key_objs h !! r)) ->
  forall r n v, r ∈ ks -> lands_in h n v r = true ->
    exists r0, r0 ∈ ks /\ lands_in h n 0 r0 = true.
Proof.
  intros (kbd1 & h1 & keys & st & h2 & st2 & Hcopy & Hchoose & Hrec)%get_layout_all_Ok
    Hks Hvalid r n v Hr Hland.
  destruct (deepcopy_records _ _ _ _ _ Hcopy Hks Hvalid) as (ks1 & Hks1 & Hsame & _).
  apply choose_keys_Ok in Hchoose
    as (ml_keys & ks1' & q & d & Hml & Hks1' & Hq & Hd & -> & Hrun).
  rewrite Hks1 in Hks1'. injection Hks1' as <-.
  pose proof Hml as (ks1' & Hks1' & Hmlf & _)%get_multilayout_keys_Ok.
  rewrite Hks1 in Hks1'. injection Hks1' as <-.
  destruct (Forall2_elem_l _ _ _ _ Hsame Hr) as (r' & Hr' & Hkey).
  assert (Hland' : lands_in h1 n v r' = true) by (by rewrite (lands_in_ext h h1 r r')).
  assert (Hin : r' ∈ bucket_of d n v).
  { apply (group_keys_elem _ _ _ _ _ _ _ Hd). split; [|done].
    unfold ml_keys_in_order. apply list_elem_of_filter. split; [|done].
    rewrite Hmlf. apply list_elem_of_filter. split; [|done].
    apply Is_true_true. by eapply lands_in_qualifies. }
  assert (is_Some (d !! n)) as [g Hg].
  { unfold bucket_of in Hin. destruct (d !! n); [eauto|by apply elem_of_nil in Hin]. }
  pose proof (default_groups_have_value_0 _ _ _ _ _ _ _ _ Hd Hrun Hrec n g Hg) as Hne.
  destruct (bucket_of d n 0) as [|r0' b0] eqn:Hb0; [done|].
  assert (Hin0 : r0' ∈ bucket_of d n 0) by (rewrite Hb0; left).
  apply (group_keys_elem _ _ _ _ _ _ _ Hd) in Hin0 as [Hin0 Hland0].
  apply ml_keys_in_order_subset in Hin0.
  apply list_elem_of_lookup in Hin0 as [i Hi].
  destruct (Forall2_lookup_r _ _ _ _ _ Hsame Hi) as (r0 & Hr0 & Hkey0).
  exists r0. split; [by eapply list_elem_of_lookup_2|].
  by rewrite <- (lands_in_ext h h1 r0 r0').
Qed.

(** ** Passes that read the labels only *)

Lemma rfold_ext {A B} (f g : A -> B -> result A) l :
  (forall a b, b ∈ l -> f a b = g a b) -> forall a, rfold f l a = rfold g l a.
Proof.
  induction l as [|b l IH]; intros Hfg a; simpl; [done|].
  rewrite Hfg by left. destruct (g a b); simpl; [|done].
  apply IH. intros; apply Hfg. by right.
Qed.

Lemma get_key_labels {A} h h' r (F : Key.t -> result A) :
  Key.labels <$> key_objs h' !! r = Key.labels <$> key_objs h !! r ->
  (forall k k', Key.labels k' = Key.labels k -> F k' = F k) ->
  (key <~ get_key h' r ;; F key) = (key <~ get_key h r ;; F key).
Proof.
  unfold get_key. destruct (key_objs h' !! r) as [k'|], (key_objs h !! r) as [k|];
    simpl; try done. intros [= E] HF. by apply HF.
Qed.

Lemma extract_ml_val_ndx_labels k k' :
  Key.labels k' = Key.labels k -> extract_ml_val_ndx k' = extract_ml_val_ndx k.
Proof. unfold extract_ml_val_ndx, extract_ml_val_ndx_at, label. by intros ->. Qed.

Lemma get_multilayout_keys_labels h h' kb :
  same_labels h h' -> kbd_objs h' = kbd_objs h ->
  get_multilayout_keys h' kb = get_multilayout_keys h kb.
Proof.
  intros Hl Hk. unfold get_multilayout_keys, kbd_keys. rewrite Hk.
  destruct (kbd_objs h !! kb) as [ks|]; [|done]. simpl.
  apply rfold_ext. intros keys r _. apply get_key_labels; [apply Hl|].
  intros k k' E. unfold label. rewrite E.
  by rewrite (extract_ml_val_ndx_labels k k').
Qed.

Lemma plain_keys_labels h h' ks ml_keys :
  same_labels h h' -> plain_keys h' ks ml_keys = plain_keys h ks ml_keys.
Proof.
  intros Hl. unfold plain_keys. apply rfold_ext. intros keys r _.
  apply get_key_labels; [apply Hl|]. intros k k' E. by rewrite (is_encoder_labels k k').
Qed.

Lemma group_keys_labels h h' ks ml_keys :
  same_labels h h' -> group_keys h' ks ml_keys = group_keys h ks ml_keys.
Proof.
  intros Hl. unfold group_keys. apply rfold_ext. intros d r _. unfold group_key.
  apply get_key_labels; [apply Hl|]. intros k k' E.
  by rewrite (is_encoder_labels k k'), (extract_ml_val_ndx_labels k k').
Qed.

(** ** The default selection, resolved again *)

Lemma place_keys_value_0 n l st h :
  mfold (place_key n 0) l st h = (Ok (st.1, st.2 ++ l), h).
Proof.
  revert st. induction l as [|r l IH]; intros st; simpl.
  - unfold ret. rewrite app_nil_r. by destruct st.
  - unfold bind, place_key. simpl. unfold ret. rewrite IH. simpl. by rewrite <- app_assoc.
Qed.

Lemma select_options_value_0 l :
  forall st h,
    (forall p, p ∈ l -> p.2 = 0 /\ exists g b, st.1 !! p.1 = Some g /\ buckets g !! p.2 = Some b) ->
    mfold select_option l st h
    = (Ok (st.1, st.2 ++ mjoin ((fun p => bucket_of st.1 p.1 p.2) <$> l)), h).
Proof.
  induction l as [|p l IH]; intros st h Hl; simpl.
  - unfold ret. rewrite app_nil_r. by destruct st.
  - destruct (Hl p) as (Hp & g & b & Hg & Hb); [left|].
    unfold bind at 1. unfold select_option at 1, bind, lift, group_at, bucket_at.
    rewrite Hg, Hb, Hp, place_keys_value_0. rewrite IH.
    + simpl. rewrite <- app_assoc. rewrite Hp in Hb.
      by rewrite (bucket_of_lookup _ _ _ _ _ Hg Hb).
    + intros p' Hp'. apply Hl. by right.
Qed.

Lemma rebase_key_0 key : rebase_key key (0%Qc, 0%Qc) = key.
Proof.
  destruct key. unfold rebase_key, Key.set_x, Key.set_y. simpl. f_equal; ring.
Qed.

Lemma rebase_loop_0 q :
  forall h,
    (forall r, r ∈ q -> is_Some (key_objs h !! r)) ->
    mfold (fun (_ : unit) r =>
             key <- reading (fun h => get_key h r) ;;
             put_key r (rebase_key key (0%Qc, 0%Qc))) q tt h
    = (Ok tt, h).
Proof.
  induction q as [|r q IH]; intros h Hq; simpl; [done|].
  destruct (Hq r) as [key Hk]; [left|].
  unfold bind at 1. unfold bind at 1, reading, get_key, put_key. rewrite Hk.
  rewrite rebase_key_0.
  assert (write_key h r key = h) as ->.
  { unfold write_key. rewrite list_insert_id by done. by destruct h. }
  apply IH. intros; apply Hq. by right.
Qed.

Lemma min_x_y_after_normalize q h h' :
  NoDup q -> normalize q h = (Ok tt, h') -> min_x_y h' q = Ok (0%Qc, 0%Qc).
Proof.
  intros Hnd (off & Hoff & [_ Hkeys]%rebase_loop_run)%normalize_Ok.
  unfold min_x_y in *. destruct (get_keys h q) as [ks|] eqn:Hks; [|discriminate].
  simpl in Hoff. apply get_keys_Ok in Hks.
  assert (Hks' : get_keys h' q = Ok (map (fun key => rebase_key key off) ks)).
  { apply get_keys_Ok. apply Forall2_fmap_r.
    eapply Forall2_impl_elem; [exact Hks|]. intros r key Hin Hr. simpl.
    by rewrite Hkeys, Hr, (times_listed_NoDup _ _ Hnd Hin). }
  rewrite Hks'. simpl. destruct ks as [|k ks]; [discriminate|]. injection Hoff as <-.
  simpl. rewrite !map_map. simpl.
  set (mx := Coord.minimum (Key.x k) (map Key.x ks)).
  set (my := Coord.minimum (Key.y k) (map Key.y ks)).
  assert (Hx : Coord.minimum (Key.x k - mx) (map (fun key => Key.x key - mx)%Qc ks) = 0%Qc).
  { replace (Key.x k - mx)%Qc with (Key.x k + - mx)%Qc by ring.
    rewrite (map_ext _ (fun key => (fun q => q + - mx)%Qc (Key.x key))) by (intros; ring).
    rewrite <- (map_map Key.x (fun q => (q + - mx)%Qc)), minimum_plus. unfold mx. ring. }
  assert (Hy : Coord.minimum (Key.y k - my) (map (fun key => Key.y key - my)%Qc ks) = 0%Qc).
  { replace (Key.y k - my)%Qc with (Key.y k + - my)%Qc by ring.
    rewrite (map_ext _ (fun key => (fun q => q + - my)%Qc (Key.y key))) by (intros; ring).
    rewrite <- (map_map Key.y (fun q => (q + - my)%Qc)), minimum_plus. unfold my. ring. }
  by rewrite Hx, Hy.
Qed.

(** X21.  On a keyboard that lists no key twice, resolving a selection of
    zeros a second time changes nothing: the second call returns the list
    the first one returned and leaves every key where the first call has
    put it. *)
Theorem default_selection_idempotent sort_keys kbd layout_idx h l h' ks :
  get_specific_layout sort_keys kbd layout_idx h = (Ok l, h') ->
  kbd_keys h kbd = Ok ks ->
  NoDup ks ->
  (forall v, v ∈ layout_idx -> v = 0) ->
  get_specific_layout sort_keys kbd layout_idx h' = (Ok l, h').
Proof.
  intros Hrun Hks Hnd Hzero.
  pose proof (moves_only_get_specific_layout _ _ _ _ _ _ Hrun) as Hm.
  pose proof (moved_only_labels _ _ Hm) as Hl. destruct Hm as [Hkb Hshape].
  apply get_specific_layout_Ok in Hrun
    as (ml_keys & ks' & q & d & st & h1 & Hml & Hks' & Hq & Hd & Hlen & Hval & Hsel & Hnorm & ->).
  rewrite Hks in Hks'. injection Hks' as <-.
  pose proof (selected_keys_NoDup _ _ _ _ _ _ _ _ Hq Hd Hsel Hnd) as Hnd1.
  pose proof (select_options_exact _ _ _ _ _ Hsel) as (_ & _ & Hst & Hbuckets).
  assert (Hall : forall p, p ∈ enumerate layout_idx ->
            p.2 = 0 /\ exists g b, (d, q).1 !! p.1 = Some g /\ buckets g !! p.2 = Some b).
  { intros p Hp. split; [|by apply Hbuckets].
    apply elem_of_enumerate in Hp as (i & v & -> & Hv). simpl.
    apply Hzero. by eapply list_elem_of_lookup_2. }
  pose proof (select_options_value_0 _ _ h Hall) as Hsel0. rewrite Hsel in Hsel0.
  injection Hsel0 as Hst0 Hh1. subst h1.
  pose proof (min_x_y_after_normalize _ _ _ Hnd1 Hnorm) as Hmin.
  unfold get_specific_layout.
  assert (Hml' : get_multilayout_keys h' kbd = Ok ml_keys)
    by (by rewrite (get_multilayout_keys_labels h h')).
  rewrite (bind_reading_Ok _ _ _ _ Hml').
  assert (Hks' : kbd_keys h' kbd = Ok ks) by (unfold kbd_keys in *; by rewrite Hkb).
  rewrite (bind_reading_Ok _ _ _ _ Hks').
  assert (Hq' : plain_keys h' ks ml_keys = Ok q) by (by rewrite (plain_keys_labels h h')).
  rewrite (bind_reading_Ok _ _ _ _ Hq').
  assert (Hd' : group_keys h' ks ml_keys = Ok d) by (by rewrite (group_keys_labels h h')).
  rewrite (bind_reading_Ok _ _ _ _ Hd').
  rewrite Hlen, Nat.eqb_refl. simpl. rewrite (bind_lift_Ok _ _ _ _ Hval).
  pose proof (select_options_value_0 _ _ h' Hall) as Hsel'. simpl in Hsel'.
  rewrite <- Hst0 in Hsel'. unfold bind at 1. rewrite Hsel'.
  unfold bind at 1. unfold normalize, bind at 1, reading. rewrite Hmin.
  rewrite rebase_loop_0; [done|].
  intros r Hr. unfold min_x_y in Hmin.
  destruct (get_keys h' st.2) as [kl|] eqn:Hkl; [|discriminate].
  apply get_keys_Ok in Hkl. apply list_elem_of_lookup in Hr as [i Hi].
  destruct (Forall2_lookup_l _ _ _ _ _ Hkl Hi) as (key & _ & ?). eauto.
Qed.

(** ** The keys of the default layout are copies *)

Lemma moves_only_choose_key st r : moves_only (choose_key st r).
Proof.
  unfold choose_key.
  apply moves_only_bind; [apply moves_only_reading|]. intros key.
  apply moves_only_bind; [apply moves_only_lift|]. intros p.
  apply moves_only_bind; [apply moves_only_lift|]. intros g.
  apply moves_only_bind; [apply moves_only_lift|]. intros mx.
  apply moves_only_bind; [apply moves_only_lift|]. intros b.
  match goal with |- moves_only (match ?c with Some _ => _ | None => _ end) => destruct c end;
    [|apply moves_only_ret].
  apply moves_only_bind; [apply moves_only_lift|]. intros m.
  destruct (negb _); [apply moves_only_ret|apply moves_only_place_key].
Qed.

Lemma moves_only_choose_keys kbd : moves_only (choose_keys kbd).
Proof.
  unfold choose_keys.
  apply moves_only_bind; [apply moves_only_reading|]. intros ml_keys.
  apply moves_only_bind; [apply moves_only_reading|]. intros ks.
  apply moves_only_bind; [apply moves_only_reading|]. intros q.
  apply moves_only_bind; [apply moves_only_reading|]. intros d.
  apply moves_only_bind; [apply moves_only_mfold; intros; apply moves_only_choose_key|].
  intros st. apply moves_only_ret.
Qed.

Lemma reconcile_prefix h keys :
  forall st st', reconcile h keys st = Ok st' -> exists extra, st'.2 = st.2 ++ extra.
Proof.
  unfold reconcile. induction keys as [|k keys IH]; intros [d q] st'; simpl.
  - intros [= <-]. exists []. by rewrite app_nil_r.
  - intros H. inv_rbind H as [d1 q1] Hstep.
    apply reconcile_key_run in Hstep as (n & rc & mx & g & w & b & _ & _ & _ & _ & _ & _ & _ & Hq).
    destruct (IH _ _ H) as (extra & ->). simpl.
    destruct (bool_decide (rc ∈ mx)); destruct Hq as [_ ->]; [eauto|].
    exists (k :: extra). by rewrite <- app_assoc.
Qed.

(** What a successful call of [get_layout_all] went through. *)
Lemma get_layout_all_run sort_keys kbd h kbd' h' :
  get_layout_all sort_keys kbd h = (Ok kbd', h') ->
  exists h1 keys st h2 st2 h3,
    deepcopy kbd h = (Ok kbd', h1) /\ choose_keys kbd' h1 = (Ok (keys, st), h2) /\
    reconcile h2 keys st = Ok st2 /\ normalize st2.2 h2 = (Ok tt, h3) /\
    key_objs h' = key_objs h3 /\
    kbd_objs h' = <[kbd' := sort_keys (key_objs h3) st2.2]> (<[kbd' := st2.2]> (kbd_objs h3)).
Proof.
  unfold get_layout_all.
  intros (kbd1 & h1 & Hcopy & H)%bind_Ok.
  apply bind_Ok in H as ([keys st] & h2 & Hchoose & H).
  unfold bind at 1, reading in H. simpl in H.
  destruct (reconcile h2 keys st) as [st2|] eqn:Hrec; [|discriminate].
  apply bind_Ok in H as ([] & h3 & Hnorm & H).
  unfold bind, set_sorted_keys, bind, set_kbd_keys, ret in H. simpl in H.
  injection H as <- <-.
  by exists h1, keys, st, h2, st2, h3.
Qed.

Lemma not_encoder_ext h h' r r' :
  key_objs h' !! r' = key_objs h !! r -> not_encoder h' r' = not_encoder h r.
Proof. unfold not_encoder, get_key. by intros ->. Qed.

Section Copies.

Variable sort_keys : list Key.t -> list ref -> list ref.
Hypothesis sort_keys_permutation : forall ks l, Permutation (sort_keys ks l) l.

(** X22.  The keyboard that [get_layout_all] returns holds copies only: one
    copy is made of every key of the keyboard it is called on, a copy has
    the width, height, rotation angle, labels and decal flag of its
    original, and the keys of the returned keyboard are among these copies.
    The copy of every key without multilayout labels and without the encoder
    marker is one of them. *)
Theorem default_layout_keys_are_copies kbd h kbd' h' ks :
  get_layout_all sort_keys kbd h = (Ok kbd', h') ->
  kbd_keys h kbd = Ok ks ->
  (forall r, r ∈ ks -> is_Some (key_objs h !! r)) ->
  exists l copies,
    kbd_keys h' kbd' = Ok l
    /\ Forall2 (fun r r' => exists k k', key_objs h !! r = Some k /\
                  key_objs h' !! r' = Some k' /\ same_shape k k') ks copies
    /\ (forall r', r' ∈ l -> r' ∈ copies)
    /\ (forall i r r', ks !! i = Some r -> copies !! i = Some r' ->
          qualifies h r = false -> not_encoder h r = true -> r' ∈ l).
Proof.
  intros (h1 & keys & st & h2 & st2 & h3 & Hcopy & Hchoose & Hrec & Hnorm & Hkeys' & Hkbds')
    %get_layout_all_run Hks Hvalid.
  destruct (deepcopy_records _ _ _ _ _ Hcopy Hks Hvalid) as (ks1 & Hks1 & Hsame & _).
  pose proof (moves_only_choose_keys _ _ _ _ Hchoose) as Hm12.
  pose proof (moves_only_normalize _ _ _ _ Hnorm) as Hm23.
  pose proof (moved_only_trans _ _ _ Hm12 Hm23) as [Hkb13 Hshape].
  apply choose_keys_Ok in Hchoose
    as (ml_keys & ks1' & q & d & Hml & Hks1' & Hq & Hd & -> & Hrun).
  rewrite Hks1 in Hks1'. injection Hks1' as <-.
  pose proof Hml as (ks1' & Hks1' & Hmlf & _)%get_multilayout_keys_Ok.
  rewrite Hks1 in Hks1'. injection Hks1' as <-.
  destruct (choose_loop_output _ _ _ _ _ Hrun) as (chosen & Hst & Hchosen & _).
  { simpl. intros n0 g0 Hg0 m Hm.
    destruct (group_keys_fresh_group _ _ _ _ _ _ Hd Hg0) as (_ & Hnone & _). congruence. }
  simpl in Hst. destruct (reconcile_prefix _ _ _ _ Hrec) as (extra & Hst2).
  exists (sort_keys (key_objs h3) st2.2), ks1. split_and!.
  - unfold kbd_keys. rewrite Hkbds'. rewrite list_lookup_insert_eq; [done|].
    rewrite length_insert, Hkb13. apply lookup_lt_is_Some.
    unfold kbd_keys in Hks1. destruct (kbd_objs h1 !! kbd'); [eauto|discriminate].
  - eapply Forall2_impl_elem; [exact Hsame|]. intros r r' Hr Hk1. simpl in Hk1.
    destruct (Hvalid r Hr) as [k Hk]. rewrite Hk in Hk1.
    destruct (Forall2_lookup_l _ _ _ _ _ Hshape Hk1) as (k' & Hk' & Hs).
    exists k, k'. by rewrite Hkeys'.
  - intros r' Hr'. rewrite sort_keys_permutation in Hr'.
    destruct (reconcile_subset _ _ _ _ Hrec r' Hr') as [Hin|Hin];
      [|by eapply ml_keys_in_order_subset].
    rewrite Hst in Hin. apply elem_of_app in Hin as [Hin|Hin].
    + by eapply plain_keys_subset.
    + destruct (Hchosen r' Hin) as [Hin' _]. by eapply ml_keys_in_order_subset.
  - intros i r r' Hi Hi' Hnq Hne. rewrite sort_keys_permutation, Hst2, Hst.
    apply elem_of_app. left. apply elem_of_app. left.
    pose proof (Forall2_lookup_lr _ _ _ _ _ _ Hsame Hi Hi') as Hk1. simpl in Hk1.
    rewrite (plain_keys_Ok _ _ _ _ Hq). apply list_elem_of_filter. split.
    + apply Is_true_true. by rewrite (not_encoder_ext h h1 r r').
    + apply list_elem_of_filter. split; [|by eapply list_elem_of_lookup_2].
      rewrite Hmlf. intros [Hq' _]%list_elem_of_filter.
      rewrite (qualifies_ext h h1 r r') in Hq' by done. by rewrite Hnq in Hq'.
Qed.

End Copies.

(** ** Every matrix position is in the default layout *)

Lemma reconcile_covers h keys :
  forall st st',
    reconcile h keys st = Ok st' ->
    recorded_covered h st ->
    forall r, r ∈ keys ->
      exists n rc r', group_of h r = Ok n /\ coord_of h r = Ok rc /\
        r' ∈ st'.2 /\ same_place h n rc r' = true.
Proof.
  induction keys as [|k keys IH]; intros [d q] st' Hrec Hcov r Hr.
  { by apply elem_of_nil in Hr. }
  unfold reconcile in Hrec. simpl in Hrec. inv_rbind Hrec as [d1 q1] Hstep.
  fold (reconcile h keys (d1, q1)) in Hrec.
  destruct (reconcile_prefix _ _ _ _ Hrec) as (extra & Hpre). simpl in Hpre.
  apply reconcile_key_run in Hstep
    as (n & rc & mx & g & w & b & Hn & Hrc & _ & Hg & Hw & Hb & Hmx & Hres).
  apply matrix_of_Ok in Hmx.
  assert (Hk : exists r', r' ∈ q1 /\ same_place h n rc r' = true).
  { destruct (decide (rc ∈ mx)) as [Hin|Hnin].
    - rewrite bool_decide_eq_true_2 in Hres by done. destruct Hres as [_ ->].
      apply list_elem_of_lookup in Hin as [i Hi].
      destruct (Forall2_lookup_r _ _ _ _ _ Hmx Hi) as (r0 & Hr0 & Hc0).
      eapply (Hcov n g w b r0 rc); [done..|by eapply list_elem_of_lookup_2|done].
    - rewrite bool_decide_eq_false_2 in Hres by done. destruct Hres as [_ ->].
      exists k. split; [set_solver|]. by apply same_place_iff. }
  assert (Hcov1 : recorded_covered h (d1, q1)).
  { destruct (decide (rc ∈ mx)) as [Hin|Hnin].
    - rewrite bool_decide_eq_true_2 in Hres by done. by destruct Hres as [-> ->].
    - rewrite bool_decide_eq_false_2 in Hres by done. destruct Hres as [-> ->].
      intros n' g' m' b' r0 rc0 Hg' Hm' Hb' Hr0 Hc0. simpl in *.
      destruct (decide (n = n')) as [<-|Hne].
      + rewrite lookup_insert_eq in Hg'. injection Hg' as <-. simpl in Hm', Hb'.
        rewrite Hw in Hm'. injection Hm' as <-.
        rewrite lookup_insert_eq in Hb'. injection Hb' as <-.
        apply elem_of_app in Hr0 as [Hr0|Hr0%list_elem_of_singleton].
        * destruct (Hcov n g w b r0 rc0) as (r' & Hr' & Hs); [done..|].
          exists r'. split; [set_solver|done].
        * subst r0. exists k. split; [set_solver|].
          apply same_place_iff. split; [done|congruence].
      + rewrite lookup_insert_ne in Hg' by done.
        destruct (Hcov n' g' m' b' r0 rc0) as (r' & Hr' & Hs); [done..|].
        exists r'. split; [set_solver|done]. }
  apply elem_of_cons in Hr as [->|Hr].
  - destruct Hk as (r' & Hr' & Hs). exists n, rc, r'. split_and!; [done..| |done].
    rewrite Hpre. set_solver.
  - by apply (IH _ _ Hrec Hcov1).
Qed.

(** The two loops of the default layout, run one after the other. *)
Lemma default_loops_cover h ks ml_keys d q st h2 st2 :
  group_keys h ks ml_keys = Ok d ->
  mfold choose_key (ml_keys_in_order ks ml_keys) (d, q) h = (Ok st, h2) ->
  reconcile h2 (ml_keys_in_order ks ml_keys) st = Ok st2 ->
  forall r, r ∈ ml_keys_in_order ks ml_keys ->
    exists n rc r', group_of h2 r = Ok n /\ coord_of h2 r = Ok rc /\
      r' ∈ st2.2 /\ same_place h2 n rc r' = true.
Proof.
  intros Hd Hrun Hrec. apply (reconcile_covers _ _ _ _ Hrec).
  pose proof (choose_loop_spec _ _ _ _ _ Hrun) as (Hsb & Hsl & _). simpl in Hsb.
  destruct (choose_loop_output _ _ _ _ _ Hrun) as (chosen & Hst & _ & Hall).
  { simpl. intros n0 g0 Hg0 m Hm.
    destruct (group_keys_fresh_group _ _ _ _ _ _ Hd Hg0) as (_ & Hnone & _). congruence. }
  intros n g' m b r0 rc Hg' Hm Hb Hr0 Hc0.
  pose proof (Hsb n) as Hn. rewrite Hg' in Hn. simpl in Hn.
  destruct (d !! n) as [g|] eqn:Hg; [|done]. injection Hn as Hbuckets.
  assert (Hin : r0 ∈ bucket_of d n m).
  { unfold bucket_of. rewrite Hg, <- Hbuckets, Hb. done. }
  apply (group_keys_elem _ _ _ _ _ _ _ Hd) in Hin as [Hin Hland].
  pose proof (lands_in_ml_labels _ _ _ _ Hland) as Hlab.
  exists r0. split.
  - rewrite Hst. apply elem_of_app. right. by eapply Hall.
  - apply same_place_iff. split; [|done].
    rewrite (group_of_labels h h2 r0 (Hsl r0)).
    unfold group_of. unfold ml_labels in Hlab.
    destruct (get_key h r0) as [key|]; [|discriminate]. simpl in *. by rewrite Hlab.
Qed.

Lemma group_of_ext h h' r r' :
  key_objs h' !! r' = key_objs h !! r -> group_of h' r' = group_of h r.
Proof. unfold group_of, get_key. by intros ->. Qed.

Lemma coord_of_ext h h' r r' :
  key_objs h' !! r' = key_objs h !! r -> coord_of h' r' = coord_of h r.
Proof. unfold coord_of, get_key. by intros ->. Qed.

Section Covered.

Variable sort_keys : list Key.t -> list ref -> list ref.
Hypothesis sort_keys_permutation : forall ks l, Permutation (sort_keys ks l) l.

(** X23.  The default layout covers every matrix position of every group:
    for every key with multilayout labels of the keyboard that
    [get_layout_all] is called on, the keyboard it returns holds a key of
    the same group at the same matrix position. *)
Theorem default_layout_covers_matrix kbd h kbd' h' ks :
  get_layout_all sort_keys kbd h = (Ok kbd', h') ->
  kbd_keys h kbd = Ok ks ->
  (forall r, r ∈ ks -> is_Some (key_objs h !! r)) ->
  forall r, r ∈ ks -> qualifies h r = true ->
    exists l n rc r',
      kbd_keys h' kbd' = Ok l /\ group_of h r = Ok n /\ coord_of h r = Ok rc /\
      r' ∈ l /\ group_of h' r' = Ok n /\ coord_of h' r' = Ok rc.
Proof.
  intros (h1 & keys & st & h2 & st2 & h3 & Hcopy & Hchoose & Hrec & Hnorm & Hkeys' & Hkbds')
    %get_layout_all_run Hks Hvalid r Hr Hqual.
  destruct (deepcopy_records _ _ _ _ _ Hcopy Hks Hvalid) as (ks1 & Hks1 & Hsame & _).
  pose proof (moves_only_choose_keys _ _ _ _ Hchoose) as Hm12.
  pose proof (moves_only_normalize _ _ _ _ Hnorm) as Hm23.
  pose proof (moved_only_labels _ _ Hm12) as Hl12.
  pose proof (moved_only_labels _ _ Hm23) as Hl23.
  destruct (moved_only_trans _ _ _ Hm12 Hm23) as [Hkb13 _].
  apply choose_keys_Ok in Hchoose
    as (ml_keys & ks1' & q & d & Hml & Hks1' & Hq & Hd & -> & Hrun).
  rewrite Hks1 in Hks1'. injection Hks1' as <-.
  pose proof Hml as (ks1' & Hks1' & Hmlf & _)%get_multilayout_keys_Ok.
  rewrite Hks1 in Hks1'. injection Hks1' as <-.
  destruct (Forall2_elem_l _ _ _ _ Hsame Hr) as (r1 & Hr1 & Hkey).
  assert (Hin : r1 ∈ ml_keys_in_order ks1 ml_keys).
  { unfold ml_keys_in_order. apply list_elem_of_filter. split; [|done].
    rewrite Hmlf. apply list_elem_of_filter. split; [|done].
    apply Is_true_true. by rewrite (qualifies_ext h h1 r r1). }
  destruct (default_loops_cover _ _ _ _ _ _ _ _ Hd Hrun Hrec r1 Hin)
    as (n & rc & r' & Hn & Hrc & Hr' & [Hn' Hrc']%same_place_iff).
  exists (sort_keys (key_objs h3) st2.2), n, rc, r'. split_and!.
  - unfold kbd_keys. rewrite Hkbds'. rewrite list_lookup_insert_eq; [done|].
    rewrite length_insert, Hkb13. apply lookup_lt_is_Some.
    unfold kbd_keys in Hks1. destruct (kbd_objs h1 !! kbd'); [eauto|discriminate].
  - by rewrite <- (group_of_ext h h1 r r1), <- (group_of_labels h1 h2 r1 (Hl12 r1)).
  - by rewrite <- (coord_of_ext h h1 r r1), <- (coord_of_labels h1 h2 r1 (Hl12 r1)).
  - by rewrite sort_keys_permutation.
  - rewrite <- Hn'. apply group_of_labels. rewrite Hkeys'. apply Hl23.
  - rewrite <- Hrc'. apply coord_of_labels. rewrite Hkeys'. apply Hl23.
Qed.

End Covered.

(** ** What the reconciliation loop appends *)

(** X24.  The reconciliation loop of [get_layout_all] goes over the
    multilayout keys in order and appends to the output exactly the keys
    whose matrix position is absent from the positions of the chosen value of
    their group and that are the first key of their group met at that
    position. *)
Theorem reconcile_appends_missing_firsts h keys d q d' q' :
  reconcile h keys (d, q) = Ok (d', q') ->
  q' = q ++ missing_firsts h d [] keys.
Proof.
  intros H. eapply reconcile_loop; [apply reconciled_upto_start|exact H].
Qed.

(** ** The keys the reconciliation loop appends have not been moved *)

(** One round of the loop that picks the keys of the chosen value leaves the
    heap as it is, or writes to the key it is at; the value of that key is
    then positive and is the one recorded for its group. *)
Lemma choose_key_writes st r h st' h' :
  choose_key st r h = (Ok st', h') ->
  h' = h \/
  exists n v g',
    ml_labels h r = Ok (n, v) /\ 0 < v /\ st'.1 !! n = Some g' /\ g_max g' = Some v /\
    forall r', r' <> r -> key_objs h' !! r' = key_objs h !! r'.
Proof.
  unfold choose_key, ml_labels. unfold bind at 1, reading.
  destruct (get_key h r) as [key|] eqn:Hk; [|discriminate]. simpl.
  unfold bind at 1, lift.
  destruct (extract_ml_val_ndx key) as [[n v]|] eqn:Hp; [|discriminate]. simpl.
  unfold bind at 1. unfold group_at.
  destruct (st.1 !! n) as [g|] eqn:Hg; [|discriminate].
  unfold bind at 1.
  destruct (py_max (ml_val_lengths g)) as [mx|]; [|discriminate].
  unfold bind at 1.
  destruct (bucket_at g v) as [b|]; [|discriminate].
  assert (Hstep : forall g1,
            bind (lift (max_at g1))
              (fun m => if negb (m =? v) then ret (<[n:=g1]> st.1, st.2)
                        else place_key n v (<[n:=g1]> st.1, st.2) r) h = (Ok st', h') ->
            h' = h \/
            exists n0 v0 g',
              Ok (n, v) = Ok (n0, v0) /\ 0 < v0 /\ st'.1 !! n0 = Some g' /\
              g_max g' = Some v0 /\
              forall r', r' <> r -> key_objs h' !! r' = key_objs h !! r').
  { intros g1. unfold bind at 1, lift, max_at. destruct (g_max g1) as [w|] eqn:Hw; [|discriminate].
    destruct (Z.eqb_spec w v) as [->|Hne]; simpl.
    - intros H. pose proof (place_key_same_choice _ _ _ _ _ _ _ H) as Hsame.
      pose proof (place_key_heap _ _ _ _ _ _ _ H) as [[->|[k ->]] _]; [by left|].
      unfold place_key in H. destruct (0 <? v) eqn:Hpos.
      + right. specialize (Hsame n). simpl in Hsame. rewrite lookup_insert_eq in Hsame.
        destruct (st'.1 !! n) as [g'|] eqn:Hg'; [|done]. simpl in Hsame.
        injection Hsame as _ Hmax. apply Z.ltb_lt in Hpos.
        exists n, v, g'. split_and!; [done|done|done|congruence|].
        intros r' Hr'. by apply write_key_other.
      + injection H as _ <-. by left.
    - intros [= _ <-]. by left. }
  destruct (no_max g).
  - destruct (_ =? 1)%nat; [apply Hstep|].
    destruct (_ =? _)%nat; [apply Hstep|]. intros [= _ <-]. by left.
  - apply Hstep.
Qed.

Lemma choose_loop_writes l :
  forall st h st' h',
    mfold choose_key l st h = (Ok st', h') ->
    forall r,
      key_objs h' !! r = key_objs h !! r \/
      exists n v g',
        ml_labels h r = Ok (n, v) /\ 0 < v /\ st'.1 !! n = Some g' /\ g_max g' = Some v.
Proof.
  induction l as [|k l IH]; intros st h st' h'; simpl.
  - intros [= <- <-] r. by left.
  - intros (st1 & h1 & Hstep & Hrun)%bind_Ok r.
    destruct (choose_key_writes _ _ _ _ _ Hstep) as [->|(n & v & g1 & Hlab & Hv & Hg1 & Hm1 & Hfr)];
      [by eapply IH|].
    destruct (decide (r = k)) as [->|Hne].
    + right. destruct (choose_loop_keeps _ _ _ _ _ _ _ _ Hrun Hg1 Hm1) as (g' & Hg' & _ & _ & Hm').
      exists n, v, g'. split_and!; [done..|]. apply Hm'. lia.
    + destruct (IH _ _ _ _ Hrun r) as [Heq|(n' & v' & g' & Hlab' & ?)].
      * left. by rewrite Heq, Hfr.
      * right. exists n', v', g'. split; [|done]. rewrite <- Hlab'. symmetry.
        apply ml_labels_labels. by rewrite Hfr.
Qed.

Lemma missing_firsts_elem h d0 keys :
  forall earlier r,
    r ∈ missing_firsts h d0 earlier keys ->
    r ∈ keys /\
    exists n rc m, group_of h r = Ok n /\ coord_of h r = Ok rc /\
                   chosen_matrix h d0 n = Ok m /\ rc ∉ m.
Proof.
  induction keys as [|k keys IH]; intros earlier r; simpl.
  - intros H. by apply elem_of_nil in H.
  - intros [H|H]%elem_of_app.
    + destruct (is_missing_first h d0 earlier k) eqn:E; [|by apply elem_of_nil in H].
      apply list_elem_of_singleton in H as ->. split; [by left|].
      unfold is_missing_first in E.
      destruct (group_of h k) as [n|] eqn:Hn; [|discriminate].
      destruct (coord_of h k) as [rc|] eqn:Hrc; [|discriminate].
      destruct (chosen_matrix h d0 n) as [m|] eqn:Hm; [|discriminate].
      apply andb_true_iff in E as [E%bool_decide_eq_true _].
      exists n, rc, m. split_and!; [reflexivity|reflexivity|exact Hm|exact E].
    + destruct (IH _ _ H) as [Hin Hrest]. split; [by right|done].
Qed.

(** A key without the encoder marker whose value is the one recorded for its
    group has its matrix position among those of the recorded value. *)
Lemma chosen_key_not_missing h ks ml_keys d0 d h2 r n v g' m rc :
  group_keys h ks ml_keys = Ok d0 ->
  same_buckets d0 d -> same_labels h h2 ->
  r ∈ ml_keys_in_order ks ml_keys -> not_encoder h r = true ->
  ml_labels h r = Ok (n, v) -> d !! n = Some g' -> g_max g' = Some v ->
  chosen_matrix h2 d n = Ok m -> coord_of h2 r = Ok rc -> rc ∈ m.
Proof.
  intros Hd Hsb Hsl Hin Hne Hlab Hg' Hmax Hm Hrc.
  assert (Hland : lands_in h n v r = true).
  { unfold lands_in, not_encoder, ml_labels in *.
    destruct (get_key h r) as [key|]; [|discriminate]. simpl in Hlab.
    destruct (is_encoder key) as [[|]|]; try discriminate. rewrite Hlab.
    by apply bool_decide_eq_true. }
  assert (Hb : r ∈ bucket_of d n v).
  { rewrite (same_buckets_bucket_of _ _ _ _ Hsb). apply (group_keys_elem _ _ _ _ _ _ _ Hd). done. }
  unfold bucket_of in Hb. rewrite Hg' in Hb.
  destruct (buckets g' !! v) as [b|] eqn:Hbv; [|by apply elem_of_nil in Hb]. simpl in Hb.
  unfold chosen_matrix, group_at, max_at, bucket_at in Hm.
  rewrite Hg' in Hm. simpl in Hm. rewrite Hmax in Hm. simpl in Hm. rewrite Hbv in Hm. simpl in Hm.
  apply matrix_of_Ok in Hm.
  destruct (Forall2_elem_l _ _ _ _ Hm Hb) as (rc' & Hrc' & Hc). congruence.
Qed.

(** X25.  In a call of [get_layout_all] that returns, the keys that the
    reconciliation loop appends, the keys with the encoder marker apart, are
    appended as the copy made them: the loop that picks the keys of the
    chosen values has not written to them, so no offset has been applied. *)
Theorem default_layout_reconciles_unmoved_keys sort_keys kbd h kbd' h' :
  get_layout_all sort_keys kbd h = (Ok kbd', h') ->
  exists h1 keys d q h2 d' q' extra,
    deepcopy kbd h = (Ok kbd', h1) /\
    choose_keys kbd' h1 = (Ok (keys, (d, q)), h2) /\
    reconcile h2 keys (d, q) = Ok (d', q') /\
    q' = q ++ extra /\
    forall r, r ∈ extra -> not_encoder h1 r = true -> key_objs h2 !! r = key_objs h1 !! r.
Proof.
  intros (h1 & keys & [d q] & h2 & [d' q'] & h3 & Hcopy & Hchoose & Hrec & _)%get_layout_all_run.
  exists h1, keys, d, q, h2, d', q', (missing_firsts h2 d [] keys).
  split_and!; [done..| |].
  { eapply reconcile_loop; [apply reconciled_upto_start|exact Hrec]. }
  intros r Hr Hne.
  apply choose_keys_Ok in Hchoose as (ml_keys & ks & q0 & d0 & _ & _ & _ & Hd & -> & Hrun).
  apply missing_firsts_elem in Hr as (Hin & n & rc & m & Hn & Hrc & Hm & Hnot).
  pose proof (choose_loop_spec _ _ _ _ _ Hrun) as (Hsb & Hsl & _). simpl in Hsb.
  destruct (choose_loop_writes _ _ _ _ _ Hrun r) as [Heq|(n' & v & g' & Hlab & Hv & Hg' & Hmax)];
    [done|].
  simpl in Hg'. exfalso. apply Hnot.
  assert (n' = n) as ->.
  { rewrite (group_of_labels h1 h2 r (Hsl r)) in Hn. unfold group_of, ml_labels in *.
    destruct (get_key h1 r) as [key|]; [|discriminate]. simpl in *.
    rewrite Hlab in Hn. simpl in Hn. by injection Hn. }
  by eapply (chosen_key_not_missing h1 ks ml_keys d0 d h2 r n v g' m rc).
Qed.

End Properties.

(** * The properties on the keyboards of the examples *)

(** A keyboard with one multilayout key, slot 3 reading 1 and slot 5
    reading 0. *)
Lemma group_keys_buckets_witness :
  let h := Examples.board [Examples.key_at 0 0 (Examples.slots "1" "" "0" "" "")] in
  exists d, group_keys h [0%nat] [0%nat] = Ok d /\ bucket_of d 1 0 = [0%nat].
Proof.
  eexists. split; [vm_compute; reflexivity|].
  pose proof (group_keys_buckets (python := example_python)
                (Examples.board [Examples.key_at 0 0 (Examples.slots "1" "" "0" "" "")])
                [0%nat] [0%nat] _ ltac:(vm_compute; reflexivity)) as (_ & _ & _ & Hb).
  destruct (Hb 1 0) as (-> & _). vm_compute. reflexivity.
Defined.

(** C1 as stated fails: a key whose multilayout value (slot 3) is 1 and whose
    multilayout index (slot 5) is 0 is not kept under value 1 of group 0; the
    grouper keeps it under value 0 of group 1. *)
Lemma grouper_swaps_value_and_index :
  let key := Examples.key_at 0 0 (Examples.slots "1" "" "0" "" "") in
  let h := Examples.board [key] in
  extract_ml_val_ndx key = Ok (1, 0) /\
  get_multilayout_keys h 0%nat = Ok [0%nat] /\
  exists d, group_keys h [0%nat] [0%nat] = Ok d /\
    ~ 0%nat ∈ bucket_of d 0 1 /\ 0%nat ∈ bucket_of d 1 0.
Proof.
  split_and!; [reflexivity|reflexivity|].
  eexists. split; [vm_compute; reflexivity|]. vm_compute. split; [|by left].
  intros H; inversion H.
Qed.

(** A keyboard with one group of two values; the selection asks for a third. *)
Lemma validation_errors_witness :
  let h := Examples.board [Examples.key_at 0 0 (Examples.slots "0" "" "0" "" "");
                           Examples.key_at 2 0 (Examples.slots "0" "" "1" "" "")] in
  let d : gmap Z group := {[ 0 := mkGroup {[ 0 := [0%nat]; 1 := [1%nat] ]} None None ]} in
  group_keys h [0; 1]%nat [0; 1]%nat = Ok d /\
  consecutive_groups d /\
  index_out_of_range d [2] /\
  (get_specific_layout Examples.unsorted 0%nat [2] h).1 = Err SelectionIndexOutOfRange.
Proof.
  intros h d.
  assert (Hd : group_keys h [0; 1]%nat [0; 1]%nat = Ok d) by (vm_compute; reflexivity).
  assert (Hc : consecutive_groups d).
  { intros n. unfold d. rewrite map_size_singleton.
    destruct (decide (n = 0)) as [->|];
      [rewrite lookup_singleton_eq|rewrite lookup_singleton_ne by done].
    - split; [lia|eauto].
    - split; [by intros [? ?]|lia]. }
  assert (Hbad : index_out_of_range d [2]).
  { exists 0%nat, 2. eexists. split_and!; [reflexivity|apply lookup_singleton_eq|].
    vm_compute. discriminate. }
  split_and!; [exact Hd|exact Hc|exact Hbad|].
  destruct (validation_errors (python := example_python) Examples.unsorted h 0%nat [2] [0; 1]%nat [0; 1]%nat [] d
              ltac:(vm_compute; reflexivity) ltac:(vm_compute; reflexivity) ltac:(vm_compute; reflexivity) Hd) as [_ H].
  destruct (H ltac:(vm_compute; reflexivity) Hc) as [H' _]. apply H', Hbad.
Defined.

(** C3 as stated fails.  First keyboard: a single group, numbered 1, with one
    value; the selection has one entry, which is below the number of values,
    so neither condition of the claim holds, and yet the validation loop
    raises KeyError.  Second keyboard: a single group, numbered 0, with one
    value; the selection [1, 1] selects an index that is not below the
    number of values, and SelectionArityMismatch is raised, not
    SelectionIndexOutOfRange. *)
Lemma validation_not_as_stated :
  let h1 := Examples.board [Examples.key_at 0 0 (Examples.slots "1" "" "0" "" "")] in
  let h2 := Examples.board [Examples.key_at 0 0 (Examples.slots "0" "" "0" "" "")] in
  (exists d, group_keys h1 [0%nat] [0%nat] = Ok d /\
     length [0] = size d /\
     (forall n g, d !! n = Some g -> 0 < Z.of_nat (size (buckets g))) /\
     validate d [0] = Err KeyError /\
     (get_specific_layout Examples.unsorted 0%nat [0] h1).1 = Err KeyError)
  /\ (exists d g, group_keys h2 [0%nat] [0%nat] = Ok d /\
        d !! 0 = Some g /\ Z.of_nat (size (buckets g)) <= 1 /\
        (get_specific_layout Examples.unsorted 0%nat [1; 1] h2).1 = Err SelectionArityMismatch).
Proof.
  split.
  - exists {[ 1 := mkGroup {[ 0 := [0%nat] ]} None None ]}.
    split_and!; try (vm_compute; reflexivity).
    intros n g. destruct (decide (n = 1)) as [->|].
    + rewrite lookup_singleton_eq. intros [= <-]. vm_compute. reflexivity.
    + rewrite lookup_singleton_ne by done. discriminate.
  - exists {[ 0 := mkGroup {[ 0 := [0%nat] ]} None None ]}, (mkGroup {[ 0 := [0%nat] ]} None None).
    split_and!; try (vm_compute; reflexivity).
    vm_compute. discriminate.
Qed.

(** A plain key, a key of value 0 at x = 1 and a key of value 1 at x = 3,
    with value 1 selected. *)
Lemma selected_offsets_witness :
  let h := Examples.board [Examples.key_at 5 0 (Examples.slots "" "" "" "" "");
                           Examples.key_at 1 0 (Examples.slots "0" "" "0" "" "");
                           Examples.key_at 3 0 (Examples.slots "0" "" "1" "" "")] in
  let d : gmap Z group := {[ 0 := mkGroup {[ 0 := [1%nat]; 1 := [2%nat] ]} None None ]} in
  group_keys h [0; 1; 2]%nat [1; 2]%nat = Ok d /\
  exists d' q' h',
    mfold select_option (enumerate [1]) (d, [0%nat]) h = (Ok (d', q'), h') /\
    exists m0 mv,
      min_x_y h (bucket_of d 0 0) = Ok m0 /\ min_x_y h (bucket_of d 0 1) = Ok mv /\
      forall h2, offset_for h2 d' 0 1 = Ok (d', ((m0.1 - mv.1)%Qc, (m0.2 - mv.2)%Qc)).
Proof.
  intros h d.
  assert (Hd : group_keys h [0; 1; 2]%nat [1; 2]%nat = Ok d) by (vm_compute; reflexivity).
  split; [exact Hd|].
  destruct (mfold select_option (enumerate [1]) (d, [0%nat]) h) as [[[d' q']|e] h'] eqn:Hrun;
    [|vm_compute in Hrun; discriminate].
  exists d', q', h'. split; [reflexivity|].
  destruct (selected_offsets (python := example_python) h _ _ d [1] _ d' q' h' Hd Hrun 0%nat 1 ltac:(vm_compute; reflexivity)) as [Hpos _].
  destruct (Hpos ltac:(vm_compute; reflexivity)) as (m0 & mv & Hm0 & Hmv & _ & Hc).
  exists m0, mv. split_and!; [exact Hm0|exact Hmv|exact Hc].
Defined.

Lemma selected_min_corner_witness :
  let h := Examples.board [Examples.key_at 5 0 (Examples.slots "" "" "" "" "");
                           Examples.key_at 1 0 (Examples.slots "0" "" "0" "" "");
                           Examples.key_at 3 0 (Examples.slots "0" "" "1" "" "")] in
  let d : gmap Z group := {[ 0 := mkGroup {[ 0 := [1%nat]; 1 := [2%nat] ]} None None ]} in
  group_keys h [0; 1; 2]%nat [1; 2]%nat = Ok d /\
  exists d' q' h',
    mfold select_option (enumerate [1]) (d, [0%nat]) h = (Ok (d', q'), h') /\
    exists m0, min_x_y h (bucket_of d 0 0) = Ok m0 /\ min_x_y h' (bucket_of d 0 1) = Ok m0.
Proof.
  intros h d.
  assert (Hd : group_keys h [0; 1; 2]%nat [1; 2]%nat = Ok d) by (vm_compute; reflexivity).
  split; [exact Hd|].
  destruct (mfold select_option (enumerate [1]) (d, [0%nat]) h) as [[[d' q']|e] h'] eqn:Hrun;
    [|vm_compute in Hrun; discriminate].
  exists d', q', h'. split; [reflexivity|].
  exact (selected_min_corner (python := example_python) h _ _ d [1] _ d' q' h' Hd Hrun 0%nat 1 ltac:(vm_compute; reflexivity) ltac:(vm_compute; reflexivity)).
Defined.

Lemma default_layout_keeps_encoder_key_witness :
  exists kbd h' keys,
    get_layout_all Examples.unsorted 0%nat
      (Examples.board
         [Examples.key_at 0 0 (Examples.slots "0" "" "0" "0" "0");
          Examples.key_at 1 0 (Examples.slots "0" "e" "0" "0" "1")]) = (Ok kbd, h') /\
    kbd_keys h' kbd = Ok keys /\ 3%nat ∈ keys.
Proof.
  destruct (default_layout_keeps_encoder_key (python := example_python) Examples.unsorted unsorted_permutation)
    as (kbd & h' & keys & key & H1 & H2 & H3 & _).
  exists kbd, h', keys. split_and!; [exact H1|exact H2|exact H3].
Defined.

Lemma alternate_layouts_differ_witness :
  exists l1 h1 l2 h2,
    get_alternate_layouts Examples.unsorted 0%nat [("a"%string, [1]); ("b"%string, [1])]
      (Examples.board
         [Examples.key_at 5 0 (Examples.slots "" "" "" "" "");
          Examples.key_at 1 0 (Examples.slots "0" "" "0" "" "");
          Examples.key_at 3 0 (Examples.slots "0" "" "1" "" "")]) =
      (Ok [("a"%string, l1); ("b"%string, l2)], h2) /\
    Examples.view h1 l1 <> Examples.view h2 l2.
Proof.
  destruct (alternate_layouts_differ (python := example_python) Examples.unsorted unsorted_permutation)
    as (l1 & h1 & l2 & h2 & _ & _ & H & _ & _ & Hne).
  exists l1, h1, l2, h2. split; [exact H|exact Hne].
Defined.

(** With a sort that leaves the list as it is, the key list of the result
    names the encoder key twice. *)
Lemma default_layout_appends_offset_key_witness :
  let h := Examples.board
             [Examples.key_at 0 0 (Examples.slots "0" "" "0" "0" "0");
              Examples.key_at 5 0 (Examples.slots "0" "" "1" "0" "1");
              Examples.key_at 6 0 (Examples.slots "0" "" "1" "0" "2");
              Examples.key_at 7 0 (Examples.slots "0" "e" "1" "0" "3")] in
  exists kbd h' keys,
    get_layout_all Examples.unsorted 0%nat h = (Ok kbd, h') /\
    kbd_keys h' kbd = Ok keys /\
    Permutation keys [5; 6; 7; 4; 7]%nat /\
    Examples.shown h 3%nat = Some (7%Q, 0%Q, Examples.slots "0" "e" "1" "0" "3") /\
    Examples.shown h' 7%nat = Some (2%Q, 0%Q, Examples.slots "0" "e" "1" "0" "3").
Proof.
  intros h.
  destruct (default_layout_appends_offset_key (python := example_python)
              Examples.unsorted unsorted_permutation)
    as (h1 & ml_keys & d & q & h2 & d' & q' & kbd & h' & keys
        & _ & _ & _ & _ & _ & _ & _ & _ & Hq' & _ & Hrun & Hkeys & Hperm & Hshown).
  exists kbd, h', keys. rewrite Hq' in Hperm.
  split_and!; [exact Hrun|exact Hkeys|exact Hperm|reflexivity|exact Hshown].
Defined.

(** Two keys, the second one an alternative that is not the default one. *)
Lemma get_layout_all_frame_witness :
  let h := Examples.board [Examples.key_at 1 0 (Examples.slots "0" "" "0" "0" "0");
                           Examples.key_at 3 0 (Examples.slots "0" "" "1" "0" "1")] in
  exists kbd' h' ks',
    get_layout_all Examples.unsorted 0%nat h = (Ok kbd', h') /\
    kbd' = 1%nat /\ kbd_keys h' kbd' = Ok ks' /\
    key_objs h' !! 1%nat = key_objs h !! 1%nat /\
    kbd_objs h' !! 0%nat = Some [0; 1]%nat.
Proof.
  intros h.
  destruct (get_layout_all Examples.unsorted 0%nat h) as [[kbd'|e] h'] eqn:Hrun;
    [|vm_compute in Hrun; discriminate].
  destruct (get_layout_all_frame (python := example_python) Examples.unsorted unsorted_permutation _ _ _ _ Hrun)
    as (Hkeys & Hkbds & Hres).
  destruct (Hres _ ltac:(vm_compute; reflexivity)) as (-> & ks' & Hks' & _).
  exists 1%nat, h', ks'. split_and!; [reflexivity|reflexivity|exact Hks'| |].
  - rewrite (Hkeys 1%nat _ ltac:(vm_compute; reflexivity)). reflexivity.
  - apply Hkbds. reflexivity.
Defined.

(** A key of value 0 with a matrix position and a key of value 1 without:
    default synthesis raises MalformedMatrixLabel, and selecting value 1
    yields a layout. *)
Lemma default_layout_needs_matrix_labels_witness :
  let h := Examples.board [Examples.key_at 0 0 (Examples.slots "0" "" "0" "0" "0");
                           Examples.key_at 1 0 (Examples.slots "0" "" "1" "" "")] in
  get_layout_all Examples.unsorted 0%nat h = (Err MalformedMatrixLabel, (deepcopy 0%nat h).2) /\
  (get_specific_layout Examples.unsorted 0%nat [1] h).1 = Ok [1%nat].
Proof.
  intros h.
  set (d := ({[ 0 := mkGroup {[ 0 := [2%nat]; 1 := [3%nat] ]} None (Some 0) ]} : gmap Z group)).
  assert (Hcopy : deepcopy 0%nat h = (Ok 1%nat, (deepcopy 0%nat h).2))
    by (vm_compute; reflexivity).
  assert (Hchoose : choose_keys 1%nat (deepcopy 0%nat h).2 =
                    (Ok ([2; 3]%nat, (d, [2%nat])), (deepcopy 0%nat h).2))
    by (vm_compute; reflexivity).
  destruct (default_layout_needs_matrix_labels (python := example_python)
              Examples.unsorted 0%nat h [0; 1]%nat 1%nat
              (Examples.key_at 1 0 (Examples.slots "0" "" "1" "" ""))
              ltac:(vm_compute; reflexivity))
    as (_ & Hraise & _).
  - set_solver.
  - reflexivity.
  - intros rc. vm_compute. discriminate.
  - split; [|vm_compute; reflexivity].
    destruct (Hraise _ _ _ _ _ Hcopy Hchoose) as (e & _ & He & _ & Hrun).
    + intros k Hk. repeat (apply elem_of_cons in Hk as [->|Hk]; [reflexivity|]).
      by apply elem_of_nil in Hk.
    + intros n g. simpl. unfold d. destruct (decide (n = 0)) as [->|].
      * rewrite lookup_singleton_eq. intros [= <-]. exists 0, [2%nat]. split; reflexivity.
      * rewrite lookup_singleton_ne by done. discriminate.
    + rewrite Hrun, He; [reflexivity|].
      intros k Hk. repeat (apply elem_of_cons in Hk as [->|Hk]; [vm_compute; discriminate|]).
      by apply elem_of_nil in Hk.
Defined.

(** The same keyboard with ['²'] in slot 9 and ['1'] in slot 11 of the second
    key: both labels are numeric, [int] cannot convert the first, and default
    synthesis raises ValueError.  With the Arabic-Indic digit three in slot 9
    the key has the matrix position (3, 1) and default synthesis returns. *)
Lemma default_layout_numeric_labels :
  let h l9 := Examples.board [Examples.key_at 0 0 (Examples.slots "0" "" "0" "0" "0");
                              Examples.key_at 1 0 (Examples.slots "0" "" "1" l9 "1")] in
  isnumeric "²" = true /\
  (get_layout_all Examples.unsorted 0%nat (h "²"%string)).1 = Err ValueError /\
  extract_row_col (Examples.key_at 1 0 (Examples.slots "0" "" "1" "٣" "1")) = Ok (3, 1) /\
  (get_layout_all Examples.unsorted 0%nat (h "٣"%string)).1 = Ok 1%nat.
Proof. split_and!; vm_compute; reflexivity. Qed.

(** C10 as stated fails.  A single multilayout key, of value 1 in group 0,
    with no matrix labels: all values have the same number of keys, so value
    0 is chosen, and the reconciliation loop raises KeyError when it looks
    for the keys of value 0, before it reads any matrix label. *)
Lemma default_layout_other_error :
  let key := Examples.key_at 0 0 (Examples.slots "0" "" "1" "" "") in
  let h := Examples.board [key] in
  get_multilayout_keys h 0%nat = Ok [0%nat] /\
  extract_row_col key = Err MalformedMatrixLabel /\
  (get_layout_all Examples.unsorted 0%nat h).1 = Err KeyError.
Proof. split_and!; vm_compute; reflexivity. Qed.

(** A key with a label and matrix labels, the row written with the
    Arabic-Indic digit three, a decal, and a wide key at a position that is
    not whole and without matrix labels. *)
Lemma convert_key_list_to_layout_records_witness :
  let labelled l0 l9 l11 := [l0; ""; ""; ""; ""; ""; ""; ""; ""; l9; ""; l11]%string in
  let k0 := Key.mk (Coord.of_Z 0) (Coord.of_Z 0) (Coord.of_Z 1) (Coord.of_Z 1)
                   (Coord.of_Z 0) (Coord.of_Z 0) (Coord.of_Z 0) (labelled "Esc" "٣" "1") false in
  let k1 := Key.mk (Coord.of_Z 1) (Coord.of_Z 0) (Coord.of_Z 1) (Coord.of_Z 1)
                   (Coord.of_Z 0) (Coord.of_Z 0) (Coord.of_Z 0) (labelled "" "" "") true in
  let k2 := Key.mk (Q2Qc (3 # 2)) (Coord.of_Z 1) (Coord.of_Z 2) (Coord.of_Z 1)
                   (Coord.of_Z 0) (Coord.of_Z 0) (Coord.of_Z 0) (labelled "" "" "7") false in
  let h := mkHeap [k0; k1; k2] [] in
  exists out,
    convert_key_list_to_layout h [0; 1; 2]%nat = Ok out /\
    out = record_of <$> visible_keys h [0; 1; 2]%nat /\
    (fun e : odict => e.*1) <$> out = [["label"; "x"; "y"; "matrix"]; ["x"; "y"; "w"]]%string /\
    (fun e : odict => od_get e "matrix") <$> out = [Some (VList [3; 1]); None].
Proof.
  intros labelled k0 k1 k2 h.
  destruct (convert_key_list_to_layout h [0; 1; 2]%nat) as [out|e] eqn:Hrun;
    [|vm_compute in Hrun; discriminate].
  exists out. split; [done|].
  pose proof (convert_key_list_to_layout_records (python := example_python) _ _ _ Hrun) as Hout.
  split; [exact Hout|]. rewrite Hout. split; vm_compute; reflexivity.
Defined.

(** A key whose matrix labels are ['²'] and ['1']: both are numeric, so the
    matrix position is asked for, and [int] cannot convert the first. *)
Lemma convert_key_list_to_layout_numeric_label :
  let k := Examples.key_at 0 0 (Examples.slots "" "" "" "²" "1") in
  convertible k = true /\ decodable k = false /\
  convert_key_list_to_layout (mkHeap [k] []) [0%nat] = Err ValueError.
Proof. split_and!; vm_compute; reflexivity. Qed.

Lemma convert_key_list_to_layout_positions_witness :
  let labelled l0 l9 l11 := [l0; ""; ""; ""; ""; ""; ""; ""; ""; l9; ""; l11]%string in
  let k0 := Key.mk (Q2Qc (3 # 2)) (Coord.of_Z 1) (Coord.of_Z 2) (Coord.of_Z 1)
                   (Coord.of_Z 0) (Coord.of_Z 0) (Coord.of_Z 0) (labelled "" "" "7") false in
  let h := mkHeap [k0] [] in
  exists e vx vy,
    convert_key_list_to_layout h [0%nat] = Ok [e] /\
    od_get e "x" = Some vx /\ od_get e "y" = Some vy /\
    number_of vx = Some (Q2Qc (3 # 2)) /\ vy = VInt 1.
Proof.
  intros labelled k0 h.
  destruct (convert_key_list_to_layout h [0%nat]) as [out|e] eqn:Hrun;
    [|vm_compute in Hrun; discriminate].
  pose proof (convert_key_list_to_layout_positions (python := example_python) _ _ _ Hrun) as Hpos.
  change (visible_keys h [0%nat]) with [k0] in Hpos.
  apply Forall2_cons_inv_l in Hpos as (e & out' & (vx & vy & Hx & Hy & Nx & _ & _ & Iy) & Hnil & ->).
  apply Forall2_nil_inv_l in Hnil as ->.
  exists e, vx, vy. split_and!; [done..|]. by apply Iy.
Defined.

(** A plain key, a multilayout key, and a multilayout key with the encoder
    marker. *)
Lemma get_multilayout_keys_selects_witness :
  let h := Examples.board [Examples.key_at 0 0 (Examples.slots "" "" "" "0" "0");
                           Examples.key_at 1 0 (Examples.slots "0" "" "1" "0" "1");
                           Examples.key_at 2 0 (Examples.slots "0" "e" "0" "0" "2")] in
  exists ks, kbd_keys h 0%nat = Ok ks /\
    [1; 2]%nat = filter (fun r => qualifies h r) ks.
Proof.
  intros h.
  destruct (get_multilayout_keys_selects (python := example_python) h 0%nat [1; 2]%nat ltac:(vm_compute; reflexivity)) as (ks & Hks & Hml & _).
  by exists ks.
Defined.

(** A key with a value but no index, after a key that is well labelled;
    and a key whose labels 3 and 5 are ['²'] and ['0'], both numeric, the
    first one no string that [int] converts. *)
Lemma get_multilayout_keys_outcome_witness :
  let h := Examples.board [Examples.key_at 0 0 (Examples.slots "0" "" "0" "0" "0");
                           Examples.key_at 1 0 (Examples.slots "1" "" "" "0" "1")] in
  let h' := Examples.board [Examples.key_at 0 0 (Examples.slots "²" "" "0" "0" "0")] in
  get_multilayout_keys h 0%nat = Err MalformedMultilayoutLabel /\
  get_multilayout_keys h' 0%nat = Err ValueError.
Proof.
  intros h h'. split.
  - rewrite (get_multilayout_keys_outcome (python := example_python) h 0%nat [0; 1]%nat
               ltac:(vm_compute; reflexivity)); [vm_compute; reflexivity|].
    intros r Hr. apply list_elem_of_In in Hr.
    destruct Hr as [<-|[<-|[]]]; eexists; (split; [reflexivity|simpl; lia]).
  - rewrite (get_multilayout_keys_outcome (python := example_python) h' 0%nat [0%nat]
               ltac:(vm_compute; reflexivity)); [vm_compute; reflexivity|].
    intros r Hr. apply list_elem_of_In in Hr.
    destruct Hr as [<-|[]]; eexists; (split; [reflexivity|simpl; lia]).
Defined.

(** A plain key and the two alternatives of group 0; the second alternative
    is selected. *)
Lemma get_specific_layout_keys_witness :
  let h := Examples.board [Examples.key_at 0 0 (Examples.slots "" "" "" "0" "0");
                           Examples.key_at 1 0 (Examples.slots "0" "" "0" "0" "1");
                           Examples.key_at 3 0 (Examples.slots "0" "" "1" "0" "1")] in
  exists l h',
    get_specific_layout Examples.unsorted 0%nat [1] h = (Ok l, h') /\
    2%nat ∈ l /\ 1%nat ∉ l.
Proof.
  intros h.
  destruct (get_specific_layout Examples.unsorted 0%nat [1] h) as [[l|e] h'] eqn:Hrun;
    [|vm_compute in Hrun; discriminate].
  pose proof (get_specific_layout_keys (python := example_python) Examples.unsorted unsorted_permutation
                0%nat [1] h l h' [0; 1; 2]%nat Hrun ltac:(vm_compute; reflexivity)) as Hmem.
  exists l, h'. split_and!; [done| |].
  - apply Hmem. split; [set_solver|]. right. by exists 0%nat, 1.
  - intros [_ [[Hq _]|(i & v & Hv & Hland)]]%Hmem; [by vm_compute in Hq|].
    destruct i as [|i]; [|done]. injection Hv as <-. by vm_compute in Hland.
Defined.

Lemma get_specific_layout_NoDup_witness :
  let h := Examples.board [Examples.key_at 0 0 (Examples.slots "" "" "" "0" "0");
                           Examples.key_at 1 0 (Examples.slots "0" "" "0" "0" "1");
                           Examples.key_at 3 0 (Examples.slots "0" "" "1" "0" "1")] in
  exists l h', get_specific_layout Examples.unsorted 0%nat [1] h = (Ok l, h') /\ NoDup l.
Proof.
  intros h.
  destruct (get_specific_layout Examples.unsorted 0%nat [1] h) as [[l|e] h'] eqn:Hrun;
    [|vm_compute in Hrun; discriminate].
  exists l, h'. split; [done|].
  apply (get_specific_layout_NoDup (python := example_python) Examples.unsorted unsorted_permutation
           0%nat [1] h l h' [0; 1; 2]%nat Hrun ltac:(vm_compute; reflexivity)).
  repeat constructor; set_solver.
Defined.

(** A list that names key 0 twice and key 1 once. *)
Lemma normalize_moves_witness :
  let h := Examples.board [Examples.key_at 2 1 (Examples.slots "" "" "" "" "");
                           Examples.key_at 5 3 (Examples.slots "" "" "" "" "")] in
  exists h',
    normalize [0; 1; 0]%nat h = (Ok tt, h') /\
    Examples.view h' [0; 1]%nat =
      [Some ((-2)%Q, (-1)%Q, Examples.slots "" "" "" "" "");
       Some (3%Q, 2%Q, Examples.slots "" "" "" "" "")].
Proof.
  intros h.
  destruct (normalize [0; 1; 0]%nat h) as [[[]|e] h'] eqn:Hrun;
    [|vm_compute in Hrun; discriminate].
  exists h'. split; [done|].
  destruct (normalize_moves _ _ _ Hrun) as (off & Hoff & _ & Hkeys).
  vm_compute in Hoff. injection Hoff as <-.
  unfold Examples.view, Examples.shown. simpl. rewrite !Hkeys. reflexivity.
Defined.

(** A plain key and the two alternatives of group 0, none of them at the
    top left; the second alternative is selected. *)
Lemma get_specific_layout_aligned_witness :
  let h := Examples.board [Examples.key_at 2 1 (Examples.slots "" "" "" "0" "0");
                           Examples.key_at 3 1 (Examples.slots "0" "" "0" "0" "1");
                           Examples.key_at 5 2 (Examples.slots "0" "" "1" "0" "1")] in
  exists l h',
    get_specific_layout Examples.unsorted 0%nat [1] h = (Ok l, h') /\
    (forall r, r ∈ l ->
       exists key', get_key h' r = Ok key' /\ (0 <= Key.x key')%Qc /\ (0 <= Key.y key')%Qc) /\
    (exists r key', r ∈ l /\ get_key h' r = Ok key' /\ Key.x key' = 0%Qc).
Proof.
  intros h.
  destruct (get_specific_layout Examples.unsorted 0%nat [1] h) as [[l|e] h'] eqn:Hrun;
    [|vm_compute in Hrun; discriminate].
  destruct (get_specific_layout_aligned (python := example_python) Examples.unsorted unsorted_permutation
              0%nat [1] h l h' [0; 1; 2]%nat Hrun ltac:(vm_compute; reflexivity)) as (Hall & Hx & _).
  { repeat constructor; set_solver. }
  by exists l, h'.
Defined.

(** One group with two values, and a selection of two entries. *)
Lemma rejected_selection_moves_nothing_witness :
  let h := Examples.board [Examples.key_at 1 1 (Examples.slots "0" "" "0" "0" "0");
                           Examples.key_at 3 1 (Examples.slots "0" "" "1" "0" "1")] in
  exists h', get_specific_layout Examples.unsorted 0%nat [1; 0] h = (Err SelectionArityMismatch, h')
             /\ h' = h.
Proof.
  intros h.
  destruct (get_specific_layout Examples.unsorted 0%nat [1; 0] h) as [[l|e] h'] eqn:Hrun;
    [vm_compute in Hrun; discriminate|].
  assert (e = SelectionArityMismatch) as ->.
  { vm_compute in Hrun. by injection Hrun as <- _. }
  exists h'. split; [done|].
  apply (rejected_selection_moves_nothing (python := example_python) _ _ _ _ _ _ Hrun). by left.
Defined.

(** The default selection and the alternative, one after the other. *)
Lemma get_alternate_layouts_entries_witness :
  let h := Examples.board [Examples.key_at 1 1 (Examples.slots "0" "" "0" "0" "0");
                           Examples.key_at 3 1 (Examples.slots "0" "" "1" "0" "1")] in
  exists out h',
    get_alternate_layouts Examples.unsorted 0%nat
      [("LAYOUT_default"%string, [0]); ("LAYOUT_split"%string, [1])] h = (Ok out, h')
    /\ out.*1 = ["LAYOUT_default"; "LAYOUT_split"]%string
    /\ kbd_objs h' = kbd_objs h.
Proof.
  intros h.
  destruct (get_alternate_layouts Examples.unsorted 0%nat
              [("LAYOUT_default"%string, [0]); ("LAYOUT_split"%string, [1])] h)
    as [[out|e] h'] eqn:Hrun; [|vm_compute in Hrun; discriminate].
  destruct (get_alternate_layouts_entries (python := example_python) Examples.unsorted unsorted_permutation
              _ _ _ _ _ [0; 1]%nat Hrun ltac:(vm_compute; reflexivity)) as [[Hk _] Hout].
  exists out, h'. split_and!; [done| |done].
  specialize (Hout out ltac:(vm_compute; reflexivity)).
  apply Forall2_cons_inv_l in Hout as (e1 & out1 & [N1 _] & Hout & ->).
  apply Forall2_cons_inv_l in Hout as (e2 & out2 & [N2 _] & Hout & ->).
  apply Forall2_nil_inv_l in Hout as ->. simpl. by rewrite N1, N2.
Defined.

Lemma get_specific_layout_moves_only_witness :
  let h := Examples.board [Examples.key_at 1 1 (Examples.slots "0" "" "0" "0" "0");
                           Examples.key_at 3 1 (Examples.slots "0" "" "1" "0" "1")] in
  exists l h',
    get_specific_layout Examples.unsorted 0%nat [1] h = (Ok l, h') /\
    moved_only h h' /\ key_objs h' !! 0%nat = key_objs h !! 0%nat.
Proof.
  intros h.
  destruct (get_specific_layout Examples.unsorted 0%nat [1] h) as [[l|e] h'] eqn:Hrun;
    [|vm_compute in Hrun; discriminate].
  destruct (get_specific_layout_moves_only (python := example_python) Examples.unsorted unsorted_permutation
              _ _ _ _ _ Hrun) as [Hm Hrest].
  exists l, h'. split_and!; [done..|]. apply (Hrest l ltac:(vm_compute; reflexivity)).
  vm_compute in Hrun. injection Hrun as <- _. set_solver.
Defined.

(** The two alternatives of group 0; the second one is selected. *)
Lemma resolved_selection_fits_witness :
  let h := Examples.board [Examples.key_at 1 1 (Examples.slots "0" "" "0" "0" "0");
                           Examples.key_at 3 1 (Examples.slots "0" "" "1" "0" "1")] in
  exists l h',
    get_specific_layout Examples.unsorted 0%nat [1] h = (Ok l, h') /\
    (exists r, r ∈ [0; 1]%nat /\ lands_in h 0 1 r = true) /\
    (exists r, r ∈ [0; 1]%nat /\ lands_in h 0 0 r = true).
Proof.
  intros h.
  destruct (get_specific_layout Examples.unsorted 0%nat [1] h) as [[l|e] h'] eqn:Hrun;
    [|vm_compute in Hrun; discriminate].
  destruct (resolved_selection_fits (python := example_python) Examples.unsorted 0%nat [1] h l h' [0; 1]%nat Hrun ltac:(vm_compute; reflexivity))
    as [_ Hsel].
  destruct (Hsel 0%nat 1 ltac:(vm_compute; reflexivity)) as [H1 H0].
  exists l, h'. split_and!; [done|exact H1|by apply H0].
Defined.

(** Group 0 with values 0 and 1, and group 1 with value 0. *)
Lemma grouping_counts_labels_witness :
  let h := Examples.board [Examples.key_at 0 0 (Examples.slots "0" "" "0" "0" "0");
                           Examples.key_at 2 0 (Examples.slots "0" "" "1" "0" "1");
                           Examples.key_at 3 0 (Examples.slots "1" "" "0" "0" "2")] in
  exists d, group_keys h [0; 1; 2]%nat [0; 1; 2]%nat = Ok d /\
            is_Some (d !! 1) /\ ~ is_Some (d !! 2).
Proof.
  intros h.
  destruct (group_keys h [0; 1; 2]%nat [0; 1; 2]%nat) as [d|e] eqn:Hd;
    [|vm_compute in Hd; discriminate].
  destruct (grouping_counts_labels (python := example_python) _ _ _ _ Hd) as [Hgroups _].
  exists d. split_and!; [done| |].
  - apply Hgroups. exists 2%nat, 0. split; [set_solver|reflexivity].
  - intros (r & v & Hr & Hland)%Hgroups.
    apply lands_in_slots in Hland as (key & l3 & l5 & Hk & _ & H3 & _ & _ & _ & Hn & _).
    apply list_elem_of_In in Hr. simpl in Hr.
    destruct Hr as [<-|[<-|[<-|[]]]]; injection Hk as <-; injection H3 as <-;
      vm_compute in Hn; discriminate.
Defined.

(** The two alternatives of group 0; the second one is selected. *)
Lemma get_specific_layout_returns_witness :
  let h := Examples.board [Examples.key_at 1 1 (Examples.slots "0" "" "0" "0" "0");
                           Examples.key_at 3 1 (Examples.slots "0" "" "1" "0" "1")] in
  exists l h', get_specific_layout Examples.unsorted 0%nat [1] h = (Ok l, h').
Proof.
  intros h.
  destruct (group_keys h [0; 1]%nat [0; 1]%nat) as [d|e] eqn:Hd;
    [|vm_compute in Hd; discriminate].
  apply (get_specific_layout_returns (python := example_python) Examples.unsorted 0%nat [1] h
           [0; 1]%nat [0; 1]%nat [] d); [reflexivity..|exact Hd| | | |].
  - vm_compute in Hd. injection Hd as <-. reflexivity.
  - vm_compute in Hd. injection Hd as <-. reflexivity.
  - intros i v Hv. destruct i as [|i]; [|done]. injection Hv as <-.
    vm_compute in Hd. injection Hd as <-. split; [done|]. intros _. done.
  - by right.
Defined.

(** Group 0 with one key of value 0 and two keys of value 1. *)
Lemma recorded_values_well_chosen_witness :
  let h := Examples.board [Examples.key_at 0 0 (Examples.slots "0" "" "0" "0" "0");
                           Examples.key_at 2 0 (Examples.slots "0" "" "1" "0" "0");
                           Examples.key_at 3 0 (Examples.slots "0" "" "1" "0" "1")] in
  exists keys st h' g m,
    choose_keys 0%nat h = (Ok (keys, st), h') /\ st.1 !! 0 = Some g /\
    buckets g !! 1 = Some [1; 2]%nat /\ g_max g = Some m /\
    if all_same_length g then m = 0 else has_most_keys g m.
Proof.
  intros h.
  destruct (choose_keys 0%nat h) as [[[keys st]|e] h'] eqn:Hrun;
    [|vm_compute in Hrun; discriminate].
  assert (exists g, st.1 !! 0 = Some g /\ buckets g !! 1 = Some [1; 2]%nat) as (g & Hg & Hb1).
  { vm_compute in Hrun. injection Hrun as _ <- _. eexists. split; reflexivity. }
  destruct (recorded_values_well_chosen (python := example_python) _ _ _ _ _ Hrun 0 g Hg) as (m & Hm & Hwc).
  by exists keys, st, h', g, m.
Defined.

Lemma chosen_keys_have_recorded_value_witness :
  let h := Examples.board [Examples.key_at 0 0 (Examples.slots "0" "" "0" "0" "0");
                           Examples.key_at 2 0 (Examples.slots "0" "" "1" "0" "0");
                           Examples.key_at 3 0 (Examples.slots "0" "" "1" "0" "1")] in
  exists keys st h' chosen,
    choose_keys 0%nat h = (Ok (keys, st), h') /\ st.2 = [] ++ chosen /\
    forall r, r ∈ chosen -> r ∈ keys.
Proof.
  intros h.
  destruct (choose_keys 0%nat h) as [[[keys st]|e] h'] eqn:Hrun;
    [|vm_compute in Hrun; discriminate].
  destruct (chosen_keys_have_recorded_value (python := example_python) _ _ _ _ _ Hrun)
    as (ml_keys & ks & q & chosen & Hml & Hks & Hq & Hkeys & Hst & Hin & _).
  injection Hks as <-. injection Hml as <-.
  assert (q = []) as -> by (vm_compute in Hq; by injection Hq as <-).
  exists keys, st, h', chosen. split_and!; [done..|]. intros r Hr. by apply Hin.
Defined.

(** A plain key and the two alternatives of group 0; the second alternative
    is selected and moved to where the first one is. *)
Lemma get_specific_layout_positions_witness :
  let h := Examples.board [Examples.key_at 2 1 (Examples.slots "" "" "" "0" "0");
                           Examples.key_at 3 1 (Examples.slots "0" "" "0" "0" "1");
                           Examples.key_at 5 2 (Examples.slots "0" "" "1" "0" "1")] in
  exists l h' d m key placed,
    get_specific_layout Examples.unsorted 0%nat [1] h = (Ok l, h') /\
    group_keys h [0; 1; 2]%nat [1; 2]%nat = Ok d /\
    get_key h 2%nat = Ok key /\ get_key h' 2%nat = Ok (rebase_key placed m) /\
    exists off, offset_of h d 0 1 = Ok off /\ placed = shift_key key off.
Proof.
  intros h.
  destruct (get_specific_layout Examples.unsorted 0%nat [1] h) as [[l|e] h'] eqn:Hrun;
    [|vm_compute in Hrun; discriminate].
  destruct (group_keys h [0; 1; 2]%nat [1; 2]%nat) as [d|e] eqn:Hd;
    [|vm_compute in Hd; discriminate].
  destruct (get_specific_layout_positions (python := example_python) Examples.unsorted unsorted_permutation
              0%nat [1] h l h' [0; 1; 2]%nat [1; 2]%nat d Hrun ltac:(vm_compute; reflexivity)) as (m & Hpos);
    [repeat constructor; set_solver|reflexivity|exact Hd|].
  destruct (Hpos 2%nat) as (key & placed & Hk & Hk' & _ & Hoff).
  { vm_compute in Hrun. injection Hrun as <- _. set_solver. }
  exists l, h', d, m, key, placed. split_and!; [done..|].
  apply (Hoff 0%nat 1 ltac:(vm_compute; reflexivity)); [done|].
  vm_compute in Hd. injection Hd as <-. set_solver.
Defined.

(** A group with a key of value 0 and two keys of value 1. *)
Lemma default_layout_needs_value_0_witness :
  let h := Examples.board [Examples.key_at 0 0 (Examples.slots "0" "" "0" "0" "0");
                           Examples.key_at 2 0 (Examples.slots "0" "" "1" "0" "0");
                           Examples.key_at 3 0 (Examples.slots "0" "" "1" "0" "1")] in
  exists kbd' h',
    get_layout_all Examples.unsorted 0%nat h = (Ok kbd', h') /\
    exists r0, r0 ∈ [0; 1; 2]%nat /\ lands_in h 0 0 r0 = true.
Proof.
  intros h.
  destruct (get_layout_all Examples.unsorted 0%nat h) as [[kbd'|e] h'] eqn:Hrun;
    [|vm_compute in Hrun; discriminate].
  exists kbd', h'. split; [done|].
  apply (default_layout_needs_value_0 (python := example_python) Examples.unsorted 0%nat h kbd' h' [0; 1; 2]%nat
           Hrun ltac:(vm_compute; reflexivity)) with (r := 2%nat) (v := 1); [|set_solver|reflexivity].
  intros r Hr. apply lookup_lt_is_Some. simpl.
  apply list_elem_of_In in Hr. simpl in Hr. lia.
Defined.

(** A plain key and the two alternatives of group 0, none at the top left. *)
Lemma default_selection_idempotent_witness :
  let h := Examples.board [Examples.key_at 2 1 (Examples.slots "" "" "" "0" "0");
                           Examples.key_at 3 1 (Examples.slots "0" "" "0" "0" "1");
                           Examples.key_at 5 2 (Examples.slots "0" "" "1" "0" "1")] in
  exists l h',
    get_specific_layout Examples.unsorted 0%nat [0] h = (Ok l, h') /\
    get_specific_layout Examples.unsorted 0%nat [0] h' = (Ok l, h').
Proof.
  intros h.
  destruct (get_specific_layout Examples.unsorted 0%nat [0] h) as [[l|e] h'] eqn:Hrun;
    [|vm_compute in Hrun; discriminate].
  exists l, h'. split; [done|].
  apply (default_selection_idempotent (python := example_python) Examples.unsorted 0%nat [0] h l h' [0; 1; 2]%nat
           Hrun ltac:(vm_compute; reflexivity)).
  - repeat constructor; set_solver.
  - intros v Hv. set_solver.
Defined.

(** A plain key and the two alternatives of group 0. *)
Lemma default_layout_keys_are_copies_witness :
  let h := Examples.board [Examples.key_at 2 1 (Examples.slots "" "" "" "0" "0");
                           Examples.key_at 3 1 (Examples.slots "0" "" "0" "0" "1");
                           Examples.key_at 5 2 (Examples.slots "0" "" "1" "0" "1")] in
  exists kbd' h' l (copies : list ref) r',
    get_layout_all Examples.unsorted 0%nat h = (Ok kbd', h') /\
    kbd_keys h' kbd' = Ok l /\ copies !! 0%nat = Some r' /\ r' ∈ l.
Proof.
  intros h.
  destruct (get_layout_all Examples.unsorted 0%nat h) as [[kbd'|e] h'] eqn:Hrun;
    [|vm_compute in Hrun; discriminate].
  destruct (default_layout_keys_are_copies (python := example_python) Examples.unsorted unsorted_permutation
              0%nat h kbd' h' [0; 1; 2]%nat Hrun ltac:(vm_compute; reflexivity)) as (l & copies & Hl & HF & _ & Hplain).
  { intros r Hr. apply lookup_lt_is_Some. simpl.
    apply list_elem_of_In in Hr. simpl in Hr. lia. }
  apply Forall2_cons_inv_l in HF as (r' & copies' & _ & _ & ->).
  exists kbd', h', l, (r' :: copies'), r'. split_and!; [done..|].
  by apply (Hplain 0%nat 0%nat r').
Defined.

(** A full space bar at matrix position (0, 0) and a split one at (0, 0)
    and (0, 1): both positions are in the default layout. *)
Lemma default_layout_covers_matrix_witness :
  let h := Examples.board [Examples.key_at 0 0 (Examples.slots "0" "" "0" "0" "0");
                           Examples.key_at 2 0 (Examples.slots "0" "" "1" "0" "0");
                           Examples.key_at 3 0 (Examples.slots "0" "" "1" "0" "1")] in
  exists kbd' h' l r',
    get_layout_all Examples.unsorted 0%nat h = (Ok kbd', h') /\
    kbd_keys h' kbd' = Ok l /\ r' ∈ l /\
    group_of h' r' = Ok 0 /\ coord_of h' r' = Ok (0, 1).
Proof.
  intros h.
  destruct (get_layout_all Examples.unsorted 0%nat h) as [[kbd'|e] h'] eqn:Hrun;
    [|vm_compute in Hrun; discriminate].
  destruct (default_layout_covers_matrix (python := example_python) Examples.unsorted unsorted_permutation
              0%nat h kbd' h' [0; 1; 2]%nat Hrun ltac:(vm_compute; reflexivity)) with (r := 2%nat)
    as (l & n & rc & r' & Hl & Hn & Hrc & Hr' & Hn' & Hrc').
  { intros r Hr. apply lookup_lt_is_Some. simpl.
    apply list_elem_of_In in Hr. simpl in Hr. lia. }
  { set_solver. }
  { reflexivity. }
  vm_compute in Hn. injection Hn as <-. vm_compute in Hrc. injection Hrc as <-.
  by exists kbd', h', l, r'.
Defined.

(** Group 0 with two keys of value 0, both at matrix position (0, 0), and
    three keys of value 1, the chosen value, at other positions: the first
    key of value 0 is added, the second is not. *)
Lemma reconcile_appends_missing_firsts_witness :
  let h := Examples.board
             [Examples.key_at 0 0 (Examples.slots "0" "" "0" "0" "0");
              Examples.key_at 0 1 (Examples.slots "0" "" "0" "0" "0");
              Examples.key_at 0 2 (Examples.slots "0" "" "1" "0" "1");
              Examples.key_at 1 2 (Examples.slots "0" "" "1" "0" "2");
              Examples.key_at 2 2 (Examples.slots "0" "" "1" "0" "3")] in
  let d : gmap Z group :=
    {[ 0 := mkGroup {[ 0 := [0; 1]%nat; 1 := [2; 3; 4]%nat ]} None (Some 1) ]} in
  exists d',
    reconcile h [0; 1; 2; 3; 4]%nat (d, [2; 3; 4]%nat) = Ok (d', [2; 3; 4; 0]%nat) /\
    missing_firsts h d [] [0; 1; 2; 3; 4]%nat = [0%nat].
Proof.
  intros h d.
  destruct (reconcile h [0; 1; 2; 3; 4]%nat (d, [2; 3; 4]%nat)) as [[d' q']|e] eqn:Hrun;
    [|vm_compute in Hrun; discriminate].
  pose proof (reconcile_appends_missing_firsts (python := example_python) _ _ _ _ _ _ Hrun)
    as Hq.
  assert (Hm : missing_firsts h d [] [0; 1; 2; 3; 4]%nat = [0%nat]) by (vm_compute; reflexivity).
  exists d'. rewrite Hq, Hm. split; reflexivity.
Defined.

(** A key of value 0 and two keys of value 1, the chosen value, at other
    matrix positions: the reconciliation loop appends the copy of the key of
    value 0 (reference 3), which is as the copy made it. *)
Lemma default_layout_reconciles_unmoved_keys_witness :
  let h := Examples.board
             [Examples.key_at 3 0 (Examples.slots "0" "" "0" "0" "0");
              Examples.key_at 5 0 (Examples.slots "0" "" "1" "0" "1");
              Examples.key_at 6 0 (Examples.slots "0" "" "1" "0" "2")] in
  exists h1 keys d q h2 d' q',
    deepcopy 0%nat h = (Ok 1%nat, h1) /\
    choose_keys 1%nat h1 = (Ok (keys, (d, q)), h2) /\
    reconcile h2 keys (d, q) = Ok (d', q') /\
    q = [4; 5]%nat /\ q' = [4; 5; 3]%nat /\
    key_objs h2 !! 3%nat = key_objs h1 !! 3%nat.
Proof.
  intros h.
  destruct (get_layout_all Examples.unsorted 0%nat h) as [[kbd'|e] h'] eqn:Hrun;
    [|vm_compute in Hrun; discriminate].
  assert (kbd' = 1%nat) as -> by (vm_compute in Hrun; congruence).
  destruct (default_layout_reconciles_unmoved_keys (python := example_python) _ _ _ _ _ Hrun)
    as (h1 & keys & d & q & h2 & d' & q' & extra & Hcopy & Hchoose & Hrec & Hq' & Hsame).
  assert (Hh1 : h1 = (deepcopy 0%nat h).2) by (by rewrite Hcopy).
  assert (Hch : (keys, (d, q), h2) =
                match choose_keys 1%nat h1 with (Ok x, y) => (x, y) | _ => (keys, (d, q), h2) end)
    by (by rewrite Hchoose).
  exists h1, keys, d, q, h2, d', q'. split_and!; [exact Hcopy|exact Hchoose|exact Hrec| | |].
  - rewrite Hh1 in Hch. vm_compute in Hch. congruence.
  - rewrite Hh1 in Hch. vm_compute in Hch. injection Hch as -> -> -> ->.
    vm_compute in Hrec. congruence.
  - apply Hsame.
    + rewrite Hh1 in Hch. vm_compute in Hch. injection Hch as -> -> -> ->.
      vm_compute in Hrec. injection Hrec as _ <-.
      apply (app_inv_head [4; 5]%nat) in Hq' as <-. by left.
    + rewrite Hh1. vm_compute. reflexivity.
Defined.
